(** * Family Investment Ledger: the lot rebuild engine

    A shallow embedding of [rebuildLots] (src/Code.js, lines 3-332) and the
    properties of it that the specification states, followed by the
    functions that derive the XIRR cash flows, the realized gains, the tax
    summary, the cash balances, the foreign-income exposure and the
    holdings check (src/Code.js, lines 337-599 and 721-757; src/Helpers.js,
    lines 117-125), by the line reader of the CSV import
    (src/csv-to-json.js, lines 55-92) and the column letters
    (src/Helpers.js, lines 128-137), and properties of these.

    Conventions of the embedding.
    - A JavaScript number is a value of [num]: an exact rational, or one of
      the three exceptional values NaN, +Infinity, -Infinity.  Arithmetic
      on finite values is exact (binary64 rounding is not modelled, and
      there is a single zero); the exceptional values follow IEEE 754 as
      JavaScript has it: x/0 is an infinity or NaN, comparisons with NaN
      are false, and so on.  The properties of amounts are therefore
      stated through the operations that the program performs ([a - b],
      [a * (b / c)], [min]) and through comparisons, which rounding keeps,
      and not through totals that add up only without rounding; where
      rounding decides, the lines of the program are computed in binary64
      ([reorgCosts64]).
    - An object that is used as a map from strings ([secs], [tax],
      [accounts]) is a [gmap] of its own properties.  [obj[k]] for a name
      [k] that is not among them is [undefined], unless [k] names a member
      that every object inherits ([inherited]: constructor, toString,
      ...): then it is that member, which is truthy and has none of the
      columns of a row.  A cell that may be [undefined] is an [option].
    - A numeric cell of an input row holds the value that [Number(cell)]
      yields, hence NaN for a cell that is not numeric.
    - A date cell holds the time value that [new Date(cell)] yields:
      [Some ms], or [None] for an invalid date (whose time value is NaN).
    - Identifiers are strings, compared with [===].
    - [lot.BuyFXRate ?? v] is [lot.BuyFXRate]: the field always holds a
      number, which is never null or undefined.
    - The array [lots] is a list; a reference to a lot object is its index
      in that list.  Lots are only ever appended, so an index stays valid
      (the [None] case of a lookup through a reference is never reached).
    - A thrown exception is the [Throw] case of [result].
    - A table that one function writes and another reads is passed on as
      it is; a cell that was [undefined] is read back as [undefined], as
      with the JSON files of the local mode. *)

From Stdlib Require Import QArith Qcanon Qround Lqa Ascii Floats.
From stdpp Require Import base numbers list sorting strings gmap pretty.

Set Default Proof Using "Type".

(** ** JavaScript numbers *)

Inductive num : Type :=
  | Fin (q : Qc)
  | PInf
  | NInf
  | NaN.

Declare Scope num_scope.
Delimit Scope num_scope with num.
Bind Scope num_scope with num.

#[global] Instance num_eq_dec : EqDecision num.
Proof. solve_decision. Defined.

Definition of_Z (z : Z) : num := Fin (Qc_of_Z z).

(** The sign of a number: [Gt] positive, [Lt] negative, [Eq] zero (or NaN). *)
Definition nsign (x : num) : comparison :=
  match x with
  | Fin q => (q ?= Qc_of_Z 0)%Qc
  | PInf => Gt
  | NInf => Lt
  | NaN => Eq
  end.

Definition sign_mul (a b : comparison) : comparison :=
  match a, b with
  | Eq, _ | _, Eq => Eq
  | Gt, Gt | Lt, Lt => Gt
  | _, _ => Lt
  end.

(** An infinity of the given sign; a product or quotient whose sign is
    undetermined (infinity times zero, zero over zero) is NaN. *)
Definition inf_signed (c : comparison) : num :=
  match c with Gt => PInf | Lt => NInf | Eq => NaN end.

Definition nneg (x : num) : num :=
  match x with
  | Fin q => Fin (- q)%Qc
  | PInf => NInf
  | NInf => PInf
  | NaN => NaN
  end.

Definition nadd (x y : num) : num :=
  match x, y with
  | NaN, _ | _, NaN => NaN
  | Fin a, Fin b => Fin (a + b)%Qc
  | PInf, NInf | NInf, PInf => NaN
  | PInf, _ | _, PInf => PInf
  | NInf, _ | _, NInf => NInf
  end.

Definition nsub (x y : num) : num := nadd x (nneg y).

Definition nmul (x y : num) : num :=
  match x, y with
  | NaN, _ | _, NaN => NaN
  | Fin a, Fin b => Fin (a * b)%Qc
  | _, _ => inf_signed (sign_mul (nsign x) (nsign y))
  end.

Definition ndiv (x y : num) : num :=
  match x, y with
  | NaN, _ | _, NaN => NaN
  | Fin a, Fin b =>
      if decide (b = Qc_of_Z 0) then inf_signed (nsign x) else Fin (a / b)%Qc
  | Fin _, _ => Fin (Qc_of_Z 0)
  | _, Fin b =>
      inf_signed (sign_mul (nsign x)
                    (if decide (b = Qc_of_Z 0) then Gt else nsign y))
  | _, _ => NaN
  end.

(** [x < y] and [x <= y]; [x > y] is [nlt y x]. *)
Definition nlt (x y : num) : bool :=
  match x, y with
  | Fin a, Fin b => bool_decide (a < b)%Qc
  | Fin _, PInf | NInf, Fin _ | NInf, PInf => true
  | _, _ => false
  end.

Definition nle (x y : num) : bool :=
  match x, y with
  | Fin a, Fin b => bool_decide (a <= b)%Qc
  | Fin _, PInf | NInf, Fin _ | NInf, PInf | PInf, PInf | NInf, NInf => true
  | _, _ => false
  end.

(** [Math.min(x, y)]. *)
Definition nmin (x y : num) : num :=
  match x, y with
  | NaN, _ | _, NaN => NaN
  | _, _ => if nlt y x then y else x
  end.

(** [Math.floor(x)]. *)
Definition nfloor (x : num) : num :=
  match x with
  | Fin q => of_Z (Qfloor q)
  | _ => x
  end.

(** [x || y] on numbers: 0 and NaN are falsy. *)
Definition nor (x y : num) : num :=
  match x with
  | NaN => y
  | Fin q => if decide (q = Qc_of_Z 0) then y else x
  | _ => x
  end.

Infix "+" := nadd : num_scope.
Infix "-" := nsub : num_scope.
Infix "*" := nmul : num_scope.
Infix "/" := ndiv : num_scope.
Infix "<?" := nlt : num_scope.
Infix "<=?" := nle : num_scope.
Notation "0" := (of_Z 0) : num_scope.
Notation "1" := (of_Z 1) : num_scope.

Definition is_fin (x : num) : Prop := exists q, x = Fin q.

(** ** Dates and comparators *)

Definition date : Type := option Z.

(** [new Date(a) - new Date(b)]: NaN ([None]) when either date is invalid. *)
Definition date_sub (a b : date) : option Z :=
  match a, b with
  | Some x, Some y => Some (x - y)%Z
  | _, _ => None
  end.

(** [x || y] on integer-valued numbers. *)
Definition zor (x y : option Z) : option Z :=
  match x with
  | Some v => if (v =? 0)%Z then y else x
  | None => y
  end.

(** ** [Array.prototype.sort]

    The sort is stable (ECMAScript 2019), and a comparator result of NaN
    counts as 0.  It is modelled as a stable insertion sort; for a
    consistent comparator every stable sort returns the same array. *)

Section js_sort.
Context {A : Type} (comparefn : A -> A -> option Z).

Definition sort_gt (a b : A) : bool :=
  match comparefn a b with
  | Some v => (0 <? v)%Z
  | None => false
  end.

Fixpoint sort_insert (x : A) (l : list A) : list A :=
  match l with
  | [] => [x]
  | y :: l' => if sort_gt x y then y :: sort_insert x l' else x :: l
  end.

Fixpoint js_sort (l : list A) : list A :=
  match l with
  | [] => []
  | x :: l' => sort_insert x (js_sort l')
  end.
End js_sort.

(** ** Exceptions *)

Inductive exn : Type :=
  | TypeError.

Inductive result (A : Type) : Type :=
  | Ok (a : A)
  | Throw (e : exn).
Arguments Ok {A} a.
Arguments Throw {A} e.

Definition bind {A B : Type} (r : result A) (k : A -> result B) : result B :=
  match r with
  | Ok a => k a
  | Throw e => Throw e
  end.

Notation "'let*' x ':=' r 'in' k" := (bind r (fun x => k))
  (at level 10, x name, r at level 100, k at level 200).

(** ** The tables *)

Module Sec.
Record t : Type := mk {
  SecurityId : string;
  AssetId : string
}.
End Sec.

(** A row of Trades or of LotActions.  The record has the columns of both
    tables, since the rules read [e.Data] without regard to the table it
    came from.  A field of a column that the row's table lacks holds what
    reading the absent property yields: NaN after [Number], an invalid
    date after [new Date]. *)
Module Row.
Record t : Type := mk {
  TradeId : string;
  TradeDate : date;
  Side : string;
  ActionDate : date;
  ActionType : string;
  OwnerId : string;
  BrokerId : string;
  AccountId : string;
  OwnerFromId : string;
  OwnerToId : string;
  BrokerToId : string;
  AccountToId : string;
  SecurityId : string;
  SecurityToId : string;
  Quantity : num;
  Price : num;
  FXRateToINR : num;
  SplitNumerator : num;
  SplitDenominator : num
}.
End Row.

Module Lot.
Local Open Scope num_scope.

Record t : Type := mk {
  LotId : string;
  OwnerId : string;
  SecurityId : string;
  AssetId : option string;
  BuyDate : date;
  OpenQty : num;
  CostNative : num;
  CostPriceNative : num;
  CostINR : num;
  BuyFXRate : num;
  BrokerId : string;
  AccountId : string
}.

(** [lot.OpenQty -= q; lot.CostNative -= cn; lot.CostINR -= ci] *)
Definition reduce (l : t) (q cn ci : num) : t :=
  mk (LotId l) (OwnerId l) (SecurityId l) (AssetId l) (BuyDate l)
     (OpenQty l - q) (CostNative l - cn) (CostPriceNative l)
     (CostINR l - ci) (BuyFXRate l) (BrokerId l) (AccountId l).

(** [lot.OwnerId = o; lot.BrokerId = b; lot.AccountId = a] *)
Definition move (l : t) (o b a : string) : t :=
  mk (LotId l) o (SecurityId l) (AssetId l) (BuyDate l)
     (OpenQty l) (CostNative l) (CostPriceNative l)
     (CostINR l) (BuyFXRate l) b a.

(** [l.OpenQty *= factor; l.CostPriceNative /= factor] *)
Definition split (l : t) (factor : num) : t :=
  mk (LotId l) (OwnerId l) (SecurityId l) (AssetId l) (BuyDate l)
     (OpenQty l * factor) (CostNative l) (CostPriceNative l / factor)
     (CostINR l) (BuyFXRate l) (BrokerId l) (AccountId l).

(** The four assignments of the MERGER rule, in source order. *)
Definition merge (l : t) (toSec : string) (toAssetId : option string)
    (newQty : num) : t :=
  mk (LotId l) (OwnerId l) toSec toAssetId (BuyDate l)
     newQty (CostNative l) (CostNative l / newQty)
     (CostINR l) (BuyFXRate l) (BrokerId l) (AccountId l).

(** The three assignments that end the CLASS_REORG rule. *)
Definition reorg (l : t) (costRatioOriginal : num) : t :=
  let cn := CostNative l * costRatioOriginal in
  mk (LotId l) (OwnerId l) (SecurityId l) (AssetId l) (BuyDate l)
     (OpenQty l) cn
     (if 0 <? OpenQty l then cn / OpenQty l else 0)
     (CostINR l * costRatioOriginal) (BuyFXRate l) (BrokerId l)
     (AccountId l).
End Lot.

Module Consume.
Record t : Type := mk {
  ConsumeId : string;
  TradeId : string;
  OwnerId : string;
  SecurityId : string;
  AssetId : option string;
  LotId : string;
  BuyDate : date;
  SellDate : date;
  Quantity : num;
  CostNative : num;
  CostPriceNative : num;
  CostINR : num;
  CostFXRate : num;
  SalePriceNative : num;
  SaleFXRate : num;
  ProceedsNative : num;
  ProceedsINR : num
}.
End Consume.

#[global] Instance Lot_eq_dec : EqDecision Lot.t.
Proof. solve_decision. Defined.
#[global] Instance Consume_eq_dec : EqDecision Consume.t.
Proof. solve_decision. Defined.

(** ** The rebuild state

    The four variables that [rebuildLots] declares with [let]. *)

Record State : Type := mkState {
  lots : list Lot.t;
  consumes : list Consume.t;
  lotSeq : nat;
  consumeSeq : nat
}.

Definition init : State := mkState [] [] 1 1.

Record Event : Type := mkEvent {
  Type_ : string;
  Date : date;
  Data : Row.t
}.

Definition set_lots (st : State) (ls : list Lot.t) : State :=
  mkState ls (consumes st) (lotSeq st) (consumeSeq st).

(** [lots.push({LotId: "LOT_" + lotSeq++, ...})]: the lot is given as a
    function of its identifier. *)
Definition push_lot (st : State) (mk : string -> Lot.t) : State :=
  mkState (lots st ++ [mk ("LOT_" +:+ pretty (lotSeq st))])
          (consumes st) (S (lotSeq st)) (consumeSeq st).

(** [consumes.push({ConsumeId: "C_" + consumeSeq++, ...})] *)
Definition push_consume (st : State) (mk : string -> Consume.t) : State :=
  mkState (lots st) (consumes st ++ [mk ("C_" +:+ pretty (consumeSeq st))])
          (lotSeq st) (S (consumeSeq st)).

(** An assignment to fields of the lot object that index [i] refers to. *)
Definition update_lot (st : State) (i : nat) (l : Lot.t) : State :=
  set_lots st (<[i := l]> (lots st)).

(** [secs = Object.fromEntries(table.map(s => [s.SecurityId, s]))]: a later
    row replaces an earlier one with the same key. *)
Definition secs_of (table : list Sec.t) : gmap string Sec.t :=
  foldl (fun m s => <[Sec.SecurityId s := s]> m) ∅ table.

(** The names of the members that every object inherits from
    [Object.prototype].  When an object has no entry of its own under such
    a name [k], [obj[k]] is not [undefined]: it is the inherited member, a
    function or (for "__proto__") the prototype itself, which is truthy and
    has none of the properties that the code goes on to read. *)
Definition inherited (k : string) : bool :=
  existsb (String.eqb k)
    ["constructor"; "__proto__"; "hasOwnProperty"; "isPrototypeOf";
     "propertyIsEnumerable"; "toLocaleString"; "toString"; "valueOf";
     "__defineGetter__"; "__defineSetter__"; "__lookupGetter__";
     "__lookupSetter__"].

(** [secs[id].AssetId]: the asset of the row, or [undefined] ([None]) when
    [secs[id]] is an inherited member; reading a property of [undefined]
    throws. *)
Definition assetId_of (secs : gmap string Sec.t) (id : string)
  : result (option string) :=
  match secs !! id with
  | Some s => Ok (Some (Sec.AssetId s))
  | None => if inherited id then Ok None else Throw TypeError
  end.

(** The lots that satisfy [keep], each with the index that refers to it. *)
Definition select (keep : Lot.t -> bool) (ls : list Lot.t)
  : list (nat * Lot.t) :=
  List.filter (fun p => keep (snd p)) (imap pair ls).

(** The comparator [(a, b) => new Date(a.BuyDate) - new Date(b.BuyDate)]. *)
Definition byBuyDate (a b : nat * Lot.t) : option Z :=
  date_sub (Lot.BuyDate (snd a)) (Lot.BuyDate (snd b)).

(** The filter of [openLotsBySecurity]:
    [l.OwnerId === owner && l.SecurityId === securityId && l.OpenQty > 0]. *)
Definition openFor (owner securityId : string) (l : Lot.t) : bool :=
  String.eqb (Lot.OwnerId l) owner
  && String.eqb (Lot.SecurityId l) securityId
  && (0 <? Lot.OpenQty l)%num.

Definition openLotsBySecurity (ls : list Lot.t) (owner securityId : string)
  : list nat :=
  map fst (js_sort byBuyDate (select (openFor owner securityId) ls)).

(** The filter of the CLASS_REORG rule:
    [l.AssetId === fromAssetId && l.SecurityId === fromSec && l.OpenQty > 0]. *)
Definition reorgSource (fromAssetId : option string) (fromSec : string)
    (l : Lot.t) : bool :=
  bool_decide (Lot.AssetId l = fromAssetId)
  && String.eqb (Lot.SecurityId l) fromSec
  && (0 <? Lot.OpenQty l)%num.

(** The test of the SPLIT, BONUS and MERGER rules:
    [l.SecurityId === securityId && l.OpenQty > 0]. *)
Definition affectedBy (securityId : string) (l : Lot.t) : bool :=
  String.eqb (Lot.SecurityId l) securityId && (0 <? Lot.OpenQty l)%num.

(** ** The event rules *)

Section rules.
Local Open Scope num_scope.
Variable secs : gmap string Sec.t.

Definition ruleBUY (d : Row.t) (st : State) : result State :=
  let qty := Row.Quantity d in
  let price := Row.Price d in
  let fx := Row.FXRateToINR d in
  let* assetId := assetId_of secs (Row.SecurityId d) in
  Ok (push_lot st (fun id =>
    {| Lot.LotId := id;
       Lot.OwnerId := Row.OwnerId d;
       Lot.SecurityId := Row.SecurityId d;
       Lot.AssetId := assetId;
       Lot.BuyDate := Row.TradeDate d;
       Lot.OpenQty := qty;
       Lot.CostNative := qty * price;
       Lot.CostPriceNative := price;
       Lot.CostINR := qty * price * fx;
       Lot.BuyFXRate := fx;
       Lot.BrokerId := Row.BrokerId d;
       Lot.AccountId := Row.AccountId d |})).

(** The lot that the CLASS_REORG rule pushes for the source lot [lot]. *)
Definition reorgNewLot (toSec : string) (toAssetId : option string)
    (qtyRatio costRatioNew : num) (lot : Lot.t) (id : string) : Lot.t :=
  let newQty := Lot.OpenQty lot * qtyRatio in
  let newCostNative := Lot.CostNative lot * costRatioNew in
  let newCostINR := Lot.CostINR lot * costRatioNew in
  {| Lot.LotId := id;
     Lot.OwnerId := Lot.OwnerId lot;
     Lot.SecurityId := toSec;
     Lot.AssetId := toAssetId;
     Lot.BuyDate := Lot.BuyDate lot;
     Lot.OpenQty := newQty;
     Lot.CostNative := newCostNative;
     Lot.CostPriceNative :=
       if 0 <? newQty then newCostNative / newQty else 0;
     Lot.CostINR := newCostINR;
     Lot.BuyFXRate := Lot.BuyFXRate lot;
     Lot.BrokerId := Lot.BrokerId lot;
     Lot.AccountId := Lot.AccountId lot |}.

(** The body of [sourceLots.forEach] in the CLASS_REORG rule. *)
Definition reorgLot (toSec : string) (toAssetId : option string)
    (qtyRatio costRatioNew costRatioOriginal : num)
    (st : State) (i : nat) : State :=
  match lots st !! i with
  | None => st
  | Some lot =>
      let st1 :=
        push_lot st (reorgNewLot toSec toAssetId qtyRatio costRatioNew lot) in
      update_lot st1 i (Lot.reorg lot costRatioOriginal)
  end.

Definition ruleCLASS_REORG (d : Row.t) (st : State) : result State :=
  let fromSec := Row.SecurityId d in
  let toSec := Row.SecurityToId d in
  let* fromAssetId := assetId_of secs fromSec in
  let* toAssetId := assetId_of secs toSec in
  let numerator := nor (Row.SplitNumerator d) 1 in
  let denominator := nor (Row.SplitDenominator d) 1 in
  let qtyRatio := numerator / denominator in
  let costRatioNew := qtyRatio / (1 + qtyRatio) in
  let costRatioOriginal := 1 - costRatioNew in
  let sourceLots :=
    map fst (select (reorgSource fromAssetId fromSec) (lots st)) in
  Ok (foldl (reorgLot toSec toAssetId qtyRatio costRatioNew
               costRatioOriginal) st sourceLots).

(** The [for (const lot of openLotsBySecurity(...))] loop of the SELL
    rule; [qty] is the quantity still to be sold. *)
Fixpoint sellLoop (d : Row.t) (assetId : option string) (salePrice saleFX : num)
    (refs : list nat) (qty : num) (st : State) : State :=
  match refs with
  | [] => st
  | i :: refs' =>
      if qty <=? 0 then st
      else match lots st !! i with
      | None => sellLoop d assetId salePrice saleFX refs' qty st
      | Some lot =>
          let used := nmin (Lot.OpenQty lot) qty in
          let frac := used / Lot.OpenQty lot in
          let costNativeUsed := Lot.CostNative lot * frac in
          let costINRUsed := Lot.CostINR lot * frac in
          let proceedsNative := used * salePrice in
          let proceedsINR := proceedsNative * saleFX in
          let st1 := push_consume st (fun id =>
            {| Consume.ConsumeId := id;
               Consume.TradeId := Row.TradeId d;
               Consume.OwnerId := Row.OwnerId d;
               Consume.SecurityId := Row.SecurityId d;
               Consume.AssetId := assetId;
               Consume.LotId := Lot.LotId lot;
               Consume.BuyDate := Lot.BuyDate lot;
               Consume.SellDate := Row.TradeDate d;
               Consume.Quantity := used;
               Consume.CostNative := costNativeUsed;
               Consume.CostPriceNative := Lot.CostPriceNative lot;
               Consume.CostINR := costINRUsed;
               Consume.CostFXRate := Lot.BuyFXRate lot;
               Consume.SalePriceNative := salePrice;
               Consume.SaleFXRate := saleFX;
               Consume.ProceedsNative := proceedsNative;
               Consume.ProceedsINR := proceedsINR |}) in
          let st2 :=
            update_lot st1 i
              (Lot.reduce lot used costNativeUsed costINRUsed) in
          sellLoop d assetId salePrice saleFX refs' (qty - used) st2
      end
  end.

Definition ruleSELL (d : Row.t) (st : State) : result State :=
  let qty := Row.Quantity d in
  let salePrice := Row.Price d in
  let saleFX := Row.FXRateToINR d in
  let* assetId := assetId_of secs (Row.SecurityId d) in
  let securityId := Row.SecurityId d in
  Ok (sellLoop d assetId salePrice saleFX
        (openLotsBySecurity (lots st) (Row.OwnerId d) securityId) qty st).

Definition ruleSPLIT (d : Row.t) (st : State) : result State :=
  let factor := Row.SplitNumerator d / Row.SplitDenominator d in
  Ok (set_lots st
        (map (fun l =>
                if affectedBy (Row.SecurityId d) l
                then Lot.split l factor else l) (lots st))).

(** The lot that the BONUS rule pushes for the lot [l]. *)
Definition bonusNewLot (d : Row.t) (assetId : option string) (bonusQty : num)
    (l : Lot.t) (id : string) : Lot.t :=
  {| Lot.LotId := id;
     Lot.OwnerId := Lot.OwnerId l;
     Lot.SecurityId := Lot.SecurityId l;
     Lot.AssetId := assetId;
     Lot.BuyDate := Row.ActionDate d;
     Lot.OpenQty := bonusQty;
     Lot.CostNative := 0;
     Lot.CostPriceNative := 0;
     Lot.CostINR := 0;
     Lot.BuyFXRate := Lot.BuyFXRate l;
     Lot.BrokerId := Lot.BrokerId l;
     Lot.AccountId := Lot.AccountId l |}.

(** The body of [lotsToProcess.forEach] in the BONUS rule. *)
Definition bonusLot (d : Row.t) (assetId : option string) (bonusRatio : num)
    (st : State) (l : Lot.t) : State :=
  let bonusQty := Lot.OpenQty l * bonusRatio in
  if 0 <? bonusQty then push_lot st (bonusNewLot d assetId bonusQty l)
  else st.

Definition ruleBONUS (d : Row.t) (st : State) : result State :=
  let factor := Row.SplitNumerator d / Row.SplitDenominator d in
  let bonusRatio := factor - 1 in
  let* assetId := assetId_of secs (Row.SecurityId d) in
  let lotsToProcess :=
    List.filter (affectedBy (Row.SecurityId d)) (lots st) in
  Ok (foldl (bonusLot d assetId bonusRatio) st lotsToProcess).

Definition ruleMERGER (d : Row.t) (st : State) : result State :=
  let ratio := Row.SplitNumerator d / Row.SplitDenominator d in
  let fromSec := Row.SecurityId d in
  let toSec := Row.SecurityToId d in
  let* toAssetId := assetId_of secs toSec in
  Ok (set_lots st
        (map (fun l =>
                if affectedBy fromSec l
                then Lot.merge l toSec toAssetId
                       (nfloor (Lot.OpenQty l * ratio))
                else l) (lots st))).

(** The lot that GIFT and a partial TRANSFER push at the destination. *)
Definition movedLot (d : Row.t) (assetId : option string) (lot : Lot.t)
    (move costNativeMove costINRMove : num) (id : string) : Lot.t :=
  {| Lot.LotId := id;
     Lot.OwnerId := Row.OwnerToId d;
     Lot.SecurityId := Lot.SecurityId lot;
     Lot.AssetId := assetId;
     Lot.BuyDate := Lot.BuyDate lot;
     Lot.OpenQty := move;
     Lot.CostNative := costNativeMove;
     Lot.CostPriceNative := Lot.CostPriceNative lot;
     Lot.CostINR := costINRMove;
     Lot.BuyFXRate := Lot.BuyFXRate lot;
     Lot.BrokerId := Row.BrokerToId d;
     Lot.AccountId := Row.AccountToId d |}.

Fixpoint giftLoop (d : Row.t) (assetId : option string)
    (refs : list nat) (qty : num) (st : State) : State :=
  match refs with
  | [] => st
  | i :: refs' =>
      if qty <=? 0 then st
      else match lots st !! i with
      | None => giftLoop d assetId refs' qty st
      | Some lot =>
          let move := nmin (Lot.OpenQty lot) qty in
          let frac := move / Lot.OpenQty lot in
          let costNativeMove := Lot.CostNative lot * frac in
          let costINRMove := Lot.CostINR lot * frac in
          let st1 :=
            push_lot st
              (movedLot d assetId lot move costNativeMove costINRMove) in
          let st2 :=
            update_lot st1 i
              (Lot.reduce lot move costNativeMove costINRMove) in
          giftLoop d assetId refs' (qty - move) st2
      end
  end.

Definition ruleGIFT (d : Row.t) (st : State) : result State :=
  let qty := Row.Quantity d in
  let* assetId := assetId_of secs (Row.SecurityId d) in
  let securityId := Row.SecurityId d in
  Ok (giftLoop d assetId
        (openLotsBySecurity (lots st) (Row.OwnerFromId d) securityId)
        qty st).

Fixpoint transferLoop (d : Row.t) (assetId : option string)
    (refs : list nat) (qty : num) (st : State) : State :=
  match refs with
  | [] => st
  | i :: refs' =>
      if qty <=? 0 then st
      else match lots st !! i with
      | None => transferLoop d assetId refs' qty st
      | Some lot =>
          let move := nmin (Lot.OpenQty lot) qty in
          let frac := move / Lot.OpenQty lot in
          let st2 :=
            if move <? Lot.OpenQty lot then
              let costNativeMove := Lot.CostNative lot * frac in
              let costINRMove := Lot.CostINR lot * frac in
              let st1 :=
                push_lot st
                  (movedLot d assetId lot move costNativeMove
                     costINRMove) in
              update_lot st1 i
                (Lot.reduce lot move costNativeMove costINRMove)
            else
              update_lot st i
                (Lot.move lot (Row.OwnerToId d) (Row.BrokerToId d)
                   (Row.AccountToId d)) in
          transferLoop d assetId refs' (qty - move) st2
      end
  end.

Definition ruleTRANSFER (d : Row.t) (st : State) : result State :=
  let qty := Row.Quantity d in
  let* assetId := assetId_of secs (Row.SecurityId d) in
  let securityId := Row.SecurityId d in
  Ok (transferLoop d assetId
        (openLotsBySecurity (lots st) (Row.OwnerFromId d) securityId)
        qty st).

(** [if (e.Type === tag) { ... }] *)
Definition when (tag : string) (rule : Row.t -> State -> result State)
    (e : Event) (st : State) : result State :=
  if String.eqb (Type_ e) tag then rule (Data e) st else Ok st.

(** The callback of [events.forEach]: eight [if] statements in a row. *)
Definition applyEvent (st : State) (e : Event) : result State :=
  let* st := when "BUY" ruleBUY e st in
  let* st := when "CLASS_REORG" ruleCLASS_REORG e st in
  let* st := when "SELL" ruleSELL e st in
  let* st := when "SPLIT" ruleSPLIT e st in
  let* st := when "BONUS" ruleBONUS e st in
  let* st := when "MERGER" ruleMERGER e st in
  let* st := when "GIFT" ruleGIFT e st in
  when "TRANSFER" ruleTRANSFER e st.

(** [events.forEach(...)], stopped by the first exception. *)
Fixpoint replay (events : list Event) (st : State) : result State :=
  match events with
  | [] => Ok st
  | e :: events' => let* st' := applyEvent st e in replay events' st'
  end.
End rules.

(** ** The event sequence *)

(** [order[type]]: [undefined] for a type that is not a key of the table. *)
Definition order (type : string) : option Z :=
  if String.eqb type "BUY" then Some 1%Z
  else if String.eqb type "SPLIT" then Some 2%Z
  else if String.eqb type "BONUS" then Some 2%Z
  else if String.eqb type "MERGER" then Some 3%Z
  else if String.eqb type "SELL" then Some 4%Z
  else if String.eqb type "GIFT" then Some 5%Z
  else if String.eqb type "TRANSFER" then Some 6%Z
  else None.

(** [order[a.Type] - order[b.Type]]: NaN when either is [undefined]. *)
Definition order_sub (a b : Event) : option Z :=
  match order (Type_ a), order (Type_ b) with
  | Some x, Some y => Some (x - y)%Z
  | _, _ => None
  end.

(** [(a, b) => a.Date - b.Date || order[a.Type] - order[b.Type]] *)
Definition byDateThenType (a b : Event) : option Z :=
  zor (date_sub (Date a) (Date b)) (order_sub a b).

Definition tradeEvent (t : Row.t) : Event :=
  mkEvent (Row.Side t) (Row.TradeDate t) t.

Definition actionEvent (a : Row.t) : Event :=
  mkEvent (Row.ActionType a) (Row.ActionDate a) a.

(** The array [events] after [events.sort(...)]. *)
Definition sortedEvents (trades actions : list Row.t) : list Event :=
  js_sort byDateThenType (map tradeEvent trades ++ map actionEvent actions).

(** ** [rebuildLots] *)

(** What the two [writeTable] calls at the end write. *)
Record Output : Type := mkOutput {
  Lots_Current : list Lot.t;
  LotConsumes : list Consume.t
}.

Definition finalLots (st : State) : list Lot.t :=
  List.filter (fun l => (0 <? Lot.OpenQty l)%num) (lots st).

Definition rebuildLots (securities : list Sec.t) (trades actions : list Row.t)
  : result Output :=
  let secs := secs_of securities in
  let* st := replay secs (sortedEvents trades actions) init in
  Ok (mkOutput (finalLots st) (consumes st)).

(** ** The FIFO loops, factored

    The loops of SELL, GIFT and TRANSFER have one skeleton
    ([if (qty <= 0) break; m = Math.min(lot.OpenQty, qty); ...; qty -= m])
    around three bodies.  [fifoLoop] is that skeleton and [sellBody],
    [giftBody], [transferBody] are the bodies; [sellLoop_fifo],
    [giftLoop_fifo] and [transferLoop_fifo] below show that the loops of
    the rules are these. *)

Fixpoint fifoLoop (body : State -> nat -> Lot.t -> num -> State)
    (refs : list nat) (qty : num) (st : State) : State :=
  match refs with
  | [] => st
  | i :: refs' =>
      if (qty <=? 0)%num then st
      else match lots st !! i with
      | None => fifoLoop body refs' qty st
      | Some lot =>
          let m := nmin (Lot.OpenQty lot) qty in
          fifoLoop body refs' (qty - m)%num (body st i lot m)
      end
  end.

Definition sellBody (d : Row.t) (assetId : option string) (salePrice saleFX : num)
    (st : State) (i : nat) (lot : Lot.t) (used : num) : State :=
  let frac := (used / Lot.OpenQty lot)%num in
  let costNativeUsed := (Lot.CostNative lot * frac)%num in
  let costINRUsed := (Lot.CostINR lot * frac)%num in
  let proceedsNative := (used * salePrice)%num in
  let proceedsINR := (proceedsNative * saleFX)%num in
  let st1 := push_consume st (fun id =>
    {| Consume.ConsumeId := id;
       Consume.TradeId := Row.TradeId d;
       Consume.OwnerId := Row.OwnerId d;
       Consume.SecurityId := Row.SecurityId d;
       Consume.AssetId := assetId;
       Consume.LotId := Lot.LotId lot;
       Consume.BuyDate := Lot.BuyDate lot;
       Consume.SellDate := Row.TradeDate d;
       Consume.Quantity := used;
       Consume.CostNative := costNativeUsed;
       Consume.CostPriceNative := Lot.CostPriceNative lot;
       Consume.CostINR := costINRUsed;
       Consume.CostFXRate := Lot.BuyFXRate lot;
       Consume.SalePriceNative := salePrice;
       Consume.SaleFXRate := saleFX;
       Consume.ProceedsNative := proceedsNative;
       Consume.ProceedsINR := proceedsINR |}) in
  update_lot st1 i (Lot.reduce lot used costNativeUsed costINRUsed).

Definition giftBody (d : Row.t) (assetId : option string)
    (st : State) (i : nat) (lot : Lot.t) (move : num) : State :=
  let frac := (move / Lot.OpenQty lot)%num in
  let costNativeMove := (Lot.CostNative lot * frac)%num in
  let costINRMove := (Lot.CostINR lot * frac)%num in
  let st1 :=
    push_lot st (movedLot d assetId lot move costNativeMove costINRMove) in
  update_lot st1 i (Lot.reduce lot move costNativeMove costINRMove).

Definition transferBody (d : Row.t) (assetId : option string)
    (st : State) (i : nat) (lot : Lot.t) (move : num) : State :=
  let frac := (move / Lot.OpenQty lot)%num in
  if (move <? Lot.OpenQty lot)%num then
    let costNativeMove := (Lot.CostNative lot * frac)%num in
    let costINRMove := (Lot.CostINR lot * frac)%num in
    let st1 :=
      push_lot st (movedLot d assetId lot move costNativeMove costINRMove) in
    update_lot st1 i (Lot.reduce lot move costNativeMove costINRMove)
  else
    update_lot st i
      (Lot.move lot (Row.OwnerToId d) (Row.BrokerToId d) (Row.AccountToId d)).

(** The lot that is left at the source when [m] shares are taken from
    [lot]: quantity and aggregate costs reduced by the amounts taken. *)
Definition taken (lot : Lot.t) (m : num) : Lot.t :=
  Lot.reduce lot m (Lot.CostNative lot * (m / Lot.OpenQty lot))%num
    (Lot.CostINR lot * (m / Lot.OpenQty lot))%num.

(** The variable [qty] when the loop ends: the part of the request that
    the loop has not filled. *)
Fixpoint fifoRest (body : State -> nat -> Lot.t -> num -> State)
    (refs : list nat) (qty : num) (st : State) : num :=
  match refs with
  | [] => qty
  | i :: refs' =>
      if (qty <=? 0)%num then qty
      else match lots st !! i with
      | None => fifoRest body refs' qty st
      | Some lot =>
          let m := nmin (Lot.OpenQty lot) qty in
          fifoRest body refs' (qty - m)%num (body st i lot m)
      end
  end.

(** ** The cost split of CLASS_REORG in binary64

    [num] has exact rationals where the program has binary64 numbers.  The
    lines of the CLASS_REORG rule that compute the two fractions and the
    two costs are repeated here over binary64, for a numerator and a
    denominator that are neither 0 nor NaN. *)
Definition reorgCosts64 (cost numerator denominator : float) : float * float :=
  let qtyRatio := (numerator / denominator)%float in
  let costRatioNew := (qtyRatio / (1 + qtyRatio))%float in
  let costRatioOriginal := (1 - costRatioNew)%float in
  ((cost * costRatioNew)%float, (cost * costRatioOriginal)%float).

(** ** The vocabulary of the statements *)

(** An event whose date is valid and whose type has an entry in [order]. *)
Definition ranked (e : Event) : Prop :=
  is_Some (Date e) /\ is_Some (order (Type_ e)).

(** [a] may be processed before [b]: an earlier date, or the same date and
    a type priority that is not larger. *)
Definition in_order (a b : Event) : Prop :=
  match Date a, Date b, order (Type_ a), order (Type_ b) with
  | Some da, Some db, Some pa, Some pb =>
      (da < db)%Z \/ (da = db /\ (pa <= pb)%Z)
  | _, _, _, _ => False
  end.

(** The sum of [f] over the lots that [refs] refers to. *)
Definition sumOver (f : Lot.t -> num) (ls : list Lot.t) (refs : list nat)
  : num :=
  foldr (fun i acc => match ls !! i with
                      | Some l => (f l + acc)%num
                      | None => acc
                      end) 0%num refs.

(** [x >= 0]: false for NaN. *)
Definition nonneg (x : num) : Prop := (0 <=? x)%num = true.

(** A finite number greater than 0. *)
Definition positive (x : num) : Prop :=
  exists q, x = Fin q /\ (0 < q)%Qc.

(** Every lot in the store has [OpenQty >= 0]. *)
Definition nonnegStore (st : State) : Prop :=
  Forall (fun l => nonneg (Lot.OpenQty l)) (lots st).

(** The input conditions under which the rules keep quantities
    non-negative; nothing in [rebuildLots] checks them. *)
Definition wellFormed (e : Event) : Prop :=
  let d := Data e in
  (Type_ e = "BUY" -> nonneg (Row.Quantity d))
  /\ (Type_ e = "SELL" \/ Type_ e = "GIFT" \/ Type_ e = "TRANSFER" ->
      is_fin (Row.Quantity d))
  /\ (Type_ e = "SPLIT" \/ Type_ e = "MERGER" ->
      positive (Row.SplitNumerator d / Row.SplitDenominator d))
  /\ (Type_ e = "CLASS_REORG" ->
      positive (nor (Row.SplitNumerator d) 1 / nor (Row.SplitDenominator d) 1)).

(** The security identifiers that the rule for [e] looks up in [secs]. *)
Definition consulted (e : Event) : list string :=
  let d := Data e in
  if String.eqb (Type_ e) "BUY" || String.eqb (Type_ e) "SELL"
     || String.eqb (Type_ e) "BONUS" || String.eqb (Type_ e) "GIFT"
     || String.eqb (Type_ e) "TRANSFER"
  then [Row.SecurityId d]
  else if String.eqb (Type_ e) "CLASS_REORG"
  then [Row.SecurityId d; Row.SecurityToId d]
  else if String.eqb (Type_ e) "MERGER"
  then [Row.SecurityToId d]
  else [].

(** Every reference is to a lot with a finite, positive open quantity. *)
Definition finPos (refs : list nat) (ls : list Lot.t) : Prop :=
  forall i, In i refs ->
    exists l o, ls !! i = Some l /\ Lot.OpenQty l = Fin o /\ (0 < o)%Qc.

(** The consumption record [c] takes the whole of the lot at [i] in [ls]. *)
Definition consumedWhole (ls : list Lot.t) (i : nat) (c : Consume.t) : Prop :=
  exists l,
    ls !! i = Some l /\ Consume.LotId c = Lot.LotId l
    /\ Consume.Quantity c = Lot.OpenQty l.

(** The giving side of an event: [d.OwnerId] for SELL, [d.OwnerFromId] for
    GIFT and TRANSFER. *)
Definition fromOwner (e : Event) : string :=
  if String.eqb (Type_ e) "SELL" then Row.OwnerId (Data e)
  else Row.OwnerFromId (Data e).

(** The event [e] with another quantity in its row. *)
Definition withQuantity (e : Event) (q : num) : Event :=
  let d := Data e in
  mkEvent (Type_ e) (Date e)
    {| Row.TradeId := Row.TradeId d; Row.TradeDate := Row.TradeDate d;
       Row.Side := Row.Side d; Row.ActionDate := Row.ActionDate d;
       Row.ActionType := Row.ActionType d; Row.OwnerId := Row.OwnerId d;
       Row.BrokerId := Row.BrokerId d; Row.AccountId := Row.AccountId d;
       Row.OwnerFromId := Row.OwnerFromId d;
       Row.OwnerToId := Row.OwnerToId d;
       Row.BrokerToId := Row.BrokerToId d;
       Row.AccountToId := Row.AccountToId d;
       Row.SecurityId := Row.SecurityId d;
       Row.SecurityToId := Row.SecurityToId d;
       Row.Quantity := q; Row.Price := Row.Price d;
       Row.FXRateToINR := Row.FXRateToINR d;
       Row.SplitNumerator := Row.SplitNumerator d;
       Row.SplitDenominator := Row.SplitDenominator d |}.

(** The request that is left when the lots at [refs] have been visited in
    turn, each giving [min(OpenQty, qty)], with the open quantities that
    the lots have in [ls]. *)
Fixpoint unfilled (ls : list Lot.t) (refs : list nat) (qty : num) : num :=
  match refs with
  | [] => qty
  | i :: refs' =>
      if (qty <=? 0)%num then qty
      else match ls !! i with
      | None => unfilled ls refs' qty
      | Some lot =>
          unfilled ls refs' (qty - nmin (Lot.OpenQty lot) qty)%num
      end
  end.

(** [new] is what a GIFT described by [d] hands over out of the lot [src]:
    the date, security and per-share cost of [src], the destination of the
    gift, and of each aggregate cost of [src] the fraction
    [OpenQty new / OpenQty src]. *)
Definition giftedFrom (d : Row.t) (assetId : option string)
    (src new : Lot.t) : Prop :=
  Lot.BuyDate new = Lot.BuyDate src
  /\ Lot.OwnerId new = Row.OwnerToId d
  /\ Lot.BrokerId new = Row.BrokerToId d
  /\ Lot.AccountId new = Row.AccountToId d
  /\ Lot.SecurityId new = Lot.SecurityId src
  /\ Lot.AssetId new = assetId
  /\ Lot.BuyFXRate new = Lot.BuyFXRate src
  /\ Lot.CostPriceNative new = Lot.CostPriceNative src
  /\ Lot.CostNative new
     = (Lot.CostNative src * (Lot.OpenQty new / Lot.OpenQty src))%num
  /\ Lot.CostINR new
     = (Lot.CostINR src * (Lot.OpenQty new / Lot.OpenQty src))%num.

(** [src'] is the lot [src] less the quantity and the aggregate costs of
    [new]; nothing else in it has changed. *)
Definition lessOf (src new src' : Lot.t) : Prop :=
  Lot.OpenQty src' = (Lot.OpenQty src - Lot.OpenQty new)%num
  /\ Lot.CostNative src' = (Lot.CostNative src - Lot.CostNative new)%num
  /\ Lot.CostINR src' = (Lot.CostINR src - Lot.CostINR new)%num
  /\ Lot.LotId src' = Lot.LotId src
  /\ Lot.OwnerId src' = Lot.OwnerId src
  /\ Lot.BrokerId src' = Lot.BrokerId src
  /\ Lot.AccountId src' = Lot.AccountId src
  /\ Lot.SecurityId src' = Lot.SecurityId src
  /\ Lot.AssetId src' = Lot.AssetId src
  /\ Lot.BuyDate src' = Lot.BuyDate src
  /\ Lot.BuyFXRate src' = Lot.BuyFXRate src
  /\ Lot.CostPriceNative src' = Lot.CostPriceNative src.

(** [l'] is the lot [l] used up whole by a SELL or a GIFT: no quantity is
    left open, and the fraction [OpenQty / OpenQty] of each aggregate cost
    has been taken out of it. *)
Definition soldOut (l l' : Lot.t) : Prop :=
  Lot.OpenQty l' = 0%num
  /\ Lot.CostNative l'
     = (Lot.CostNative l
        - Lot.CostNative l * (Lot.OpenQty l / Lot.OpenQty l))%num
  /\ Lot.CostINR l'
     = (Lot.CostINR l - Lot.CostINR l * (Lot.OpenQty l / Lot.OpenQty l))%num
  /\ Lot.LotId l' = Lot.LotId l
  /\ Lot.OwnerId l' = Lot.OwnerId l
  /\ Lot.BrokerId l' = Lot.BrokerId l
  /\ Lot.AccountId l' = Lot.AccountId l
  /\ Lot.SecurityId l' = Lot.SecurityId l
  /\ Lot.AssetId l' = Lot.AssetId l
  /\ Lot.BuyDate l' = Lot.BuyDate l
  /\ Lot.BuyFXRate l' = Lot.BuyFXRate l
  /\ Lot.CostPriceNative l' = Lot.CostPriceNative l.

(** [l'] is the lot [l] handed whole to the destination of a TRANSFER
    described by [d]: only owner, broker and account have changed. *)
Definition handedOver (d : Row.t) (l l' : Lot.t) : Prop :=
  Lot.OwnerId l' = Row.OwnerToId d
  /\ Lot.BrokerId l' = Row.BrokerToId d
  /\ Lot.AccountId l' = Row.AccountToId d
  /\ Lot.OpenQty l' = Lot.OpenQty l
  /\ Lot.CostNative l' = Lot.CostNative l
  /\ Lot.CostINR l' = Lot.CostINR l
  /\ Lot.CostPriceNative l' = Lot.CostPriceNative l
  /\ Lot.LotId l' = Lot.LotId l
  /\ Lot.SecurityId l' = Lot.SecurityId l
  /\ Lot.AssetId l' = Lot.AssetId l
  /\ Lot.BuyDate l' = Lot.BuyDate l
  /\ Lot.BuyFXRate l' = Lot.BuyFXRate l.

(** ** Example inputs *)

Definition ex_secs : gmap string Sec.t :=
  secs_of [Sec.mk "X" "AX"; Sec.mk "Y" "AY"; Sec.mk "G" "AG"].

(** A row of Trades, for owner O1 and security X. *)
Definition ex_trade (id side : string) (day qty price fx : Z) : Row.t :=
  {| Row.TradeId := id; Row.TradeDate := Some day; Row.Side := side;
     Row.ActionDate := None; Row.ActionType := "";
     Row.OwnerId := "O1"; Row.BrokerId := "B1"; Row.AccountId := "A1";
     Row.OwnerFromId := ""; Row.OwnerToId := "";
     Row.BrokerToId := ""; Row.AccountToId := "";
     Row.SecurityId := "X"; Row.SecurityToId := "";
     Row.Quantity := of_Z qty; Row.Price := of_Z price;
     Row.FXRateToINR := of_Z fx;
     Row.SplitNumerator := NaN; Row.SplitDenominator := NaN |}.

(** A row of LotActions, from owner O1 to owner O2. *)
Definition ex_action (type : string) (day : Z) (security securityTo : string)
    (numerator denominator qty : Z) : Row.t :=
  {| Row.TradeId := ""; Row.TradeDate := None; Row.Side := "";
     Row.ActionDate := Some day; Row.ActionType := type;
     Row.OwnerId := ""; Row.BrokerId := ""; Row.AccountId := "";
     Row.OwnerFromId := "O1"; Row.OwnerToId := "O2";
     Row.BrokerToId := "B2"; Row.AccountToId := "A2";
     Row.SecurityId := security; Row.SecurityToId := securityTo;
     Row.Quantity := of_Z qty; Row.Price := NaN; Row.FXRateToINR := NaN;
     Row.SplitNumerator := of_Z numerator;
     Row.SplitDenominator := of_Z denominator |}.

(** A store with two open lots of security X held by owner O1, bought on
    days 1 and 3, and a SELL of 40 shares at price 15 (FX 82) on day 5. *)
Definition ex_lot (id owner security : string) (day qty price fx : Z)
  : Lot.t :=
  {| Lot.LotId := id; Lot.OwnerId := owner; Lot.SecurityId := security;
     Lot.AssetId := Some "AX"; Lot.BuyDate := Some day;
     Lot.OpenQty := of_Z qty;
     Lot.CostNative := (of_Z qty * of_Z price)%num;
     Lot.CostPriceNative := of_Z price;
     Lot.CostINR := (of_Z qty * of_Z price * of_Z fx)%num;
     Lot.BuyFXRate := of_Z fx;
     Lot.BrokerId := "B1"; Lot.AccountId := "A1" |}.

Definition ex_two_lots : State :=
  mkState [ex_lot "LOT_1" "O1" "X" 1 100 10 80;
           ex_lot "LOT_2" "O1" "X" 3 50 12 81] [] 3 1.

Definition ex_sell : Event := tradeEvent (ex_trade "T9" "SELL" 5 40 15 82).

(** A row whose price cell is not numeric ([Number] gives NaN), and a SPLIT
    of a security that the directory does not list. *)
Definition ex_buy_bad_price : Row.t :=
  {| Row.TradeId := "T1"; Row.TradeDate := Some 1%Z; Row.Side := "BUY";
     Row.ActionDate := None; Row.ActionType := "";
     Row.OwnerId := "O1"; Row.BrokerId := "B1"; Row.AccountId := "A1";
     Row.OwnerFromId := ""; Row.OwnerToId := "";
     Row.BrokerToId := ""; Row.AccountToId := "";
     Row.SecurityId := "X"; Row.SecurityToId := "";
     Row.Quantity := of_Z 100; Row.Price := NaN;
     Row.FXRateToINR := of_Z 80;
     Row.SplitNumerator := NaN; Row.SplitDenominator := NaN |}.

Definition ex_split_unlisted : Row.t :=
  {| Row.TradeId := ""; Row.TradeDate := None; Row.Side := "";
     Row.ActionDate := Some 2%Z; Row.ActionType := "SPLIT";
     Row.OwnerId := ""; Row.BrokerId := ""; Row.AccountId := "";
     Row.OwnerFromId := ""; Row.OwnerToId := "";
     Row.BrokerToId := ""; Row.AccountToId := "";
     Row.SecurityId := "UNLISTED"; Row.SecurityToId := "";
     Row.Quantity := NaN; Row.Price := NaN; Row.FXRateToINR := NaN;
     Row.SplitNumerator := of_Z 2; Row.SplitDenominator := of_Z 1 |}.

(** A BUY of a security that the directory does not list and whose
    identifier names a member that every object inherits. *)
Definition ex_buy_inherited : Row.t :=
  {| Row.TradeId := "T1"; Row.TradeDate := Some 1%Z; Row.Side := "BUY";
     Row.ActionDate := None; Row.ActionType := "";
     Row.OwnerId := "O1"; Row.BrokerId := "B1"; Row.AccountId := "A1";
     Row.OwnerFromId := ""; Row.OwnerToId := "";
     Row.BrokerToId := ""; Row.AccountToId := "";
     Row.SecurityId := "constructor"; Row.SecurityToId := "";
     Row.Quantity := of_Z 100; Row.Price := of_Z 10;
     Row.FXRateToINR := of_Z 80;
     Row.SplitNumerator := NaN; Row.SplitDenominator := NaN |}.

Definition ex_merger : Event := actionEvent (ex_action "MERGER" 6 "X" "Y" 1 2 0).
Definition ex_gift : Event := actionEvent (ex_action "GIFT" 6 "X" "" 0 0 30).
Definition ex_bonus : Event := actionEvent (ex_action "BONUS" 6 "X" "" 2 1 0).
Definition ex_reorg : Event :=
  actionEvent (ex_action "CLASS_REORG" 6 "X" "Y" 1 1 0).
Definition ex_transfer_all : Event :=
  actionEvent (ex_action "TRANSFER" 6 "X" "" 0 0 500).

(** A CLASS_REORG of X into Y at the ratio -1:1, and a GIFT of a security
    that the directory does not list. *)
Definition ex_reorg_minus_one : Event :=
  actionEvent (ex_action "CLASS_REORG" 6 "X" "Y" (-1) 1 0).
Definition ex_gift_unlisted : Event :=
  actionEvent (ex_action "GIFT" 6 "Z" "" 0 0 30).

(** A SELL of 500 shares of X by owner O1, who holds 150. *)
Definition ex_sell_all : Event :=
  tradeEvent (ex_trade "T9" "SELL" 5 500 15 82).

(** ** Vocabulary for the identifiers and the history of lots *)

(** The identifiers are the positions of the lots and of the consumption
    records, counted from 1, and the two counters are one ahead. *)
Definition idsOk (st : State) : Prop :=
  lotSeq st = S (length (lots st))
  /\ consumeSeq st = S (length (consumes st))
  /\ (forall i l, lots st !! i = Some l ->
        Lot.LotId l = "LOT_" +:+ pretty (S i))
  /\ (forall i c, consumes st !! i = Some c ->
        Consume.ConsumeId c = "C_" +:+ pretty (S i)).

(** [l'] is the lot [l] at a later time: the fields that no rule assigns. *)
Definition sameOrigin (l l' : Lot.t) : Prop :=
  Lot.LotId l' = Lot.LotId l
  /\ Lot.BuyDate l' = Lot.BuyDate l
  /\ Lot.BuyFXRate l' = Lot.BuyFXRate l.

(** Every lot of [st] is still in [st'], at its index and with its origin,
    and unchanged if it was closed ([OpenQty > 0] false) in [st]. *)
Definition keeps (st st' : State) : Prop :=
  forall i l, lots st !! i = Some l ->
    exists l', lots st' !! i = Some l'
      /\ sameOrigin l l'
      /\ ((0 <? Lot.OpenQty l)%num = false -> l' = l).

(** The consumption record [c] names a lot of the store and carries its
    acquisition date and FX rate. *)
Definition recordOf (ls : list Lot.t) (c : Consume.t) : Prop :=
  exists i l,
    ls !! i = Some l
    /\ Consume.LotId c = Lot.LotId l
    /\ Consume.BuyDate c = Lot.BuyDate l
    /\ Consume.CostFXRate c = Lot.BuyFXRate l.

(** The consumption record [c] takes from the lot at [i] in [ls] a
    quantity that is greater than 0, at most what is open in the lot, and
    at most [q]. *)
Definition withinLot (ls : list Lot.t) (q : num) (i : nat) (c : Consume.t)
  : Prop :=
  exists l,
    ls !! i = Some l
    /\ Consume.LotId c = Lot.LotId l
    /\ (0 <? Consume.Quantity c)%num = true
    /\ (Consume.Quantity c <=? Lot.OpenQty l)%num = true
    /\ (Consume.Quantity c <=? q)%num = true.

(** What each FIFO rule leaves of a lot that it uses up whole. *)
Definition usedUp (e : Event) (l : Lot.t) : Lot.t :=
  if String.eqb (Type_ e) "TRANSFER"
  then Lot.move l (Row.OwnerToId (Data e)) (Row.BrokerToId (Data e))
         (Row.AccountToId (Data e))
  else taken l (Lot.OpenQty l).

(** The FIFO order of two lots of the store [ls]: by acquisition date, and
    for one date by position in the store. *)
Definition fifoBefore (ls : list Lot.t) (i j : nat) : Prop :=
  match ls !! i, ls !! j with
  | Some a, Some b =>
      match Lot.BuyDate a, Lot.BuyDate b with
      | Some x, Some y => (x < y)%Z \/ (x = y /\ (i < j)%nat)
      | _, _ => False
      end
  | _, _ => False
  end.

(** The same order on lots paired with their references. *)
Definition pairBefore (a b : nat * Lot.t) : Prop :=
  match Lot.BuyDate (snd a), Lot.BuyDate (snd b) with
  | Some x, Some y => (x < y)%Z \/ (x = y /\ (fst a < fst b)%nat)
  | _, _ => False
  end.

(** [a] is what [secs[id].AssetId] yields without an exception: the
    asset of the row of [id], or [undefined] when [id] is not listed and
    names an inherited member. *)
Definition assetOf (secs : gmap string Sec.t) (id : string)
    (a : option string) : Prop :=
  match secs !! id with
  | Some s => a = Some (Sec.AssetId s)
  | None => inherited id = true /\ a = None
  end.

(** The lot has the asset that its security gives. *)
Definition wellListed (secs : gmap string Sec.t) (l : Lot.t) : Prop :=
  assetOf secs (Lot.SecurityId l) (Lot.AssetId l).

(** The lots that a FIFO rule refers to are of the security of the
    event. *)
Definition refsOf (securityId : string) (refs : list nat) (st : State)
  : Prop :=
  forall i l, In i refs -> lots st !! i = Some l ->
    Lot.SecurityId l = securityId.

(** * The derived tables

    The functions of src/Code.js that read the tables which [rebuildLots]
    writes, or the cash ledger.  An object that [Object.fromEntries] built
    is a finite map, and a lookup [obj[k]] in it is [at_key]: the entry of
    [k], or the member that every object inherits under the name [k], or
    [undefined].  An object that is used as a map with keys joined by "|"
    is a list of key-value pairs in insertion order, which is the order in
    which [Object.values] and [Object.entries] enumerate such keys; a key
    with a "|" in it names no inherited member. *)

(** ** Lookups in objects *)

(** The value of [obj[k]].  An inherited member is a function, or the
    prototype for "__proto__": it is truthy, and every property that the
    code reads of it is [undefined]. *)
Inductive member (V : Type) : Type :=
  | Own (v : V)
  | Inherited
  | Undefined.
Arguments Own {V} v.
Arguments Inherited {V}.
Arguments Undefined {V}.

Definition at_key {V : Type} (m : gmap string V) (k : string) : member V :=
  match m !! k with
  | Some v => Own v
  | None => if inherited k then Inherited else Undefined
  end.

(** A value that is a string or [undefined] ([None]), as a property key
    ([obj[x]] looks up [String(x)]) and as an element of [Array.join], which
    writes nothing for [undefined]. *)
Definition keyOf (x : option string) : string := default "undefined" x.
Definition cell (x : option string) : string := default "" x.

(** ** [computeRBI180DayExposure] (src/Code.js, lines 562-599) *)

(** A row of CashMovements.  [IsForeignIncome] holds the value of the test
    [c.IsForeignIncome === true || c.IsForeignIncome === "TRUE"]. *)
Module Cash.
Record t : Type := mk {
  OwnerId : string;
  AccountId : string;
  Currency : string;
  TxnDate : date;
  IsForeignIncome : bool;
  Amount : num
}.
End Cash.

(** A foreign-income bucket; the rows written to RBI_180_Ageing have these
    three fields and two empty cells that sheet formulas fill. *)
Module Bucket.
Record t : Type := mk {
  OwnerId : string;
  StartDate : date;
  RemainingAmount : num
}.
End Bucket.

(** The comparator [(a, b) => new Date(a.TxnDate) - new Date(b.TxnDate)]. *)
Definition byTxnDate (a b : Cash.t) : option Z :=
  date_sub (Cash.TxnDate a) (Cash.TxnDate b).

(** [buckets.forEach(b => { if (use <= 0 || b.RemainingAmount <= 0) return;
    const m = Math.min(b.RemainingAmount, use); b.RemainingAmount -= m;
    use -= m; })]: the buckets after the loop. *)
Fixpoint drawDown (use : num) (buckets : list Bucket.t) : list Bucket.t :=
  match buckets with
  | [] => []
  | b :: rest =>
      if (use <=? 0)%num || (Bucket.RemainingAmount b <=? 0)%num
      then b :: drawDown use rest
      else
        let m := nmin (Bucket.RemainingAmount b) use in
        Bucket.mk (Bucket.OwnerId b) (Bucket.StartDate b)
          (Bucket.RemainingAmount b - m)%num
        :: drawDown (use - m)%num rest
  end.

(** The callback of [cash.forEach]. *)
Definition cashStep (buckets : list Bucket.t) (c : Cash.t) : list Bucket.t :=
  if Cash.IsForeignIncome c then
    buckets ++ [Bucket.mk (Cash.OwnerId c) (Cash.TxnDate c) (Cash.Amount c)]
  else if (Cash.Amount c <? 0)%num then
    drawDown (nneg (Cash.Amount c)) buckets
  else buckets.

(** The buckets when all cash movements are processed, and the rows that
    are written. *)
Definition rbiBuckets (cashMovements : list Cash.t) : list Bucket.t :=
  foldl cashStep [] (js_sort byTxnDate cashMovements).

Definition computeRBI180DayExposure (cashMovements : list Cash.t)
  : list Bucket.t :=
  List.filter (fun b => (0 <? Bucket.RemainingAmount b)%num)
    (rbiBuckets cashMovements).

(** What [computeRBI180DayExposure] reads of a row: the date, the flag and
    the amount, and the owner if the row is foreign income. *)
Definition rbiReads (c : Cash.t) : date * bool * num * option string :=
  (Cash.TxnDate c, Cash.IsForeignIncome c, Cash.Amount c,
   if Cash.IsForeignIncome c then Some (Cash.OwnerId c) else None).

(** Example: income of 100 on day 1 and of 50 on day 3 for two owners, and
    an outflow of 120 on day 5. *)
Definition ex_cash (owner account : string) (day : Z) (income : bool)
    (amount : Z) : Cash.t :=
  Cash.mk owner account "USD" (Some day) income (of_Z amount).

Definition ex_cash_rows : list Cash.t :=
  [ex_cash "O1" "A1" 5 false (-120); ex_cash "O1" "A1" 1 true 100;
   ex_cash "O2" "A2" 3 true 50].

(** [a <= b] on valid dates. *)
Definition dateLe (a b : date) : Prop :=
  match a, b with
  | Some x, Some y => (x <= y)%Z
  | _, _ => False
  end.

(** The bucket [b] was opened by the cash movement [c]. *)
Definition openedBy (c : Cash.t) (b : Bucket.t) : Prop :=
  Bucket.OwnerId b = Cash.OwnerId c /\ Bucket.StartDate b = Cash.TxnDate c.

(** ** Objects used as maps, and keys joined by "|" *)

(** [parts.join(sep)] *)
Fixpoint join (sep : string) (parts : list string) : string :=
  match parts with
  | [] => ""
  | [p] => p
  | p :: rest => p +:+ sep +:+ join sep rest
  end.

(** [s.split(sep)] for a separator of one character. *)
Fixpoint splitOn (sep : Ascii.ascii) (s : string) : list string :=
  match s with
  | EmptyString => [EmptyString]
  | String c s' =>
      if Ascii.eqb c sep then EmptyString :: splitOn sep s'
      else match splitOn sep s' with
           | [] => [String c EmptyString]
           | p :: ps => String c p :: ps
           end
  end.

(** The string has no "|" in it. *)
Fixpoint pipeFree (s : string) : bool :=
  match s with
  | EmptyString => true
  | String c s' => negb (Ascii.eqb c "|"%char) && pipeFree s'
  end.

(** [if (!(k in m)) m[k] = fresh; else m[k] = change(m[k])] on an object
    whose keys are enumerated in insertion order. *)
Fixpoint upsert {V : Type} (k : string) (fresh : V) (change : V -> V)
    (m : list (string * V)) : list (string * V) :=
  match m with
  | [] => [(k, fresh)]
  | (k', v) :: m' =>
      if String.eqb k' k then (k', change v) :: m'
      else (k', v) :: upsert k fresh change m'
  end.

(** [m[k]] *)
Fixpoint assoc {V : Type} (k : string) (m : list (string * V)) : option V :=
  match m with
  | [] => None
  | (k', v) :: m' => if String.eqb k' k then Some v else assoc k m'
  end.

(** [rows.map(f)] for a callback that may throw. *)
Fixpoint mapM {A B : Type} (f : A -> result B) (l : list A)
  : result (list B) :=
  match l with
  | [] => Ok []
  | x :: l' => let* y := f x in let* ys := mapM f l' in Ok (y :: ys)
  end.

(** ** [computeRealizedGains] (src/Code.js, lines 448-482) *)

(** A row of Securities, with the asset class, the ticker and the country
    that the derived tables read; [rebuildLots] reads the part that
    [toSec] gives.  In a row of Config the two tax rates are cells that
    are copied, not computed with. *)
Module Security.
Record t : Type := mk {
  SecurityId : string;
  AssetId : string;
  AssetClass : string;
  Ticker : string;
  Country : string
}.
End Security.

Definition toSec (s : Security.t) : Sec.t :=
  Sec.mk (Security.SecurityId s) (Security.AssetId s).

Module Config.
Record t : Type := mk {
  AssetClass : string;
  HoldingPeriod_LT_Days : num;
  LTCG_Tax_Rate : string;
  STCG_Tax_Rate : string;
  LTCG_Exemption_INR : num
}.
End Config.

Module Gain.
Record t : Type := mk {
  OwnerId : string;
  SecurityId : string;
  LotId : string;
  BuyDate : date;
  SellDate : date;
  Quantity : num;
  CostINR : num;
  ProceedsINR : num;
  GainINR : num;
  HoldingDays : num;
  GainType : string;
  AssetClass : option string;
  FinancialYear : string
}.
End Gain.

(** [b - a] on two [Date] objects. *)
Definition date_diff (b a : date) : num :=
  match date_sub b a with
  | Some ms => of_Z ms
  | None => NaN
  end.

(** [daysBetween] (src/Helpers.js, lines 123-125) *)
Definition daysBetween (a b : date) : num :=
  nfloor (date_diff b a / (of_Z 1000 * of_Z 60 * of_Z 60 * of_Z 24))%num.

Definition securities_of (table : list Security.t) : gmap string Security.t :=
  foldl (fun m s => <[Security.SecurityId s := s]> m) ∅ table.

Definition tax_of (table : list Config.t) : gmap string Config.t :=
  foldl (fun m t => <[Config.AssetClass t := t]> m) ∅ table.

(** [m[k].field]: the field of the entry, [undefined] ([None]) for an
    inherited member; reading a property of [undefined] throws. *)
Definition get {V A : Type} (m : gmap string V) (k : string) (field : V -> A)
  : result (option A) :=
  match at_key m k with
  | Own v => Ok (Some (field v))
  | Inherited => Ok None
  | Undefined => Throw TypeError
  end.

Section calendar.
(** [getFullYear()] and [getMonth()] of the date with a given time value,
    in the time zone of the script. *)
Variable getFullYear : Z -> Z.
Variable getMonth : Z -> Z.

(** [fyFromDate] (src/Helpers.js, lines 117-121); for an invalid date both
    getters return NaN. *)
Definition fyFromDate (d : date) : string :=
  match d with
  | Some ms =>
      let y := getFullYear ms in
      if (3 <=? getMonth ms)%Z
      then pretty y +:+ "-" +:+ pretty (y + 1)%Z
      else pretty (y - 1)%Z +:+ "-" +:+ pretty y
  | None => "NaN-NaN"
  end.

(** The callback of [consumes.map]. *)
Definition gainRow (secs : gmap string Security.t)
    (tax : gmap string Config.t) (c : Consume.t) : result Gain.t :=
  let buy := Consume.BuyDate c in
  let sell := Consume.SellDate c in
  let holding := daysBetween buy sell in
  let* asset := get secs (Consume.SecurityId c) Security.AssetClass in
  let* threshold := get tax (keyOf asset) Config.HoldingPeriod_LT_Days in
  Ok {| Gain.OwnerId := Consume.OwnerId c;
        Gain.SecurityId := Consume.SecurityId c;
        Gain.LotId := Consume.LotId c;
        Gain.BuyDate := Consume.BuyDate c;
        Gain.SellDate := Consume.SellDate c;
        Gain.Quantity := Consume.Quantity c;
        Gain.CostINR := Consume.CostINR c;
        Gain.ProceedsINR := Consume.ProceedsINR c;
        Gain.GainINR := (Consume.ProceedsINR c - Consume.CostINR c)%num;
        Gain.HoldingDays := holding;
        Gain.GainType :=
          match threshold with
          | Some days => if (days <=? holding)%num then "LTCG" else "STCG"
          | None => "STCG"
          end;
        Gain.AssetClass := asset;
        Gain.FinancialYear := fyFromDate sell |}.

Definition computeRealizedGains (securities : list Security.t)
    (config : list Config.t) (consumes : list Consume.t)
  : result (list Gain.t) :=
  mapM (gainRow (securities_of securities) (tax_of config)) consumes.
End calendar.

(** ** [buildTaxSummaryByFY] (src/Code.js, lines 485-517) *)

Module Summary.
Record t : Type := mk {
  OwnerId : string;
  FinancialYear : string;
  AssetClass : option string;
  GainType : string;
  GrossGainINR : num
}.
End Summary.

Module TaxRow.
Record t : Type := mk {
  OwnerId : string;
  FinancialYear : string;
  AssetClass : option string;
  GainType : string;
  GrossGainINR : num;
  ExemptINR : num;
  TaxableINR : num;
  TaxRate : option string
}.
End TaxRow.

Definition gainKey (g : Gain.t) : string :=
  join "|" [Gain.OwnerId g; Gain.FinancialYear g; cell (Gain.AssetClass g);
            Gain.GainType g].

(** The callback of [gains.forEach]. *)
Definition addGain (map : list (string * Summary.t)) (g : Gain.t)
  : list (string * Summary.t) :=
  upsert (gainKey g)
    (Summary.mk (Gain.OwnerId g) (Gain.FinancialYear g) (Gain.AssetClass g)
       (Gain.GainType g) (0 + Gain.GainINR g)%num)
    (fun r =>
       Summary.mk (Summary.OwnerId r) (Summary.FinancialYear r)
         (Summary.AssetClass r) (Summary.GainType r)
         (Summary.GrossGainINR r + Gain.GainINR g)%num)
    map.

(** The callback of [Object.values(map).map].  With [cfg] an inherited
    member, [Number(cfg.LTCG_Exemption_INR)] is NaN and the rates are
    [undefined]; with [cfg] undefined, reading a rate throws (and so does
    reading the exemption). *)
Definition taxRow (tax : gmap string Config.t) (r : Summary.t)
  : result TaxRow.t :=
  let ltcg := String.eqb (Summary.GainType r) "LTCG" in
  let* cfg :=
    get tax (keyOf (Summary.AssetClass r)) (fun cfg : Config.t => cfg) in
  let exempt :=
    if ltcg
    then match cfg with
         | Some cfg => Config.LTCG_Exemption_INR cfg
         | None => NaN
         end
    else 0%num in
  let exempt := nmin exempt (Summary.GrossGainINR r) in
  Ok {| TaxRow.OwnerId := Summary.OwnerId r;
        TaxRow.FinancialYear := Summary.FinancialYear r;
        TaxRow.AssetClass := Summary.AssetClass r;
        TaxRow.GainType := Summary.GainType r;
        TaxRow.GrossGainINR := Summary.GrossGainINR r;
        TaxRow.ExemptINR := exempt;
        TaxRow.TaxableINR := (Summary.GrossGainINR r - exempt)%num;
        TaxRow.TaxRate :=
          match cfg with
          | Some cfg =>
              Some (if ltcg then Config.LTCG_Tax_Rate cfg
                    else Config.STCG_Tax_Rate cfg)
          | None => None
          end |}.

Definition buildTaxSummaryByFY (config : list Config.t) (gains : list Gain.t)
  : result (list TaxRow.t) :=
  let tax := tax_of config in
  let map := foldl addGain [] gains in
  mapM (taxRow tax) (map.*2).

(** ** [computeCashBalances] (src/Code.js, lines 520-558) *)

Module Entity.
Record t : Type := mk {
  EntityId : string;
  EntityType : string;
  AccountKind : string
}.
End Entity.

Module Balance.
Record t : Type := mk {
  OwnerId : string;
  AccountId : string;
  AccountKind : string;
  Currency : string;
  Balance : num
}.
End Balance.

Definition accounts_of (entities : list Entity.t) : gmap string Entity.t :=
  foldl (fun m a => <[Entity.EntityId a := a]> m) ∅
    (List.filter (fun e => String.eqb (Entity.EntityType e) "ACCOUNT")
       entities).

(** [[c.OwnerId, c.AccountId, acc.AccountKind, c.Currency].join("|")] *)
Definition cashKey (c : Cash.t) (accountKind : option string) : string :=
  join "|" [Cash.OwnerId c; Cash.AccountId c; cell accountKind;
            Cash.Currency c].

(** [acc.AccountKind] for [acc = accounts[id]] when [!acc] is false: the
    kind of the entity, or [undefined] for an inherited member; none when
    [acc] is [undefined] and the row is skipped. *)
Definition accountKind_of (accounts : gmap string Entity.t) (id : string)
  : option (option string) :=
  match at_key accounts id with
  | Own acc => Some (Some (Entity.AccountKind acc))
  | Inherited => Some None
  | Undefined => None
  end.

(** The callback of [cash.forEach]:
    [bal[key] = (bal[key] || 0) + Number(c.Amount)]. *)
Definition addCash (accounts : gmap string Entity.t)
    (bal : list (string * num)) (c : Cash.t) : list (string * num) :=
  match accountKind_of accounts (Cash.AccountId c) with
  | None => bal
  | Some kind =>
      upsert (cashKey c kind) (0 + Cash.Amount c)%num
        (fun v => (nor v 0 + Cash.Amount c)%num) bal
  end.

(** The callback of [Object.entries(bal).map]; a key has four parts at
    least, so that no part is [undefined]. *)
Definition balanceRow (kv : string * num) : Balance.t :=
  let parts := splitOn "|"%char kv.1 in
  Balance.mk (nth 0 parts "") (nth 1 parts "") (nth 2 parts "")
    (nth 3 parts "") kv.2.

Definition computeCashBalances (entities : list Entity.t)
    (cash : list Cash.t) : list Balance.t :=
  map balanceRow (foldl (addCash (accounts_of entities)) [] cash).

(** ** Vocabulary for the derived tables *)

(** The fields by which [buildTaxSummaryByFY] groups gains, as the key
    has them. *)
Definition gainFields (g : Gain.t) : list string :=
  [Gain.OwnerId g; Gain.FinancialYear g; cell (Gain.AssetClass g);
   Gain.GainType g].

Definition rowFields (row : TaxRow.t) : list string :=
  [TaxRow.OwnerId row; TaxRow.FinancialYear row; cell (TaxRow.AssetClass row);
   TaxRow.GainType row].

(** The sum of the gains, added in the order of the table, from 0. *)
Definition grossOf (gains : list Gain.t) : num :=
  foldl (fun acc g => (acc + Gain.GainINR g)%num) 0%num gains.

(** The fields by which [computeCashBalances] groups cash movements; none
    for a movement that it skips. *)
Definition cashFields (accounts : gmap string Entity.t) (c : Cash.t)
  : option (list string) :=
  match accountKind_of accounts (Cash.AccountId c) with
  | Some kind =>
      Some [Cash.OwnerId c; Cash.AccountId c; cell kind; Cash.Currency c]
  | None => None
  end.

Definition balanceFields (row : Balance.t) : list string :=
  [Balance.OwnerId row; Balance.AccountId row; Balance.AccountKind row;
   Balance.Currency row].

(** The running balance: [(bal || 0) + amount] for each amount in turn. *)
Definition runningBalance (amounts : list num) : num :=
  foldl (fun v x => (nor v 0 + x)%num) 0%num amounts.

Definition pipeFreeAll (fields : list string) : Prop :=
  Forall (fun s => pipeFree s = true) fields.

(** The cash movement [c] is booked to the balance row [row]. *)
Definition bookedTo (accounts : gmap string Entity.t) (row : Balance.t)
    (c : Cash.t) : bool :=
  bool_decide (cashFields accounts c = Some (balanceFields row)).

(** [a] is what [secs[id].AssetClass] yields without an exception: the
    asset class of the row of [id], or [undefined] when [id] is not listed
    and names an inherited member. *)
Definition classOf (secs : gmap string Security.t) (id : string)
    (a : option string) : Prop :=
  match secs !! id with
  | Some sec => a = Some (Security.AssetClass sec)
  | None => inherited id = true /\ a = None
  end.

(** [m[k]] is [undefined]: no entry and no inherited member. *)
Definition missing {V : Type} (m : gmap string V) (k : string) : Prop :=
  m !! k = None /\ inherited k = false.

(** ** Example inputs for the derived tables *)

Definition ex_buckets : list Bucket.t :=
  [Bucket.mk "O1" (Some 1%Z) (of_Z 100); Bucket.mk "O2" (Some 3%Z) (of_Z 50)].

Definition ex_securities : list Security.t :=
  [Security.mk "X" "AX" "EQUITY" "XCORP" "INDIA";
   Security.mk "G" "AG" "GOLD" "GLD" "US"].

Definition ex_config : list Config.t :=
  [Config.mk "EQUITY" (of_Z 365) "12.5%" "20%" (of_Z 125000)].

Definition ex_config_all : list Config.t :=
  [Config.mk "EQUITY" (of_Z 365) "12.5%" "20%" (of_Z 125000);
   Config.mk "GOLD" (of_Z 1095) "20%" "30%" (of_Z 0)].

Definition ex_gain (owner gainType : string) (gain : Z) : Gain.t :=
  {| Gain.OwnerId := owner; Gain.SecurityId := "X"; Gain.LotId := "LOT_1";
     Gain.BuyDate := Some 1%Z; Gain.SellDate := Some 5%Z;
     Gain.Quantity := of_Z 1; Gain.CostINR := of_Z 0;
     Gain.ProceedsINR := of_Z gain; Gain.GainINR := of_Z gain;
     Gain.HoldingDays := of_Z 400; Gain.GainType := gainType;
     Gain.AssetClass := Some "EQUITY"; Gain.FinancialYear := "2024-2025" |}.

Definition ex_gains : list Gain.t :=
  [ex_gain "O1" "LTCG" 100000; ex_gain "O2" "STCG" (-500);
   ex_gain "O1" "LTCG" 50000].

Definition ex_entities : list Entity.t :=
  [Entity.mk "A1" "ACCOUNT" "BROKERAGE"; Entity.mk "O1" "OWNER" ""].

Definition ex_balance_row : Balance.t :=
  Balance.mk "O1" "A1" "BROKERAGE" "USD" (of_Z 7).

(** A calendar for the examples: the year and the month of a date are
    read off a time value of the form [100 * year + month]. *)
Definition ex_year (ms : Z) : Z := (ms / 100)%Z.
Definition ex_month (ms : Z) : Z := (ms mod 100)%Z.

Definition ex_record : Consume.t :=
  {| Consume.ConsumeId := "C_1"; Consume.TradeId := "T2";
     Consume.OwnerId := "O1"; Consume.SecurityId := "X";
     Consume.AssetId := Some "AX"; Consume.LotId := "LOT_1";
     Consume.BuyDate := Some 0%Z; Consume.SellDate := Some 34560000000%Z;
     Consume.Quantity := of_Z 40; Consume.CostNative := of_Z 400;
     Consume.CostPriceNative := of_Z 10; Consume.CostINR := of_Z 32000;
     Consume.CostFXRate := of_Z 80; Consume.SalePriceNative := of_Z 15;
     Consume.SaleFXRate := of_Z 82; Consume.ProceedsNative := of_Z 600;
     Consume.ProceedsINR := of_Z 49200 |}.

(** ** [buildEquityByAccountQC] (src/Code.js, lines 721-757) *)

Module Holding.
Record t : Type := mk {
  OwnerId : string;
  AccountId : string;
  BrokerId : string;
  Symbol : option string;
  Quantity : num;
  SecurityId : string
}.
End Holding.

Definition lotKey (l : Lot.t) : string :=
  join "|" [Lot.OwnerId l; Lot.AccountId l; Lot.BrokerId l; Lot.SecurityId l].

(** The callback of [lots.forEach]:
    [if (Number(l.OpenQty) <= 0) return;
     map[key] = (map[key] || 0) + Number(l.OpenQty)]. *)
Definition addLot (map : list (string * num)) (l : Lot.t)
  : list (string * num) :=
  if (Lot.OpenQty l <=? 0)%num then map
  else upsert (lotKey l) (0 + Lot.OpenQty l)%num
         (fun v => (nor v 0 + Lot.OpenQty l)%num) map.

(** [secs[secId] ? secs[secId].Ticker : secId]: an inherited member is
    truthy and has no ticker. *)
Definition symbol_of (secs : gmap string Security.t) (secId : string)
  : option string :=
  match at_key secs secId with
  | Own s => Some (Security.Ticker s)
  | Inherited => None
  | Undefined => Some secId
  end.

(** The callback of [Object.entries(map).map]. *)
Definition holdingRow (secs : gmap string Security.t) (kv : string * num)
  : Holding.t :=
  let parts := splitOn "|" kv.1 in
  let secId := nth 3 parts "" in
  Holding.mk (nth 0 parts "") (nth 1 parts "") (nth 2 parts "")
    (symbol_of secs secId) kv.2 secId.

Definition buildEquityByAccountQC (securities : list Security.t)
    (lots : list Lot.t) : list Holding.t :=
  map (holdingRow (securities_of securities)) (foldl addLot [] lots).

(** The fields by which [buildEquityByAccountQC] groups lots; none for a
    lot that it skips. *)
Definition lotFields (l : Lot.t) : option (list string) :=
  if (Lot.OpenQty l <=? 0)%num then None
  else Some [Lot.OwnerId l; Lot.AccountId l; Lot.BrokerId l;
             Lot.SecurityId l].

Definition holdingFields (row : Holding.t) : list string :=
  [Holding.OwnerId row; Holding.AccountId row; Holding.BrokerId row;
   Holding.SecurityId row].

(** The lot [l] is counted in the row [row]. *)
Definition heldIn (row : Holding.t) (l : Lot.t) : bool :=
  bool_decide (lotFields l = Some (holdingFields row)).

(** ** [rebuildXIRRCashflows] (src/Code.js, lines 337-417)

    The rows that the function builds, [None] when it returns without
    writing.  The formulas that the Sheets mode then puts into the
    CURRENT_VALUE rows are not modelled.  The objects [qtyByAsset] and
    [repSecByAsset] have asset identifiers as keys.  Under a key that
    names an inherited member, [qtyByAsset[a] || 0] is that member and the
    sum becomes a string: [assetStep] is the callback for the lots whose
    key is not such a name ([plainAssets]), and the statements about it
    have this condition. *)

(** [Object.entries(m)] for an object with arbitrary string keys: the
    keys that are array indices (the canonical decimal numerals below
    2^32 - 1) come first, by ascending value, and then the other keys in
    the order of their creation. *)
Definition digit (c : Ascii.ascii) : option N :=
  let n := Ascii.N_of_ascii c in
  if (48 <=? n)%N && (n <=? 57)%N then Some (n - 48)%N else None.

Fixpoint numeral (s : string) (acc : N) : option N :=
  match s with
  | EmptyString => Some acc
  | String c s' =>
      match digit c with
      | Some d => numeral s' (10 * acc + d)%N
      | None => None
      end
  end.

Definition arrayIndex (s : string) : option N :=
  match s with
  | EmptyString => None
  | String c s' =>
      if Ascii.eqb c "0" && negb (String.eqb s' "") then None
      else match numeral s 0 with
           | Some n => if (n <? 2 ^ 32 - 1)%N then Some n else None
           | None => None
           end
  end.

Definition isIndex {V : Type} (kv : string * V) : bool :=
  match arrayIndex kv.1 with Some _ => true | None => false end.

Definition byIndex {V : Type} (a b : string * V) : option Z :=
  match arrayIndex a.1, arrayIndex b.1 with
  | Some i, Some j => Some (Z.of_N i - Z.of_N j)%Z
  | _, _ => None
  end.

Definition entries {V : Type} (m : list (string * V)) : list (string * V) :=
  js_sort byIndex (List.filter isIndex m)
  ++ List.filter (fun kv => negb (isIndex kv)) m.

(** [!x] on a number. *)
Definition nnot (x : num) : bool :=
  match x with
  | NaN => true
  | Fin q => bool_decide (q = Qc_of_Z 0)
  | _ => false
  end.

(** A row of XIRR_Cashflows.  [Quantity], [FlowDate] and [CashFlow] hold a
    value or the empty string, which is [None] here. *)
Module Flow.
Record t : Type := mk {
  Portfolio : string;
  OwnerId : string;
  SecurityId : string;
  AssetId : option string;
  Symbol : option string;
  Quantity : option num;
  FlowDate : option date;
  CashFlow : option num;
  FlowType : string
}.
End Flow.

(** The callback of [lots.forEach], on the two objects [qtyByAsset] and
    [repSecByAsset].  The first is enumerated later, the second is only
    looked up. *)
Definition assetStep (st : list (string * num) * gmap string string)
    (l : Lot.t) : list (string * num) * gmap string string :=
  let q := Lot.OpenQty l in
  let a := keyOf (Lot.AssetId l) in
  if nnot q || (q <=? 0)%num then st
  else
    (upsert a (0 + q)%num (fun v => (nor v 0 + q)%num) st.1,
     match st.2 !! a with
     | Some s =>
         if String.eqb s "" then <[a := Lot.SecurityId l]> st.2
         else st.2
     | None => <[a := Lot.SecurityId l]> st.2
     end).

(** [(sec.Country === "INDIA") ? "India" : "US"]; an inherited member has
    no country. *)
Definition portfolio_of (country : option string) : string :=
  match country with
  | Some c => if String.eqb c "INDIA" then "India" else "US"
  | None => "US"
  end.

(** What the two callbacks read of [sec = secs[id]] when [!sec] is false:
    portfolio, asset and ticker; none when [sec] is [undefined]. *)
Definition sec_of (secs : gmap string Security.t) (id : string)
  : option (string * option string * option string) :=
  match at_key secs id with
  | Own sec =>
      Some (portfolio_of (Some (Security.Country sec)),
            Some (Security.AssetId sec), Some (Security.Ticker sec))
  | Inherited => Some (portfolio_of None, None, None)
  | Undefined => None
  end.

(** The callback of [trades.forEach]: the rows that it pushes. *)
Definition tradeFlow (secs : gmap string Security.t) (t : Row.t)
  : list Flow.t :=
  match sec_of secs (Row.SecurityId t) with
  | None => []
  | Some (portfolio, assetId, ticker) =>
      let amt := (Row.Quantity t * Row.Price t)%num in
      let cashflow := if String.eqb (Row.Side t) "BUY" then nneg amt else amt in
      [Flow.mk portfolio (Row.OwnerId t) (Row.SecurityId t) assetId ticker
         None (Some (Row.TradeDate t)) (Some cashflow) (Row.Side t)]
  end.

(** The callback of [Object.entries(qtyByAsset).forEach].  Every key of
    [qtyByAsset] is a key of [repSecByAsset], so the first lookup does not
    fail. *)
Definition currentValue (secs : gmap string Security.t)
    (repSecByAsset : gmap string string) (kv : string * num) : list Flow.t :=
  match repSecByAsset !! kv.1 with
  | None => []
  | Some repSecId =>
      match sec_of secs repSecId with
      | None => []
      | Some (portfolio, _, ticker) =>
          [Flow.mk portfolio "" repSecId (Some kv.1) ticker
             (Some kv.2) None None "CURRENT_VALUE"]
      end
  end.

Definition xirrRows (securities : list Security.t) (trades : list Row.t)
    (lots : list Lot.t) : list Flow.t :=
  let secs := securities_of securities in
  let st := foldl assetStep ([], ∅) lots in
  flat_map (tradeFlow secs) trades
  ++ flat_map (currentValue secs st.2) (entries st.1).

(** [if (rows.length === 0) return;] *)
Definition rebuildXIRRCashflows (securities : list Security.t)
    (trades : list Row.t) (lots : list Lot.t) : option (list Flow.t) :=
  match xirrRows securities trades lots with
  | [] => None
  | rows => Some rows
  end.

(** *** Vocabulary for the cash flows *)

(** The lot is counted in the current value under the key [a]. *)
Definition countedAs (a : string) (l : Lot.t) : bool :=
  negb (nnot (Lot.OpenQty l) || (Lot.OpenQty l <=? 0)%num)
  && String.eqb (keyOf (Lot.AssetId l)) a.

(** No lot is counted under a key that names an inherited member. *)
Definition plainAssets (lots : list Lot.t) : Prop :=
  forall l, In l lots ->
    nnot (Lot.OpenQty l) || (Lot.OpenQty l <=? 0)%num = false ->
    inherited (keyOf (Lot.AssetId l)) = false.

(** The first security identifier that is not empty, or the empty string
    if there is none. *)
Definition firstSecurity (ls : list Lot.t) : string :=
  match List.filter (fun l => negb (String.eqb (Lot.SecurityId l) "")) ls with
  | l :: _ => Lot.SecurityId l
  | [] => ""
  end.

(** The security that stands for the asset [a]. *)
Definition representative (lots : list Lot.t) (a : string) : string :=
  firstSecurity (List.filter (countedAs a) lots).

(** A row with a quantity: a CURRENT_VALUE row. *)
Definition valued (row : Flow.t) : bool :=
  match Flow.Quantity row with Some _ => true | None => false end.

(** [!secs[id]] is false: the security is listed, or its identifier names
    an inherited member. *)
Definition known (secs : gmap string Security.t) (id : string) : bool :=
  match secs !! id with Some _ => true | None => inherited id end.

(** The columns that a row takes from [secs[id]]: the portfolio and the
    ticker of the security, or "US" and no ticker for an inherited
    member. *)
Definition fromSecurity (secs : gmap string Security.t) (id : string)
    (row : Flow.t) : Prop :=
  match secs !! id with
  | Some sec =>
      Flow.Portfolio row
      = (if String.eqb (Security.Country sec) "INDIA" then "India" else "US")
      /\ Flow.Symbol row = Some (Security.Ticker sec)
  | None =>
      inherited id = true /\ Flow.Portfolio row = "US"
      /\ Flow.Symbol row = None
  end.

Definition listed (secs : gmap string Security.t) (t : Row.t) : bool :=
  known secs (Row.SecurityId t).

(** The key under which a lot is counted; none for a lot that is
    skipped. *)
Definition assetFields (l : Lot.t) : option (list string) :=
  if nnot (Lot.OpenQty l) || (Lot.OpenQty l <=? 0)%num then None
  else Some [keyOf (Lot.AssetId l)].

(** The row of a trade [t] of a security with the given portfolio, asset
    and ticker. *)
Definition flowOf (sec : string * option string * option string) (t : Row.t)
  : Flow.t :=
  let amt := (Row.Quantity t * Row.Price t)%num in
  Flow.mk sec.1.1 (Row.OwnerId t) (Row.SecurityId t) sec.1.2 sec.2 None
    (Some (Row.TradeDate t))
    (Some (if String.eqb (Row.Side t) "BUY" then nneg amt else amt))
    (Row.Side t).

(** * The CSV reader and the column letters

    [parseCSVLine] (src/csv-to-json.js, lines 55-92) and [columnLetter_]
    (src/Helpers.js, lines 128-137).  A string is a list of characters;
    the two functions compare characters with the double quote and the
    comma only, and build letters from character codes. *)

(** The double quote, character 34. *)
Definition dquote : Ascii.ascii := Ascii.ascii_of_nat 34.

(** The [for] loop of [parseCSVLine] from position [i] on: [line] is the
    part of the line from [i], and [nextChar] is its second character.
    The loop ends with [result.push(current)]. *)
Fixpoint parseCSVLoop (line : string) (inQuotes : bool) (current : string)
    (result : list string) : list string :=
  match line with
  | EmptyString => result ++ [current]
  | String char rest =>
      if inQuotes then
        if Ascii.eqb char dquote then
          match rest with
          | String nextChar rest' =>
              if Ascii.eqb nextChar dquote
              then parseCSVLoop rest' true (current +:+ String dquote "") result
              else parseCSVLoop rest false current result
          | EmptyString => parseCSVLoop rest false current result
          end
        else parseCSVLoop rest true (current +:+ String char "") result
      else
        if Ascii.eqb char dquote then parseCSVLoop rest true current result
        else if Ascii.eqb char ","
        then parseCSVLoop rest false "" (result ++ [current])
        else parseCSVLoop rest false (current +:+ String char "") result
  end.

Definition parseCSVLine (line : string) : list string :=
  parseCSVLoop line false "" [].

(** The string has no double quote in it. *)
Fixpoint quoteFree (s : string) : bool :=
  match s with
  | EmptyString => true
  | String c s' => negb (Ascii.eqb c dquote) && quoteFree s'
  end.

(** The usual way to write a field that [parseCSVLine] is to read back:
    every double quote doubled, and the whole between double quotes. *)
Fixpoint doubleQuotes (s : string) : string :=
  match s with
  | EmptyString => EmptyString
  | String c s' =>
      if Ascii.eqb c dquote
      then String dquote (String dquote (doubleQuotes s'))
      else String c (doubleQuotes s')
  end.

Definition quoted (field : string) : string :=
  String dquote (doubleQuotes field +:+ String dquote "").

(** [columnLetter_] for an integer column index.  The loop runs while
    [temp > 0]; its model runs out of [fuel] with [None].  [temp - 1] is
    not negative inside the loop, so that [%] is the modulus. *)
Fixpoint columnLetterLoop (fuel : nat) (temp : Z) (letter : string)
  : option string :=
  if (0 <? temp)%Z then
    match fuel with
    | O => None
    | S fuel' =>
        let rem := ((temp - 1) mod 26)%Z in
        columnLetterLoop fuel' ((temp - 1) / 26)%Z
          (String (Ascii.ascii_of_nat (Z.to_nat (65 + rem))) letter)
    end
  else Some letter.

Definition columnLetter_ (col : Z) : option string :=
  columnLetterLoop (Z.to_nat col) col "".

(** The column that a string of capital letters names: A is 1, Z is 26,
    AA is 27. *)
Definition columnIndex (letters : string) : Z :=
  foldl (fun acc c => (26 * acc + (Z.of_nat (Ascii.nat_of_ascii c) - 64))%Z)
    0%Z (String.list_ascii_of_string letters).

Definition capital (c : Ascii.ascii) : Prop :=
  (65 <= Ascii.nat_of_ascii c <= 90)%nat.
(** * Properties *)

(** ** Evaluation of closed terms *)

Lemma Fin_eq (a b : Qc) : (this a == this b)%Q -> Fin a = Fin b.
Proof. intros H. f_equal. by apply Qc_is_canon. Qed.

(** Decides an equation between closed terms that contain numbers. *)
Ltac js_eq :=
  vm_compute;
  repeat lazymatch goal with
    | |- Fin _ = Fin _ => apply Fin_eq; reflexivity
    | |- @eq Qc _ _ => apply Qc_is_canon; reflexivity
    | |- _ = _ => reflexivity || f_equal
    end.

(** ** Facts about [js_sort] *)

Section js_sort_facts.
Context {A : Type} (comparefn : A -> A -> option Z).

Lemma sort_insert_perm (x : A) (l : list A) :
  Permutation (sort_insert comparefn x l) (x :: l).
Proof.
  induction l as [|y l IH]; simpl; [done|].
  destruct (sort_gt comparefn x y); [|done].
  rewrite IH. apply perm_swap.
Qed.

Lemma js_sort_perm (l : list A) : Permutation (js_sort comparefn l) l.
Proof.
  induction l as [|x l IH]; simpl; [done|].
  by rewrite sort_insert_perm, IH.
Qed.

(** On elements where the comparator is consistent with a transitive
    relation [R], the result is sorted by [R]. *)
Context (P : A -> Prop) (R : A -> A -> Prop).
Hypothesis R_trans :
  forall x y z, P x -> P y -> P z -> R x y -> R y z -> R x z.
Hypothesis gt_R : forall x y, P x -> P y -> sort_gt comparefn x y = true -> R y x.
Hypothesis ngt_R : forall x y, P x -> P y -> sort_gt comparefn x y = false -> R x y.

Lemma sort_insert_sorted (x : A) (l : list A) :
  P x -> Forall P l -> StronglySorted R l ->
  StronglySorted R (sort_insert comparefn x l).
Proof using R_trans gt_R ngt_R.
  intros Px HP Hs. induction Hs as [|y l Hs IH Hy]; simpl.
  - repeat constructor.
  - apply Forall_cons in HP as [Py HP].
    destruct (sort_gt comparefn x y) eqn:E.
    + constructor; [by apply IH|].
      rewrite sort_insert_perm. constructor; [by apply gt_R|done].
    + constructor; [by constructor|].
      constructor; [by apply ngt_R|].
      rewrite Forall_forall in Hy, HP. apply Forall_forall.
      intros z Hz. apply (R_trans x y z); auto.
Qed.

Lemma js_sort_sorted (l : list A) :
  Forall P l -> StronglySorted R (js_sort comparefn l).
Proof using R_trans gt_R ngt_R.
  induction 1 as [|x l Px HP IH]; simpl; [constructor|].
  apply sort_insert_sorted; [done| |done].
  by rewrite js_sort_perm.
Qed.
End js_sort_facts.

(** ** C1: the order in which events are processed *)

Lemma in_order_trans (x y z : Event) :
  ranked x -> ranked y -> ranked z ->
  in_order x y -> in_order y z -> in_order x z.
Proof.
  unfold ranked, in_order. intros [[? ->] [? ->]] [[? ->] [? ->]] [[? ->] [? ->]].
  lia.
Qed.

Lemma byDateThenType_gt (x y : Event) :
  ranked x -> ranked y -> sort_gt byDateThenType x y = true -> in_order y x.
Proof.
  unfold ranked, in_order, sort_gt, byDateThenType, order_sub.
  intros [[dx ->] [px ->]] [[dy ->] [py ->]]. simpl.
  destruct (Z.eqb_spec (dx - dy) 0); intros H%Z.ltb_lt; lia.
Qed.

Lemma byDateThenType_ngt (x y : Event) :
  ranked x -> ranked y -> sort_gt byDateThenType x y = false -> in_order x y.
Proof.
  unfold ranked, in_order, sort_gt, byDateThenType, order_sub.
  intros [[dx ->] [px ->]] [[dy ->] [py ->]]. simpl.
  destruct (Z.eqb_spec (dx - dy) 0); intros H%Z.ltb_ge; lia.
Qed.

(** When every event has a valid date and a type listed in the priority
    table, the events are processed by ascending date and, within a date,
    by ascending priority, and they are the events of the two tables. *)
Lemma sortedEvents_ranked (trades actions : list Row.t) :
  Forall ranked (map tradeEvent trades ++ map actionEvent actions) ->
  StronglySorted in_order (sortedEvents trades actions)
  /\ Permutation (sortedEvents trades actions)
       (map tradeEvent trades ++ map actionEvent actions).
Proof.
  intros H. split; [|apply js_sort_perm].
  apply (js_sort_sorted byDateThenType ranked in_order); [| | |done].
  - apply in_order_trans.
  - apply byDateThenType_gt.
  - apply byDateThenType_ngt.
Qed.

(** C1 (defect): [order] has no entry for CLASS_REORG, so comparing a
    CLASS_REORG event with a same-day event yields NaN, which the sort takes
    as "equal".  With a same-day CLASS_REORG between them, a SELL stays in
    front of a SPLIT of the same date, although SPLIT has priority 2 and
    SELL priority 4. *)
Theorem C1_sell_processed_before_same_day_split :
  sortedEvents [ex_trade "T2" "SELL" 7 2 15 82]
               [ex_action "CLASS_REORG" 7 "G" "Y" 1 1 0;
                ex_action "SPLIT" 7 "X" "" 2 1 0]
  = [tradeEvent (ex_trade "T2" "SELL" 7 2 15 82);
     actionEvent (ex_action "CLASS_REORG" 7 "G" "Y" 1 1 0);
     actionEvent (ex_action "SPLIT" 7 "X" "" 2 1 0)]
  /\ Date (tradeEvent (ex_trade "T2" "SELL" 7 2 15 82))
     = Date (actionEvent (ex_action "SPLIT" 7 "X" "" 2 1 0))
  /\ order "SPLIT" = Some 2%Z /\ order "SELL" = Some 4%Z
  /\ order "CLASS_REORG" = None.
Proof. repeat split; reflexivity. Qed.

(** What the defect does to a rebuild: one share of X is bought on day 1;
    on day 7 two shares are sold and X splits 2:1.  With only these rows the
    SPLIT is applied first and the SELL consumes 2 shares.  With a
    CLASS_REORG of another security dated day 7 in front of the SPLIT row,
    the SELL is applied first and consumes only the 1 share then open. *)
Example same_day_split_then_sell :
  match rebuildLots [Sec.mk "X" "AX"; Sec.mk "Y" "AY"; Sec.mk "G" "AG"]
          [ex_trade "T1" "BUY" 1 1 10 80; ex_trade "T2" "SELL" 7 2 15 82]
          [ex_action "SPLIT" 7 "X" "" 2 1 0] with
  | Ok out => map Consume.Quantity (LotConsumes out) = [of_Z 2]
  | Throw _ => False
  end.
Proof. js_eq. Qed.

Example same_day_reorg_puts_sell_before_split :
  match rebuildLots [Sec.mk "X" "AX"; Sec.mk "Y" "AY"; Sec.mk "G" "AG"]
          [ex_trade "T1" "BUY" 1 1 10 80; ex_trade "T2" "SELL" 7 2 15 82]
          [ex_action "CLASS_REORG" 7 "G" "Y" 1 1 0;
           ex_action "SPLIT" 7 "X" "" 2 1 0] with
  | Ok out => map Consume.Quantity (LotConsumes out) = [of_Z 1]
  | Throw _ => False
  end.
Proof. js_eq. Qed.

(** ** Facts about the lot store *)

Lemma filter_map_NoDup {A B : Type} (f : A -> B) (g : A -> bool) (l : list A) :
  NoDup (map f l) -> NoDup (map f (List.filter g l)).
Proof.
  induction l as [|x l IH]; simpl; [done|].
  intros [Hx Hl]%NoDup_cons. destruct (g x); simpl; [|by apply IH].
  apply NoDup_cons. split; [|by apply IH].
  intros (y & Hy & Hin)%list_elem_of_fmap. apply Hx, list_elem_of_fmap.
  exists y. split; [done|].
  apply list_elem_of_In. apply list_elem_of_In, filter_In in Hin. tauto.
Qed.

Lemma imap_pair_fst {A : Type} (l : list A) :
  map fst (imap pair l) = seq 0 (length l).
Proof.
  change (fst <$> imap pair l = seq 0 (length l)).
  rewrite fmap_imap.
  rewrite <-(list_fmap_id (seq 0 (length l))), <-(imap_seq_0 l id).
  by apply imap_ext.
Qed.

Lemma select_In (keep : Lot.t -> bool) (ls : list Lot.t) i l :
  In (i, l) (select keep ls) <-> ls !! i = Some l /\ keep l = true.
Proof.
  unfold select. rewrite filter_In, <-list_elem_of_In, elem_of_lookup_imap.
  simpl. split.
  - intros [(j & y & [= -> ->] & Hj) Hk]. done.
  - intros [Hi Hk]. split; [|done]. by exists i, l.
Qed.

Lemma select_fst_NoDup (keep : Lot.t -> bool) (ls : list Lot.t) :
  NoDup (map fst (select keep ls)).
Proof.
  apply filter_map_NoDup. rewrite imap_pair_fst. apply NoDup_seq.
Qed.

Lemma select_NoDup (keep : Lot.t -> bool) (ls : list Lot.t) :
  NoDup (select keep ls).
Proof. apply (NoDup_fmap_1 fst), select_fst_NoDup. Qed.

(** The references that [openLotsBySecurity] returns are distinct, and they
    are the indices of the lots that pass the filter. *)
Lemma openLotsBySecurity_perm ls owner securityId :
  Permutation (openLotsBySecurity ls owner securityId)
    (map fst (select (openFor owner securityId) ls)).
Proof. unfold openLotsBySecurity. by rewrite js_sort_perm. Qed.

Lemma openLotsBySecurity_NoDup ls owner securityId :
  NoDup (openLotsBySecurity ls owner securityId).
Proof. rewrite openLotsBySecurity_perm. apply select_fst_NoDup. Qed.

Lemma openLotsBySecurity_In ls owner securityId i :
  In i (openLotsBySecurity ls owner securityId)
  <-> exists l, ls !! i = Some l /\ openFor owner securityId l = true.
Proof.
  rewrite <-list_elem_of_In, openLotsBySecurity_perm, list_elem_of_In.
  rewrite in_map_iff. split.
  - intros ([j l] & <- & Hin). exists l. by apply select_In.
  - intros (l & Hl). exists (i, l). split; [done|]. by apply select_In.
Qed.

Lemma two_elements {A : Type} (a b : A) (l : list A) :
  a <> b -> NoDup l -> (forall x, In x l <-> x = a \/ x = b) ->
  l = [a; b] \/ l = [b; a].
Proof.
  intros Hab Hl Hin. apply Permutation_length_2_inv.
  apply NoDup_Permutation; [|done|].
  - apply NoDup_cons. split; [|apply NoDup_singleton].
    by intros ->%list_elem_of_singleton.
  - intros x. rewrite (list_elem_of_In l x), Hin.
    rewrite elem_of_cons, list_elem_of_singleton. done.
Qed.

Lemma select_fst_In (keep : Lot.t -> bool) (ls : list Lot.t) i :
  In i (map fst (select keep ls))
  <-> exists l, ls !! i = Some l /\ keep l = true.
Proof.
  rewrite in_map_iff. split.
  - intros ([j l] & <- & Hin). exists l. by apply select_In.
  - intros (l & Hl). exists (i, l). split; [done|]. by apply select_In.
Qed.

(** ** The order of the references *)

Lemma imap_pair_sorted {A : Type} (f : nat -> nat) (l : list A) :
  (forall i j, (i < j)%nat -> (f i < f j)%nat) ->
  StronglySorted (fun a b : nat * A => (fst a < fst b)%nat)
    (imap (fun i x => (f i, x)) l).
Proof.
  revert f. induction l as [|x l IH]; intros f Hf; simpl; [constructor|].
  constructor.
  - apply (IH (f ∘ S)). intros i j Hij. apply Hf. lia.
  - apply Forall_forall. intros [k y] (j & z & [= -> ->] & _)%elem_of_lookup_imap.
    simpl. apply Hf. lia.
Qed.

Lemma filter_StronglySorted {A : Type} (R : A -> A -> Prop) (g : A -> bool)
    (l : list A) :
  StronglySorted R l -> StronglySorted R (List.filter g l).
Proof.
  induction 1 as [|x l Hs IH Hx]; simpl; [constructor|].
  destruct (g x); [|done]. constructor; [done|].
  rewrite Forall_forall in Hx. apply Forall_forall.
  intros y Hy%list_elem_of_In%filter_In. apply Hx, list_elem_of_In. tauto.
Qed.

Lemma select_sorted (keep : Lot.t -> bool) (ls : list Lot.t) :
  StronglySorted (fun a b : nat * Lot.t => (fst a < fst b)%nat)
    (select keep ls).
Proof.
  apply filter_StronglySorted. apply (imap_pair_sorted (fun i => i)). auto.
Qed.

Lemma pairBefore_trans (a b c : nat * Lot.t) :
  pairBefore a b -> pairBefore b c -> pairBefore a c.
Proof.
  unfold pairBefore.
  destruct (Lot.BuyDate (snd a)), (Lot.BuyDate (snd b)),
    (Lot.BuyDate (snd c)); try done.
  generalize (fst a) (fst b) (fst c). lia.
Qed.

(** The insertion keeps an element that is not older than [x] behind [x]
    only if it came after [x] in the store: the sort is stable. *)
Lemma sort_insert_stable (x : nat * Lot.t) (l : list (nat * Lot.t)) :
  is_Some (Lot.BuyDate (snd x)) ->
  Forall (fun y => is_Some (Lot.BuyDate (snd y))) l ->
  Forall (fun y => (fst x < fst y)%nat) l ->
  StronglySorted pairBefore l ->
  StronglySorted pairBefore (sort_insert byBuyDate x l).
Proof.
  intros [dx Hdx] Hv Hlt Hs.
  induction Hs as [|y l Hs IH Hy]; simpl; [repeat constructor|].
  apply Forall_cons in Hv as [[dy Hdy] Hv]. apply Forall_cons in Hlt as [Hxy Hlt].
  unfold sort_gt, byBuyDate. rewrite Hdx, Hdy. simpl.
  destruct (0 <? dx - dy)%Z eqn:E.
  - apply Z.ltb_lt in E. constructor; [by apply IH|].
    rewrite sort_insert_perm. constructor; [|done].
    unfold pairBefore. rewrite Hdx, Hdy. left. lia.
  - apply Z.ltb_ge in E.
    assert (Hb : pairBefore x y) by (unfold pairBefore; rewrite Hdx, Hdy; lia).
    constructor; [by constructor|]. constructor; [done|].
    eapply Forall_impl; [exact Hy|]. intros z. by apply pairBefore_trans.
Qed.

Lemma js_sort_stable (l : list (nat * Lot.t)) :
  Forall (fun y => is_Some (Lot.BuyDate (snd y))) l ->
  StronglySorted (fun a b : nat * Lot.t => (fst a < fst b)%nat) l ->
  StronglySorted pairBefore (js_sort byBuyDate l).
Proof.
  intros Hv Hs. induction Hs as [|x l Hs IH Hx]; simpl; [constructor|].
  apply Forall_cons in Hv as [Hvx Hv].
  apply sort_insert_stable; [done| | |by apply IH];
    by rewrite js_sort_perm.
Qed.

(** With valid acquisition dates the references come out by date, and
    for one date by position in the store. *)
Lemma openLotsBySecurity_sorted (ls : list Lot.t) (owner securityId : string) :
  (forall l, In l ls -> openFor owner securityId l = true ->
     is_Some (Lot.BuyDate l)) ->
  StronglySorted (fifoBefore ls) (openLotsBySecurity ls owner securityId).
Proof.
  intros Hv. unfold openLotsBySecurity.
  assert (Hsel : Forall (fun p : nat * Lot.t =>
                           ls !! fst p = Some (snd p)
                           /\ is_Some (Lot.BuyDate (snd p)))
                   (select (openFor owner securityId) ls)).
  { apply Forall_forall. intros [i l] [Hl Ho]%list_elem_of_In%select_In.
    split; [done|]. apply Hv; [|done].
    apply list_elem_of_In, list_elem_of_lookup. eauto. }
  assert (Hsorted : StronglySorted pairBefore
            (js_sort byBuyDate (select (openFor owner securityId) ls))).
  { apply js_sort_stable; [|apply select_sorted].
    eapply Forall_impl; [exact Hsel|]. by intros p [_ H]. }
  rewrite <-(js_sort_perm byBuyDate) in Hsel.
  induction Hsorted as [|p l Hs IH Hp]; simpl; [constructor|].
  apply Forall_cons in Hsel as [[Hp1 _] Hsel].
  constructor; [by apply IH|].
  apply Forall_forall. intros j (p' & <- & Hin)%list_elem_of_In%in_map_iff.
  rewrite Forall_forall in Hp, Hsel.
  apply list_elem_of_In in Hin.
  destruct (Hsel p' Hin) as [Hp' _]. specialize (Hp p' Hin).
  unfold fifoBefore, pairBefore in *. by rewrite Hp1, Hp'.
Qed.

(** ** Facts about numbers *)

Lemma Qc_of_Z_0 : Qc_of_Z 0 = 0%Qc.
Proof. by apply Qc_is_canon. Qed.

Lemma Qc_of_Z_1 : Qc_of_Z 1 = 1%Qc.
Proof. by apply Qc_is_canon. Qed.

Lemma nle_Fin (a b : Qc) : (Fin a <=? Fin b)%num = true <-> (a <= b)%Qc.
Proof. simpl. apply bool_decide_eq_true. Qed.

Lemma nlt_Fin (a b : Qc) : (Fin a <? Fin b)%num = true <-> (a < b)%Qc.
Proof. simpl. apply bool_decide_eq_true. Qed.

Lemma nle_0_Fin (q : Qc) : (Fin q <=? 0)%num = true <-> (q <= 0)%Qc.
Proof. unfold of_Z. rewrite Qc_of_Z_0. apply nle_Fin. Qed.

Lemma nlt_0_Fin (q : Qc) : (0 <? Fin q)%num = true <-> (0 < q)%Qc.
Proof. unfold of_Z. rewrite Qc_of_Z_0. apply nlt_Fin. Qed.

Lemma nle_0_pos (q : Qc) : (0 < q)%Qc -> (Fin q <=? 0)%num = false.
Proof.
  intros Hq. apply not_true_is_false. rewrite nle_0_Fin.
  by apply Qclt_not_le.
Qed.

Lemma nsub_Fin (a b : Qc) : (Fin a - Fin b)%num = Fin (a - b)%Qc.
Proof. reflexivity. Qed.

Lemma nsub_diag (q : Qc) : (Fin q - Fin q)%num = 0%num.
Proof.
  rewrite nsub_Fin. unfold of_Z. rewrite Qc_of_Z_0. f_equal. ring.
Qed.

(** [Math.min(o, q)] is [q] when [q <= o]. *)
Lemma nmin_le (o : num) (q : Qc) :
  (Fin q <=? o)%num = true -> nmin o (Fin q) = Fin q.
Proof.
  destruct o as [o| | |]; simpl; try done.
  intros Hle%bool_decide_eq_true. case_bool_decide as Hlt; [done|].
  f_equal. apply Qcle_antisym; [by apply Qcnot_lt_le|done].
Qed.

Lemma nmin_Fin (a b : Qc) :
  nmin (Fin a) (Fin b) = Fin (if decide (b < a)%Qc then b else a).
Proof.
  unfold nmin, nlt.
  destruct (decide (b < a)%Qc);
    [rewrite bool_decide_eq_true_2|rewrite bool_decide_eq_false_2]; done.
Qed.

(** ** Facts about the event dispatch *)

Lemma bind_Ok {A : Type} (r : result A) : bind r Ok = r.
Proof. by destruct r. Qed.

Lemma applyEvent_BUY secs st e :
  Type_ e = "BUY" -> applyEvent secs st e = ruleBUY secs (Data e) st.
Proof.
  intros H. unfold applyEvent, when. rewrite H. simpl.
  by destruct (ruleBUY secs (Data e) st).
Qed.

Lemma applyEvent_CLASS_REORG secs st e :
  Type_ e = "CLASS_REORG" ->
  applyEvent secs st e = ruleCLASS_REORG secs (Data e) st.
Proof.
  intros H. unfold applyEvent, when. rewrite H. simpl.
  by destruct (ruleCLASS_REORG secs (Data e) st).
Qed.

Lemma applyEvent_SELL secs st e :
  Type_ e = "SELL" -> applyEvent secs st e = ruleSELL secs (Data e) st.
Proof.
  intros H. unfold applyEvent, when. rewrite H. simpl.
  by destruct (ruleSELL secs (Data e) st).
Qed.

Lemma applyEvent_SPLIT secs st e :
  Type_ e = "SPLIT" -> applyEvent secs st e = ruleSPLIT (Data e) st.
Proof. intros H. unfold applyEvent, when. by rewrite H. Qed.

Lemma applyEvent_BONUS secs st e :
  Type_ e = "BONUS" -> applyEvent secs st e = ruleBONUS secs (Data e) st.
Proof.
  intros H. unfold applyEvent, when. rewrite H. simpl.
  by destruct (ruleBONUS secs (Data e) st).
Qed.

Lemma applyEvent_MERGER secs st e :
  Type_ e = "MERGER" -> applyEvent secs st e = ruleMERGER secs (Data e) st.
Proof.
  intros H. unfold applyEvent, when. rewrite H. simpl.
  by destruct (ruleMERGER secs (Data e) st).
Qed.

Lemma applyEvent_GIFT secs st e :
  Type_ e = "GIFT" -> applyEvent secs st e = ruleGIFT secs (Data e) st.
Proof.
  intros H. unfold applyEvent, when. rewrite H. simpl.
  by destruct (ruleGIFT secs (Data e) st).
Qed.

Lemma applyEvent_TRANSFER secs st e :
  Type_ e = "TRANSFER" ->
  applyEvent secs st e = ruleTRANSFER secs (Data e) st.
Proof. intros H. unfold applyEvent, when. by rewrite H. Qed.

(** ** C2: FIFO consumption by SELL *)

Lemma nle_0_0 : (0 <=? 0)%num = true.
Proof. reflexivity. Qed.

(** Two open lots with acquisition dates [d1 < d2] are returned oldest
    first, whatever their positions in the lot store. *)
Lemma openLotsBySecurity_two ls owner securityId i1 i2 l1 l2 d1 d2 :
  i1 <> i2 ->
  ls !! i1 = Some l1 -> ls !! i2 = Some l2 ->
  (forall i l, ls !! i = Some l ->
     openFor owner securityId l = true <-> i = i1 \/ i = i2) ->
  Lot.BuyDate l1 = Some d1 -> Lot.BuyDate l2 = Some d2 -> (d1 < d2)%Z ->
  openLotsBySecurity ls owner securityId = [i1; i2].
Proof.
  intros Hne H1 H2 Hex Hd1 Hd2 Hlt.
  assert (Hsel : select (openFor owner securityId) ls = [(i1, l1); (i2, l2)]
              \/ select (openFor owner securityId) ls = [(i2, l2); (i1, l1)]).
  { apply two_elements; [congruence|apply select_NoDup|].
    intros [i l]. rewrite select_In. split.
    - intros [Hl Ho]. destruct (proj1 (Hex i l Hl) Ho) as [-> | ->].
      + left. congruence.
      + right. congruence.
    - intros [[= -> ->] | [= -> ->]]; (split; [done|]).
      + apply (Hex i1 l1); auto.
      + apply (Hex i2 l2); auto. }
  assert (Hgt : (0 <? d2 - d1)%Z = true) by (apply Z.ltb_lt; lia).
  assert (Hngt : (0 <? d1 - d2)%Z = false) by (apply Z.ltb_ge; lia).
  unfold openLotsBySecurity.
  destruct Hsel as [-> | ->]; simpl; unfold sort_gt, byBuyDate; simpl;
    rewrite Hd1, Hd2; simpl; by rewrite ?Hgt, ?Hngt.
Qed.

(** C2: an owner holds exactly two open lots of a security, at [i1] and [i2]
    in the lot store, acquired on [d1 < d2].  A SELL of a quantity [q] with
    [0 < q <= OpenQty l1] appends exactly one consumption record [c]:
    quantity [q], costs the fraction [q / OpenQty l1] of the costs of lot 1,
    native proceeds [q * Price], reporting proceeds that times the sale FX
    rate.  Only lot 1 changes: its quantity and aggregate costs decrease by
    the amounts in [c], its per-share cost stays, and lot 2 is as before. *)
Theorem C2_sell_consumes_oldest_lot_only
    (secs : gmap string Sec.t) (st : State) (e : Event)
    (i1 i2 : nat) (l1 l2 : Lot.t) (d1 d2 : Z) (q : Qc) :
  Type_ e = "SELL" ->
  is_Some (secs !! Row.SecurityId (Data e)) ->
  i1 <> i2 ->
  lots st !! i1 = Some l1 -> lots st !! i2 = Some l2 ->
  (forall i l, lots st !! i = Some l ->
     openFor (Row.OwnerId (Data e)) (Row.SecurityId (Data e)) l = true
     <-> i = i1 \/ i = i2) ->
  Lot.BuyDate l1 = Some d1 -> Lot.BuyDate l2 = Some d2 -> (d1 < d2)%Z ->
  Row.Quantity (Data e) = Fin q -> (0 < q)%Qc ->
  (Fin q <=? Lot.OpenQty l1)%num = true ->
  exists st' c l1',
    applyEvent secs st e = Ok st'
    /\ consumes st' = consumes st ++ [c]
    /\ Consume.Quantity c = Fin q
    /\ Consume.CostNative c
       = (Lot.CostNative l1 * (Fin q / Lot.OpenQty l1))%num
    /\ Consume.CostINR c = (Lot.CostINR l1 * (Fin q / Lot.OpenQty l1))%num
    /\ Consume.ProceedsNative c = (Fin q * Row.Price (Data e))%num
    /\ Consume.ProceedsINR c
       = (Consume.ProceedsNative c * Row.FXRateToINR (Data e))%num
    /\ lots st' = <[i1 := l1']> (lots st)
    /\ l1' = Lot.reduce l1 (Consume.Quantity c) (Consume.CostNative c)
               (Consume.CostINR c)
    /\ Lot.OpenQty l1' = (Lot.OpenQty l1 - Consume.Quantity c)%num
    /\ Lot.CostNative l1' = (Lot.CostNative l1 - Consume.CostNative c)%num
    /\ Lot.CostINR l1' = (Lot.CostINR l1 - Consume.CostINR c)%num
    /\ Lot.CostPriceNative l1' = Lot.CostPriceNative l1
    /\ lots st' !! i2 = Some l2.
Proof.
  intros HT [s Hs] Hne H1 H2 Hex Hd1 Hd2 Hlt Hq Hpos Hle.
  rewrite applyEvent_SELL by done.
  unfold ruleSELL, assetId_of. rewrite Hs. simpl.
  rewrite (openLotsBySecurity_two _ _ _ i1 i2 l1 l2 d1 d2) by done.
  simpl. rewrite Hq, (nle_0_pos q Hpos), H1, (nmin_le _ _ Hle), nsub_diag.
  rewrite nle_0_0.
  eexists _, _, _. split; [reflexivity|]. simpl.
  repeat (split; [reflexivity|]).
  by rewrite list_lookup_insert_ne.
Qed.

Lemma C2_sell_consumes_oldest_lot_only_witness :
  exists st' c l1',
    applyEvent ex_secs ex_two_lots ex_sell = Ok st'
    /\ consumes st' = consumes ex_two_lots ++ [c]
    /\ Consume.Quantity c = Fin (Qc_of_Z 40)
    /\ Consume.CostNative c
       = (Lot.CostNative (ex_lot "LOT_1" "O1" "X" 1 100 10 80)
          * (Fin (Qc_of_Z 40)
             / Lot.OpenQty (ex_lot "LOT_1" "O1" "X" 1 100 10 80)))%num
    /\ Consume.CostINR c
       = (Lot.CostINR (ex_lot "LOT_1" "O1" "X" 1 100 10 80)
          * (Fin (Qc_of_Z 40)
             / Lot.OpenQty (ex_lot "LOT_1" "O1" "X" 1 100 10 80)))%num
    /\ Consume.ProceedsNative c
       = (Fin (Qc_of_Z 40) * Row.Price (Data ex_sell))%num
    /\ Consume.ProceedsINR c
       = (Consume.ProceedsNative c * Row.FXRateToINR (Data ex_sell))%num
    /\ lots st' = <[0%nat := l1']> (lots ex_two_lots)
    /\ l1' = Lot.reduce (ex_lot "LOT_1" "O1" "X" 1 100 10 80)
               (Consume.Quantity c) (Consume.CostNative c)
               (Consume.CostINR c)
    /\ Lot.OpenQty l1'
       = (Lot.OpenQty (ex_lot "LOT_1" "O1" "X" 1 100 10 80)
          - Consume.Quantity c)%num
    /\ Lot.CostNative l1'
       = (Lot.CostNative (ex_lot "LOT_1" "O1" "X" 1 100 10 80)
          - Consume.CostNative c)%num
    /\ Lot.CostINR l1'
       = (Lot.CostINR (ex_lot "LOT_1" "O1" "X" 1 100 10 80)
          - Consume.CostINR c)%num
    /\ Lot.CostPriceNative l1'
       = Lot.CostPriceNative (ex_lot "LOT_1" "O1" "X" 1 100 10 80)
    /\ lots st' !! 1%nat = Some (ex_lot "LOT_2" "O1" "X" 3 50 12 81).
Proof.
  apply (C2_sell_consumes_oldest_lot_only ex_secs ex_two_lots ex_sell
           0 1 _ _ 1 3 (Qc_of_Z 40)); try reflexivity.
  - by eexists.
  - lia.
  - intros [|[|i]] l; simpl; intros [= <-]; vm_compute; split; auto;
      intros [|]; done.
Defined.

(** ** C3: SPLIT and MERGER conserve aggregate cost *)

Lemma sumOver_map (f : Lot.t -> num) (g : Lot.t -> Lot.t) ls refs :
  (forall l, f (g l) = f l) ->
  sumOver f (map g ls) refs = sumOver f ls refs.
Proof.
  intros Hfg. induction refs as [|i refs IH]; simpl; [done|].
  change (map g ls) with (g <$> ls). rewrite list_lookup_fmap.
  destruct (ls !! i); simpl; by rewrite ?Hfg, <-IH.
Qed.

(** C3: a SPLIT, and a MERGER whose target security is listed, leave the
    aggregate native and reporting cost of every lot as it was, so their
    sums over the affected lots (the open lots of the named security) are
    the same before and after.  SPLIT multiplies the open quantity of an
    affected lot by numerator/denominator and divides its per-share cost by
    that factor; MERGER sets the quantity to floor(quantity * ratio).  No
    other lot changes. *)
Theorem C3_split_and_merger_conserve_cost
    (secs : gmap string Sec.t) (st : State) (e : Event) :
  let d := Data e in
  let affected :=
    map fst (select (affectedBy (Row.SecurityId d)) (lots st)) in
  let ratio := (Row.SplitNumerator d / Row.SplitDenominator d)%num in
  Type_ e = "SPLIT"
  \/ (Type_ e = "MERGER" /\ is_Some (secs !! Row.SecurityToId d)) ->
  exists st',
    applyEvent secs st e = Ok st'
    /\ sumOver Lot.CostNative (lots st') affected
       = sumOver Lot.CostNative (lots st) affected
    /\ sumOver Lot.CostINR (lots st') affected
       = sumOver Lot.CostINR (lots st) affected
    /\ length (lots st') = length (lots st)
    /\ forall i l, lots st !! i = Some l ->
       exists l', lots st' !! i = Some l'
         /\ Lot.CostNative l' = Lot.CostNative l
         /\ Lot.CostINR l' = Lot.CostINR l
         /\ (affectedBy (Row.SecurityId d) l = false -> l' = l)
         /\ (affectedBy (Row.SecurityId d) l = true ->
             (Type_ e = "SPLIT" ->
                Lot.OpenQty l' = (Lot.OpenQty l * ratio)%num
                /\ Lot.CostPriceNative l'
                   = (Lot.CostPriceNative l / ratio)%num)
             /\ (Type_ e = "MERGER" ->
                Lot.OpenQty l' = nfloor (Lot.OpenQty l * ratio))).
Proof.
  intros d affected ratio [HT | [HT [s Hs]]].
  - rewrite applyEvent_SPLIT by done. unfold ruleSPLIT. fold d ratio.
    eexists. split; [reflexivity|]. simpl.
    split; [|split; [|split]].
    + apply sumOver_map. intros l. by destruct (affectedBy _ l).
    + apply sumOver_map. intros l. by destruct (affectedBy _ l).
    + apply length_map.
    + intros i l Hl. change (map ?g ?x) with (g <$> x).
      rewrite list_lookup_fmap, Hl. simpl. eexists. split; [reflexivity|].
      destruct (affectedBy _ l); simpl; repeat split; try done;
        intros; congruence.
  - rewrite applyEvent_MERGER by done. unfold ruleMERGER, assetId_of.
    fold d ratio. rewrite Hs. simpl.
    eexists. split; [reflexivity|]. simpl.
    split; [|split; [|split]].
    + apply sumOver_map. intros l. by destruct (affectedBy _ l).
    + apply sumOver_map. intros l. by destruct (affectedBy _ l).
    + apply length_map.
    + intros i l Hl. change (map ?g ?x) with (g <$> x).
      rewrite list_lookup_fmap, Hl. simpl. eexists. split; [reflexivity|].
      destruct (affectedBy _ l); simpl; repeat split; try done;
        intros; congruence.
Qed.

(** ** C4: open quantities stay non-negative *)

(** Turns a goal about the order of [Qc] into one about [Q]. *)
Ltac qc2q :=
  unfold Qcle, Qclt, Qcminus, Qcplus, Qcmult, Qcopp, Q2Qc, Qc_of_Z in *;
  cbn [this] in *; rewrite ?Qred_correct in *.

Lemma nonneg_Fin (q : Qc) : nonneg (Fin q) <-> (0 <= q)%Qc.
Proof. unfold nonneg, of_Z. rewrite Qc_of_Z_0. apply nle_Fin. Qed.

Lemma nonneg_0 : nonneg 0%num.
Proof. reflexivity. Qed.

Lemma nonneg_cases (x : num) :
  nonneg x -> x = PInf \/ exists q, x = Fin q /\ (0 <= q)%Qc.
Proof.
  destruct x as [q| | |]; try done; [|by left].
  intros H%nonneg_Fin. right. by exists q.
Qed.

Lemma nmin_Fin_cases (o : num) (q : Qc) :
  nonneg o ->
  (nmin o (Fin q) = Fin q /\ (Fin q <=? o)%num = true)
  \/ (exists p, o = Fin p /\ nmin o (Fin q) = Fin p /\ (p <= q)%Qc).
Proof.
  intros [-> | (p & -> & Hp)]%nonneg_cases; [by left|].
  simpl. case_bool_decide as Hlt.
  - left. split; [done|]. apply bool_decide_eq_true. by apply Qclt_le_weak.
  - right. exists p. repeat split. by apply Qcnot_lt_le.
Qed.

(** What is left of a lot after [Math.min(OpenQty, qty)] is taken. *)
Lemma nonneg_sub_min (o : num) (q : Qc) :
  nonneg o -> nonneg (o - nmin o (Fin q)).
Proof.
  intros Ho. destruct (nmin_Fin_cases o q Ho) as [[-> Hle] | (p & -> & -> & _)].
  - destruct o as [p| | |]; try done.
    apply nle_Fin in Hle. rewrite nsub_Fin. apply nonneg_Fin.
    qc2q. lra.
  - rewrite nsub_diag. apply nonneg_0.
Qed.

Lemma fin_sub_min (o : num) (q : Qc) :
  nonneg o -> is_fin (Fin q - nmin o (Fin q)).
Proof.
  intros Ho. destruct (nmin_Fin_cases o q Ho) as [[-> _] | (p & -> & -> & _)];
    rewrite nsub_Fin; by eexists.
Qed.

Lemma nonneg_min (o : num) (q : Qc) :
  nonneg o -> (0 < q)%Qc -> nonneg (nmin o (Fin q)).
Proof.
  intros Ho Hq.
  destruct (nmin_Fin_cases o q Ho) as [[-> _] | (p & -> & -> & _)].
  - apply nonneg_Fin. by apply Qclt_le_weak.
  - done.
Qed.

Lemma nonneg_mul_positive (o r : num) :
  nonneg o -> positive r -> nonneg (o * r).
Proof.
  intros [-> | (p & -> & Hp)]%nonneg_cases (q & -> & Hq).
  - unfold nmul. simpl. apply Qclt_alt in Hq.
    rewrite Qc_of_Z_0. rewrite (Qcgt_alt q 0) in Hq. by rewrite Hq.
  - simpl. apply nonneg_Fin. qc2q. nra.
Qed.

Lemma nonneg_floor (x : num) : nonneg x -> nonneg (nfloor x).
Proof.
  intros [-> | (p & -> & Hp)]%nonneg_cases; [done|].
  simpl. apply nonneg_Fin. qc2q.
  change 0%Q with (inject_Z 0). rewrite <-Zle_Qle, <-(Qfloor_Z 0).
  by apply Qfloor_resp_le.
Qed.

#[global] Arguments nadd : simpl never.
#[global] Arguments nsub : simpl never.
#[global] Arguments nmul : simpl never.
#[global] Arguments ndiv : simpl never.
#[global] Arguments nlt : simpl never.
#[global] Arguments nle : simpl never.
#[global] Arguments nmin : simpl never.
#[global] Arguments nfloor : simpl never.

Lemma applyEvent_other secs st e :
  Type_ e <> "BUY" -> Type_ e <> "CLASS_REORG" -> Type_ e <> "SELL" ->
  Type_ e <> "SPLIT" -> Type_ e <> "BONUS" -> Type_ e <> "MERGER" ->
  Type_ e <> "GIFT" -> Type_ e <> "TRANSFER" ->
  applyEvent secs st e = Ok st.
Proof.
  intros H1 H2 H3 H4 H5 H6 H7 H8. unfold applyEvent, when.
  apply String.eqb_neq in H1, H2, H3, H4, H5, H6, H7, H8.
  by rewrite H1, H2, H3, H4, H5, H6, H7, H8.
Qed.

Lemma nonnegStore_push st mk :
  nonnegStore st -> (forall id, nonneg (Lot.OpenQty (mk id))) ->
  nonnegStore (push_lot st mk).
Proof.
  intros Hst Hmk. unfold nonnegStore. simpl.
  apply Forall_app. split; [done|]. by constructor.
Qed.

Lemma nonnegStore_update st i l :
  nonnegStore st -> nonneg (Lot.OpenQty l) -> nonnegStore (update_lot st i l).
Proof. intros Hst Hl. by apply Forall_insert. Qed.

Lemma nonnegStore_lookup st i l :
  nonnegStore st -> lots st !! i = Some l -> nonneg (Lot.OpenQty l).
Proof. intros Hst Hl. by apply (Forall_lookup_1 _ _ _ _ Hst Hl). Qed.

Lemma nle_0_false (q : Qc) : (Fin q <=? 0)%num = false -> (0 < q)%Qc.
Proof.
  intros H. apply Qcnot_le_lt. intros Hle%nle_0_Fin. congruence.
Qed.

Lemma sellLoop_nonneg d assetId salePrice saleFX refs q st :
  nonnegStore st ->
  nonnegStore (sellLoop d assetId salePrice saleFX refs (Fin q) st).
Proof.
  revert q st. induction refs as [|i refs IH]; intros q st Hst; simpl; [done|].
  destruct (Fin q <=? 0)%num; [done|].
  destruct (lots st !! i) as [lot|] eqn:Hl; [|by apply IH].
  pose proof (nonnegStore_lookup _ _ _ Hst Hl) as Ho.
  destruct (fin_sub_min _ q Ho) as [q' ->]. apply IH.
  apply nonnegStore_update; [done|]. by apply nonneg_sub_min.
Qed.

Lemma giftLoop_nonneg d assetId refs q st :
  nonnegStore st -> nonnegStore (giftLoop d assetId refs (Fin q) st).
Proof.
  revert q st. induction refs as [|i refs IH]; intros q st Hst; simpl; [done|].
  destruct (Fin q <=? 0)%num eqn:Hq; [done|]. apply nle_0_false in Hq.
  destruct (lots st !! i) as [lot|] eqn:Hl; [|by apply IH].
  pose proof (nonnegStore_lookup _ _ _ Hst Hl) as Ho.
  destruct (fin_sub_min _ q Ho) as [q' ->]. apply IH.
  apply nonnegStore_update; [|by apply nonneg_sub_min].
  apply nonnegStore_push; [done|]. intros id. by apply nonneg_min.
Qed.

Lemma transferLoop_nonneg d assetId refs q st :
  nonnegStore st -> nonnegStore (transferLoop d assetId refs (Fin q) st).
Proof.
  revert q st. induction refs as [|i refs IH]; intros q st Hst; simpl; [done|].
  destruct (Fin q <=? 0)%num eqn:Hq; [done|]. apply nle_0_false in Hq.
  destruct (lots st !! i) as [lot|] eqn:Hl; [|by apply IH].
  pose proof (nonnegStore_lookup _ _ _ Hst Hl) as Ho.
  destruct (fin_sub_min _ q Ho) as [q' ->]. apply IH.
  destruct (nmin (Lot.OpenQty lot) (Fin q) <? Lot.OpenQty lot)%num.
  - apply nonnegStore_update; [|by apply nonneg_sub_min].
    apply nonnegStore_push; [done|]. intros id. by apply nonneg_min.
  - by apply nonnegStore_update.
Qed.

Lemma reorg_nonneg toSec toAssetId qtyRatio crn cro refs st :
  positive qtyRatio -> nonnegStore st ->
  nonnegStore (foldl (reorgLot toSec toAssetId qtyRatio crn cro) st refs).
Proof.
  intros Hr. revert st. induction refs as [|i refs IH]; intros st Hst; simpl;
    [done|].
  apply IH. unfold reorgLot. destruct (lots st !! i) as [lot|] eqn:Hl; [|done].
  pose proof (nonnegStore_lookup _ _ _ Hst Hl) as Ho.
  apply nonnegStore_update; [|done].
  apply nonnegStore_push; [done|]. intros id. by apply nonneg_mul_positive.
Qed.

Lemma bonus_nonneg d assetId bonusRatio ls st :
  nonnegStore st ->
  nonnegStore (foldl (bonusLot d assetId bonusRatio) st ls).
Proof.
  revert st. induction ls as [|l ls IH]; intros st Hst; simpl; [done|].
  apply IH. unfold bonusLot.
  destruct (0 <? Lot.OpenQty l * bonusRatio)%num eqn:Hb; [|done].
  apply nonnegStore_push; [done|]. intros id. simpl.
  unfold nonneg. destruct (Lot.OpenQty l * bonusRatio)%num; try done.
  apply nlt_0_Fin in Hb. apply nonneg_Fin. by apply Qclt_le_weak.
Qed.

(** One event keeps the invariant. *)
Lemma applyEvent_nonneg secs st e st' :
  wellFormed e -> nonnegStore st ->
  applyEvent secs st e = Ok st' -> nonnegStore st'.
Proof.
  intros (HB & HQ & HR & HC) Hst.
  destruct (decide (Type_ e = "BUY")) as [T|T1].
  { rewrite applyEvent_BUY by done. unfold ruleBUY.
    destruct (assetId_of _ _); simpl; [|done]. intros [= <-].
    apply nonnegStore_push; [done|]. intros id. by apply HB. }
  destruct (decide (Type_ e = "CLASS_REORG")) as [T|T2].
  { rewrite applyEvent_CLASS_REORG by done. unfold ruleCLASS_REORG.
    do 2 (destruct (assetId_of _ _); simpl; [|done]). intros [= <-].
    apply reorg_nonneg; [by apply HC|done]. }
  destruct (decide (Type_ e = "SELL")) as [T|T3].
  { rewrite applyEvent_SELL by done. unfold ruleSELL.
    destruct (assetId_of _ _); simpl; [|done]. intros [= <-].
    destruct HQ as [q ->]; [by left|]. by apply sellLoop_nonneg. }
  destruct (decide (Type_ e = "SPLIT")) as [T|T4].
  { rewrite applyEvent_SPLIT by done. unfold ruleSPLIT. intros [= <-].
    unfold nonnegStore. simpl. apply Forall_map.
    eapply Forall_impl; [exact Hst|]. intros l Hl. simpl.
    destruct (affectedBy _ l); [|done]. simpl.
    apply nonneg_mul_positive; [done|]. apply HR. by left. }
  destruct (decide (Type_ e = "BONUS")) as [T|T5].
  { rewrite applyEvent_BONUS by done. unfold ruleBONUS.
    destruct (assetId_of _ _); simpl; [|done]. intros [= <-].
    by apply bonus_nonneg. }
  destruct (decide (Type_ e = "MERGER")) as [T|T6].
  { rewrite applyEvent_MERGER by done. unfold ruleMERGER.
    destruct (assetId_of _ _); simpl; [|done]. intros [= <-].
    unfold nonnegStore. simpl. apply Forall_map.
    eapply Forall_impl; [exact Hst|]. intros l Hl. simpl.
    destruct (affectedBy _ l); [|done]. simpl.
    apply nonneg_floor, nonneg_mul_positive; [done|]. apply HR. by right. }
  destruct (decide (Type_ e = "GIFT")) as [T|T7].
  { rewrite applyEvent_GIFT by done. unfold ruleGIFT.
    destruct (assetId_of _ _); simpl; [|done]. intros [= <-].
    destruct HQ as [q ->]; [by right; left|]. by apply giftLoop_nonneg. }
  destruct (decide (Type_ e = "TRANSFER")) as [T|T8].
  { rewrite applyEvent_TRANSFER by done. unfold ruleTRANSFER.
    destruct (assetId_of _ _); simpl; [|done]. intros [= <-].
    destruct HQ as [q ->]; [by right; right|]. by apply transferLoop_nonneg. }
  rewrite applyEvent_other by done. by intros [= <-].
Qed.

Lemma replay_nonneg secs events st st' :
  Forall wellFormed events -> nonnegStore st ->
  replay secs events st = Ok st' -> nonnegStore st'.
Proof.
  intros Hwf. revert st. induction Hwf as [|e events He Hwf IH]; intros st Hst;
    simpl.
  - by intros [= <-].
  - destruct (applyEvent secs st e) as [st1|] eqn:H1; simpl; [|done].
    apply IH. by apply (applyEvent_nonneg secs st e).
Qed.

(** C4 (amended): when every BUY quantity is at least 0, every SELL, GIFT
    and TRANSFER quantity is a finite number and every SPLIT, MERGER and
    CLASS_REORG ratio is a finite number greater than 0, then after every
    prefix of the event sequence that is processed, every lot in the lot
    store has an open quantity of at least 0. *)
Theorem C4_open_quantity_nonneg_on_well_formed_input
    (secs : gmap string Sec.t) (trades actions : list Row.t)
    (k : nat) (st : State) :
  Forall wellFormed (map tradeEvent trades ++ map actionEvent actions) ->
  replay secs (take k (sortedEvents trades actions)) init = Ok st ->
  nonnegStore st.
Proof.
  intros Hwf. apply replay_nonneg; [|constructor].
  apply Forall_take. unfold sortedEvents. by rewrite js_sort_perm.
Qed.

Lemma C4_open_quantity_nonneg_on_well_formed_input_witness :
  match replay ex_secs
          (take 2 (sortedEvents [ex_trade "T1" "BUY" 1 100 10 80;
                                 ex_trade "T2" "SELL" 5 40 15 82] []))
          init with
  | Ok st => nonnegStore st
  | Throw _ => False
  end.
Proof.
  destruct (replay _ _ _) as [st|] eqn:E.
  - refine (C4_open_quantity_nonneg_on_well_formed_input _ _ _ _ _ _ E).
    simpl. repeat apply Forall_cons_2; [| |apply Forall_nil_2];
      (split; [|split; [|split]]); simpl; try discriminate;
      try (intros [|]; discriminate); try (intros [|[|]]; discriminate);
      intros _; first [reflexivity | by eexists].
  - vm_compute in E. discriminate.
Defined.

(** C4 as stated fails: a BUY row with quantity -5 puts a lot with open
    quantity -5 into the lot store. *)
Lemma C4_counterexample_negative_buy :
  exists st l,
    replay ex_secs (take 1 (sortedEvents [ex_trade "T1" "BUY" 1 (-5) 10 80] []))
      init = Ok st
    /\ lots st = [l]
    /\ Lot.OpenQty l = of_Z (-5)
    /\ (0 <=? Lot.OpenQty l)%num = false.
Proof. eexists _, _. repeat split. Qed.

(** ** C5: what aborts the rebuild *)

Lemma assetId_of_None secs id :
  secs !! id = None -> inherited id = false ->
  assetId_of secs id = Throw TypeError.
Proof. intros H Hi. unfold assetId_of. by rewrite H, Hi. Qed.

Lemma applyEvent_missing_security secs st e id :
  In id (consulted e) -> secs !! id = None -> inherited id = false ->
  applyEvent secs st e = Throw TypeError.
Proof.
  unfold consulted. intros Hin Hid Hinh.
  destruct (String.eqb_spec (Type_ e) "BUY") as [T|_].
  { destruct Hin as [<-|[]]. rewrite applyEvent_BUY by done.
    unfold ruleBUY. by rewrite assetId_of_None. }
  destruct (String.eqb_spec (Type_ e) "SELL") as [T|_].
  { destruct Hin as [<-|[]]. rewrite applyEvent_SELL by done.
    unfold ruleSELL. by rewrite assetId_of_None. }
  destruct (String.eqb_spec (Type_ e) "BONUS") as [T|_].
  { destruct Hin as [<-|[]]. rewrite applyEvent_BONUS by done.
    unfold ruleBONUS. by rewrite assetId_of_None. }
  destruct (String.eqb_spec (Type_ e) "GIFT") as [T|_].
  { destruct Hin as [<-|[]]. rewrite applyEvent_GIFT by done.
    unfold ruleGIFT. by rewrite assetId_of_None. }
  destruct (String.eqb_spec (Type_ e) "TRANSFER") as [T|_].
  { destruct Hin as [<-|[]]. rewrite applyEvent_TRANSFER by done.
    unfold ruleTRANSFER. by rewrite assetId_of_None. }
  destruct (String.eqb_spec (Type_ e) "CLASS_REORG") as [T|_].
  { rewrite applyEvent_CLASS_REORG by done. unfold ruleCLASS_REORG.
    destruct Hin as [<-|[<-|[]]].
    - by rewrite assetId_of_None.
    - destruct (assetId_of secs (Row.SecurityId _)); simpl; [|by destruct e0].
      by rewrite assetId_of_None. }
  destruct (String.eqb_spec (Type_ e) "MERGER") as [T|_]; [|done].
  destruct Hin as [<-|[]]. rewrite applyEvent_MERGER by done.
  unfold ruleMERGER. by rewrite assetId_of_None.
Qed.

Lemma replay_missing_security secs events st e id :
  In e events -> In id (consulted e) -> secs !! id = None ->
  inherited id = false ->
  replay secs events st = Throw TypeError.
Proof.
  intros He Hin Hid Hinh. revert st.
  induction events as [|e' events IH]; intros st; [done|]. simpl.
  destruct He as [->|He].
  - by rewrite (applyEvent_missing_security secs st e id).
  - destruct (applyEvent secs st e') as [st1|[]]; simpl; [by apply IH|done].
Qed.

(** C5 (amended): when the rule of some event looks up a security that is
    absent from the directory -- the SecurityId of a BUY, SELL, BONUS, GIFT,
    TRANSFER or CLASS_REORG, the SecurityToId of a CLASS_REORG or MERGER --
    and the identifier is not the name of a member that every object
    inherits, [rebuildLots] ends with an exception and writes no output. *)
Theorem C5_missing_security_aborts_rebuild
    (securities : list Sec.t) (trades actions : list Row.t)
    (e : Event) (id : string) :
  In e (sortedEvents trades actions) ->
  In id (consulted e) ->
  secs_of securities !! id = None ->
  inherited id = false ->
  rebuildLots securities trades actions = Throw TypeError.
Proof.
  intros He Hin Hid Hinh. unfold rebuildLots.
  by rewrite (replay_missing_security _ _ _ e id).
Qed.

Lemma C5_missing_security_aborts_rebuild_witness :
  rebuildLots [Sec.mk "Y" "AY"] [ex_trade "T1" "BUY" 1 100 10 80] []
  = Throw TypeError.
Proof.
  apply (C5_missing_security_aborts_rebuild _ _ _
           (tradeEvent (ex_trade "T1" "BUY" 1 100 10 80)) "X").
  - simpl. by left.
  - simpl. by left.
  - reflexivity.
  - reflexivity.
Defined.

(** C5 as stated fails: the rebuild of a BUY with a non-numeric price and a
    SPLIT of an unlisted security ends normally and writes its output; the
    lot carries NaN as its cost.  So does the rebuild of a BUY of the
    security "constructor", which the directory does not list: the lot is
    written without an asset. *)
Lemma C5_counterexample_no_abort :
  ex_secs !! "UNLISTED" = None
  /\ (exists lot,
        rebuildLots [Sec.mk "X" "AX"; Sec.mk "Y" "AY"; Sec.mk "G" "AG"]
          [ex_buy_bad_price] [ex_split_unlisted]
        = Ok {| Lots_Current := [lot]; LotConsumes := [] |}
        /\ Lot.OpenQty lot = of_Z 100
        /\ Lot.CostNative lot = NaN
        /\ Lot.CostINR lot = NaN)
  /\ ex_secs !! "constructor" = None
  /\ exists lot,
       rebuildLots [Sec.mk "X" "AX"; Sec.mk "Y" "AY"; Sec.mk "G" "AG"]
         [ex_buy_inherited] []
       = Ok {| Lots_Current := [lot]; LotConsumes := [] |}
       /\ Lot.SecurityId lot = "constructor"
       /\ Lot.AssetId lot = None
       /\ Lot.OpenQty lot = of_Z 100.
Proof.
  split; [reflexivity|]. split; [eexists; by repeat split|].
  split; [reflexivity|]. eexists. by repeat split.
Qed.

(** ** Facts about the FIFO loops

    Proved once for [fifoLoop], for every body that rewrites the lot it is
    given and may push new lots. *)

Section fifo.
Variable body : State -> nat -> Lot.t -> num -> State.
Variable upd : Lot.t -> num -> Lot.t.
Variable pushed : State -> Lot.t -> num -> list Lot.t.
Hypothesis body_lots : forall st i lot m,
  lots (body st i lot m) = <[i := upd lot m]> (lots st ++ pushed st lot m).

Lemma body_length st i lot m :
  length (lots (body st i lot m))
  = (length (lots st) + length (pushed st lot m))%nat.
Proof using body_lots. by rewrite body_lots, length_insert, length_app. Qed.

Lemma body_lookup_ne st i lot m j :
  j <> i -> (j < length (lots st))%nat ->
  lots (body st i lot m) !! j = lots st !! j.
Proof using body_lots.
  intros Hne Hj. rewrite body_lots, list_lookup_insert_ne by done.
  by apply lookup_app_l.
Qed.

Lemma body_lookup_eq st i lot m :
  (i < length (lots st))%nat ->
  lots (body st i lot m) !! i = Some (upd lot m).
Proof using body_lots.
  intros Hi. rewrite body_lots. apply list_lookup_insert_eq.
  rewrite length_app. lia.
Qed.

Lemma fifoLoop_length refs qty st :
  (length (lots st) <= length (lots (fifoLoop body refs qty st)))%nat.
Proof using body_lots.
  revert qty st. induction refs as [|i refs IH]; intros qty st; simpl; [done|].
  destruct (qty <=? 0)%num; [done|].
  destruct (lots st !! i) as [lot|]; [|apply IH].
  etrans; [|apply IH]. rewrite body_length. lia.
Qed.

(** A lot that the loop has no reference to is not touched. *)
Lemma fifoLoop_lookup_other refs qty st j :
  ~ In j refs -> (j < length (lots st))%nat ->
  lots (fifoLoop body refs qty st) !! j = lots st !! j.
Proof using body_lots.
  revert qty st. induction refs as [|i refs IH]; intros qty st Hj Hlen; simpl;
    [done|].
  destruct (qty <=? 0)%num; [done|].
  apply not_in_cons in Hj as [Hne Hj].
  destruct (lots st !! i) as [lot|]; [|by apply IH].
  rewrite IH; [by apply body_lookup_ne|done|]. rewrite body_length. lia.
Qed.

(** Every lot that the loop pushes comes from one of the referenced lots,
    as that lot was before the loop, and the loop leaves that lot as the
    body rewrote it. *)
Lemma fifoLoop_pushed refs qty st j x :
  NoDup refs -> (forall i, In i refs -> (i < length (lots st))%nat) ->
  (length (lots st) <= j)%nat ->
  lots (fifoLoop body refs qty st) !! j = Some x ->
  exists i lot m st0,
    In i refs /\ lots st !! i = Some lot /\ In x (pushed st0 lot m)
    /\ lots (fifoLoop body refs qty st) !! i = Some (upd lot m).
Proof using body_lots.
  revert qty st. induction refs as [|i refs IH]; intros qty st Hnd Hlt Hj; simpl.
  { intros Hx%lookup_lt_Some. lia. }
  apply NoDup_cons in Hnd as [Hi Hnd]. rewrite list_elem_of_In in Hi.
  assert (Hrefs : forall k, In k refs -> (k < length (lots st))%nat)
    by (intros k Hk; apply Hlt; by right).
  destruct (qty <=? 0)%num.
  { intros Hx%lookup_lt_Some. lia. }
  destruct (lots st !! i) as [lot|] eqn:Hlot.
  2: { intros Hx. destruct (IH qty st Hnd Hrefs Hj Hx)
         as (i' & lot' & m & st0 & ? & ? & ? & ?).
       exists i', lot', m, st0. repeat split; try done. by right. }
  set (m := nmin (Lot.OpenQty lot) qty).
  set (st2 := body st i lot m).
  assert (Hi_lt : (i < length (lots st))%nat) by (apply Hlt; by left).
  assert (Hrefs2 : forall k, In k refs -> (k < length (lots st2))%nat).
  { intros k Hk. unfold st2. rewrite body_length. apply Hrefs in Hk. lia. }
  destruct (decide (j < length (lots st2))%nat) as [Hj2|Hj2].
  - (* pushed by this iteration *)
    rewrite fifoLoop_lookup_other; [|intros Hk%Hrefs; lia|done].
    unfold st2 at 1. rewrite body_lots, list_lookup_insert_ne by lia.
    rewrite lookup_app_r by done. intros Hx.
    exists i, lot, m, st. repeat split; [by left|done| |].
    + apply list_elem_of_In, list_elem_of_lookup. eauto.
    + rewrite fifoLoop_lookup_other; [|done|].
      * by apply body_lookup_eq.
      * unfold st2. rewrite body_length. lia.
  - (* pushed by a later iteration *)
    intros Hx.
    destruct (IH (qty - m)%num st2 Hnd Hrefs2 ltac:(lia) Hx)
      as (i' & lot' & m' & st0 & Hin & Hl' & Hp & Hu).
    exists i', lot', m', st0. repeat split; [by right| |done|done].
    rewrite <-Hl'. symmetry. apply body_lookup_ne; [|by apply Hrefs].
    intros ->. done.
Qed.
(** When its turn comes and the request [q] is not used up, the lot of the
    first reference is rewritten for [min(OpenQty, q)] and the lots pushed
    for it follow the lots of the store. *)
Lemma fifoLoop_first i refs q st l :
  NoDup (i :: refs) ->
  (forall k, In k (i :: refs) -> (k < length (lots st))%nat) ->
  lots st !! i = Some l -> (q <=? 0)%num = false ->
  let m := nmin (Lot.OpenQty l) q in
  let st' := fifoLoop body (i :: refs) q st in
  lots st' !! i = Some (upd l m)
  /\ forall k x, pushed st l m !! k = Some x ->
       lots st' !! (length (lots st) + k)%nat = Some x.
Proof using body_lots.
  intros Hnd Hlt Hl Hq. cbv zeta. simpl. rewrite Hq, Hl.
  apply NoDup_cons in Hnd as [Hi Hnd]. rewrite list_elem_of_In in Hi.
  assert (Hi_lt : (i < length (lots st))%nat) by (apply Hlt; by left).
  assert (Hrefs : forall k, In k refs -> (k < length (lots st))%nat)
    by (intros k Hk; apply Hlt; by right).
  split.
  - rewrite fifoLoop_lookup_other; [by apply body_lookup_eq|done|].
    rewrite body_length. lia.
  - intros k x Hx. pose proof (lookup_lt_Some _ _ _ Hx) as Hk.
    rewrite fifoLoop_lookup_other.
    + rewrite body_lots, list_lookup_insert_ne by lia.
      rewrite lookup_app_r by lia.
      by replace (length (lots st) + k - length (lots st))%nat with k by lia.
    + intros Hin%Hrefs. lia.
    + rewrite body_length. lia.
Qed.

(** A referenced lot is left as it was, or it is rewritten for the request
    [q'] that was open when its turn came, and the lots pushed for it are in
    the store behind the lots that were there before the loop. *)
Lemma fifoLoop_each_pushed refs qty st i l :
  NoDup refs -> (forall k, In k refs -> (k < length (lots st))%nat) ->
  In i refs -> lots st !! i = Some l ->
  let st' := fifoLoop body refs qty st in
  lots st' !! i = Some l
  \/ exists q' st0 n,
       (q' <=? 0)%num = false
       /\ (length (lots st) <= n)%nat
       /\ lots st' !! i = Some (upd l (nmin (Lot.OpenQty l) q'))
       /\ forall k x,
            pushed st0 l (nmin (Lot.OpenQty l) q') !! k = Some x ->
            lots st' !! (n + k)%nat = Some x.
Proof using body_lots.
  revert qty st. induction refs as [|k refs IH]; intros qty st Hnd Hlt Hin Hl;
    [done|]. cbv zeta in *.
  destruct (qty <=? 0)%num eqn:Hq; [left; simpl; by rewrite Hq|].
  destruct Hin as [->|Hin].
  - right. exists qty, st, (length (lots st)). split; [done|]. split; [lia|].
    by apply fifoLoop_first.
  - pose proof Hnd as [Hk Hnd']%NoDup_cons. rewrite list_elem_of_In in Hk.
    assert (Hrefs : forall j, In j refs -> (j < length (lots st))%nat)
      by (intros j Hj; apply Hlt; by right).
    simpl. rewrite Hq.
    destruct (lots st !! k) as [lot|] eqn:Hlot; [|by apply IH].
    assert (Hk_lt : (k < length (lots st))%nat)
      by (by apply lookup_lt_Some in Hlot).
    set (st2 := body st k lot (nmin (Lot.OpenQty lot) qty)).
    assert (Hrefs2 : forall j, In j refs -> (j < length (lots st2))%nat).
    { intros j Hj. unfold st2. rewrite body_length. apply Hrefs in Hj. lia. }
    assert (Hl2 : lots st2 !! i = Some l).
    { unfold st2. rewrite body_lookup_ne; [done| |by apply Hrefs].
      intros ->. done. }
    destruct (IH (qty - nmin (Lot.OpenQty lot) qty)%num st2 Hnd' Hrefs2 Hin Hl2)
      as [H | (q' & st0 & n & Hq' & Hn & H1 & H2)]; [by left|].
    right. exists q', st0, n. split; [done|]. split; [|done].
    unfold st2 in Hn. rewrite body_length in Hn. lia.
Qed.
End fifo.

(** The loops of the rules are [fifoLoop] around their bodies. *)

Lemma sellLoop_fifo d assetId salePrice saleFX refs qty st :
  sellLoop d assetId salePrice saleFX refs qty st
  = fifoLoop (sellBody d assetId salePrice saleFX) refs qty st.
Proof.
  revert qty st. induction refs as [|i refs IH]; intros qty st; simpl; [done|].
  destruct (qty <=? 0)%num; [done|].
  destruct (lots st !! i); by rewrite IH.
Qed.

Lemma giftLoop_fifo d assetId refs qty st :
  giftLoop d assetId refs qty st = fifoLoop (giftBody d assetId) refs qty st.
Proof.
  revert qty st. induction refs as [|i refs IH]; intros qty st; simpl; [done|].
  destruct (qty <=? 0)%num; [done|].
  destruct (lots st !! i); by rewrite IH.
Qed.

Lemma transferLoop_fifo d assetId refs qty st :
  transferLoop d assetId refs qty st
  = fifoLoop (transferBody d assetId) refs qty st.
Proof.
  revert qty st. induction refs as [|i refs IH]; intros qty st; simpl; [done|].
  destruct (qty <=? 0)%num; [done|].
  destruct (lots st !! i); by rewrite IH.
Qed.

Lemma sellBody_lots d assetId salePrice saleFX st i lot m :
  lots (sellBody d assetId salePrice saleFX st i lot m)
  = <[i := taken lot m]> (lots st ++ []).
Proof. unfold sellBody. simpl. by rewrite app_nil_r. Qed.

Lemma giftBody_lots d assetId st i lot m :
  lots (giftBody d assetId st i lot m)
  = <[i := taken lot m]>
      (lots st ++
       [movedLot d assetId lot m
          (Lot.CostNative lot * (m / Lot.OpenQty lot))%num
          (Lot.CostINR lot * (m / Lot.OpenQty lot))%num
          ("LOT_" +:+ pretty (lotSeq st))]).
Proof. reflexivity. Qed.

Lemma transferBody_lots d assetId st i lot m :
  lots (transferBody d assetId st i lot m)
  = <[i := if (m <? Lot.OpenQty lot)%num then taken lot m
           else Lot.move lot (Row.OwnerToId d) (Row.BrokerToId d)
                  (Row.AccountToId d)]>
      (lots st ++
       if (m <? Lot.OpenQty lot)%num
       then [movedLot d assetId lot m
               (Lot.CostNative lot * (m / Lot.OpenQty lot))%num
               (Lot.CostINR lot * (m / Lot.OpenQty lot))%num
               ("LOT_" +:+ pretty (lotSeq st))]
       else []).
Proof.
  unfold transferBody. destruct (m <? Lot.OpenQty lot)%num; simpl; [done|].
  by rewrite app_nil_r.
Qed.

Lemma openLotsBySecurity_lt ls owner securityId i :
  In i (openLotsBySecurity ls owner securityId) -> (i < length ls)%nat.
Proof.
  intros (l & Hl & _)%openLotsBySecurity_In. by apply lookup_lt_Some in Hl.
Qed.

Lemma giftLoop_consumes d assetId refs q st :
  consumes (giftLoop d assetId refs q st) = consumes st.
Proof.
  revert q st. induction refs as [|i refs IH]; intros q st; simpl; [done|].
  destruct (q <=? 0)%num; [done|].
  destruct (lots st !! i) as [lot|]; by rewrite IH.
Qed.

Lemma transferLoop_consumes d assetId refs q st :
  consumes (transferLoop d assetId refs q st) = consumes st.
Proof.
  revert q st. induction refs as [|i refs IH]; intros q st; simpl; [done|].
  destruct (q <=? 0)%num; [done|].
  destruct (lots st !! i) as [lot|]; rewrite IH; [|done].
  by destruct (nmin (Lot.OpenQty lot) q <? Lot.OpenQty lot)%num.
Qed.

Lemma reorg_consumes toSec toAssetId qr crn cro refs st :
  consumes (foldl (reorgLot toSec toAssetId qr crn cro) st refs) = consumes st.
Proof.
  revert st. induction refs as [|i refs IH]; intros st; simpl; [done|].
  rewrite IH. unfold reorgLot. by destruct (lots st !! i).
Qed.

Lemma ruleSELL_fifo secs d st :
  ruleSELL secs d st
  = let* assetId := assetId_of secs (Row.SecurityId d) in
    Ok (fifoLoop (sellBody d assetId (Row.Price d) (Row.FXRateToINR d))
          (openLotsBySecurity (lots st) (Row.OwnerId d) (Row.SecurityId d))
          (Row.Quantity d) st).
Proof.
  unfold ruleSELL. destruct (assetId_of _ _); simpl; [|done].
  by rewrite sellLoop_fifo.
Qed.

Lemma ruleGIFT_fifo secs d st :
  ruleGIFT secs d st
  = let* assetId := assetId_of secs (Row.SecurityId d) in
    Ok (fifoLoop (giftBody d assetId)
          (openLotsBySecurity (lots st) (Row.OwnerFromId d)
             (Row.SecurityId d))
          (Row.Quantity d) st).
Proof.
  unfold ruleGIFT. destruct (assetId_of _ _); simpl; [|done].
  by rewrite giftLoop_fifo.
Qed.

Lemma ruleTRANSFER_fifo secs d st :
  ruleTRANSFER secs d st
  = let* assetId := assetId_of secs (Row.SecurityId d) in
    Ok (fifoLoop (transferBody d assetId)
          (openLotsBySecurity (lots st) (Row.OwnerFromId d)
             (Row.SecurityId d))
          (Row.Quantity d) st).
Proof.
  unfold ruleTRANSFER. destruct (assetId_of _ _); simpl; [|done].
  by rewrite transferLoop_fifo.
Qed.

(** ** C8: what a GIFT creates *)

(** The oldest lot is the first reference. *)
Lemma openLotsBySecurity_head ls owner securityId i src :
  ls !! i = Some src -> openFor owner securityId src = true ->
  (forall j l, j <> i -> ls !! j = Some l -> openFor owner securityId l = true ->
     fifoBefore ls i j) ->
  exists refs, openLotsBySecurity ls owner securityId = i :: refs.
Proof.
  intros Hsrc Hopen Hfirst.
  assert (Hin : In i (openLotsBySecurity ls owner securityId))
    by (apply openLotsBySecurity_In; eauto).
  destruct (openLotsBySecurity ls owner securityId) as [|h refs] eqn:Hrefs;
    [done|].
  destruct (decide (h = i)) as [->|Hne]; [by exists refs|]. exfalso.
  destruct Hin as [?|Hin]; [done|].
  assert (Hh : In h (openLotsBySecurity ls owner securityId))
    by (rewrite Hrefs; by left).
  apply openLotsBySecurity_In in Hh as (lh & Hlh & Hoh).
  pose proof (Hfirst h lh Hne Hlh Hoh) as Hih.
  assert (Hsorted : StronglySorted (fifoBefore ls)
                      (openLotsBySecurity ls owner securityId)).
  { apply openLotsBySecurity_sorted. intros l [j Hj]%list_elem_of_In%list_elem_of_lookup Ho.
    destruct (decide (j = i)) as [->|Hji].
    - assert (l = src) as -> by congruence.
      unfold fifoBefore in Hih. rewrite Hsrc, Hlh in Hih.
      by destruct (Lot.BuyDate src).
    - pose proof (Hfirst j l Hji Hj Ho) as Hij.
      unfold fifoBefore in Hij. rewrite Hsrc, Hj in Hij.
      destruct (Lot.BuyDate src); [|done]. by destruct (Lot.BuyDate l). }
  rewrite Hrefs in Hsorted. apply StronglySorted_inv in Hsorted as [_ Hall].
  rewrite Forall_forall in Hall.
  pose proof (Hall i ltac:(by apply list_elem_of_In)) as Hhi.
  unfold fifoBefore in Hih, Hhi. rewrite Hsrc, Hlh in Hih, Hhi.
  destruct (Lot.BuyDate src), (Lot.BuyDate lh); try done. lia.
Qed.

(** C8: a GIFT whose security lookup does not throw is processed and
    writes no consumption record.  It leaves every lot of the store as it
    was, or - a lot of the security that the giving owner holds open - it
    takes min(OpenQty, q') shares out of it, for a request q' that is not
    <= 0, and appends a lot [new] for them.  Every lot that it appends is
    such a lot.  [new] has the acquisition date, the security and the
    per-share cost of the source lot [src], the owner, broker and account
    that the gift names as destination, and as aggregate costs the fraction
    [OpenQty new / OpenQty src] of the costs of [src]; the source lot is
    left with the quantity and the aggregate costs of [src] less those of
    [new].  When the quantity of the gift is not <= 0, the oldest matching
    lot (first by acquisition date, then by position) gives
    min(OpenQty, quantity) shares to the first appended lot. *)
Theorem C8_gift_lot_inherits_from_source
    (secs : gmap string Sec.t) (st : State) (e : Event)
    (assetId : option string) :
  let d := Data e in
  let matching (l : Lot.t) :=
    Lot.OwnerId l = Row.OwnerFromId d /\ Lot.SecurityId l = Row.SecurityId d
    /\ (0 <? Lot.OpenQty l)%num = true in
  Type_ e = "GIFT" ->
  assetId_of secs (Row.SecurityId d) = Ok assetId ->
  exists st',
    applyEvent secs st e = Ok st'
    /\ consumes st' = consumes st
    /\ (forall i src, lots st !! i = Some src ->
          lots st' !! i = Some src
          \/ (matching src
              /\ exists q' j new src',
                   (q' <=? 0)%num = false
                   /\ (length (lots st) <= j)%nat
                   /\ lots st' !! j = Some new
                   /\ lots st' !! i = Some src'
                   /\ Lot.OpenQty new = nmin (Lot.OpenQty src) q'
                   /\ giftedFrom d assetId src new
                   /\ lessOf src new src'))
    /\ (forall j new,
          (length (lots st) <= j)%nat -> lots st' !! j = Some new ->
          exists i src src',
            lots st !! i = Some src
            /\ matching src
            /\ lots st' !! i = Some src'
            /\ giftedFrom d assetId src new
            /\ lessOf src new src')
    /\ (forall i src,
          lots st !! i = Some src -> matching src ->
          (forall j l, j <> i -> lots st !! j = Some l -> matching l ->
             fifoBefore (lots st) i j) ->
          (Row.Quantity d <=? 0)%num = false ->
          exists new src',
            lots st' !! length (lots st) = Some new
            /\ lots st' !! i = Some src'
            /\ Lot.OpenQty new = nmin (Lot.OpenQty src) (Row.Quantity d)
            /\ giftedFrom d assetId src new
            /\ lessOf src new src').
Proof.
  intros d matching HT Ha. rewrite applyEvent_GIFT by done.
  pose proof (giftLoop_consumes d assetId
                (openLotsBySecurity (lots st) (Row.OwnerFromId d)
                   (Row.SecurityId d))
                (Row.Quantity d) st) as Hcons.
  rewrite giftLoop_fifo in Hcons.
  rewrite ruleGIFT_fifo. fold d. rewrite Ha. simpl.
  set (refs := openLotsBySecurity (lots st) (Row.OwnerFromId d)
                 (Row.SecurityId d)) in *.
  assert (Hnd : NoDup refs) by apply openLotsBySecurity_NoDup.
  assert (Hlt : forall i, In i refs -> (i < length (lots st))%nat)
    by apply openLotsBySecurity_lt.
  assert (Hm : forall l, openFor (Row.OwnerFromId d) (Row.SecurityId d) l
                         = true <-> matching l).
  { intros l. unfold openFor, matching.
    rewrite !andb_true_iff, !String.eqb_eq. tauto. }
  assert (Hgift : forall src m id,
            giftedFrom d assetId src
              (movedLot d assetId src m
                 (Lot.CostNative src * (m / Lot.OpenQty src))%num
                 (Lot.CostINR src * (m / Lot.OpenQty src))%num id)
            /\ lessOf src
                 (movedLot d assetId src m
                    (Lot.CostNative src * (m / Lot.OpenQty src))%num
                    (Lot.CostINR src * (m / Lot.OpenQty src))%num id)
                 (taken src m)).
  { intros src m id. split; by repeat split. }
  eexists. split; [reflexivity|]. split; [exact Hcons|].
  split; [|split].
  - intros i src Hsrc.
    destruct (decide (i ∈ refs)) as [Hi%list_elem_of_In|Hi].
    + pose proof Hi as (l0 & Hl0 & Ho)%openLotsBySecurity_In.
      assert (l0 = src) as -> by congruence.
      destruct (fifoLoop_each_pushed _ _ _ (giftBody_lots d assetId)
                  refs (Row.Quantity d) st i src Hnd Hlt Hi Hsrc)
        as [H | (q' & st0 & n & Hq' & Hn & H1 & H2)]; [by left|].
      right. split; [by apply Hm|].
      specialize (H2 0%nat _ eq_refl). rewrite Nat.add_0_r in H2.
      destruct (Hgift src (nmin (Lot.OpenQty src) q')
                  ("LOT_" +:+ pretty (lotSeq st0))) as [Hg Hl].
      eexists q', n, _, _. split; [done|]. split; [done|].
      split; [exact H2|]. split; [exact H1|]. split; [reflexivity|].
      split; [exact Hg|exact Hl].
    + left. rewrite list_elem_of_In in Hi.
      rewrite (fifoLoop_lookup_other _ _ _ (giftBody_lots _ _)); [done|done|].
      by apply lookup_lt_Some in Hsrc.
  - intros j new Hj Hnew.
    eapply (fifoLoop_pushed _ _ _ (giftBody_lots _ _)) in Hnew
      as (i & src & m & st0 & Hin & Hsrc & Hx & Hi); [|done|done|done].
    apply openLotsBySecurity_In in Hin as (src0 & Hsrc0 & Hopen).
    assert (src0 = src) as -> by congruence.
    destruct Hx as [<-|[]].
    destruct (Hgift src m ("LOT_" +:+ pretty (lotSeq st0))) as [Hg Hl].
    exists i, src, (taken src m). split; [done|]. split; [by apply Hm|].
    split; [exact Hi|]. split; [exact Hg|exact Hl].
  - intros i src Hsrc Hmatch Hfirst Hq.
    destruct (openLotsBySecurity_head (lots st) (Row.OwnerFromId d)
                (Row.SecurityId d) i src Hsrc) as [refs' Hrefs].
    { by apply Hm. }
    { intros j l Hji Hl Ho. apply (Hfirst j l); [done|done|by apply Hm]. }
    fold refs in Hrefs. rewrite Hrefs in Hnd, Hlt |- *.
    destruct (fifoLoop_first _ _ _ (giftBody_lots d assetId) i refs'
                (Row.Quantity d) st src Hnd Hlt Hsrc Hq) as [H1 H2].
    specialize (H2 0%nat _ eq_refl). rewrite Nat.add_0_r in H2.
    destruct (Hgift src (nmin (Lot.OpenQty src) (Row.Quantity d))
                ("LOT_" +:+ pretty (lotSeq st))) as [Hg Hl].
    eexists _, _. split; [exact H2|]. split; [exact H1|].
    split; [reflexivity|]. split; [exact Hg|exact Hl].
Qed.

(** ** C9: what a BONUS creates *)

Lemma bonus_fold d assetId bonusRatio ls st :
  exists pushed,
    lots (foldl (bonusLot d assetId bonusRatio) st ls) = lots st ++ pushed
    /\ length pushed
       = length (List.filter
                   (fun l => (0 <? Lot.OpenQty l * bonusRatio)%num) ls)
    /\ forall x, In x pushed ->
         exists l id,
           In l ls /\ (0 <? Lot.OpenQty l * bonusRatio)%num = true
           /\ x = bonusNewLot d assetId (Lot.OpenQty l * bonusRatio)%num l id.
Proof.
  revert st. induction ls as [|l ls IH]; intros st; simpl.
  { exists []. by rewrite app_nil_r. }
  unfold bonusLot at 2.
  destruct (0 <? Lot.OpenQty l * bonusRatio)%num eqn:Hb.
  - destruct (IH (push_lot st
                    (bonusNewLot d assetId (Lot.OpenQty l * bonusRatio)%num l)))
      as (pushed & -> & Hlen & Hall).
    eexists (_ :: pushed). simpl. rewrite <-app_assoc. split; [done|].
    split; [by rewrite Hlen|].
    intros x [<-|Hx].
    + eexists l, _. repeat split; [by left|done].
    + destruct (Hall x Hx) as (l' & id & ? & ? & ?).
      exists l', id. repeat split; [by right|done|done].
  - destruct (IH st) as (pushed & -> & Hlen & Hall).
    exists pushed. repeat split; [done|].
    intros x Hx. destruct (Hall x Hx) as (l' & id & ? & ? & ?).
    exists l', id. repeat split; [by right|done|done].
Qed.

(** C9: a BONUS whose security is listed is processed and changes no lot
    that was in the store.  It appends one lot for each open lot of the
    security whose bonus quantity, OpenQty * (numerator/denominator - 1), is
    greater than 0, and none otherwise.  Every appended lot has aggregate
    native cost, aggregate reporting cost and per-share cost 0, the action
    date as acquisition date, the bonus quantity as open quantity, and the
    owner, broker and account of the lot it was computed from. *)
Theorem C9_bonus_lot_has_zero_cost
    (secs : gmap string Sec.t) (st : State) (e : Event) :
  let d := Data e in
  let bonusRatio :=
    (Row.SplitNumerator d / Row.SplitDenominator d - 1)%num in
  Type_ e = "BONUS" ->
  is_Some (secs !! Row.SecurityId d) ->
  exists st',
    applyEvent secs st e = Ok st'
    /\ (forall i l, lots st !! i = Some l -> lots st' !! i = Some l)
    /\ length (lots st')
       = (length (lots st)
          + length (List.filter
                      (fun l => (0 <? Lot.OpenQty l * bonusRatio)%num)
                      (List.filter (affectedBy (Row.SecurityId d))
                         (lots st))))%nat
    /\ forall j new,
         (length (lots st) <= j)%nat -> lots st' !! j = Some new ->
         Lot.CostNative new = 0%num
         /\ Lot.CostINR new = 0%num
         /\ Lot.CostPriceNative new = 0%num
         /\ Lot.BuyDate new = Row.ActionDate d
         /\ exists l,
              In l (lots st)
              /\ affectedBy (Row.SecurityId d) l = true
              /\ Lot.OpenQty new = (Lot.OpenQty l * bonusRatio)%num
              /\ (0 <? Lot.OpenQty new)%num = true
              /\ Lot.OwnerId new = Lot.OwnerId l
              /\ Lot.BrokerId new = Lot.BrokerId l
              /\ Lot.AccountId new = Lot.AccountId l.
Proof.
  intros d bonusRatio HT [s Hs]. rewrite applyEvent_BONUS by done.
  unfold ruleBONUS, assetId_of. fold d bonusRatio. rewrite Hs. simpl.
  eexists. split; [reflexivity|].
  destruct (bonus_fold d (Some (Sec.AssetId s)) bonusRatio
              (List.filter (affectedBy (Row.SecurityId d)) (lots st)) st)
    as (pushed & -> & Hlen & Hall).
  split; [|split].
  - intros i l Hl. by apply lookup_app_l_Some.
  - by rewrite length_app, Hlen.
  - intros j new Hj Hnew. rewrite lookup_app_r in Hnew by done.
    assert (Hin : In new pushed).
    { apply list_elem_of_In, list_elem_of_lookup. eauto. }
    destruct (Hall new Hin) as (l & id & [Hl Haff]%filter_In & Hpos & ->).
    repeat split; try done. exists l. by repeat split.
Qed.

(** ** C10: CLASS_REORG moves cost between the two lots *)

Lemma reorgLot_lots toSec toAssetId qr crn cro st i lot :
  lots st !! i = Some lot ->
  lots (reorgLot toSec toAssetId qr crn cro st i)
  = <[i := Lot.reorg lot cro]>
      (lots st ++ [reorgNewLot toSec toAssetId qr crn lot
                     ("LOT_" +:+ pretty (lotSeq st))]).
Proof. intros H. unfold reorgLot. by rewrite H. Qed.

Lemma reorg_fold toSec toAssetId qr crn cro refs st :
  NoDup refs -> (forall i, In i refs -> (i < length (lots st))%nat) ->
  let st' := foldl (reorgLot toSec toAssetId qr crn cro) st refs in
  length (lots st') = (length (lots st) + length refs)%nat
  /\ (forall j, (j < length (lots st))%nat -> ~ In j refs ->
        lots st' !! j = lots st !! j)
  /\ (forall k i src, refs !! k = Some i -> lots st !! i = Some src ->
        lots st' !! i = Some (Lot.reorg src cro)
        /\ exists id,
             lots st' !! (length (lots st) + k)%nat
             = Some (reorgNewLot toSec toAssetId qr crn src id)).
Proof.
  revert st. induction refs as [|i refs IH]; intros st Hnd Hlt; simpl.
  { split; [lia|]. split; [done|]. intros k i src H. done. }
  apply NoDup_cons in Hnd as [Hi Hnd]. rewrite list_elem_of_In in Hi.
  assert (Hi_lt : (i < length (lots st))%nat) by (apply Hlt; by left).
  destruct (lookup_lt_is_Some_2 _ _ Hi_lt) as [lot Hlot].
  pose proof (reorgLot_lots toSec toAssetId qr crn cro st i lot Hlot) as Hst2.
  set (st2 := reorgLot toSec toAssetId qr crn cro st i) in *.
  assert (Hlen2 : length (lots st2) = S (length (lots st))).
  { rewrite Hst2, length_insert, length_app. simpl. lia. }
  assert (Hne : forall j, j <> i -> (j < length (lots st))%nat ->
                  lots st2 !! j = lots st !! j).
  { intros j Hj Hjl. rewrite Hst2, list_lookup_insert_ne by done.
    by apply lookup_app_l. }
  destruct (IH st2 Hnd) as (Hlen & Hother & Hsrc).
  { intros k Hk. rewrite Hlen2. assert (k < length (lots st))%nat; [|lia].
    apply Hlt. by right. }
  split; [rewrite Hlen, Hlen2; lia|]. split.
  - intros j Hj Hnin. apply not_in_cons in Hnin as [Hji Hnin].
    rewrite Hother; [by apply Hne| lia |done].
  - intros [|k] i' src Hk Hsrc'; simpl in Hk.
    + injection Hk as ->. assert (src = lot) as -> by congruence. split.
      * rewrite Hother; [|lia|done]. rewrite Hst2.
        apply list_lookup_insert_eq. rewrite length_app. lia.
      * eexists. rewrite Nat.add_0_r, Hother; [|lia|].
        -- rewrite Hst2, list_lookup_insert_ne by lia.
           rewrite lookup_app_r, Nat.sub_diag by lia. reflexivity.
        -- intros Hin.
           assert (length (lots st) < length (lots st))%nat; [|lia].
           apply Hlt. by right.
    + assert (Hi' : In i' refs).
      { apply list_elem_of_In, list_elem_of_lookup. eauto. }
      assert (i' <> i) by (intros ->; done).
      destruct (Hsrc k i' src Hk) as [H1 [id H2]].
      { rewrite Hne; [done|done|]. apply Hlt. by right. }
      split; [done|]. exists id. rewrite <-H2. f_equal. lia.
Qed.

Lemma nadd_Fin (a b : Qc) : (Fin a + Fin b)%num = Fin (a + b)%Qc.
Proof. reflexivity. Qed.

Lemma nmul_Fin (a b : Qc) : (Fin a * Fin b)%num = Fin (a * b)%Qc.
Proof. reflexivity. Qed.

Lemma ndiv_Fin (a b : Qc) :
  b <> 0%Qc -> (Fin a / Fin b)%num = Fin (a / b)%Qc.
Proof.
  intros Hb. unfold ndiv. rewrite Qc_of_Z_0. by destruct (decide (b = 0%Qc)).
Qed.



(** ** C7: a request that exceeds what is open *)

Lemma sumOver_same (f : Lot.t -> num) (ls ls' : list Lot.t) refs :
  (forall j, In j refs -> ls' !! j = ls !! j) ->
  sumOver f ls' refs = sumOver f ls refs.
Proof.
  induction refs as [|i refs IH]; intros H; simpl; [done|].
  rewrite H by (by left). rewrite IH; [done|]. intros j Hj. apply H. by right.
Qed.

Lemma finPos_same (ls ls' : list Lot.t) refs :
  (forall j, In j refs -> ls' !! j = ls !! j) ->
  finPos refs ls -> finPos refs ls'.
Proof. intros H Hfp i Hi. rewrite H by done. by apply Hfp. Qed.

Lemma finPos_sum refs ls :
  finPos refs ls ->
  exists t, sumOver Lot.OpenQty ls refs = Fin t /\ (0 <= t)%Qc.
Proof.
  induction refs as [|i refs IH]; intros Hfp; simpl.
  { exists 0%Qc. split; [|done]. unfold of_Z. by rewrite Qc_of_Z_0. }
  destruct (Hfp i) as (l & o & -> & -> & Ho); [by left|].
  destruct IH as (t & -> & Ht).
  { intros j Hj. apply Hfp. by right. }
  rewrite nadd_Fin. eexists. split; [done|]. qc2q. lra.
Qed.

(** One step of a loop whose request covers all that is open: the whole
    lot is taken, and the rest of the request covers the other lots. *)
Lemma excess_step (o t : Qc) (q : num) :
  (0 < o)%Qc -> (0 <= t)%Qc -> (Fin o + Fin t <=? q)%num = true ->
  (q <=? 0)%num = false /\ nmin (Fin o) q = Fin o
  /\ (Fin t <=? q - Fin o)%num = true.
Proof.
  intros Ho Ht. rewrite nadd_Fin. destruct q as [s| | |]; try done.
  intros Hs%nle_Fin. repeat split.
  - apply nle_0_pos. qc2q. lra.
  - unfold nmin, nlt. case_bool_decide as Hlt; [|done].
    exfalso. qc2q. lra.
  - rewrite nsub_Fin. apply nle_Fin. qc2q. lra.
Qed.

Section fifo_excess.
Variable body : State -> nat -> Lot.t -> num -> State.
Variable upd : Lot.t -> num -> Lot.t.
Variable pushed : State -> Lot.t -> num -> list Lot.t.
Hypothesis body_lots : forall st i lot m,
  lots (body st i lot m) = <[i := upd lot m]> (lots st ++ pushed st lot m).

Lemma body_same st i lot m refs :
  ~ In i refs -> (forall j, In j refs -> (j < length (lots st))%nat) ->
  forall j, In j refs -> lots (body st i lot m) !! j = lots st !! j.
Proof using body_lots.
  intros Hi Hlt j Hj. eapply body_lookup_ne; [exact body_lots| |by apply Hlt].
  intros ->. done.
Qed.

Lemma finPos_lt refs ls i : finPos refs ls -> In i refs -> (i < length ls)%nat.
Proof. intros Hfp Hi. destruct (Hfp i Hi) as (l & o & Hl & _). by apply lookup_lt_Some in Hl. Qed.

(** When the request covers the total, the loop does not depend on it. *)
Lemma fifoLoop_excess refs q q' st :
  NoDup refs -> finPos refs (lots st) ->
  (sumOver Lot.OpenQty (lots st) refs <=? q)%num = true ->
  (sumOver Lot.OpenQty (lots st) refs <=? q')%num = true ->
  fifoLoop body refs q st = fifoLoop body refs q' st.
Proof using body_lots.
  revert q q' st. induction refs as [|i refs IH]; intros q q' st Hnd Hfp; simpl;
    [done|].
  apply NoDup_cons in Hnd as [Hi Hnd]. rewrite list_elem_of_In in Hi.
  destruct (Hfp i) as (l & o & Hl & Ho & Hpos); [by left|]. rewrite Hl, Ho.
  assert (Hfp' : finPos refs (lots st)) by (intros j Hj; apply Hfp; by right).
  destruct (finPos_sum refs (lots st) Hfp') as (t & Ht & Htpos). rewrite Ht.
  intros (-> & -> & Hq)%excess_step (-> & -> & Hq')%excess_step; try done.
  assert (Hsame : forall j, In j refs ->
            lots (body st i l (Fin o)) !! j = lots st !! j).
  { apply body_same; [done|]. intros j Hj. by apply (finPos_lt refs). }
  apply IH; [done|by apply (finPos_same (lots st))| |];
    by rewrite (sumOver_same _ (lots st)), Ht.
Qed.

(** When the request covers the total, every referenced lot is taken
    whole. *)
Lemma fifoLoop_takes_all refs q st i l :
  NoDup refs -> finPos refs (lots st) ->
  (sumOver Lot.OpenQty (lots st) refs <=? q)%num = true ->
  In i refs -> lots st !! i = Some l ->
  lots (fifoLoop body refs q st) !! i = Some (upd l (Lot.OpenQty l)).
Proof using body_lots.
  revert q st. induction refs as [|k refs IH]; intros q st Hnd Hfp; simpl;
    [done|].
  apply NoDup_cons in Hnd as [Hk Hnd]. rewrite list_elem_of_In in Hk.
  destruct (Hfp k) as (lk & o & Hlk & Ho & Hpos); [by left|]. rewrite Hlk, Ho.
  assert (Hfp' : finPos refs (lots st)) by (intros j Hj; apply Hfp; by right).
  destruct (finPos_sum refs (lots st) Hfp') as (t & Ht & Htpos). rewrite Ht.
  intros (-> & -> & Hq)%excess_step Hin Hl; try done.
  assert (Hk_lt : (k < length (lots st))%nat) by (by apply lookup_lt_Some in Hlk).
  assert (Hsame : forall j, In j refs ->
            lots (body st k lk (Fin o)) !! j = lots st !! j).
  { apply body_same; [done|]. intros j Hj. by apply (finPos_lt refs). }
  destruct Hin as [->|Hin].
  - assert (lk = l) as -> by congruence.
    rewrite (fifoLoop_lookup_other _ _ _ body_lots) ; [|done|].
    + rewrite <-Ho. by apply (body_lookup_eq _ _ _ body_lots).
    + rewrite (body_length _ _ _ body_lots). lia.
  - apply IH; [done|by apply (finPos_same (lots st))| |done|].
    + by rewrite (sumOver_same _ (lots st)), Ht.
    + by rewrite Hsame.
Qed.
End fifo_excess.

Lemma pos_cases (x : num) :
  (0 <? x)%num = true -> x = PInf \/ exists o, x = Fin o /\ (0 < o)%Qc.
Proof.
  destruct x as [o| | |]; try done; [|by left].
  intros H%nlt_0_Fin. right. by exists o.
Qed.

Lemma nlt_nle (x y : num) : (x <? y)%num = true -> (x <=? y)%num = true.
Proof.
  destruct x as [a| | |], y as [b| | |]; try done.
  intros H%nlt_Fin. apply nle_Fin. by apply Qclt_le_weak.
Qed.

Lemma taken_all_OpenQty (l : Lot.t) (o : Qc) :
  Lot.OpenQty l = Fin o -> Lot.OpenQty (taken l (Lot.OpenQty l)) = 0%num.
Proof. intros Ho. simpl. rewrite Ho. apply nsub_diag. Qed.

Lemma nlt_irrefl_Fin (o : Qc) : (Fin o <? Fin o)%num = false.
Proof.
  apply not_true_is_false. intros H%nlt_Fin. by apply Qclt_not_eq in H.
Qed.

(** The rules read the quantity of a row only as the initial request. *)
Lemma ruleSELL_withQuantity secs e q st :
  ruleSELL secs (Data (withQuantity e q)) st
  = let* assetId := assetId_of secs (Row.SecurityId (Data e)) in
    Ok (fifoLoop
          (sellBody (Data e) assetId (Row.Price (Data e))
             (Row.FXRateToINR (Data e)))
          (openLotsBySecurity (lots st) (Row.OwnerId (Data e))
             (Row.SecurityId (Data e)))
          q st).
Proof. by rewrite ruleSELL_fifo. Qed.

Lemma ruleGIFT_withQuantity secs e q st :
  ruleGIFT secs (Data (withQuantity e q)) st
  = let* assetId := assetId_of secs (Row.SecurityId (Data e)) in
    Ok (fifoLoop (giftBody (Data e) assetId)
          (openLotsBySecurity (lots st) (Row.OwnerFromId (Data e))
             (Row.SecurityId (Data e)))
          q st).
Proof. by rewrite ruleGIFT_fifo. Qed.

Lemma ruleTRANSFER_withQuantity secs e q st :
  ruleTRANSFER secs (Data (withQuantity e q)) st
  = let* assetId := assetId_of secs (Row.SecurityId (Data e)) in
    Ok (fifoLoop (transferBody (Data e) assetId)
          (openLotsBySecurity (lots st) (Row.OwnerFromId (Data e))
             (Row.SecurityId (Data e)))
          q st).
Proof. by rewrite ruleTRANSFER_fifo. Qed.

(** When the request covers the total, SELL appends one record for each
    referenced lot, in the order of the references, for its whole quantity. *)
Lemma sell_excess_records d assetId salePrice saleFX ls0 refs q st :
  NoDup refs -> finPos refs (lots st) ->
  (forall j, In j refs -> lots st !! j = ls0 !! j) ->
  (sumOver Lot.OpenQty (lots st) refs <=? q)%num = true ->
  exists recs,
    consumes (fifoLoop (sellBody d assetId salePrice saleFX) refs q st)
    = consumes st ++ recs
    /\ Forall2 (consumedWhole ls0) refs recs.
Proof.
  revert q st. induction refs as [|i refs IH]; intros q st Hnd Hfp Hls0; simpl.
  { exists []. by rewrite app_nil_r. }
  apply NoDup_cons in Hnd as [Hi Hnd]. rewrite list_elem_of_In in Hi.
  destruct (Hfp i) as (l & o & Hl & Ho & Hpos); [by left|]. rewrite Hl, Ho.
  assert (Hfp' : finPos refs (lots st)) by (intros j Hj; apply Hfp; by right).
  destruct (finPos_sum refs (lots st) Hfp') as (t & Ht & Htpos). rewrite Ht.
  intros (-> & -> & Hq)%excess_step; try done.
  set (st2 := sellBody d assetId salePrice saleFX st i l (Fin o)).
  assert (Hsame : forall j, In j refs -> lots st2 !! j = lots st !! j).
  { apply (body_same _ _ _ (sellBody_lots d assetId salePrice saleFX));
      [done|]. intros j Hj. by apply (finPos_lt refs). }
  destruct (IH (q - Fin o)%num st2) as (recs & -> & Hrecs);
    [done|by apply (finPos_same (lots st))| | |].
  - intros j Hj. rewrite Hsame by done. apply Hls0. by right.
  - by rewrite (sumOver_same _ (lots st)), Ht.
  - eexists (_ :: recs). unfold st2 at 1. simpl. rewrite <-app_assoc.
    split; [reflexivity|]. constructor; [|done].
    exists l. rewrite <-Hls0 by (by left). by rewrite Ho.
Qed.

(** [unfilled] is the request that the loop ends with. *)
Lemma unfilled_same (ls ls' : list Lot.t) refs q :
  (forall j, In j refs -> ls' !! j = ls !! j) ->
  unfilled ls' refs q = unfilled ls refs q.
Proof.
  revert q. induction refs as [|i refs IH]; intros q H; simpl; [done|].
  rewrite H by (by left). destruct (q <=? 0)%num; [done|].
  destruct (ls !! i); apply IH; intros j Hj; apply H; by right.
Qed.

Section fifo_rest.
Variable body : State -> nat -> Lot.t -> num -> State.
Variable upd : Lot.t -> num -> Lot.t.
Variable pushed : State -> Lot.t -> num -> list Lot.t.
Hypothesis body_lots : forall st i lot m,
  lots (body st i lot m) = <[i := upd lot m]> (lots st ++ pushed st lot m).

Lemma fifoRest_unfilled refs q st :
  NoDup refs -> (forall i, In i refs -> (i < length (lots st))%nat) ->
  fifoRest body refs q st = unfilled (lots st) refs q.
Proof using body_lots.
  revert q st. induction refs as [|i refs IH]; intros q st Hnd Hlt; simpl;
    [done|].
  apply NoDup_cons in Hnd as [Hi Hnd]. rewrite list_elem_of_In in Hi.
  assert (Hrefs : forall k, In k refs -> (k < length (lots st))%nat)
    by (intros k Hk; apply Hlt; by right).
  destruct (q <=? 0)%num; [done|].
  destruct (lots st !! i) as [lot|] eqn:Hlot; [|by apply IH].
  rewrite IH; [|done|].
  - apply unfilled_same. by apply (body_same _ _ _ body_lots).
  - intros k Hk. rewrite (body_length _ _ _ body_lots). apply Hrefs in Hk. lia.
Qed.
End fifo_rest.

Lemma nlt_0_nle (q : num) :
  (0 <? q)%num = true -> (q <=? 0)%num = true -> False.
Proof.
  destruct q as [b| | |]; try done.
  intros H1%nlt_0_Fin H2%nle_0_Fin. qc2q. lra.
Qed.

(** When the loop ends with part of the request unfilled, the lots had
    finite quantities that add up to less than the request. *)
Lemma unfilled_pos (ls : list Lot.t) refs q :
  (forall i, In i refs ->
     exists l, ls !! i = Some l /\ (0 <? Lot.OpenQty l)%num = true) ->
  (0 <? unfilled ls refs q)%num = true ->
  finPos refs ls /\ (sumOver Lot.OpenQty ls refs <? q)%num = true.
Proof.
  revert q. induction refs as [|i refs IH]; intros q Hopen; simpl.
  { intros Hq. split; [by intros i []|done]. }
  destruct (Hopen i) as (l & Hl & Ho); [by left|]. rewrite Hl.
  destruct (q <=? 0)%num eqn:Hq0.
  { intros Hq. exfalso. by apply (nlt_0_nle q). }
  intros Hrest.
  destruct (IH _ (fun j Hj => Hopen j (or_intror Hj)) Hrest) as [Hfp Hsum].
  destruct (finPos_sum refs ls Hfp) as (t & Ht & Htpos).
  rewrite Ht in Hsum |- *.
  destruct (pos_cases _ Ho) as [Hinf | (o & Hfin & Hpos)].
  - exfalso. rewrite Hinf in Hsum. destruct q as [b| | |]; try done.
    change (nmin PInf (Fin b)) with (Fin b) in Hsum.
    rewrite nsub_diag in Hsum. unfold of_Z in Hsum. rewrite Qc_of_Z_0 in Hsum.
    apply nlt_Fin in Hsum. qc2q. lra.
  - rewrite Hfin in Hsum |- *. split.
    + intros j [<-|Hj]; [by exists l, o|by apply Hfp].
    + rewrite nadd_Fin. destruct q as [b| | |]; try done.
      rewrite nmin_Fin, nsub_Fin in Hsum. apply nlt_Fin in Hsum.
      apply nlt_Fin. destruct (decide (b < o)%Qc); qc2q; lra.
Qed.

Lemma openLotsBySecurity_open ls owner securityId i :
  In i (openLotsBySecurity ls owner securityId) ->
  exists l, ls !! i = Some l /\ (0 <? Lot.OpenQty l)%num = true.
Proof.
  intros (l & Hl & Ho)%openLotsBySecurity_In. exists l. split; [done|].
  unfold openFor in Ho. by apply andb_prop in Ho as [_ Ho].
Qed.

(** C7 (amended): a SELL, GIFT or TRANSFER whose security lookup does not
    throw, and whose loop over the matching lots ends with part of the
    request still unfilled (the lots run out first), is processed without
    an exception.  Every matching lot (a lot of the security that the
    giving owner holds open) is used up whole: SELL and GIFT leave it with
    open quantity 0, TRANSFER hands the lot as it is to the destination.
    No other lot that was in the store is changed.  A SELL appends one
    consumption record for each matching lot, in the order of the
    references and for the whole quantity of the lot; GIFT and TRANSFER
    append none.  The state that results is the same for every request that
    the lots cannot fill: nothing in it records how much was left unfilled.
    The references are the matching lots, each once, by acquisition date
    and then by position when the dates are valid. *)
Theorem C7_request_that_outruns_the_lots_is_dropped
    (secs : gmap string Sec.t) (st : State) (e : Event)
    (assetId : option string) :
  let d := Data e in
  let matching (l : Lot.t) :=
    Lot.OwnerId l = fromOwner e /\ Lot.SecurityId l = Row.SecurityId d
    /\ (0 <? Lot.OpenQty l)%num = true in
  let refs :=
    openLotsBySecurity (lots st) (fromOwner e) (Row.SecurityId d) in
  Type_ e = "SELL" \/ Type_ e = "GIFT" \/ Type_ e = "TRANSFER" ->
  assetId_of secs (Row.SecurityId d) = Ok assetId ->
  (0 <? unfilled (lots st) refs (Row.Quantity d))%num = true ->
  exists st',
    applyEvent secs st e = Ok st'
    /\ (forall i l, lots st !! i = Some l -> matching l ->
          exists l',
            lots st' !! i = Some l'
            /\ (Type_ e = "SELL" \/ Type_ e = "GIFT" -> soldOut l l')
            /\ (Type_ e = "TRANSFER" -> handedOver d l l'))
    /\ (forall i l, lots st !! i = Some l -> ~ matching l ->
          lots st' !! i = Some l)
    /\ (Type_ e = "SELL" ->
        exists recs,
          consumes st' = consumes st ++ recs
          /\ Forall2 (consumedWhole (lots st)) refs recs)
    /\ (Type_ e = "GIFT" \/ Type_ e = "TRANSFER" ->
        consumes st' = consumes st)
    /\ (forall q',
          (0 <? unfilled (lots st) refs q')%num = true ->
          applyEvent secs st (withQuantity e q') = Ok st')
    /\ NoDup refs
    /\ (forall i, In i refs <-> exists l, lots st !! i = Some l /\ matching l)
    /\ ((forall l, In l (lots st) -> matching l -> is_Some (Lot.BuyDate l)) ->
        StronglySorted (fifoBefore (lots st)) refs).
Proof.
  intros d matching refs HT Ha Hrest. subst d.
  assert (Hnd : NoDup refs) by apply openLotsBySecurity_NoDup.
  assert (Hm : forall l, openFor (fromOwner e) (Row.SecurityId (Data e)) l
                         = true <-> matching l).
  { intros l. unfold openFor, matching.
    rewrite !andb_true_iff, !String.eqb_eq. tauto. }
  assert (Hin_iff : forall i, In i refs <->
            exists l, lots st !! i = Some l /\ matching l).
  { intros i. unfold refs. rewrite openLotsBySecurity_In.
    split; intros (l & Hl & H); exists l; split; try done; by apply Hm. }
  assert (Hopen : forall i, In i refs ->
            exists l, lots st !! i = Some l /\ (0 <? Lot.OpenQty l)%num = true)
    by apply openLotsBySecurity_open.
  assert (Hall : forall q,
            (0 <? unfilled (lots st) refs q)%num = true ->
            finPos refs (lots st)
            /\ (sumOver Lot.OpenQty (lots st) refs <=? q)%num = true).
  { intros q Hq. destruct (unfilled_pos _ _ _ Hopen Hq) as [Hfp Hlt].
    split; [done|by apply nlt_nle]. }
  destruct (Hall _ Hrest) as [Hfp Hle].
  assert (Hfin : forall i l, lots st !! i = Some l -> matching l ->
            In i refs /\ exists o, Lot.OpenQty l = Fin o).
  { intros i l Hl Hml. assert (Hi : In i refs) by (apply Hin_iff; eauto).
    split; [done|]. destruct (Hfp i Hi) as (l0 & o & Hl0 & Ho & _).
    exists o. congruence. }
  assert (Hsold : forall l o, Lot.OpenQty l = Fin o ->
            soldOut l (taken l (Lot.OpenQty l))).
  { intros l o Ho. split; [by apply (taken_all_OpenQty l o)|].
    by repeat split. }
  assert (Hframe : forall i l, lots st !! i = Some l -> ~ matching l ->
            ~ In i refs /\ (i < length (lots st))%nat).
  { intros i l Hl Hn. split; [|by apply lookup_lt_Some in Hl].
    intros (l0 & Hl0 & Hm0)%Hin_iff. apply Hn. congruence. }
  assert (Hsorted : (forall l, In l (lots st) -> matching l ->
                       is_Some (Lot.BuyDate l)) ->
                    StronglySorted (fifoBefore (lots st)) refs).
  { intros Hv. apply openLotsBySecurity_sorted.
    intros l Hl Ho. apply Hv; [done|by apply Hm]. }
  assert (Hrefs : refs = openLotsBySecurity (lots st) (fromOwner e)
                           (Row.SecurityId (Data e))) by done.
  clearbody refs. clear Hm. unfold fromOwner in Hrefs.
  destruct HT as [HT | [HT | HT]]; rewrite HT in Hrefs; simpl in Hrefs.
  - rewrite applyEvent_SELL by done. rewrite ruleSELL_fifo.
    rewrite Ha, <-Hrefs. simpl.
    eexists. split; [reflexivity|].
    split; [|split; [|split; [|split; [|split; [|done]]]]].
    + intros i l Hl Hml. destruct (Hfin i l Hl Hml) as [Hi [o Ho]].
      eexists. split.
      * by apply (fifoLoop_takes_all _ _ _ (sellBody_lots _ _ _ _)).
      * split; [intros _; by apply (Hsold l o)|rewrite HT; discriminate].
    + intros i l Hl Hn. destruct (Hframe i l Hl Hn) as [Hi Hlt].
      by rewrite (fifoLoop_lookup_other _ _ _ (sellBody_lots _ _ _ _)).
    + intros _. by apply sell_excess_records.
    + rewrite HT. by intros [|].
    + intros q' Hq'. destruct (Hall _ Hq') as [_ Hle'].
      rewrite applyEvent_SELL by done.
      rewrite ruleSELL_withQuantity, Ha, <-Hrefs. simpl. f_equal.
      by apply (fifoLoop_excess _ _ _ (sellBody_lots _ _ _ _)).
  - rewrite applyEvent_GIFT by done. rewrite ruleGIFT_fifo.
    rewrite Ha, <-Hrefs. simpl.
    eexists. split; [reflexivity|].
    split; [|split; [|split; [|split; [|split; [|done]]]]].
    + intros i l Hl Hml. destruct (Hfin i l Hl Hml) as [Hi [o Ho]].
      eexists. split.
      * by apply (fifoLoop_takes_all _ _ _ (giftBody_lots _ _)).
      * split; [intros _; by apply (Hsold l o)|rewrite HT; discriminate].
    + intros i l Hl Hn. destruct (Hframe i l Hl Hn) as [Hi Hlt].
      by rewrite (fifoLoop_lookup_other _ _ _ (giftBody_lots _ _)).
    + rewrite HT. discriminate.
    + intros _. rewrite <-giftLoop_fifo. apply giftLoop_consumes.
    + intros q' Hq'. destruct (Hall _ Hq') as [_ Hle'].
      rewrite applyEvent_GIFT by done.
      rewrite ruleGIFT_withQuantity, Ha, <-Hrefs. simpl. f_equal.
      by apply (fifoLoop_excess _ _ _ (giftBody_lots _ _)).
  - rewrite applyEvent_TRANSFER by done. rewrite ruleTRANSFER_fifo.
    rewrite Ha, <-Hrefs. simpl.
    eexists. split; [reflexivity|].
    split; [|split; [|split; [|split; [|split; [|done]]]]].
    + intros i l Hl Hml. destruct (Hfin i l Hl Hml) as [Hi [o Ho]].
      eexists. split.
      * by apply (fifoLoop_takes_all _ _ _ (transferBody_lots _ _)).
      * split; [rewrite HT; by intros [|]|]. intros _.
        rewrite Ho, nlt_irrefl_Fin. by repeat split.
    + intros i l Hl Hn. destruct (Hframe i l Hl Hn) as [Hi Hlt].
      by rewrite (fifoLoop_lookup_other _ _ _ (transferBody_lots _ _)).
    + rewrite HT. discriminate.
    + intros _. rewrite <-transferLoop_fifo. apply transferLoop_consumes.
    + intros q' Hq'. destruct (Hall _ Hq') as [_ Hle'].
      rewrite applyEvent_TRANSFER by done.
      rewrite ruleTRANSFER_withQuantity, Ha, <-Hrefs. simpl. f_equal.
      by apply (fifoLoop_excess _ _ _ (transferBody_lots _ _)).
Qed.

(** C7 (counterexample): the request of a GIFT of 30 shares of Z exceeds
    the total open quantity of the matching lots, which is 0, and the GIFT
    is not processed: Z is not listed and the rule throws a TypeError
    before its loop.  So does the rebuild. *)
Lemma C7_counterexample_unlisted_security_throws :
  let refs := openLotsBySecurity (lots ex_two_lots) (fromOwner ex_gift_unlisted)
                (Row.SecurityId (Data ex_gift_unlisted)) in
  Type_ ex_gift_unlisted = "GIFT"
  /\ sumOver Lot.OpenQty (lots ex_two_lots) refs = 0%num
  /\ (sumOver Lot.OpenQty (lots ex_two_lots) refs
      <? Row.Quantity (Data ex_gift_unlisted))%num = true
  /\ applyEvent ex_secs ex_two_lots ex_gift_unlisted = Throw TypeError
  /\ rebuildLots [Sec.mk "X" "AX"; Sec.mk "Y" "AY"; Sec.mk "G" "AG"]
       [ex_trade "T1" "BUY" 1 100 10 80]
       [ex_action "GIFT" 6 "Z" "" 0 0 30]
     = Throw TypeError.
Proof. by repeat split. Qed.

(** ** C6: divisions by zero *)

(** C6 (defect): the MERGER rule divides the aggregate cost by the floored
    new quantity without testing it, unlike the CLASS_REORG rule
    ([newQty > 0 ? ... : 0]).  One share bought at 10 and merged at a ratio
    of 1:2 gives floor(0.5) = 0 shares and a per-share cost of 10/0, which
    is +Infinity. *)
Theorem C6_merger_divides_by_floored_zero :
  exists st lot,
    replay ex_secs
      (sortedEvents [ex_trade "T1" "BUY" 1 1 10 80]
                    [ex_action "MERGER" 2 "X" "Y" 1 2 0]) init = Ok st
    /\ lots st = [lot]
    /\ Lot.SecurityId lot = "Y"
    /\ Lot.OpenQty lot = 0%num
    /\ Lot.CostNative lot = of_Z 10
    /\ Lot.CostPriceNative lot = PInf.
Proof.
  eexists _, _. split; [vm_compute; reflexivity|].
  split; [reflexivity|]. repeat split; js_eq.
Qed.

(** ** The theorems at concrete inputs *)

Lemma C3_split_and_merger_conserve_cost_witness :
  exists st',
    applyEvent ex_secs ex_two_lots ex_merger = Ok st'
    /\ sumOver Lot.CostNative (lots st') [0; 1]%nat
       = sumOver Lot.CostNative (lots ex_two_lots) [0; 1]%nat
    /\ sumOver Lot.CostINR (lots st') [0; 1]%nat
       = sumOver Lot.CostINR (lots ex_two_lots) [0; 1]%nat.
Proof.
  destruct (C3_split_and_merger_conserve_cost ex_secs ex_two_lots ex_merger)
    as (st' & H1 & H2 & H3 & _).
  - right. split; [reflexivity|]. by eexists.
  - exists st'. split; [exact H1|]. split; [exact H2|exact H3].
Defined.

Lemma C7_request_that_outruns_the_lots_is_dropped_witness :
  exists st',
    applyEvent ex_secs ex_two_lots ex_sell_all = Ok st'
    /\ (exists l1 l2,
          lots st' !! 0%nat = Some l1 /\ lots st' !! 1%nat = Some l2
          /\ Lot.OpenQty l1 = 0%num /\ Lot.OpenQty l2 = 0%num)
    /\ (exists recs,
          consumes st' = consumes ex_two_lots ++ recs
          /\ Forall2 (consumedWhole (lots ex_two_lots)) [0; 1]%nat recs)
    /\ applyEvent ex_secs ex_two_lots (withQuantity ex_sell_all (of_Z 151))
       = Ok st'.
Proof.
  destruct (C7_request_that_outruns_the_lots_is_dropped ex_secs ex_two_lots
              ex_sell_all (Some "AX"))
    as (st' & H1 & Hlots & _ & Hrecs & _ & Hany & _).
  - by left.
  - reflexivity.
  - reflexivity.
  - exists st'. split; [exact H1|]. split; [|split].
    + destruct (Hlots 0%nat (ex_lot "LOT_1" "O1" "X" 1 100 10 80))
        as (l1 & Hl1 & Hs1 & _); [reflexivity|by repeat split|].
      destruct (Hlots 1%nat (ex_lot "LOT_2" "O1" "X" 3 50 12 81))
        as (l2 & Hl2 & Hs2 & _); [reflexivity|by repeat split|].
      exists l1, l2. split; [exact Hl1|]. split; [exact Hl2|].
      split; [apply Hs1|apply Hs2]; by left.
    + exact (Hrecs eq_refl).
    + apply Hany. reflexivity.
Defined.

Lemma C8_gift_lot_inherits_from_source_witness :
  exists st' new src',
    applyEvent ex_secs ex_two_lots ex_gift = Ok st'
    /\ lots st' !! 2%nat = Some new
    /\ lots st' !! 0%nat = Some src'
    /\ Lot.OpenQty new = of_Z 30
    /\ Lot.OwnerId new = "O2"
    /\ Lot.BuyDate new = Some 1%Z
    /\ Lot.CostPriceNative new = of_Z 10
    /\ Lot.CostNative new = of_Z 300
    /\ Lot.OpenQty src' = of_Z 70
    /\ Lot.CostNative src' = of_Z 700.
Proof.
  destruct (C8_gift_lot_inherits_from_source ex_secs ex_two_lots ex_gift
              (Some "AX"))
    as (st' & H1 & _ & _ & _ & Hfirst).
  - reflexivity.
  - reflexivity.
  - destruct (Hfirst 0%nat (ex_lot "LOT_1" "O1" "X" 1 100 10 80))
      as (new & src' & Hn & Hs & Hq & Hg & Hl).
    + reflexivity.
    + by repeat split.
    + intros [|[|j]] l Hj Hl _; [done| |done].
      unfold fifoBefore. simpl. left. lia.
    + reflexivity.
    + destruct Hg as (Hd & Ho & _ & _ & _ & _ & _ & Hp & Hc & _).
      destruct Hl as (Hq' & Hc' & _).
      assert (Hq30 : Lot.OpenQty new = of_Z 30) by (rewrite Hq; js_eq).
      assert (Hc300 : Lot.CostNative new = of_Z 300)
        by (rewrite Hc, Hq30; js_eq).
      exists st', new, src'. split; [exact H1|]. split; [exact Hn|].
      split; [exact Hs|]. split; [exact Hq30|]. split; [exact Ho|].
      split; [exact Hd|]. split; [rewrite Hp; js_eq|].
      split; [exact Hc300|].
      split; [rewrite Hq', Hq30; js_eq|]. rewrite Hc', Hc300. js_eq.
Defined.

Lemma C9_bonus_lot_has_zero_cost_witness :
  exists st',
    applyEvent ex_secs ex_two_lots ex_bonus = Ok st'
    /\ length (lots st') = 4%nat
    /\ forall j new,
         (2 <= j)%nat -> lots st' !! j = Some new ->
         Lot.CostNative new = 0%num /\ Lot.CostINR new = 0%num
         /\ Lot.CostPriceNative new = 0%num /\ Lot.BuyDate new = Some 6%Z.
Proof.
  destruct (C9_bonus_lot_has_zero_cost ex_secs ex_two_lots ex_bonus)
    as (st' & H1 & _ & Hlen & Hall).
  - reflexivity.
  - by eexists.
  - exists st'. split; [exact H1|]. split; [exact Hlen|].
    intros j new Hj Hnew.
    destruct (Hall j new Hj Hnew) as (Hn & Hi & Hp & Hd & _).
    split; [exact Hn|]. split; [exact Hi|]. split; [exact Hp|exact Hd].
Defined.


(** ** The scenarios of the specification *)

(** BUY 100 at 10 (FX 80) on day 1, SELL 40 at 15 (FX 82) on day 5: one
    consumption record (quantity 40, costs 400 and 32000, proceeds 600 and
    49200), and a remaining lot of 60 shares with native cost 600. *)
Example scenario_buy_then_sell :
  rebuildLots [Sec.mk "X" "AX"]
    [ex_trade "T1" "BUY" 1 100 10 80; ex_trade "T2" "SELL" 5 40 15 82] []
  = Ok {| Lots_Current :=
            [{| Lot.LotId := "LOT_1"; Lot.OwnerId := "O1";
                Lot.SecurityId := "X"; Lot.AssetId := Some "AX";
                Lot.BuyDate := Some 1%Z; Lot.OpenQty := of_Z 60;
                Lot.CostNative := of_Z 600; Lot.CostPriceNative := of_Z 10;
                Lot.CostINR := of_Z 48000; Lot.BuyFXRate := of_Z 80;
                Lot.BrokerId := "B1"; Lot.AccountId := "A1" |}];
          LotConsumes :=
            [{| Consume.ConsumeId := "C_1"; Consume.TradeId := "T2";
                Consume.OwnerId := "O1"; Consume.SecurityId := "X";
                Consume.AssetId := Some "AX"; Consume.LotId := "LOT_1";
                Consume.BuyDate := Some 1%Z; Consume.SellDate := Some 5%Z;
                Consume.Quantity := of_Z 40;
                Consume.CostNative := of_Z 400;
                Consume.CostPriceNative := of_Z 10;
                Consume.CostINR := of_Z 32000;
                Consume.CostFXRate := of_Z 80;
                Consume.SalePriceNative := of_Z 15;
                Consume.SaleFXRate := of_Z 82;
                Consume.ProceedsNative := of_Z 600;
                Consume.ProceedsINR := of_Z 49200 |}] |}.
Proof. js_eq. Qed.

(** SPLIT 2:1 on a lot of 60 shares at per-share cost 10: 120 shares at
    per-share cost 5, aggregate cost 600 as before. *)
Example scenario_split :
  rebuildLots [Sec.mk "X" "AX"]
    [ex_trade "T1" "BUY" 1 60 10 80] [ex_action "SPLIT" 2 "X" "" 2 1 0]
  = Ok {| Lots_Current :=
            [{| Lot.LotId := "LOT_1"; Lot.OwnerId := "O1";
                Lot.SecurityId := "X"; Lot.AssetId := Some "AX";
                Lot.BuyDate := Some 1%Z; Lot.OpenQty := of_Z 120;
                Lot.CostNative := of_Z 600; Lot.CostPriceNative := of_Z 5;
                Lot.CostINR := of_Z 48000; Lot.BuyFXRate := of_Z 80;
                Lot.BrokerId := "B1"; Lot.AccountId := "A1" |}];
          LotConsumes := [] |}.
Proof. js_eq. Qed.

(** BONUS 2:1 on a lot of 100 shares: a new lot of 100 shares at cost 0,
    acquired on the action date; the original lot is unchanged. *)
Example scenario_bonus :
  rebuildLots [Sec.mk "X" "AX"]
    [ex_trade "T1" "BUY" 1 100 10 80] [ex_action "BONUS" 2 "X" "" 2 1 0]
  = Ok {| Lots_Current :=
            [{| Lot.LotId := "LOT_1"; Lot.OwnerId := "O1";
                Lot.SecurityId := "X"; Lot.AssetId := Some "AX";
                Lot.BuyDate := Some 1%Z; Lot.OpenQty := of_Z 100;
                Lot.CostNative := of_Z 1000; Lot.CostPriceNative := of_Z 10;
                Lot.CostINR := of_Z 80000; Lot.BuyFXRate := of_Z 80;
                Lot.BrokerId := "B1"; Lot.AccountId := "A1" |};
             {| Lot.LotId := "LOT_2"; Lot.OwnerId := "O1";
                Lot.SecurityId := "X"; Lot.AssetId := Some "AX";
                Lot.BuyDate := Some 2%Z; Lot.OpenQty := of_Z 100;
                Lot.CostNative := of_Z 0; Lot.CostPriceNative := of_Z 0;
                Lot.CostINR := of_Z 0; Lot.BuyFXRate := of_Z 80;
                Lot.BrokerId := "B1"; Lot.AccountId := "A1" |}];
          LotConsumes := [] |}.
Proof. js_eq. Qed.

(** * Further properties of [rebuildLots] *)

(** ** Identifiers *)

Lemma idsOk_init : idsOk init.
Proof.
  split; [done|]. split; [done|].
  split; intros i x Hx; simpl in Hx; by rewrite lookup_nil in Hx.
Qed.

Lemma idsOk_push_lot st mk :
  idsOk st -> (forall id, Lot.LotId (mk id) = id) -> idsOk (push_lot st mk).
Proof.
  intros (HL & HC & Hl & Hc) Hmk. split; [|split; [|split]]; simpl; try done.
  - rewrite length_app. simpl. lia.
  - intros i l [Hi | [Hle Hi]]%lookup_app_Some; [by apply Hl|].
    apply list_lookup_singleton_Some in Hi as [Hi <-].
    rewrite Hmk, HL. do 2 f_equal. lia.
Qed.

Lemma idsOk_push_consume st mk :
  idsOk st -> (forall id, Consume.ConsumeId (mk id) = id) ->
  idsOk (push_consume st mk).
Proof.
  intros (HL & HC & Hl & Hc) Hmk. split; [|split; [|split]]; simpl; try done.
  - rewrite length_app. simpl. lia.
  - intros i l [Hi | [Hle Hi]]%lookup_app_Some; [by apply Hc|].
    apply list_lookup_singleton_Some in Hi as [Hi <-].
    rewrite Hmk, HC. do 2 f_equal. lia.
Qed.

Lemma idsOk_update st i l0 l :
  idsOk st -> lots st !! i = Some l0 -> Lot.LotId l = Lot.LotId l0 ->
  idsOk (update_lot st i l).
Proof.
  intros (HL & HC & Hl & Hc) Hi Hid. split; [|split; [|split]]; simpl; try done.
  - by rewrite length_insert.
  - intros j x Hj. destruct (decide (j = i)) as [->|Hne].
    + rewrite list_lookup_insert_eq in Hj by (by apply lookup_lt_Some in Hi).
      injection Hj as <-. rewrite Hid. by apply Hl.
    + rewrite list_lookup_insert_ne in Hj by done. by apply Hl.
Qed.

Lemma idsOk_map st (g : Lot.t -> Lot.t) :
  idsOk st -> (forall l, Lot.LotId (g l) = Lot.LotId l) ->
  idsOk (set_lots st (map g (lots st))).
Proof.
  intros (HL & HC & Hl & Hc) Hg. split; [|split; [|split]]; simpl; try done.
  - by rewrite length_map.
  - intros i l. change (map g (lots st)) with (g <$> lots st).
    rewrite list_lookup_fmap. destruct (lots st !! i) as [l0|] eqn:H0; [|done].
    simpl. intros [= <-]. rewrite Hg. by apply Hl.
Qed.

Lemma push_lot_lookup st mk i l :
  lots st !! i = Some l -> lots (push_lot st mk) !! i = Some l.
Proof. intros H. simpl. by apply lookup_app_l_Some. Qed.

Lemma sellLoop_ids d assetId salePrice saleFX refs q st :
  idsOk st -> idsOk (sellLoop d assetId salePrice saleFX refs q st).
Proof.
  revert q st. induction refs as [|i refs IH]; intros q st Hst; simpl; [done|].
  destruct (q <=? 0)%num; [done|].
  destruct (lots st !! i) as [lot|] eqn:Hl; [|by apply IH].
  apply IH. eapply idsOk_update; [|exact Hl|done].
  by apply idsOk_push_consume.
Qed.

Lemma giftLoop_ids d assetId refs q st :
  idsOk st -> idsOk (giftLoop d assetId refs q st).
Proof.
  revert q st. induction refs as [|i refs IH]; intros q st Hst; simpl; [done|].
  destruct (q <=? 0)%num; [done|].
  destruct (lots st !! i) as [lot|] eqn:Hl; [|by apply IH].
  apply IH. eapply idsOk_update; [|by apply push_lot_lookup|done].
  by apply idsOk_push_lot.
Qed.

Lemma transferLoop_ids d assetId refs q st :
  idsOk st -> idsOk (transferLoop d assetId refs q st).
Proof.
  revert q st. induction refs as [|i refs IH]; intros q st Hst; simpl; [done|].
  destruct (q <=? 0)%num; [done|].
  destruct (lots st !! i) as [lot|] eqn:Hl; [|by apply IH].
  apply IH. destruct (nmin (Lot.OpenQty lot) q <? Lot.OpenQty lot)%num.
  - eapply idsOk_update; [|by apply push_lot_lookup|done].
    by apply idsOk_push_lot.
  - by eapply idsOk_update.
Qed.

Lemma reorg_ids toSec toAssetId qr crn cro refs st :
  idsOk st -> idsOk (foldl (reorgLot toSec toAssetId qr crn cro) st refs).
Proof.
  revert st. induction refs as [|i refs IH]; intros st Hst; simpl; [done|].
  apply IH. unfold reorgLot. destruct (lots st !! i) as [lot|] eqn:Hl; [|done].
  eapply idsOk_update; [|by apply push_lot_lookup|done].
  by apply idsOk_push_lot.
Qed.

Lemma bonus_ids d assetId bonusRatio ls st :
  idsOk st -> idsOk (foldl (bonusLot d assetId bonusRatio) st ls).
Proof.
  revert st. induction ls as [|l ls IH]; intros st Hst; simpl; [done|].
  apply IH. unfold bonusLot.
  destruct (0 <? Lot.OpenQty l * bonusRatio)%num; [|done].
  by apply idsOk_push_lot.
Qed.

(** The case analysis on the type of an event that the dispatch makes. *)
Ltac by_event_type e :=
  destruct (decide (Type_ e = "BUY")) as [?HT|?HT];
  [rewrite applyEvent_BUY by done; unfold ruleBUY|
  destruct (decide (Type_ e = "CLASS_REORG")) as [?HT|?HT];
  [rewrite applyEvent_CLASS_REORG by done; unfold ruleCLASS_REORG|
  destruct (decide (Type_ e = "SELL")) as [?HT|?HT];
  [rewrite applyEvent_SELL by done; unfold ruleSELL|
  destruct (decide (Type_ e = "SPLIT")) as [?HT|?HT];
  [rewrite applyEvent_SPLIT by done; unfold ruleSPLIT|
  destruct (decide (Type_ e = "BONUS")) as [?HT|?HT];
  [rewrite applyEvent_BONUS by done; unfold ruleBONUS|
  destruct (decide (Type_ e = "MERGER")) as [?HT|?HT];
  [rewrite applyEvent_MERGER by done; unfold ruleMERGER|
  destruct (decide (Type_ e = "GIFT")) as [?HT|?HT];
  [rewrite applyEvent_GIFT by done; unfold ruleGIFT|
  destruct (decide (Type_ e = "TRANSFER")) as [?HT|?HT];
  [rewrite applyEvent_TRANSFER by done; unfold ruleTRANSFER|
  rewrite applyEvent_other by done]]]]]]]];
  repeat (destruct (assetId_of _ _); simpl; [|done]);
  intros [= <-].

Lemma applyEvent_ids secs st e st' :
  idsOk st -> applyEvent secs st e = Ok st' -> idsOk st'.
Proof.
  intros Hst. by_event_type e.
  - by apply idsOk_push_lot.
  - by apply reorg_ids.
  - by apply sellLoop_ids.
  - apply idsOk_map; [done|]. intros l. by destruct (affectedBy _ l).
  - by apply bonus_ids.
  - apply idsOk_map; [done|]. intros l. by destruct (affectedBy _ l).
  - by apply giftLoop_ids.
  - by apply transferLoop_ids.
  - done.
Qed.

Lemma replay_ids secs events st st' :
  idsOk st -> replay secs events st = Ok st' -> idsOk st'.
Proof.
  revert st. induction events as [|e events IH]; intros st Hst; simpl.
  - by intros [= <-].
  - destruct (applyEvent secs st e) as [st1|] eqn:H1; simpl; [|done].
    apply IH. by apply (applyEvent_ids secs st e).
Qed.

Lemma positional_NoDup {A : Type} (f : A -> string) (prefix : string)
    (l : list A) :
  (forall i x, l !! i = Some x -> f x = prefix +:+ pretty (S i)) ->
  NoDup (map f l).
Proof.
  intros H. apply NoDup_alt. intros i j s.
  change (map f l) with (f <$> l). rewrite !list_lookup_fmap.
  destruct (l !! i) as [x|] eqn:Hx; [|done].
  destruct (l !! j) as [y|] eqn:Hy; [|done]. simpl.
  intros [= <-] [= Hyx]. rewrite (H i x Hx), (H j y Hy) in Hyx.
  apply (inj (String.append prefix)) in Hyx.
  apply (inj pretty) in Hyx. lia.
Qed.

(** X1: after any sequence of events replayed from the empty state, the
    identifier of the lot at position i of the lot store is "LOT_" followed
    by i+1, and the identifier of the i-th consumption record is "C_"
    followed by i+1 (positions counted from 0).  Hence no two lots of the
    store, no two lots written to Lots_Current and no two consumption
    records have the same identifier. *)
Theorem rebuildLots_identifiers_are_positions
    (secs : gmap string Sec.t) (events : list Event) (st : State) :
  replay secs events init = Ok st ->
  (forall i l, lots st !! i = Some l ->
     Lot.LotId l = "LOT_" +:+ pretty (S i))
  /\ (forall i c, consumes st !! i = Some c ->
        Consume.ConsumeId c = "C_" +:+ pretty (S i))
  /\ NoDup (map Lot.LotId (lots st))
  /\ NoDup (map Lot.LotId (finalLots st))
  /\ NoDup (map Consume.ConsumeId (consumes st)).
Proof.
  intros H. destruct (replay_ids secs events init st idsOk_init H)
    as (_ & _ & Hl & Hc).
  assert (Hnd : NoDup (map Lot.LotId (lots st)))
    by (by apply (positional_NoDup _ "LOT_")).
  split; [done|]. split; [done|]. split; [done|]. split.
  - by apply filter_map_NoDup.
  - by apply (positional_NoDup _ "C_").
Qed.
(** ** What no event changes *)

Lemma sameOrigin_refl l : sameOrigin l l.
Proof. done. Qed.

Lemma keeps_refl st : keeps st st.
Proof. intros i l Hl. by exists l. Qed.

Lemma keeps_trans st1 st2 st3 : keeps st1 st2 -> keeps st2 st3 -> keeps st1 st3.
Proof.
  intros H12 H23 i l Hl.
  destruct (H12 i l Hl) as (l2 & Hl2 & (Ha & Hb & Hc) & Hclosed).
  destruct (H23 i l2 Hl2) as (l3 & Hl3 & (Ha' & Hb' & Hc') & Hclosed').
  exists l3. split; [done|]. split; [split; [|split]; congruence|].
  intros Hcl. rewrite <-(Hclosed Hcl). apply Hclosed'.
  by rewrite (Hclosed Hcl).
Qed.

Lemma keeps_map st (g : Lot.t -> Lot.t) :
  (forall l, sameOrigin l (g l)) ->
  (forall l, (0 <? Lot.OpenQty l)%num = false -> g l = l) ->
  keeps st (set_lots st (map g (lots st))).
Proof.
  intros Hg Hcl i l Hl. exists (g l). simpl.
  change (map g (lots st)) with (g <$> lots st).
  rewrite list_lookup_fmap, Hl. auto.
Qed.

Lemma affectedBy_open securityId l :
  affectedBy securityId l = true -> (0 <? Lot.OpenQty l)%num = true.
Proof. unfold affectedBy. by intros [_ H]%andb_prop. Qed.

Lemma openFor_open owner securityId l :
  openFor owner securityId l = true -> (0 <? Lot.OpenQty l)%num = true.
Proof. unfold openFor. by intros [_ H]%andb_prop. Qed.

Lemma reorgSource_open fromAssetId fromSec l :
  reorgSource fromAssetId fromSec l = true -> (0 <? Lot.OpenQty l)%num = true.
Proof. unfold reorgSource. by intros [_ H]%andb_prop. Qed.

Section fifo_each.
Variable body : State -> nat -> Lot.t -> num -> State.
Variable upd : Lot.t -> num -> Lot.t.
Variable pushed : State -> Lot.t -> num -> list Lot.t.
Hypothesis body_lots : forall st i lot m,
  lots (body st i lot m) = <[i := upd lot m]> (lots st ++ pushed st lot m).

Lemma fifoLoop_done refs q st :
  (q <=? 0)%num = true -> fifoLoop body refs q st = st.
Proof. intros Hq. destruct refs; simpl; [done|]. by rewrite Hq. Qed.

(** A referenced lot is left as it was, or as the body rewrote it for the
    request [q'] that was open when its turn came. *)
Lemma fifoLoop_each refs qty st i l :
  NoDup refs -> (forall k, In k refs -> (k < length (lots st))%nat) ->
  In i refs -> lots st !! i = Some l ->
  lots (fifoLoop body refs qty st) !! i = Some l
  \/ exists q',
       (q' <=? 0)%num = false
       /\ lots (fifoLoop body refs qty st) !! i
          = Some (upd l (nmin (Lot.OpenQty l) q')).
Proof using body_lots.
  revert qty st. induction refs as [|k refs IH]; intros qty st Hnd Hlt Hin Hl;
    simpl; [done|].
  apply NoDup_cons in Hnd as [Hk Hnd]. rewrite list_elem_of_In in Hk.
  assert (Hrefs : forall j, In j refs -> (j < length (lots st))%nat)
    by (intros j Hj; apply Hlt; by right).
  destruct (qty <=? 0)%num eqn:Hq; [by left|].
  destruct (lots st !! k) as [lot|] eqn:Hlot.
  2: { destruct Hin as [->|Hin]; [congruence|]. by apply IH. }
  assert (Hk_lt : (k < length (lots st))%nat) by (by apply lookup_lt_Some in Hlot).
  destruct Hin as [->|Hin].
  - right. exists qty. split; [done|]. assert (lot = l) as -> by congruence.
    rewrite (fifoLoop_lookup_other _ _ _ body_lots); [|done|].
    + by apply (body_lookup_eq _ _ _ body_lots).
    + rewrite (body_length _ _ _ body_lots). lia.
  - apply IH; [done| |done|].
    + intros j Hj. rewrite (body_length _ _ _ body_lots).
      apply Hrefs in Hj. lia.
    + rewrite (body_lookup_ne _ _ _ body_lots); [done| |by apply Hrefs].
      intros ->. done.
Qed.

Lemma fifoLoop_keeps refs qty st :
  NoDup refs ->
  (forall i, In i refs ->
     exists l, lots st !! i = Some l /\ (0 <? Lot.OpenQty l)%num = true) ->
  (forall l m, sameOrigin l (upd l m)) ->
  keeps st (fifoLoop body refs qty st).
Proof using body_lots.
  intros Hnd Hopen Hupd j l Hl.
  assert (Hlt : forall k, In k refs -> (k < length (lots st))%nat).
  { intros k (lk & Hlk & _)%Hopen. by apply lookup_lt_Some in Hlk. }
  destruct (decide (j ∈ refs)) as [Hj%list_elem_of_In|Hj].
  - destruct (Hopen j Hj) as (l0 & Hl0 & Ho).
    assert (l0 = l) as -> by congruence.
    destruct (fifoLoop_each refs qty st j l Hnd Hlt Hj Hl) as [H|(q' & _ & H)].
    + exists l. by rewrite H.
    + eexists. split; [exact H|]. split; [apply Hupd|]. congruence.
  - rewrite list_elem_of_In in Hj. exists l. split; [|done].
    rewrite (fifoLoop_lookup_other _ _ _ body_lots); [done|done|].
    by apply lookup_lt_Some in Hl.
Qed.
End fifo_each.

Lemma applyEvent_keeps secs st e st' :
  applyEvent secs st e = Ok st' -> keeps st st'.
Proof.
  by_event_type e.
  - intros i l Hl. exists l. split; [|done]. by apply push_lot_lookup.
  - match goal with
    | |- keeps st (foldl (reorgLot ?a ?b ?c ?d ?f) st ?refs) =>
        destruct (reorg_fold a b c d f refs st) as (Hlen & Hother & Hsrc)
    end.
    { apply select_fst_NoDup. }
    { intros i (l & Hl & _)%select_fst_In. by apply lookup_lt_Some in Hl. }
    intros j l Hl.
    match goal with
    | |- context [foldl _ st ?refs] =>
        destruct (decide (j ∈ refs)) as [Hj|Hj]
    end.
    + pose proof Hj as Hj'. apply list_elem_of_lookup in Hj as [k Hk].
      destruct (Hsrc k j l Hk Hl) as [H _]. eexists. split; [exact H|].
      split; [done|]. intros Hcl.
      apply list_elem_of_In, select_fst_In in Hj' as (l0 & Hl0 & Ho).
      apply reorgSource_open in Ho. congruence.
    + rewrite list_elem_of_In in Hj. exists l. split; [|done].
      rewrite Hother; [done| |done]. by apply lookup_lt_Some in Hl.
  - rewrite sellLoop_fifo.
    apply (fifoLoop_keeps _ _ _ (sellBody_lots _ _ _ _));
      [apply openLotsBySecurity_NoDup|apply openLotsBySecurity_open|done].
  - apply keeps_map; intros l; destruct (affectedBy _ l) eqn:Ha; try done.
    apply affectedBy_open in Ha. congruence.
  - match goal with
    | |- keeps st (foldl (bonusLot ?a ?b ?c) st ?ls) =>
        destruct (bonus_fold a b c ls st) as (pushed & Hp & _)
    end.
    intros i l Hl. exists l. split; [|done]. rewrite Hp.
    by apply lookup_app_l_Some.
  - apply keeps_map; intros l; destruct (affectedBy _ l) eqn:Ha; try done.
    apply affectedBy_open in Ha. congruence.
  - rewrite giftLoop_fifo.
    apply (fifoLoop_keeps _ _ _ (giftBody_lots _ _));
      [apply openLotsBySecurity_NoDup|apply openLotsBySecurity_open|done].
  - rewrite transferLoop_fifo.
    apply (fifoLoop_keeps _ _ _ (transferBody_lots _ _));
      [apply openLotsBySecurity_NoDup|apply openLotsBySecurity_open|].
    intros l m. by destruct (m <? Lot.OpenQty l)%num.
  - apply keeps_refl.
Qed.

Lemma replay_keeps secs events st st' :
  replay secs events st = Ok st' -> keeps st st'.
Proof.
  revert st. induction events as [|e events IH]; intros st; simpl.
  - intros [= <-]. apply keeps_refl.
  - destruct (applyEvent secs st e) as [st1|] eqn:H1; simpl; [|done].
    intros H. eapply keeps_trans; [by eapply applyEvent_keeps|by apply IH].
Qed.

(** X2: whatever events are replayed, from any state, a lot of the store
    stays at its position and keeps its identifier, its acquisition date and
    its acquisition FX rate; and a lot that is closed (its open quantity is
    not greater than 0) is never changed again. *)
Theorem lot_origin_is_permanent_and_closed_lots_are_frozen
    (secs : gmap string Sec.t) (events : list Event) (st st' : State)
    (i : nat) (l : Lot.t) :
  replay secs events st = Ok st' ->
  lots st !! i = Some l ->
  exists l',
    lots st' !! i = Some l'
    /\ Lot.LotId l' = Lot.LotId l
    /\ Lot.BuyDate l' = Lot.BuyDate l
    /\ Lot.BuyFXRate l' = Lot.BuyFXRate l
    /\ ((0 <? Lot.OpenQty l)%num = false -> l' = l).
Proof.
  intros H Hl. destruct (replay_keeps secs events st st' H i l Hl)
    as (l' & Hl' & (Ha & Hb & Hc) & Hcl).
  by exists l'.
Qed.
(** ** Consumption records refer to lots *)

Lemma recordOf_keeps st st' c :
  keeps st st' -> recordOf (lots st) c -> recordOf (lots st') c.
Proof.
  intros Hk (i & l & Hl & Ha & Hb & Hc).
  destruct (Hk i l Hl) as (l' & Hl' & (Ha' & Hb' & Hc') & _).
  exists i, l'. split; [done|]. split; [|split]; congruence.
Qed.

Lemma bonus_consumes d assetId bonusRatio ls st :
  consumes (foldl (bonusLot d assetId bonusRatio) st ls) = consumes st.
Proof.
  revert st. induction ls as [|l ls IH]; intros st; simpl; [done|].
  rewrite IH. unfold bonusLot.
  by destruct (0 <? Lot.OpenQty l * bonusRatio)%num.
Qed.

(** Only SELL writes consumption records. *)
Lemma applyEvent_consumes secs st e st' :
  Type_ e <> "SELL" -> applyEvent secs st e = Ok st' ->
  consumes st' = consumes st.
Proof.
  intros Hne. by_event_type e; try done.
  - apply reorg_consumes.
  - apply bonus_consumes.
  - apply giftLoop_consumes.
  - apply transferLoop_consumes.
Qed.

(** The records that a SELL appends, one for each lot it takes from. *)
Lemma sellLoop_records d assetId salePrice saleFX refs q st :
  NoDup refs -> (forall k, In k refs -> (k < length (lots st))%nat) ->
  exists recs,
    consumes (sellLoop d assetId salePrice saleFX refs q st)
    = consumes st ++ recs
    /\ Forall (fun c =>
         Consume.TradeId c = Row.TradeId d
         /\ Consume.SellDate c = Row.TradeDate d
         /\ exists i l,
              In i refs /\ lots st !! i = Some l
              /\ Consume.LotId c = Lot.LotId l
              /\ Consume.BuyDate c = Lot.BuyDate l
              /\ Consume.CostFXRate c = Lot.BuyFXRate l) recs.
Proof.
  revert q st. induction refs as [|i refs IH]; intros q st Hnd Hlt; simpl.
  { exists []. by rewrite app_nil_r. }
  apply NoDup_cons in Hnd as [Hi Hnd]. rewrite list_elem_of_In in Hi.
  assert (Hrefs : forall j, In j refs -> (j < length (lots st))%nat)
    by (intros j Hj; apply Hlt; by right).
  destruct (q <=? 0)%num.
  { exists []. by rewrite app_nil_r. }
  destruct (lots st !! i) as [lot|] eqn:Hlot.
  2: { destruct (IH q st Hnd Hrefs) as (recs & -> & Hrecs). exists recs.
       split; [done|]. eapply Forall_impl; [exact Hrecs|]. simpl.
       intros c (? & ? & j & l & ? & ?). repeat split; try done.
       exists j, l. split; [by right|done]. }
  match goal with
  | |- context [sellLoop _ _ _ _ refs ?q' ?st2] =>
      destruct (IH q' st2 Hnd) as (recs & -> & Hrecs)
  end.
  { intros j Hj. simpl. rewrite length_insert. by apply Hrefs. }
  eexists (_ :: recs). simpl. rewrite <-app_assoc. split; [reflexivity|].
  constructor.
  - simpl. repeat split. exists i, lot. repeat split; [by left|done].
  - eapply Forall_impl; [exact Hrecs|]. simpl.
    intros c (? & ? & j & l & Hj & Hl & ?). repeat split; try done.
    exists j, l. split; [by right|]. split; [|done].
    rewrite list_lookup_insert_ne in Hl; [done|]. intros ->. done.
Qed.

Lemma applyEvent_records secs st e st' :
  Forall (recordOf (lots st)) (consumes st) ->
  applyEvent secs st e = Ok st' ->
  Forall (recordOf (lots st')) (consumes st').
Proof.
  intros Hst H. pose proof (applyEvent_keeps secs st e st' H) as Hk.
  destruct (decide (Type_ e = "SELL")) as [HT|HT].
  - rewrite applyEvent_SELL in H by done. unfold ruleSELL in H.
    destruct (assetId_of _ _) as [assetId|]; simpl in H; [|done].
    injection H as <-.
    match goal with
    | |- context [sellLoop ?d ?a ?p ?fx ?refs ?q st] =>
        destruct (sellLoop_records d a p fx refs q st) as (recs & Hc & Hrecs)
    end.
    { apply openLotsBySecurity_NoDup. }
    { apply openLotsBySecurity_lt. }
    rewrite Hc. apply Forall_app. split.
    + eapply Forall_impl; [exact Hst|]. intros c. by apply recordOf_keeps.
    + eapply Forall_impl; [exact Hrecs|]. simpl.
      intros c (_ & _ & i & l & _ & Hl & ?). apply (recordOf_keeps st); [done|].
      by exists i, l.
  - rewrite (applyEvent_consumes secs st e st') by done.
    eapply Forall_impl; [exact Hst|]. intros c. by apply recordOf_keeps.
Qed.

(** X3: after any sequence of events replayed from the empty state, every
    consumption record names a lot that is in the lot store (possibly
    closed, hence not in Lots_Current): the record's LotId is the
    identifier of the lot at some position i, which is "LOT_" followed by
    i+1, and the record's BuyDate and CostFXRate are the acquisition date
    and FX rate of that lot as the store has it at the end. *)
Theorem consumption_records_refer_to_lots
    (secs : gmap string Sec.t) (events : list Event) (st : State)
    (c : Consume.t) :
  replay secs events init = Ok st ->
  In c (consumes st) ->
  exists i l,
    lots st !! i = Some l
    /\ Consume.LotId c = Lot.LotId l
    /\ Lot.LotId l = "LOT_" +:+ pretty (S i)
    /\ Consume.BuyDate c = Lot.BuyDate l
    /\ Consume.CostFXRate c = Lot.BuyFXRate l.
Proof.
  intros H Hc.
  assert (Hall : forall events st0 st1,
            Forall (recordOf (lots st0)) (consumes st0) ->
            replay secs events st0 = Ok st1 ->
            Forall (recordOf (lots st1)) (consumes st1)).
  { clear. induction events as [|e events IH]; intros st0 st1 H0; simpl.
    - by intros [= <-].
    - destruct (applyEvent secs st0 e) as [st2|] eqn:H2; simpl; [|done].
      apply IH. by apply (applyEvent_records secs st0 e). }
  pose proof (Hall events init st (Forall_nil_2 _) H) as Hrecs.
  rewrite Forall_forall in Hrecs.
  destruct (Hrecs c) as (i & l & Hl & Ha & Hb & Hd);
    [by apply list_elem_of_In|].
  destruct (replay_ids secs events init st idsOk_init H) as (_ & _ & Hid & _).
  exists i, l. repeat split; try done. by apply Hid.
Qed.
(** ** How much a SELL takes *)

(** [Math.min(o, c)] for an open quantity [o > 0] and a request [c > 0]. *)
Lemma nmin_pos (o : num) (c : Qc) :
  (0 <? o)%num = true -> (0 < c)%Qc ->
  exists m, nmin o (Fin c) = Fin m /\ (0 < m)%Qc /\ (m <= c)%Qc
            /\ (Fin m <=? o)%num = true.
Proof.
  intros [-> | (p & -> & Hp)]%pos_cases Hc.
  - exists c. by repeat split.
  - rewrite nmin_Fin. destruct (decide (c < p)%Qc) as [Hlt|Hge].
    + exists c. repeat split; [done|done|]. apply nle_Fin. qc2q. lra.
    + exists p. repeat split; [done| |by apply nle_Fin].
      by apply Qcnot_lt_le.
Qed.

(** The records of a SELL are for the first lots in the order of the
    references, one each, and none takes more than is open in its lot or
    more than [q0], a bound of the request. *)
Lemma sell_records_bounds d assetId salePrice saleFX ls0 refs (c q0 : Qc) st :
  NoDup refs ->
  (forall i, In i refs ->
     exists l, lots st !! i = Some l /\ (0 <? Lot.OpenQty l)%num = true) ->
  (forall j, In j refs -> lots st !! j = ls0 !! j) ->
  (c <= q0)%Qc ->
  exists recs,
    consumes (fifoLoop (sellBody d assetId salePrice saleFX) refs (Fin c) st)
    = consumes st ++ recs
    /\ (length recs <= length refs)%nat
    /\ Forall2 (withinLot ls0 (Fin q0)) (take (length recs) refs) recs.
Proof.
  revert c st. induction refs as [|i refs IH]; intros c st Hnd Hopen Hls0 Hc;
    simpl.
  { exists []. rewrite app_nil_r. by repeat split. }
  apply NoDup_cons in Hnd as [Hi Hnd]. rewrite list_elem_of_In in Hi.
  destruct (Fin c <=? 0)%num eqn:Hc0.
  { exists []. rewrite app_nil_r. repeat split; [simpl; lia|constructor]. }
  apply nle_0_false in Hc0.
  destruct (Hopen i) as (l & Hl & Ho); [by left|]. rewrite Hl.
  destruct (nmin_pos _ c Ho Hc0) as (m & -> & Hm0 & Hmc & Hmo).
  rewrite nsub_Fin.
  set (st2 := sellBody d assetId salePrice saleFX st i l (Fin m)).
  assert (Hlt : forall j, In j refs -> (j < length (lots st))%nat).
  { intros j Hj. destruct (Hopen j) as (lj & Hlj & _); [by right|].
    by apply lookup_lt_Some in Hlj. }
  assert (Hsame : forall j, In j refs -> lots st2 !! j = lots st !! j).
  { by apply (body_same _ _ _ (sellBody_lots d assetId salePrice saleFX)). }
  destruct (IH (c - m)%Qc st2 Hnd) as (recs & -> & Hlen & Hrecs).
  - intros j Hj. rewrite Hsame by done. apply Hopen. by right.
  - intros j Hj. rewrite Hsame by done. apply Hls0. by right.
  - qc2q. lra.
  - eexists (_ :: recs). unfold st2 at 1. simpl. rewrite <-app_assoc.
    split; [reflexivity|]. split; [lia|]. constructor; [|done].
    exists l. rewrite <-Hls0 by (by left). split; [done|]. split; [done|].
    simpl. split; [by apply nlt_0_Fin|]. split; [done|].
    apply nle_Fin. qc2q. lra.
Qed.

Lemma sell_length d assetId salePrice saleFX refs q st :
  length (lots (fifoLoop (sellBody d assetId salePrice saleFX) refs q st))
  = length (lots st).
Proof.
  revert q st. induction refs as [|i refs IH]; intros q st; simpl; [done|].
  destruct (q <=? 0)%num; [done|].
  destruct (lots st !! i) as [lot|]; [|apply IH].
  rewrite IH. simpl. by rewrite length_insert.
Qed.

(** X4: a SELL of a finite quantity q whose security lookup does not throw
    is processed.  It appends no lot and changes no lot outside the matching
    open lots.  The consumption records it appends are for the first
    matching lots in the order of the references, one record for each, and
    the quantity of each record is greater than 0, at most the open
    quantity that its lot had, and at most q. *)
Theorem sell_records_stay_within_lot_and_request
    (secs : gmap string Sec.t) (st : State) (e : Event)
    (assetId : option string) (q : Qc) :
  let d := Data e in
  let refs :=
    openLotsBySecurity (lots st) (Row.OwnerId d) (Row.SecurityId d) in
  Type_ e = "SELL" ->
  assetId_of secs (Row.SecurityId d) = Ok assetId ->
  Row.Quantity d = Fin q ->
  exists st' recs,
    applyEvent secs st e = Ok st'
    /\ consumes st' = consumes st ++ recs
    /\ (length recs <= length refs)%nat
    /\ Forall2 (withinLot (lots st) (Fin q)) (take (length recs) refs) recs
    /\ length (lots st') = length (lots st)
    /\ forall j, ~ In j refs -> lots st' !! j = lots st !! j.
Proof.
  intros d refs HT Ha Hq. subst d.
  rewrite applyEvent_SELL by done. rewrite ruleSELL_fifo.
  rewrite Ha, Hq. simpl. fold refs.
  assert (Hnd : NoDup refs) by apply openLotsBySecurity_NoDup.
  destruct (sell_records_bounds (Data e) assetId (Row.Price (Data e))
              (Row.FXRateToINR (Data e)) (lots st) refs q q st Hnd)
    as (recs & Hc & Hlen & Hrecs);
    [apply openLotsBySecurity_open|done|done|].
  eexists _, recs. split; [reflexivity|]. split; [exact Hc|].
  split; [exact Hlen|]. split; [exact Hrecs|]. split; [apply sell_length|].
  intros j Hj. destruct (decide (j < length (lots st))%nat) as [Hlt|Hge].
  - by apply (fifoLoop_lookup_other _ _ _ (sellBody_lots _ _ _ _)).
  - rewrite (lookup_ge_None_2 (lots st)) by lia.
    apply lookup_ge_None_2. rewrite sell_length. lia.
Qed.

(** ** The FIFO discipline *)

Section fifo_order.
Variable body : State -> nat -> Lot.t -> num -> State.
Variable upd : Lot.t -> num -> Lot.t.
Variable pushed : State -> Lot.t -> num -> list Lot.t.
Hypothesis body_lots : forall st i lot m,
  lots (body st i lot m) = <[i := upd lot m]> (lots st ++ pushed st lot m).

(** When the loop changes the lot of a reference, it has used up whole the
    lot of every reference before it. *)
Lemma fifoLoop_order refs q st k1 k2 i1 i2 l1 :
  NoDup refs ->
  (forall i, In i refs ->
     exists l, lots st !! i = Some l /\ (0 <? Lot.OpenQty l)%num = true) ->
  (k1 < k2)%nat -> refs !! k1 = Some i1 -> refs !! k2 = Some i2 ->
  lots st !! i1 = Some l1 ->
  lots (fifoLoop body refs (Fin q) st) !! i2 <> lots st !! i2 ->
  lots (fifoLoop body refs (Fin q) st) !! i1 = Some (upd l1 (Lot.OpenQty l1))
  /\ is_fin (Lot.OpenQty l1).
Proof using body_lots.
  revert q st k1 k2.
  induction refs as [|i refs IH]; intros q st k1 k2 Hnd Hopen Hk H1 H2 Hl1.
  { by rewrite lookup_nil in H1. }
  simpl. apply NoDup_cons in Hnd as [Hi Hnd]. rewrite list_elem_of_In in Hi.
  destruct k2 as [|k2]; [lia|]. simpl in H2.
  assert (Hi2 : In i2 refs).
  { apply list_elem_of_In, list_elem_of_lookup. eauto. }
  destruct (Fin q <=? 0)%num eqn:Hq0; [by intros Hc|].
  apply nle_0_false in Hq0.
  destruct (Hopen i) as (l & Hl & Ho); [by left|]. rewrite Hl.
  assert (Hlt : forall j, In j refs -> (j < length (lots st))%nat).
  { intros j Hj. destruct (Hopen j) as (lj & Hlj & _); [by right|].
    by apply lookup_lt_Some in Hlj. }
  assert (Hsame : forall m j, In j refs ->
            lots (body st i l m) !! j = lots st !! j).
  { intros m. by apply (body_same _ _ _ body_lots). }
  assert (Hstop : forall m, (Fin q - m <=? 0)%num = true ->
            lots (fifoLoop body refs (Fin q - m) (body st i l m)) !! i2
            <> lots st !! i2 -> False).
  { intros m Hz. rewrite fifoLoop_done by done. rewrite Hsame by done.
    intros Hc. by apply Hc. }
  destruct (pos_cases _ Ho) as [Hinf | (o & Hfin & Hpos)].
  { rewrite Hinf. intros Hc. exfalso. eapply Hstop; [|exact Hc].
    unfold nmin, nlt. rewrite nsub_Fin. apply nle_0_Fin. qc2q. lra. }
  rewrite Hfin, nmin_Fin. destruct (decide (q < o)%Qc) as [Hqo|Hqo].
  { intros Hc. exfalso. eapply Hstop; [|exact Hc].
    rewrite nsub_Fin. apply nle_0_Fin. qc2q. lra. }
  intros Hc. destruct k1 as [|k1]; simpl in H1.
  - injection H1 as <-. assert (l1 = l) as -> by congruence.
    split; [|by exists o].
    rewrite (fifoLoop_lookup_other _ _ _ body_lots); [|done|].
    + rewrite Hfin. apply (body_lookup_eq _ _ _ body_lots).
      by apply lookup_lt_Some in Hl.
    + rewrite (body_length _ _ _ body_lots).
      apply lookup_lt_Some in Hl. lia.
  - assert (Hi1 : In i1 refs).
    { apply list_elem_of_In, list_elem_of_lookup. eauto. }
    rewrite nsub_Fin in *.
    apply (IH (q - o)%Qc (body st i l (Fin o)) k1 k2); try done.
    + intros j Hj. rewrite Hsame by done. apply Hopen. by right.
    + lia.
    + by rewrite Hsame.
    + by rewrite Hsame.
Qed.
End fifo_order.

Lemma nlt_irrefl_fin (x : num) : is_fin x -> (x <? x)%num = false.
Proof. intros [o ->]. apply nlt_irrefl_Fin. Qed.

(** X5: SELL, GIFT and TRANSFER of a finite quantity take lots strictly in
    the order of the references that [openLotsBySecurity] returns: when the
    lot of a reference is changed by the event, the lot of every earlier
    reference has been used up whole.  SELL and GIFT leave such a lot with
    open quantity 0; TRANSFER has handed it to the destination owner,
    broker and account without changing anything else in it. *)
Theorem fifo_rules_use_up_earlier_lots_first
    (secs : gmap string Sec.t) (st : State) (e : Event) :
  let d := Data e in
  let refs :=
    openLotsBySecurity (lots st) (fromOwner e) (Row.SecurityId d) in
  Type_ e = "SELL" \/ Type_ e = "GIFT" \/ Type_ e = "TRANSFER" ->
  is_Some (secs !! Row.SecurityId d) ->
  is_fin (Row.Quantity d) ->
  exists st',
    applyEvent secs st e = Ok st'
    /\ forall k1 k2 i1 i2 l1,
         (k1 < k2)%nat -> refs !! k1 = Some i1 -> refs !! k2 = Some i2 ->
         lots st !! i1 = Some l1 ->
         lots st' !! i2 <> lots st !! i2 ->
         lots st' !! i1 = Some (usedUp e l1)
         /\ (Type_ e <> "TRANSFER" -> Lot.OpenQty (usedUp e l1) = 0%num).
Proof.
  intros d refs HT [s Hs] [q Hq]. subst d.
  assert (Hnd : NoDup refs) by apply openLotsBySecurity_NoDup.
  assert (Hopen : forall i, In i refs ->
            exists l, lots st !! i = Some l /\ (0 <? Lot.OpenQty l)%num = true)
    by apply openLotsBySecurity_open.
  assert (Hrefs : refs = openLotsBySecurity (lots st) (fromOwner e)
                           (Row.SecurityId (Data e))) by done.
  clearbody refs. unfold fromOwner in Hrefs. unfold usedUp.
  destruct HT as [HT | [HT | HT]]; rewrite HT in Hrefs |- *; simpl in Hrefs;
    simpl String.eqb; cbv iota.
  - rewrite applyEvent_SELL by done. rewrite ruleSELL_fifo.
    unfold assetId_of. rewrite Hs, <-Hrefs, Hq. simpl.
    eexists. split; [reflexivity|]. intros k1 k2 i1 i2 l1 Hk H1 H2 Hl1 Hc.
    destruct (fifoLoop_order _ _ _ (sellBody_lots _ _ _ _) refs q st
                k1 k2 i1 i2 l1 Hnd Hopen Hk H1 H2 Hl1 Hc) as [Hres [o Ho]].
    split; [exact Hres|]. intros _. by apply (taken_all_OpenQty l1 o).
  - rewrite applyEvent_GIFT by done. rewrite ruleGIFT_fifo.
    unfold assetId_of. rewrite Hs, <-Hrefs, Hq. simpl.
    eexists. split; [reflexivity|]. intros k1 k2 i1 i2 l1 Hk H1 H2 Hl1 Hc.
    destruct (fifoLoop_order _ _ _ (giftBody_lots _ _) refs q st
                k1 k2 i1 i2 l1 Hnd Hopen Hk H1 H2 Hl1 Hc) as [Hres [o Ho]].
    split; [exact Hres|]. intros _. by apply (taken_all_OpenQty l1 o).
  - rewrite applyEvent_TRANSFER by done. rewrite ruleTRANSFER_fifo.
    unfold assetId_of. rewrite Hs, <-Hrefs, Hq. simpl.
    eexists. split; [reflexivity|]. intros k1 k2 i1 i2 l1 Hk H1 H2 Hl1 Hc.
    destruct (fifoLoop_order _ _ _ (transferBody_lots _ _) refs q st
                k1 k2 i1 i2 l1 Hnd Hopen Hk H1 H2 Hl1 Hc) as [Hres Hfin].
    rewrite (nlt_irrefl_fin _ Hfin) in Hres. split; [exact Hres|]. done.
Qed.
(** ** The order of the references *)

(** X6: when the matching open lots have valid acquisition dates,
    [openLotsBySecurity] returns their references by ascending acquisition
    date, and lots acquired on one date in the order in which they are in
    the lot store (the sort is stable); each matching open lot is referred
    to exactly once, and no other lot is. *)
Theorem open_lots_are_referenced_oldest_first
    (ls : list Lot.t) (owner securityId : string) :
  (forall l, In l ls -> openFor owner securityId l = true ->
     is_Some (Lot.BuyDate l)) ->
  StronglySorted (fifoBefore ls) (openLotsBySecurity ls owner securityId)
  /\ NoDup (openLotsBySecurity ls owner securityId)
  /\ forall i, In i (openLotsBySecurity ls owner securityId)
       <-> exists l, ls !! i = Some l /\ openFor owner securityId l = true.
Proof.
  intros Hv. split; [by apply openLotsBySecurity_sorted|].
  split; [apply openLotsBySecurity_NoDup|apply openLotsBySecurity_In].
Qed.

(** ** What a TRANSFER does to the lots *)

Lemma nmin_partial (o q : num) :
  (q <=? 0)%num = false -> (nmin o q <? o)%num = true ->
  exists r, q = Fin r /\ nmin o q = Fin r.
Proof.
  destruct o as [p| | |], q as [r| | |]; unfold nmin, nle, nlt; try done;
    intros _.
  - case_bool_decide; [by exists r|].
    intros Hp%bool_decide_eq_true. by apply Qclt_not_eq in Hp.
  - intros H%bool_decide_eq_true. by apply Qclt_not_eq in H.
  - by exists r.
Qed.

(** A TRANSFER splits at most one lot. *)
Lemma transfer_length d assetId refs q st :
  (length (lots (fifoLoop (transferBody d assetId) refs q st))
   <= S (length (lots st)))%nat.
Proof.
  revert q st. induction refs as [|i refs IH]; intros q st; simpl; [lia|].
  destruct (q <=? 0)%num eqn:Hq; [lia|].
  destruct (lots st !! i) as [lot|] eqn:Hl; [|apply IH].
  destruct (nmin (Lot.OpenQty lot) q <? Lot.OpenQty lot)%num eqn:Hp.
  - destruct (nmin_partial _ _ Hq Hp) as (r & -> & Hm). rewrite Hm in *.
    rewrite nsub_Fin, (fifoLoop_done (transferBody d assetId)).
    + rewrite transferBody_lots, length_insert, length_app, Hp. simpl. lia.
    + apply nle_0_Fin. qc2q. lra.
  - etrans; [apply IH|]. rewrite transferBody_lots, length_insert, length_app.
    rewrite Hp. simpl. lia.
Qed.
(** X7: a TRANSFER of a listed security is processed and writes no
    consumption record.  It leaves each lot of the store as it was, or (a
    matching lot moved whole) changes only its owner, broker and account to
    the destination, or (a matching lot moved in part) reduces its quantity
    and aggregate costs.  It appends at most one lot.  An appended lot is
    the part moved out of a matching lot [src]: its quantity is less than
    that of [src], it has the acquisition date and per-share cost of [src],
    the destination owner, broker and account, and as costs the fraction
    [OpenQty new / OpenQty src] of the costs of [src], which is left with
    the rest. *)
Theorem transfer_relabels_whole_lots_and_splits_at_most_one
    (secs : gmap string Sec.t) (st : State) (e : Event) :
  let d := Data e in
  let matching := openFor (Row.OwnerFromId d) (Row.SecurityId d) in
  Type_ e = "TRANSFER" ->
  is_Some (secs !! Row.SecurityId d) ->
  exists st',
    applyEvent secs st e = Ok st'
    /\ (length (lots st') <= S (length (lots st)))%nat
    /\ consumes st' = consumes st
    /\ (forall i l, lots st !! i = Some l ->
          lots st' !! i = Some l
          \/ (matching l = true
              /\ lots st' !! i
                 = Some (Lot.move l (Row.OwnerToId d) (Row.BrokerToId d)
                           (Row.AccountToId d)))
          \/ (matching l = true
              /\ exists m, (m <? Lot.OpenQty l)%num = true
                   /\ lots st' !! i = Some (taken l m)))
    /\ (forall j new,
          (length (lots st) <= j)%nat -> lots st' !! j = Some new ->
          exists i src,
            lots st !! i = Some src
            /\ matching src = true
            /\ (Lot.OpenQty new <? Lot.OpenQty src)%num = true
            /\ lots st' !! i = Some (taken src (Lot.OpenQty new))
            /\ Lot.BuyDate new = Lot.BuyDate src
            /\ Lot.OwnerId new = Row.OwnerToId d
            /\ Lot.BrokerId new = Row.BrokerToId d
            /\ Lot.AccountId new = Row.AccountToId d
            /\ Lot.CostPriceNative new = Lot.CostPriceNative src
            /\ Lot.CostNative new
               = (Lot.CostNative src
                  * (Lot.OpenQty new / Lot.OpenQty src))%num
            /\ Lot.CostINR new
               = (Lot.CostINR src * (Lot.OpenQty new / Lot.OpenQty src))%num).
Proof.
  intros d matching HT [s Hs]. subst d matching.
  rewrite applyEvent_TRANSFER by done.
  pose proof (transferLoop_consumes (Data e) (Some (Sec.AssetId s))
                (openLotsBySecurity (lots st) (Row.OwnerFromId (Data e))
                   (Row.SecurityId (Data e)))
                (Row.Quantity (Data e)) st) as Hcons.
  rewrite transferLoop_fifo in Hcons.
  rewrite ruleTRANSFER_fifo. unfold assetId_of. rewrite Hs. simpl.
  set (refs := openLotsBySecurity (lots st) (Row.OwnerFromId (Data e))
                 (Row.SecurityId (Data e))) in *.
  assert (Hnd : NoDup refs) by apply openLotsBySecurity_NoDup.
  assert (Hlt : forall i, In i refs -> (i < length (lots st))%nat)
    by apply openLotsBySecurity_lt.
  eexists. split; [reflexivity|]. split; [apply transfer_length|].
  split; [exact Hcons|]. split.
  - intros i l Hl. destruct (decide (i ∈ refs)) as [Hi%list_elem_of_In|Hi].
    + pose proof Hi as (l0 & Hl0 & Hm)%openLotsBySecurity_In.
      assert (l0 = l) as -> by congruence.
      destruct (fifoLoop_each _ _ _ (transferBody_lots (Data e) (Some (Sec.AssetId s)))
                  refs (Row.Quantity (Data e)) st i l Hnd Hlt Hi Hl)
        as [H|(q' & _ & H)]; [by left|]. right.
      destruct (nmin (Lot.OpenQty l) q' <? Lot.OpenQty l)%num eqn:Hp.
      * right. split; [done|]. by eexists.
      * left. done.
    + left. rewrite list_elem_of_In in Hi.
      rewrite (fifoLoop_lookup_other _ _ _ (transferBody_lots _ _)); [done|done|].
      by apply lookup_lt_Some in Hl.
  - intros j new Hj Hnew.
    eapply (fifoLoop_pushed _ _ _ (transferBody_lots _ _)) in Hnew
      as (i & src & m & st0 & Hin & Hsrc & Hx & Hi); [|done|done|done].
    apply openLotsBySecurity_In in Hin as (src0 & Hsrc0 & Hopen).
    assert (src0 = src) as -> by congruence.
    destruct (m <? Lot.OpenQty src)%num eqn:Hp; [|done].
    destruct Hx as [<-|[]]. exists i, src. by repeat split.
Qed.
(** ** Lots and the table of securities *)

Lemma assetId_of_Ok secs id a :
  assetId_of secs id = Ok a -> assetOf secs id a.
Proof.
  unfold assetId_of, assetOf. destruct (secs !! id) as [s|].
  - by intros [= <-].
  - destruct (inherited id); [|done]. by intros [= <-].
Qed.

Lemma wellListed_push secs st mk :
  Forall (wellListed secs) (lots st) ->
  (forall id, wellListed secs (mk id)) ->
  Forall (wellListed secs) (lots (push_lot st mk)).
Proof.
  intros Hst Hmk. simpl. apply Forall_app. split; [done|].
  by apply Forall_singleton.
Qed.

Lemma wellListed_update secs st i l :
  Forall (wellListed secs) (lots st) -> wellListed secs l ->
  Forall (wellListed secs) (lots (update_lot st i l)).
Proof. intros Hst Hl. simpl. by apply Forall_insert. Qed.

Lemma wellListed_map secs st (g : Lot.t -> Lot.t) :
  Forall (wellListed secs) (lots st) ->
  (forall l, wellListed secs l -> wellListed secs (g l)) ->
  Forall (wellListed secs) (lots (set_lots st (map g (lots st)))).
Proof.
  intros Hst Hg. simpl. change (map g (lots st)) with (g <$> lots st).
  apply Forall_fmap. eapply Forall_impl; [exact Hst|]. intros l. apply Hg.
Qed.

Lemma sellLoop_listed secs d assetId salePrice saleFX refs q st :
  Forall (wellListed secs) (lots st) ->
  Forall (wellListed secs) (lots (sellLoop d assetId salePrice saleFX refs q st)).
Proof.
  revert q st. induction refs as [|i refs IH]; intros q st Hst; simpl; [done|].
  destruct (q <=? 0)%num; [done|].
  destruct (lots st !! i) as [lot|] eqn:Hl; [|by apply IH].
  apply IH. apply wellListed_update; [done|].
  rewrite Forall_lookup in Hst. exact (Hst i lot Hl).
Qed.

Lemma refsOf_tail securityId i refs st :
  refsOf securityId (i :: refs) st -> refsOf securityId refs st.
Proof. intros H j l Hj. apply H. by right. Qed.

(** A step of a FIFO loop leaves the referenced lots with their
    security. *)
Lemma refsOf_step securityId i refs st lot (l' : Lot.t) pushed :
  refsOf securityId (i :: refs) st ->
  lots st !! i = Some lot ->
  Lot.SecurityId l' = Lot.SecurityId lot ->
  Forall (fun p => Lot.SecurityId p = securityId) pushed ->
  forall st',
    lots st' = <[i := l']> (lots st ++ pushed) ->
    refsOf securityId refs st'.
Proof.
  intros Href Hl Hsec Hp st' Hst' j x Hj. rewrite Hst'.
  intros [(-> & <- & _)|[Hne Hx]]%list_lookup_insert_Some.
  - rewrite Hsec. apply (Href j lot); [by left|done].
  - apply lookup_app_Some in Hx as [Hx|[_ Hx]].
    + apply (Href j x); [by right|done].
    + rewrite Forall_lookup in Hp. by apply Hp in Hx.
Qed.

Lemma giftLoop_listed secs d a refs q st :
  assetOf secs (Row.SecurityId d) a ->
  refsOf (Row.SecurityId d) refs st ->
  Forall (wellListed secs) (lots st) ->
  Forall (wellListed secs) (lots (giftLoop d a refs q st)).
Proof.
  intros Hs. revert q st.
  induction refs as [|i refs IH]; intros q st Href Hst; simpl; [done|].
  destruct (q <=? 0)%num; [done|].
  destruct (lots st !! i) as [lot|] eqn:Hl;
    [|apply IH; [by eapply refsOf_tail|done]].
  assert (Hsec : Lot.SecurityId lot = Row.SecurityId d)
    by (apply (Href i lot); [by left|done]).
  apply IH.
  - eapply (refsOf_step _ i refs st lot); [done|done| | |reflexivity].
    + done.
    + by apply Forall_singleton.
  - apply wellListed_update.
    + apply wellListed_push; [done|]. intros id.
      unfold wellListed. simpl. by rewrite Hsec.
    + rewrite Forall_lookup in Hst. exact (Hst i lot Hl).
Qed.

Lemma transferLoop_listed secs d a refs q st :
  assetOf secs (Row.SecurityId d) a ->
  refsOf (Row.SecurityId d) refs st ->
  Forall (wellListed secs) (lots st) ->
  Forall (wellListed secs) (lots (transferLoop d a refs q st)).
Proof.
  intros Hs. revert q st.
  induction refs as [|i refs IH]; intros q st Href Hst; simpl; [done|].
  destruct (q <=? 0)%num; [done|].
  destruct (lots st !! i) as [lot|] eqn:Hl;
    [|apply IH; [by eapply refsOf_tail|done]].
  assert (Hsec : Lot.SecurityId lot = Row.SecurityId d)
    by (apply (Href i lot); [by left|done]).
  assert (Hlot : wellListed secs lot)
    by (rewrite Forall_lookup in Hst; exact (Hst i lot Hl)).
  destruct (nmin (Lot.OpenQty lot) q <? Lot.OpenQty lot)%num; apply IH.
  - eapply (refsOf_step _ i refs st lot); [done|done| | |reflexivity].
    + done.
    + by apply Forall_singleton.
  - apply wellListed_update; [|done].
    apply wellListed_push; [done|]. intros id.
    unfold wellListed. simpl. by rewrite Hsec.
  - eapply (refsOf_step _ i refs st lot _ []);
      [done|done| |done|simpl; by rewrite app_nil_r].
    done.
  - by apply wellListed_update.
Qed.

Lemma reorg_listed secs toSec a qr crn cro refs st :
  assetOf secs toSec a ->
  Forall (wellListed secs) (lots st) ->
  Forall (wellListed secs)
    (lots (foldl (reorgLot toSec a qr crn cro) st refs)).
Proof.
  intros Hs. revert st.
  induction refs as [|i refs IH]; intros st Hst; simpl; [done|].
  apply IH. unfold reorgLot. destruct (lots st !! i) as [lot|] eqn:Hl; [|done].
  apply wellListed_update.
  - by apply wellListed_push.
  - rewrite Forall_lookup in Hst. exact (Hst i lot Hl).
Qed.

Lemma bonus_listed secs d a bonusRatio ls st :
  assetOf secs (Row.SecurityId d) a ->
  Forall (fun l => Lot.SecurityId l = Row.SecurityId d) ls ->
  Forall (wellListed secs) (lots st) ->
  Forall (wellListed secs)
    (lots (foldl (bonusLot d a bonusRatio) st ls)).
Proof.
  intros Hs Hls. revert st.
  induction Hls as [|l ls Hl _ IH]; intros st Hst; simpl; [done|].
  apply IH. unfold bonusLot.
  destruct (0 <? Lot.OpenQty l * bonusRatio)%num; [|done].
  apply wellListed_push; [done|]. intros id.
  unfold wellListed. simpl. by rewrite Hl.
Qed.

Lemma openLotsBySecurity_refsOf st owner securityId :
  refsOf securityId (openLotsBySecurity (lots st) owner securityId) st.
Proof.
  intros i l (l0 & Hl0 & Ho)%openLotsBySecurity_In Hl.
  assert (l0 = l) as -> by congruence.
  unfold openFor in Ho. repeat (apply andb_prop in Ho as [Ho ?]).
  repeat match goal with
         | H : String.eqb _ _ = true |- _ => apply String.eqb_eq in H
         end.
  done.
Qed.

Lemma applyEvent_wellListed secs st e st' :
  Forall (wellListed secs) (lots st) ->
  applyEvent secs st e = Ok st' ->
  Forall (wellListed secs) (lots st').
Proof.
  intros Hst.
  destruct (decide (Type_ e = "BUY")) as [HT|HT];
  [rewrite applyEvent_BUY by done; unfold ruleBUY|
  destruct (decide (Type_ e = "CLASS_REORG")) as [HT1|HT1];
  [rewrite applyEvent_CLASS_REORG by done; unfold ruleCLASS_REORG|
  destruct (decide (Type_ e = "SELL")) as [HT2|HT2];
  [rewrite applyEvent_SELL by done; unfold ruleSELL|
  destruct (decide (Type_ e = "SPLIT")) as [HT3|HT3];
  [rewrite applyEvent_SPLIT by done; unfold ruleSPLIT|
  destruct (decide (Type_ e = "BONUS")) as [HT4|HT4];
  [rewrite applyEvent_BONUS by done; unfold ruleBONUS|
  destruct (decide (Type_ e = "MERGER")) as [HT5|HT5];
  [rewrite applyEvent_MERGER by done; unfold ruleMERGER|
  destruct (decide (Type_ e = "GIFT")) as [HT6|HT6];
  [rewrite applyEvent_GIFT by done; unfold ruleGIFT|
  destruct (decide (Type_ e = "TRANSFER")) as [HT7|HT7];
  [rewrite applyEvent_TRANSFER by done; unfold ruleTRANSFER|
  rewrite applyEvent_other by done]]]]]]]];
  repeat match goal with
         | |- context [assetId_of ?m ?k] =>
             let H := fresh "Hasset" in
             destruct (assetId_of m k) eqn:H; simpl; [|done];
             apply assetId_of_Ok in H
         end;
  intros [= <-].
  - by apply wellListed_push.
  - by apply reorg_listed.
  - by apply sellLoop_listed.
  - apply wellListed_map; [done|]. intros l Hl. by destruct (affectedBy _ l).
  - apply bonus_listed; [done| |done]. apply Forall_forall.
    intros l [_ Ha]%list_elem_of_In%filter_In. unfold affectedBy in Ha.
    apply andb_prop in Ha as [Ha _]. by apply String.eqb_eq in Ha.
  - apply wellListed_map; [done|]. intros l Hl.
    by destruct (affectedBy _ l).
  - apply giftLoop_listed; [done| |done]. apply openLotsBySecurity_refsOf.
  - apply transferLoop_listed; [done| |done]. apply openLotsBySecurity_refsOf.
  - done.
Qed.

Lemma replay_wellListed secs events st st' :
  Forall (wellListed secs) (lots st) ->
  replay secs events st = Ok st' ->
  Forall (wellListed secs) (lots st').
Proof.
  revert st. induction events as [|e events IH]; intros st Hst; simpl.
  - by intros [= <-].
  - destruct (applyEvent secs st e) as [st1|] eqn:H1; simpl; [|done].
    apply IH. by apply (applyEvent_wellListed secs st e).
Qed.

Lemma secs_of_In (table : list Sec.t) (k : string) (s : Sec.t) :
  secs_of table !! k = Some s -> In s table /\ Sec.SecurityId s = k.
Proof.
  unfold secs_of.
  assert (Hgen : forall (l : list Sec.t) (m : gmap string Sec.t),
            (forall v, m !! k = Some v -> In v table /\ Sec.SecurityId v = k) ->
            (forall a, In a l -> In a table) ->
            forall v,
              foldl (fun m s => <[Sec.SecurityId s := s]> m) m l !! k = Some v ->
              In v table /\ Sec.SecurityId v = k).
  { induction l as [|a l IH]; intros m Hm Hl v; simpl; [by apply Hm|].
    apply IH.
    - intros v0. destruct (decide (Sec.SecurityId a = k)) as [<-|Hne].
      + rewrite lookup_insert_eq. intros [= <-]. split; [|done].
        apply Hl. by left.
      + rewrite lookup_insert_ne by done. apply Hm.
    - intros a' Ha'. apply Hl. by right. }
  apply Hgen; [|done]. intros v. by rewrite lookup_empty.
Qed.

(** X26: whatever events are replayed from the empty state, every lot of
    the store (open or closed, and so every lot written to Lots_Current)
    has the asset that the directory gives for its security: the AssetId
    of a row of Securities with the lot's SecurityId; or, when Securities
    has no such row, the SecurityId is the name of a member that every
    object inherits and the lot has no AssetId. *)
Theorem lots_carry_the_asset_of_their_security
    (securities : list Sec.t) (events : list Event) (st : State) :
  replay (secs_of securities) events init = Ok st ->
  forall l, In l (lots st) ->
    (exists s,
       In s securities
       /\ Sec.SecurityId s = Lot.SecurityId l
       /\ Lot.AssetId l = Some (Sec.AssetId s))
    \/ (secs_of securities !! Lot.SecurityId l = None
        /\ inherited (Lot.SecurityId l) = true
        /\ Lot.AssetId l = None).
Proof.
  intros H l Hl.
  pose proof (replay_wellListed _ _ init st (Forall_nil_2 _) H) as Hall.
  rewrite Forall_forall in Hall.
  pose proof (Hall l ltac:(by apply list_elem_of_In)) as Hwl.
  unfold wellListed, assetOf in Hwl.
  destruct (secs_of securities !! Lot.SecurityId l) as [s|] eqn:Hs.
  - left. apply secs_of_In in Hs as [Hin Hid]. by exists s.
  - right. by destruct Hwl.
Qed.

(** ** The further properties at concrete inputs *)

Lemma rebuildLots_identifiers_are_positions_witness :
  match replay ex_secs
          (sortedEvents [ex_trade "T1" "BUY" 1 100 10 80;
                         ex_trade "T2" "SELL" 5 40 15 82] [])
          init with
  | Ok st =>
      NoDup (map Lot.LotId (lots st))
      /\ NoDup (map Consume.ConsumeId (consumes st))
  | Throw _ => False
  end.
Proof.
  destruct (replay _ _ _) as [st|] eqn:E.
  - destruct (rebuildLots_identifiers_are_positions _ _ _ E)
      as (_ & _ & Hl & _ & Hc).
    split; [exact Hl|exact Hc].
  - vm_compute in E. discriminate.
Defined.

Lemma lot_origin_is_permanent_and_closed_lots_are_frozen_witness :
  match replay ex_secs [ex_gift; ex_merger] ex_two_lots with
  | Ok st' =>
      exists l',
        lots st' !! 0%nat = Some l'
        /\ Lot.LotId l' = "LOT_1"
        /\ Lot.BuyDate l' = Some 1%Z
  | Throw _ => False
  end.
Proof.
  destruct (replay _ _ _) as [st'|] eqn:E.
  - destruct (lot_origin_is_permanent_and_closed_lots_are_frozen
                _ _ _ _ 0%nat (ex_lot "LOT_1" "O1" "X" 1 100 10 80) E)
      as (l' & Hl' & Hid & Hd & _).
    + reflexivity.
    + exists l'. split; [exact Hl'|]. split; [exact Hid|exact Hd].
  - vm_compute in E. discriminate.
Defined.

Lemma consumption_records_refer_to_lots_witness :
  match replay ex_secs
          (sortedEvents [ex_trade "T1" "BUY" 1 100 10 80;
                         ex_trade "T2" "SELL" 5 40 15 82] [])
          init with
  | Ok st =>
      match consumes st with
      | c :: _ =>
          exists i l,
            lots st !! i = Some l /\ Consume.LotId c = Lot.LotId l
            /\ Consume.BuyDate c = Lot.BuyDate l
      | [] => False
      end
  | Throw _ => False
  end.
Proof.
  destruct (replay _ _ _) as [st|] eqn:E.
  - destruct (consumes st) as [|c cs] eqn:Ec.
    + vm_compute in E. injection E as <-. discriminate Ec.
    + destruct (consumption_records_refer_to_lots _ _ st c E)
        as (i & l & Hl & Hid & _ & Hd & _).
      * rewrite Ec. by left.
      * exists i, l. split; [exact Hl|]. split; [exact Hid|exact Hd].
  - vm_compute in E. discriminate.
Defined.

Lemma sell_records_stay_within_lot_and_request_witness :
  exists st' recs,
    applyEvent ex_secs ex_two_lots ex_sell = Ok st'
    /\ consumes st' = recs
    /\ (length recs <= 2)%nat
    /\ Forall2 (withinLot (lots ex_two_lots) (of_Z 40))
         (take (length recs) [0; 1]%nat) recs.
Proof.
  destruct (sell_records_stay_within_lot_and_request
              ex_secs ex_two_lots ex_sell (Some "AX") (Qc_of_Z 40))
    as (st' & recs & H1 & H2 & H3 & H4 & _).
  - reflexivity.
  - reflexivity.
  - reflexivity.
  - exists st', recs. split; [exact H1|]. split; [exact H2|].
    split; [exact H3|exact H4].
Defined.

Lemma fifo_rules_use_up_earlier_lots_first_witness :
  exists st',
    applyEvent ex_secs ex_two_lots ex_transfer_all = Ok st'
    /\ (lots st' !! 1%nat <> lots ex_two_lots !! 1%nat ->
        lots st' !! 0%nat
        = Some (usedUp ex_transfer_all (ex_lot "LOT_1" "O1" "X" 1 100 10 80))).
Proof.
  destruct (fifo_rules_use_up_earlier_lots_first
              ex_secs ex_two_lots ex_transfer_all) as (st' & H1 & Hall).
  - right. by right.
  - by eexists.
  - by eexists.
  - exists st'. split; [exact H1|]. intros Hc.
    apply (Hall 0 1 0 1)%nat; [lia|reflexivity|reflexivity|reflexivity|exact Hc].
Defined.

Lemma open_lots_are_referenced_oldest_first_witness :
  StronglySorted (fifoBefore (lots ex_two_lots))
    (openLotsBySecurity (lots ex_two_lots) "O1" "X").
Proof.
  apply (open_lots_are_referenced_oldest_first (lots ex_two_lots) "O1" "X").
  intros l [<-|[<-|[]]] _; by eexists.
Defined.

Lemma transfer_relabels_whole_lots_and_splits_at_most_one_witness :
  exists st',
    applyEvent ex_secs ex_two_lots ex_transfer_all = Ok st'
    /\ (length (lots st') <= 3)%nat
    /\ consumes st' = [].
Proof.
  destruct (transfer_relabels_whole_lots_and_splits_at_most_one
              ex_secs ex_two_lots ex_transfer_all) as (st' & H1 & H2 & H3 & _).
  - reflexivity.
  - by eexists.
  - exists st'. split; [exact H1|]. split; [exact H2|exact H3].
Defined.

Lemma lots_carry_the_asset_of_their_security_witness :
  match replay (secs_of [Sec.mk "X" "AX"; Sec.mk "Y" "AY"])
          (sortedEvents [ex_trade "T1" "BUY" 1 100 10 80;
                         ex_trade "T2" "SELL" 5 40 15 82; ex_buy_inherited]
             [ex_action "MERGER" 6 "X" "Y" 1 2 0])
          init with
  | Ok st =>
      forall l, In l (lots st) ->
        (exists s,
           In s [Sec.mk "X" "AX"; Sec.mk "Y" "AY"]
           /\ Sec.SecurityId s = Lot.SecurityId l
           /\ Lot.AssetId l = Some (Sec.AssetId s))
        \/ (secs_of [Sec.mk "X" "AX"; Sec.mk "Y" "AY"] !! Lot.SecurityId l
            = None
            /\ inherited (Lot.SecurityId l) = true
            /\ Lot.AssetId l = None)
  | Throw _ => False
  end.
Proof.
  destruct (replay _ _ _) as [st|] eqn:E.
  - exact (lots_carry_the_asset_of_their_security _ _ _ E).
  - vm_compute in E. discriminate.
Defined.
(** * Properties of the derived tables *)

(** ** [computeRBI180DayExposure]: drawing down the buckets *)

Lemma drawDown_done use buckets :
  (use <=? 0)%num = true -> drawDown use buckets = buckets.
Proof.
  intros H. induction buckets as [|b rest IH]; simpl; [done|].
  by rewrite H, IH.
Qed.

Lemma drawDown_length use buckets :
  length (drawDown use buckets) = length buckets.
Proof.
  revert use. induction buckets as [|b rest IH]; intros use; simpl; [done|].
  destruct (_ || _); simpl; by rewrite IH.
Qed.

(** What an outflow does to one bucket, for an amount of at most [u]. *)
Lemma drawDown_each (buckets : list Bucket.t) (c u : Qc) :
  Forall (fun b => is_fin (Bucket.RemainingAmount b)) buckets ->
  (c <= u)%Qc ->
  Forall2 (fun b b' =>
       Bucket.OwnerId b' = Bucket.OwnerId b
       /\ Bucket.StartDate b' = Bucket.StartDate b
       /\ (b' = b
           \/ exists m,
                (0 <? m)%num = true
                /\ (m <=? Fin u)%num = true
                /\ (m <=? Bucket.RemainingAmount b)%num = true
                /\ Bucket.RemainingAmount b'
                   = (Bucket.RemainingAmount b - m)%num)
       /\ (Bucket.RemainingAmount b' <=? Bucket.RemainingAmount b)%num = true
       /\ ((0 <=? Bucket.RemainingAmount b)%num = true ->
           (0 <=? Bucket.RemainingAmount b')%num = true))
    buckets (drawDown (Fin c) buckets).
Proof.
  intros Hfin. revert c.
  induction Hfin as [|b bs [r Hr] Hfin IH]; intros c Hc; simpl; [constructor|].
  assert (Hsame : (Bucket.RemainingAmount b <=? Bucket.RemainingAmount b)%num
                  = true) by (rewrite Hr; by apply nle_Fin).
  rewrite Hr. destruct (Fin c <=? 0)%num eqn:Hc0; simpl.
  { constructor; [|by apply IH].
    split; [done|]. split; [done|]. split; [by left|]. by split. }
  apply nle_0_false in Hc0.
  destruct (Fin r <=? 0)%num eqn:Hr0; simpl.
  { constructor; [|by apply IH].
    split; [done|]. split; [done|]. split; [by left|]. by split. }
  apply nle_0_false in Hr0. rewrite nmin_Fin, !nsub_Fin.
  set (m := if decide (c < r)%Qc then c else r).
  assert (Hm : (0 < m)%Qc /\ (m <= c)%Qc /\ (m <= r)%Qc).
  { unfold m. destruct (decide (c < r)%Qc); repeat split; qc2q; lra. }
  destruct Hm as (Hm0 & Hmc & Hmr). clearbody m.
  constructor.
  - simpl. split; [done|]. split; [done|]. split; [|split].
    + right. exists (Fin m). rewrite Hr, nsub_Fin.
      split; [by apply nlt_0_Fin|]. split; [apply nle_Fin; qc2q; lra|].
      split; [by apply nle_Fin|done].
    + rewrite Hr. apply nle_Fin. qc2q. lra.
    + intros _. apply (proj2 (nonneg_Fin _)). qc2q. lra.
  - apply IH. qc2q. lra.
Qed.

(** X8: an outflow of a finite amount u, on buckets with finite remaining
    amounts, adds, removes and reorders no bucket and changes no owner or
    start date.  It leaves a bucket as it was or takes an amount m out of
    it with 0 < m, m <= u and m <= the remaining amount.  No remaining
    amount grows, and none that was at least 0 drops below 0. *)
Theorem outflow_takes_from_a_bucket_no_more_than_is_left
    (buckets : list Bucket.t) (u : Qc) :
  Forall (fun b => is_fin (Bucket.RemainingAmount b)) buckets ->
  Forall2 (fun b b' =>
       Bucket.OwnerId b' = Bucket.OwnerId b
       /\ Bucket.StartDate b' = Bucket.StartDate b
       /\ (b' = b
           \/ exists m,
                (0 <? m)%num = true
                /\ (m <=? Fin u)%num = true
                /\ (m <=? Bucket.RemainingAmount b)%num = true
                /\ Bucket.RemainingAmount b'
                   = (Bucket.RemainingAmount b - m)%num)
       /\ (Bucket.RemainingAmount b' <=? Bucket.RemainingAmount b)%num = true
       /\ ((0 <=? Bucket.RemainingAmount b)%num = true ->
           (0 <=? Bucket.RemainingAmount b')%num = true))
    buckets (drawDown (Fin u) buckets).
Proof. intros Hfin. by apply drawDown_each. Qed.

(** X9: an outflow draws down the buckets in their order: when it changes
    the remaining amount of a bucket, it has left nothing in any bucket
    before that one (each was exhausted, or had nothing left already). *)
Theorem outflow_exhausts_earlier_buckets_first
    (buckets : list Bucket.t) (u : Qc) (k1 k2 : nat) (b2 b2' : Bucket.t) :
  Forall (fun b => is_fin (Bucket.RemainingAmount b)) buckets ->
  (k1 < k2)%nat ->
  buckets !! k2 = Some b2 ->
  drawDown (Fin u) buckets !! k2 = Some b2' ->
  Bucket.RemainingAmount b2' <> Bucket.RemainingAmount b2 ->
  exists b1',
    drawDown (Fin u) buckets !! k1 = Some b1'
    /\ (0 <? Bucket.RemainingAmount b1')%num = false.
Proof.
  intros Hfin. revert u k1 k2.
  induction Hfin as [|b bs [r Hr] Hfin IH]; intros u k1 k2 Hk H2 H2' Hc.
  { by rewrite lookup_nil in H2. }
  destruct k2 as [|k2]; [lia|]. simpl in H2, H2' |- *.
  destruct (Fin u <=? 0)%num eqn:Hu0.
  { exfalso. simpl in H2'. rewrite drawDown_done in H2' by done.
    simpl in H2'. congruence. }
  apply nle_0_false in Hu0. simpl in H2' |- *. rewrite Hr in *.
  destruct (Fin r <=? 0)%num eqn:Hr0; simpl in H2' |- *.
  { destruct k1 as [|k1]; simpl.
    - exists b. split; [done|]. rewrite Hr. apply not_true_is_false.
      intros E%nlt_0_Fin. apply nle_0_Fin in Hr0. qc2q. lra.
    - apply (IH u k1 k2); [lia|done|done|done]. }
  apply nle_0_false in Hr0. rewrite nmin_Fin, !nsub_Fin in *.
  destruct (decide (u < r)%Qc) as [Hur|Hur].
  { exfalso. rewrite drawDown_done in H2'; [congruence|].
    apply nle_0_Fin. qc2q. lra. }
  destruct k1 as [|k1]; simpl.
  - eexists. split; [done|]. simpl. apply not_true_is_false.
    intros E%nlt_0_Fin. qc2q. lra.
  - apply (IH (u - r)%Qc k1 k2); [lia|done|done|done].
Qed.

(** ** [computeRBI180DayExposure]: what it reads *)

Lemma sort_insert_map {A B : Type} (f : A -> B)
    (cmpA : A -> A -> option Z) (cmpB : B -> B -> option Z) x l :
  (forall a b, cmpB (f a) (f b) = cmpA a b) ->
  sort_insert cmpB (f x) (map f l) = map f (sort_insert cmpA x l).
Proof.
  intros H. induction l as [|y l IH]; simpl; [done|].
  unfold sort_gt. rewrite H. destruct (cmpA x y) as [v|]; [|done].
  destruct (0 <? v)%Z; [|done]. simpl. by rewrite <-IH.
Qed.

Lemma js_sort_map {A B : Type} (f : A -> B)
    (cmpA : A -> A -> option Z) (cmpB : B -> B -> option Z) l :
  (forall a b, cmpB (f a) (f b) = cmpA a b) ->
  js_sort cmpB (map f l) = map f (js_sort cmpA l).
Proof.
  intros H. induction l as [|x l IH]; simpl; [done|].
  by rewrite IH, (sort_insert_map f cmpA cmpB).
Qed.

(** X10: the exposure depends on a cash movement only through its date,
    its foreign-income flag and its amount, and for a foreign-income row
    its owner.  The owner of an outflow, and the account and the currency
    of every row, are never read: an outflow of any owner, account and
    currency draws down the oldest buckets of all owners. *)
Theorem rbi_exposure_ignores_who_spends_and_in_which_currency
    (cash1 cash2 : list Cash.t) :
  map rbiReads cash1 = map rbiReads cash2 ->
  computeRBI180DayExposure cash1 = computeRBI180DayExposure cash2.
Proof.
  intros H.
  pose (norm := fun v : date * bool * num * option string =>
          let '(d, f, a, o) := v in
          Cash.mk (default "" o) "" "" d f a).
  assert (Hnorm : forall cash,
            rbiBuckets cash = rbiBuckets (map (norm ∘ rbiReads) cash)).
  { intros cash. unfold rbiBuckets.
    rewrite (js_sort_map (norm ∘ rbiReads) byTxnDate byTxnDate) by done.
    generalize (js_sort byTxnDate cash) (@nil Bucket.t).
    intros l. induction l as [|c l IH]; intros bs; simpl; [done|].
    rewrite <-IH. f_equal. unfold cashStep. simpl.
    by destruct (Cash.IsForeignIncome c). }
  unfold computeRBI180DayExposure.
  rewrite (Hnorm cash1), (Hnorm cash2).
  by rewrite <-!(map_map rbiReads norm), H.
Qed.

(** ** [computeRBI180DayExposure]: the rows written *)

Lemma drawDown_openedBy use income buckets :
  Forall2 openedBy income buckets ->
  Forall2 openedBy income (drawDown use buckets).
Proof.
  intros H. revert use. induction H as [|c b income buckets Hcb H IH];
    intros use; simpl; [constructor|].
  destruct (_ || _); constructor; auto.
Qed.

(** The buckets are opened by the foreign-income rows, in the order in
    which these are processed. *)
Lemma foldl_cashStep_openedBy cash income buckets :
  Forall2 openedBy income buckets ->
  Forall2 openedBy (income ++ List.filter Cash.IsForeignIncome cash)
    (foldl cashStep buckets cash).
Proof.
  revert income buckets. induction cash as [|c cash IH];
    intros income buckets H; simpl.
  { by rewrite app_nil_r. }
  unfold cashStep at 2. destruct (Cash.IsForeignIncome c) eqn:Hc.
  - rewrite (cons_middle c), app_assoc. apply IH.
    apply Forall2_app; [done|]. by repeat constructor.
  - apply IH. destruct (Cash.Amount c <? 0)%num; [|done].
    by apply drawDown_openedBy.
Qed.

Lemma byTxnDate_sorted cash :
  Forall (fun c => is_Some (Cash.TxnDate c)) cash ->
  StronglySorted (fun a b => dateLe (Cash.TxnDate a) (Cash.TxnDate b))
    (js_sort byTxnDate cash).
Proof.
  apply (js_sort_sorted byTxnDate (fun c => is_Some (Cash.TxnDate c))).
  - intros x y z [dx Hx] [dy Hy] [dz Hz]. rewrite Hx, Hy, Hz. simpl. lia.
  - intros x y [dx Hx] [dy Hy]. unfold sort_gt, byTxnDate.
    rewrite Hx, Hy. simpl. intros H%Z.ltb_lt. lia.
  - intros x y [dx Hx] [dy Hy]. unfold sort_gt, byTxnDate.
    rewrite Hx, Hy. simpl. intros H%Z.ltb_ge. lia.
Qed.

Lemma openedBy_sorted income buckets :
  Forall2 openedBy income buckets ->
  StronglySorted (fun a b => dateLe (Cash.TxnDate a) (Cash.TxnDate b)) income ->
  StronglySorted
    (fun b b' => dateLe (Bucket.StartDate b) (Bucket.StartDate b')) buckets.
Proof.
  induction 1 as [|c b income buckets [_ Hcb] H IH]; [constructor|].
  intros [Hs Hc]%StronglySorted_inv. constructor; [by apply IH|].
  clear IH Hs. induction H as [|c' b' income buckets [_ Hcb'] H IH];
    [constructor|].
  apply Forall_cons in Hc as [Hcc' Hc]. constructor; [|by apply IH].
  by rewrite Hcb, Hcb'.
Qed.

Lemma filter_perm_length {A : Type} (f : A -> bool) (l l' : list A) :
  Permutation l l' -> length (List.filter f l) = length (List.filter f l').
Proof.
  induction 1 as [|x l l' _ IH|x y l|l1 l2 l3 _ IH1 _ IH2]; simpl;
    [done| | |congruence].
  - destruct (f x); simpl; by rewrite IH.
  - by destruct (f x), (f y).
Qed.

(** X11: every row written to RBI_180_Ageing is a bucket with something
    left that a foreign-income cash movement opened: it has the owner of
    that movement and its date as start date.  There is at most one row for
    each foreign-income movement, and when the dates of the cash movements
    are valid the rows are written by ascending start date. *)
Theorem exposure_rows_are_income_rows_oldest_first (cash : list Cash.t) :
  let rows := computeRBI180DayExposure cash in
  (Forall (fun c => is_Some (Cash.TxnDate c)) cash ->
   StronglySorted
     (fun b b' => dateLe (Bucket.StartDate b) (Bucket.StartDate b')) rows)
  /\ Forall (fun b =>
       (0 <? Bucket.RemainingAmount b)%num = true
       /\ exists c,
            In c cash /\ Cash.IsForeignIncome c = true /\ openedBy c b) rows
  /\ (length rows <= length (List.filter Cash.IsForeignIncome cash))%nat.
Proof.
  intros rows. subst rows. unfold computeRBI180DayExposure, rbiBuckets.
  pose proof (foldl_cashStep_openedBy (js_sort byTxnDate cash) [] []
                (Forall2_nil_2 _ _ _)) as Hob.
  simpl in Hob. split; [|split].
  - intros Hv. apply filter_StronglySorted. eapply openedBy_sorted; [exact Hob|].
    apply filter_StronglySorted. by apply byTxnDate_sorted.
  - apply Forall_forall. intros b [Hb Hpos]%list_elem_of_In%filter_In.
    split; [done|].
    apply list_elem_of_In, list_elem_of_lookup in Hb as [i Hi].
    destruct (Forall2_lookup_r _ _ _ _ _ Hob Hi) as (c & Hc & Hcb).
    exists c. apply list_elem_of_lookup_2, list_elem_of_In, filter_In in Hc
      as [Hc Hinc].
    split; [|done]. apply list_elem_of_In.
    rewrite <-(js_sort_perm byTxnDate). by apply list_elem_of_In.
  - etrans; [apply filter_length_le|].
    rewrite <-(Forall2_length _ _ _ Hob).
    apply Nat.eq_le_incl, filter_perm_length, js_sort_perm.
Qed.

(** ** Keys joined by "|" *)

Lemma splitOn_pipeFree (p : string) :
  pipeFree p = true -> splitOn "|" p = [p].
Proof.
  induction p as [|c p IH]; simpl; [done|].
  intros [Hc Hp]%andb_prop. apply negb_true_iff in Hc. rewrite Hc.
  by rewrite IH.
Qed.

Lemma splitOn_app (p s : string) :
  pipeFree p = true -> splitOn "|" (p +:+ String "|" s) = p :: splitOn "|" s.
Proof.
  induction p as [|c p IH]; simpl; [done|].
  intros [Hc Hp]%andb_prop. apply negb_true_iff in Hc. rewrite Hc.
  by rewrite IH.
Qed.

(** Splitting undoes joining when no part has a "|" in it. *)
Lemma splitOn_join (p : string) (parts : list string) :
  Forall (fun s => pipeFree s = true) (p :: parts) ->
  splitOn "|" (join "|" (p :: parts)) = p :: parts.
Proof.
  revert p. induction parts as [|q parts IH]; intros p Hall.
  - apply splitOn_pipeFree. by apply Forall_cons in Hall as [? _].
  - apply Forall_cons in Hall as [Hp Hall].
    change (join "|" (p :: q :: parts))
      with (p +:+ String "|" (join "|" (q :: parts))).
    by rewrite splitOn_app, IH.
Qed.

Lemma join_inj (p q : string) (ps qs : list string) :
  Forall (fun s => pipeFree s = true) (p :: ps) ->
  Forall (fun s => pipeFree s = true) (q :: qs) ->
  join "|" (p :: ps) = join "|" (q :: qs) -> p :: ps = q :: qs.
Proof.
  intros Hp Hq H. apply (f_equal (splitOn "|")) in H.
  by rewrite !splitOn_join in H.
Qed.

(** ** Objects used as maps *)

Lemma assoc_upsert {V : Type} (k k' : string) (fresh : V) (change : V -> V)
    (m : list (string * V)) :
  assoc k (upsert k' fresh change m)
  = if String.eqb k' k
    then Some (match assoc k m with Some v => change v | None => fresh end)
    else assoc k m.
Proof.
  induction m as [|[k0 v] m IH]; simpl.
  { by destruct (String.eqb_spec k' k). }
  destruct (String.eqb_spec k0 k') as [->|H0]; simpl.
  - by destruct (String.eqb_spec k' k).
  - rewrite IH. destruct (String.eqb_spec k0 k) as [->|H1]; [|done].
    destruct (String.eqb_spec k' k) as [->|H2]; [done|done].
Qed.

Lemma upsert_keys {V : Type} (k : string) (fresh : V) (change : V -> V)
    (m : list (string * V)) :
  (upsert k fresh change m).*1
  = m.*1 ++ (if bool_decide (k ∈ m.*1) then [] else [k]).
Proof.
  induction m as [|[k0 v] m IH]; [done|]. cbn [upsert].
  destruct (String.eqb_spec k0 k) as [->|H0]; rewrite !fmap_cons; cbn [fst].
  - rewrite bool_decide_eq_true_2 by (by left). by rewrite app_nil_r.
  - rewrite IH. cbn [app]. f_equal. f_equal.
    rewrite (bool_decide_ext (k ∈ k0 :: m.*1) (k ∈ m.*1)); [done|].
    rewrite elem_of_cons. split; [intros [?|?]; [congruence|done]|by right].
Qed.

Lemma upsert_NoDup {V : Type} (k : string) (fresh : V) (change : V -> V)
    (m : list (string * V)) :
  NoDup m.*1 -> NoDup (upsert k fresh change m).*1.
Proof.
  intros H. rewrite upsert_keys. case_bool_decide as Hk.
  - by rewrite app_nil_r.
  - apply NoDup_app. split; [done|]. split; [|apply NoDup_singleton].
    intros x Hx ->%list_elem_of_singleton. done.
Qed.

Lemma assoc_lookup {V : Type} (k : string) (v : V) (m : list (string * V)) :
  NoDup m.*1 -> (k, v) ∈ m -> assoc k m = Some v.
Proof.
  induction m as [|[k0 v0] m IH]; simpl.
  { by intros _ ?%elem_of_nil. }
  intros [Hk0 Hnd]%NoDup_cons [[= -> ->]|Hin]%elem_of_cons.
  - by rewrite String.eqb_refl.
  - destruct (String.eqb_spec k0 k) as [->|_]; [|by apply IH].
    exfalso. apply Hk0. apply list_elem_of_fmap. by exists (k, v).
Qed.

Lemma assoc_elem_of {V : Type} (k : string) (v : V) (m : list (string * V)) :
  assoc k m = Some v -> (k, v) ∈ m.
Proof.
  induction m as [|[k0 v0] m IH]; simpl; [done|].
  destruct (String.eqb_spec k0 k) as [->|_].
  - intros [= ->]. by left.
  - intros H. right. by apply IH.
Qed.

Section grouping.
Context {X V : Type}.
Variable key : X -> string.
Variable fresh : X -> V.
Variable change : X -> V -> V.

(** The value under a key is built from the elements with that key, in
    their order: the first one creates it, each later one changes it. *)
Lemma assoc_foldl_upsert (k : string) (xs : list X) (m : list (string * V)) :
  assoc k (foldl (fun m x => upsert (key x) (fresh x) (change x) m) m xs)
  = match List.filter (fun x => String.eqb (key x) k) xs with
    | [] => assoc k m
    | y :: ys =>
        Some (foldl (fun v x => change x v)
                (match assoc k m with
                 | Some v => change y v
                 | None => fresh y
                 end) ys)
    end.
Proof.
  revert m. induction xs as [|x xs IH]; intros m; simpl; [done|].
  rewrite IH, assoc_upsert.
  destruct (String.eqb (key x) k); [|done].
  by destruct (List.filter _ xs).
Qed.

Lemma foldl_upsert_NoDup (xs : list X) (m : list (string * V)) :
  NoDup m.*1 ->
  NoDup (foldl (fun m x => upsert (key x) (fresh x) (change x) m) m xs).*1.
Proof.
  revert m. induction xs as [|x xs IH]; intros m H; simpl; [done|].
  by apply IH, upsert_NoDup.
Qed.
End grouping.

Lemma mapM_Ok {A B : Type} (f : A -> result B) (l : list A) (ys : list B) :
  mapM f l = Ok ys <-> Forall2 (fun x y => f x = Ok y) l ys.
Proof.
  revert ys. induction l as [|x l IH]; intros ys; simpl.
  - split; [intros [= <-]; constructor|by intros ->%Forall2_nil_inv_l].
  - destruct (f x) as [y|e] eqn:Hx; simpl.
    + destruct (mapM f l) as [ys'|e] eqn:Hl; simpl.
      * split.
        -- intros [= <-]. constructor; [done|]. by apply IH.
        -- intros (y' & ys'' & Hy & H & ->)%Forall2_cons_inv_l.
           apply IH in H. congruence.
      * split; [done|].
        intros (y' & ys'' & Hy & H & ->)%Forall2_cons_inv_l.
        apply IH in H. done.
    + split; [done|].
      intros (y' & ys'' & Hy & H & ->)%Forall2_cons_inv_l. congruence.
Qed.

Lemma mapM_Throw {A B : Type} (f : A -> result B) (l : list A) :
  (exists e, mapM f l = Throw e) <-> exists x e, In x l /\ f x = Throw e.
Proof.
  induction l as [|x l IH]; simpl.
  - split; [by intros [e ?]|by intros (x & e & [] & _)].
  - destruct (f x) as [y|e] eqn:Hx; simpl.
    + destruct (mapM f l) as [ys'|e] eqn:Hl; simpl.
      * split; [by intros [e ?]|].
        intros (x' & e & [<-|Hin] & Hf); [congruence|].
        destruct (proj2 IH) as [e' ?]; [by exists x', e|done].
      * split; [|by exists e]. intros _.
        destruct (proj1 IH) as (x' & e' & Hin & Hf); [by exists e|].
        exists x', e'. split; [by right|done].
    + split; [|by exists e]. intros _. exists x, e. split; [by left|done].
Qed.

(** ** [computeRealizedGains] *)

(** [daysBetween] counts whole days, rounding down. *)
Lemma daysBetween_valid (a b : Z) :
  daysBetween (Some a) (Some b) = of_Z ((b - a) `div` 86400000).
Proof.
  unfold daysBetween, date_diff, date_sub, of_Z.
  rewrite !nmul_Fin, <-!Z2Qc_inj_mul.
  change (1000 * 60 * 60 * 24)%Z with 86400000%Z.
  rewrite ndiv_Fin.
  2: { intros H. apply (f_equal this) in H. vm_compute in H. discriminate. }
  unfold nfloor, of_Z. do 2 f_equal. rewrite Zdiv_Qdiv.
  apply Qfloor_comp. unfold Qcdiv, Qcmult, Qcinv, Q2Qc, Qc_of_Z. cbn [this].
  by rewrite !Qred_correct.
Qed.

Lemma nle_of_Z (n k : Z) : (of_Z n <=? of_Z k)%num = true <-> (n <= k)%Z.
Proof. unfold of_Z. by rewrite nle_Fin, <-Z2Qc_inj_le. Qed.

Lemma get_Ok {V A : Type} (m : gmap string V) (k : string) (field : V -> A)
    (x : option A) :
  get m k field = Ok x ->
  match m !! k with
  | Some v => x = Some (field v)
  | None => inherited k = true /\ x = None
  end.
Proof.
  unfold get, at_key. destruct (m !! k) as [v|]; [by intros [= <-]|].
  destruct (inherited k); [by intros [= <-]|done].
Qed.

Lemma get_Throw {V A : Type} (m : gmap string V) (k : string) (field : V -> A)
    (e : exn) :
  get m k field = Throw e <-> e = TypeError /\ missing m k.
Proof.
  unfold get, at_key, missing. destruct (m !! k) as [v|].
  { split; [done|]. by intros [_ [? _]]. }
  destruct (inherited k).
  { split; [done|]. by intros [_ [_ ?]]. }
  split; [by intros [= <-]|]. by intros [-> _].
Qed.

Lemma gainRow_Ok getFullYear getMonth secs tax c g :
  gainRow getFullYear getMonth secs tax c = Ok g ->
  exists threshold,
    get secs (Consume.SecurityId c) Security.AssetClass
    = Ok (Gain.AssetClass g)
    /\ get tax (keyOf (Gain.AssetClass g)) Config.HoldingPeriod_LT_Days
       = Ok threshold
    /\ Gain.HoldingDays g
       = daysBetween (Consume.BuyDate c) (Consume.SellDate c)
    /\ Gain.GainType g
       = match threshold with
         | Some days =>
             if (days <=? Gain.HoldingDays g)%num then "LTCG" else "STCG"
         | None => "STCG"
         end
    /\ Gain.GainINR g = (Consume.ProceedsINR c - Consume.CostINR c)%num
    /\ Gain.FinancialYear g
       = fyFromDate getFullYear getMonth (Consume.SellDate c)
    /\ Gain.OwnerId g = Consume.OwnerId c
    /\ Gain.SecurityId g = Consume.SecurityId c
    /\ Gain.LotId g = Consume.LotId c.
Proof.
  unfold gainRow.
  destruct (get secs _ _) as [asset|] eqn:Hsec; simpl; [|done].
  destruct (get tax _ _) as [threshold|] eqn:Hrule; simpl; [|done].
  intros [= <-]. exists threshold. simpl. by repeat split.
Qed.

(** X17: when [computeRealizedGains] returns, it has one gain for each
    consumption record, in order, with the lot, the owner and the financial
    year of the record and the reporting proceeds less the reporting cost
    as gain; the gain type is LTCG or STCG.  With valid dates the holding
    period is the number of whole days (of 86400000 ms) from the
    acquisition to the sale, rounded down; with an invalid date it is NaN.
    The asset class is that of the security of the record, or undefined
    when the security is not listed and its identifier names an inherited
    member.  When the asset class (taken as the key that the lookup uses)
    has a Config row with a whole number n of days as threshold, the gain
    is LTCG exactly when the dates are valid and at least n whole days have
    passed; when it has none - its name is that of an inherited member, or
    the function had thrown - the gain is STCG. *)
Theorem gain_is_long_term_iff_held_for_the_threshold
    (getFullYear getMonth : Z -> Z) (securities : list Security.t)
    (config : list Config.t) (consumes : list Consume.t)
    (gains : list Gain.t) :
  computeRealizedGains getFullYear getMonth securities config consumes
  = Ok gains ->
  Forall2 (fun c g =>
    Gain.GainINR g = (Consume.ProceedsINR c - Consume.CostINR c)%num
    /\ Gain.LotId g = Consume.LotId c
    /\ Gain.OwnerId g = Consume.OwnerId c
    /\ Gain.FinancialYear g
       = fyFromDate getFullYear getMonth (Consume.SellDate c)
    /\ (Gain.GainType g = "LTCG" \/ Gain.GainType g = "STCG")
    /\ classOf (securities_of securities) (Consume.SecurityId c)
         (Gain.AssetClass g)
    /\ (forall buy sell,
          Consume.BuyDate c = Some buy -> Consume.SellDate c = Some sell ->
          Gain.HoldingDays g = of_Z ((sell - buy) `div` 86400000))
    /\ (Consume.BuyDate c = None \/ Consume.SellDate c = None ->
        Gain.HoldingDays g = NaN /\ Gain.GainType g = "STCG")
    /\ match tax_of config !! keyOf (Gain.AssetClass g) with
       | Some rule =>
           forall buy sell n,
             Consume.BuyDate c = Some buy -> Consume.SellDate c = Some sell ->
             Config.HoldingPeriod_LT_Days rule = of_Z n ->
             (Gain.GainType g = "LTCG" <-> (n * 86400000 <= sell - buy)%Z)
       | None =>
           inherited (keyOf (Gain.AssetClass g)) = true
           /\ Gain.GainType g = "STCG"
       end)
    consumes gains.
Proof.
  intros H%mapM_Ok. eapply Forall2_impl; [exact H|]. clear H.
  intros c g (threshold & Hsec%get_Ok & Hrule%get_Ok & Hdays & Htype & Hgain
              & Hfy & Howner & _ & Hlot)%gainRow_Ok.
  repeat (split; [done|]). split.
  { rewrite Htype. destruct threshold as [days|]; [|by right].
    destruct (_ <=? _)%num; auto. }
  split; [exact Hsec|].
  assert (Hvalid : forall buy sell,
            Consume.BuyDate c = Some buy -> Consume.SellDate c = Some sell ->
            Gain.HoldingDays g = of_Z ((sell - buy) `div` 86400000)).
  { intros buy sell Hbuy Hsell.
    by rewrite Hdays, Hbuy, Hsell, daysBetween_valid. }
  split; [exact Hvalid|]. split.
  - intros Hinv.
    assert (Hnan : Gain.HoldingDays g = NaN).
    { rewrite Hdays. unfold daysBetween, date_diff, date_sub, of_Z.
      rewrite !nmul_Fin.
      by destruct Hinv as [-> | ->]; [destruct (Consume.SellDate c)|]. }
    split; [done|]. rewrite Htype, Hnan.
    destruct threshold as [days|]; [|done]. by destruct days.
  - destruct (tax_of config !! keyOf (Gain.AssetClass g)) as [rule|].
    + subst threshold. intros buy sell n Hbuy Hsell Hn.
      rewrite Htype, Hn, (Hvalid buy sell Hbuy Hsell).
      destruct (of_Z n <=? of_Z _)%num eqn:E.
      * apply nle_of_Z in E. split; [intros _|done].
        apply (Z.mul_le_mono_nonneg_r _ _ 86400000) in E; [|lia].
        pose proof (Z.mul_div_le (sell - buy) 86400000). lia.
      * split; [done|]. intros Hle. exfalso.
        assert (Hd : (n <= (sell - buy) `div` 86400000)%Z).
        { apply Z.div_le_lower_bound; lia. }
        apply nle_of_Z in Hd. congruence.
    + destruct Hrule as [Hinh ->]. by rewrite Htype.
Qed.

(** X18: [computeRealizedGains] throws, and writes nothing, exactly when
    for some consumption record [secs[c.SecurityId]] is undefined (the
    security is not listed and its identifier names no inherited member),
    or [tax[asset]] is undefined for its asset class (the class, or
    "undefined" for the undefined class of an inherited member, has no
    Config row and names no inherited member). *)
Theorem realized_gains_throw_iff_security_or_tax_rule_is_missing
    (getFullYear getMonth : Z -> Z) (securities : list Security.t)
    (config : list Config.t) (consumes : list Consume.t) :
  computeRealizedGains getFullYear getMonth securities config consumes
  = Throw TypeError
  <-> exists c,
        In c consumes
        /\ (missing (securities_of securities) (Consume.SecurityId c)
            \/ exists asset,
                 classOf (securities_of securities) (Consume.SecurityId c)
                   asset
                 /\ missing (tax_of config) (keyOf asset)).
Proof.
  unfold computeRealizedGains.
  assert (Hthrow : forall r : result (list Gain.t),
            r = Throw TypeError <-> exists e, r = Throw e).
  { intros r. split; [by exists TypeError|]. by intros [[] ?]. }
  rewrite Hthrow, mapM_Throw. split.
  - intros (c & e & Hc & Hrow). exists c. split; [done|].
    unfold gainRow in Hrow.
    destruct (get (securities_of securities) _ _) as [asset|e'] eqn:Hsec;
      simpl in Hrow.
    + right. exists asset. split; [by apply get_Ok in Hsec|].
      destruct (get (tax_of config) _ _) as [threshold|e''] eqn:Hrule;
        simpl in Hrow; [done|]. by apply get_Throw in Hrule as [_ ?].
    + left. by apply get_Throw in Hsec as [_ ?].
  - intros (c & Hc & Hmiss). exists c, TypeError. split; [done|].
    unfold gainRow.
    destruct Hmiss as [Hsec | (asset & Hsec & Hrule)].
    + assert (E : get (securities_of securities) (Consume.SecurityId c)
                    Security.AssetClass = Throw TypeError)
        by (by apply get_Throw).
      by rewrite E.
    + assert (E : get (securities_of securities) (Consume.SecurityId c)
                    Security.AssetClass = Ok asset).
      { unfold classOf in Hsec. unfold get, at_key.
        destruct (securities_of securities !! _); [by rewrite Hsec|].
        destruct Hsec as [-> ->]. done. }
      rewrite E. simpl.
      assert (E' : get (tax_of config) (keyOf asset)
                     Config.HoldingPeriod_LT_Days = Throw TypeError)
        by (by apply get_Throw).
      by rewrite E'.
Qed.

(** ** From [rebuildLots] to [computeRealizedGains] *)

Lemma sellLoop_security d assetId salePrice saleFX refs q st :
  exists recs,
    consumes (sellLoop d assetId salePrice saleFX refs q st)
    = consumes st ++ recs
    /\ Forall (fun c => Consume.SecurityId c = Row.SecurityId d) recs.
Proof.
  revert q st. induction refs as [|i refs IH]; intros q st; simpl.
  { exists []. by rewrite app_nil_r. }
  destruct (q <=? 0)%num.
  { exists []. by rewrite app_nil_r. }
  destruct (lots st !! i) as [lot|]; [|apply IH].
  match goal with
  | |- context [sellLoop _ _ _ _ refs ?q' ?st2] =>
      destruct (IH q' st2) as (recs & -> & Hrecs)
  end.
  eexists (_ :: recs). simpl. rewrite <-app_assoc. split; [reflexivity|].
  by constructor.
Qed.

Lemma applyEvent_listed secs st e st' :
  Forall (fun c => is_Some (secs !! Consume.SecurityId c)
                   \/ inherited (Consume.SecurityId c) = true) (consumes st) ->
  applyEvent secs st e = Ok st' ->
  Forall (fun c => is_Some (secs !! Consume.SecurityId c)
                   \/ inherited (Consume.SecurityId c) = true) (consumes st').
Proof.
  intros Hst H. destruct (decide (Type_ e = "SELL")) as [HT|HT].
  - rewrite applyEvent_SELL in H by done. unfold ruleSELL in H.
    destruct (assetId_of secs (Row.SecurityId (Data e))) as [a|] eqn:Ha;
      simpl in H; [|done].
    injection H as <-.
    match goal with
    | |- context [sellLoop ?d ?a ?p ?fx ?refs ?q st] =>
        destruct (sellLoop_security d a p fx refs q st) as (recs & -> & Hrecs)
    end.
    apply Forall_app. split; [done|].
    eapply Forall_impl; [exact Hrecs|]. simpl. intros c ->.
    apply assetId_of_Ok in Ha. unfold assetOf in Ha.
    destruct (secs !! Row.SecurityId (Data e)); [left; by eexists|].
    right. tauto.
  - by rewrite (applyEvent_consumes secs st e st').
Qed.

Lemma replay_listed secs events st st' :
  Forall (fun c => is_Some (secs !! Consume.SecurityId c)
                   \/ inherited (Consume.SecurityId c) = true) (consumes st) ->
  replay secs events st = Ok st' ->
  Forall (fun c => is_Some (secs !! Consume.SecurityId c)
                   \/ inherited (Consume.SecurityId c) = true) (consumes st').
Proof.
  revert st. induction events as [|e events IH]; intros st Hst; simpl.
  - by intros [= <-].
  - destruct (applyEvent secs st e) as [st1|] eqn:H1; simpl; [|done].
    apply IH. by apply (applyEvent_listed secs st e).
Qed.

(** The two readings of Securities list the same identifiers, and what
    [securities_of] holds under an identifier is a row of the table. *)
Lemma securities_of_toSec (table : list Security.t) (k : string) :
  is_Some (secs_of (map toSec table) !! k)
  <-> is_Some (securities_of table !! k).
Proof.
  unfold secs_of, securities_of.
  assert (Hgen : forall (l : list Security.t) (m : gmap string Sec.t)
                   (m' : gmap string Security.t),
            (is_Some (m !! k) <-> is_Some (m' !! k)) ->
            is_Some (foldl (fun m s => <[Sec.SecurityId s := s]> m) m
                       (map toSec l) !! k)
            <-> is_Some (foldl (fun m s => <[Security.SecurityId s := s]> m)
                           m' l !! k)).
  { induction l as [|s l IH]; intros m m' Hm; simpl; [done|].
    apply IH. rewrite !lookup_insert_is_Some. tauto. }
  apply Hgen. by rewrite !lookup_empty.
Qed.

Lemma securities_of_In (table : list Security.t) (k : string) s :
  securities_of table !! k = Some s -> In s table.
Proof.
  unfold securities_of.
  assert (Hgen : forall (l : list Security.t) (m : gmap string Security.t),
            (forall v, m !! k = Some v -> In v table) ->
            (forall a, In a l -> In a table) ->
            forall v,
              foldl (fun m s => <[Security.SecurityId s := s]> m) m l !! k
              = Some v -> In v table).
  { induction l as [|a l IH]; intros m Hm Hl v; simpl; [by apply Hm|].
    apply IH.
    - intros v0. destruct (decide (Security.SecurityId a = k)) as [<-|Hne].
      + rewrite lookup_insert_eq. intros [= <-]. apply Hl. by left.
      + rewrite lookup_insert_ne by done. apply Hm.
    - intros a' Ha'. apply Hl. by right. }
  apply Hgen; [|done]. intros v. by rewrite lookup_empty.
Qed.


(** ** [buildTaxSummaryByFY] *)

Lemma foldl_addGain_fields a b c d v (gains : list Gain.t) :
  foldl (fun r g =>
           Summary.mk (Summary.OwnerId r) (Summary.FinancialYear r)
             (Summary.AssetClass r) (Summary.GainType r)
             (Summary.GrossGainINR r + Gain.GainINR g)%num)
    (Summary.mk a b c d v) gains
  = Summary.mk a b c d
      (foldl (fun acc g => (acc + Gain.GainINR g)%num) v gains).
Proof.
  revert v. induction gains as [|g gains IH]; intros v; simpl; [done|].
  by rewrite IH.
Qed.

(** The groups: one for each key, made of the gains with that key. *)
Lemma tax_groups (gains : list Gain.t) (k : string) (r : Summary.t) :
  (k, r) ∈ foldl addGain [] gains
  <-> exists g gs,
        List.filter (fun g' => String.eqb (gainKey g') k) gains = g :: gs
        /\ r = Summary.mk (Gain.OwnerId g) (Gain.FinancialYear g)
                 (Gain.AssetClass g) (Gain.GainType g) (grossOf (g :: gs)).
Proof.
  pose proof (assoc_foldl_upsert gainKey
    (fun g => Summary.mk (Gain.OwnerId g) (Gain.FinancialYear g)
                (Gain.AssetClass g) (Gain.GainType g) (0 + Gain.GainINR g)%num)
    (fun g r =>
       Summary.mk (Summary.OwnerId r) (Summary.FinancialYear r)
         (Summary.AssetClass r) (Summary.GainType r)
         (Summary.GrossGainINR r + Gain.GainINR g)%num)
    k gains []) as Hassoc.
  pose proof (foldl_upsert_NoDup gainKey
    (fun g => Summary.mk (Gain.OwnerId g) (Gain.FinancialYear g)
                (Gain.AssetClass g) (Gain.GainType g) (0 + Gain.GainINR g)%num)
    (fun g r =>
       Summary.mk (Summary.OwnerId r) (Summary.FinancialYear r)
         (Summary.AssetClass r) (Summary.GainType r)
         (Summary.GrossGainINR r + Gain.GainINR g)%num)
    gains [] (NoDup_nil_2)) as Hnd.
  change (foldl _ [] gains) with (foldl addGain [] gains) in Hassoc, Hnd.
  cbn [assoc] in Hassoc.
  split.
  - intros Hin. rewrite (assoc_lookup _ _ _ Hnd Hin) in Hassoc.
    destruct (List.filter _ gains) as [|g gs]; [done|].
    exists g, gs. split; [done|]. rewrite foldl_addGain_fields in Hassoc.
    by injection Hassoc as ->.
  - intros (g & gs & Hf & ->). rewrite Hf, foldl_addGain_fields in Hassoc.
    by apply assoc_elem_of.
Qed.

Lemma tax_groups_NoDup (gains : list Gain.t) :
  NoDup (foldl addGain [] gains).*1.
Proof.
  exact (foldl_upsert_NoDup gainKey
    (fun g => Summary.mk (Gain.OwnerId g) (Gain.FinancialYear g)
                (Gain.AssetClass g) (Gain.GainType g) (0 + Gain.GainINR g)%num)
    (fun g r =>
       Summary.mk (Summary.OwnerId r) (Summary.FinancialYear r)
         (Summary.AssetClass r) (Summary.GainType r)
         (Summary.GrossGainINR r + Gain.GainINR g)%num)
    gains [] (NoDup_nil_2)).
Qed.

Lemma filter_head_In {A : Type} (f : A -> bool) (l : list A) x xs :
  List.filter f l = x :: xs -> In x l /\ f x = true.
Proof.
  intros H. apply filter_In. rewrite H. by left.
Qed.

Lemma taxRow_fields tax r row :
  taxRow tax r = Ok row ->
  rowFields row
  = [Summary.OwnerId r; Summary.FinancialYear r; cell (Summary.AssetClass r);
     Summary.GainType r]
  /\ TaxRow.GrossGainINR row = Summary.GrossGainINR r.
Proof.
  unfold taxRow. destruct (get tax _ _); simpl; [|done]. by intros [= <-].
Qed.


(** The rows, as made from the groups. *)
Lemma tax_rows config gains rows :
  buildTaxSummaryByFY config gains = Ok rows ->
  Forall2 (fun kr row =>
             taxRow (tax_of config) kr.2 = Ok row
             /\ kr.1 = join "|" (rowFields row))
    (foldl addGain [] gains) rows.
Proof.
  unfold buildTaxSummaryByFY. intros H%mapM_Ok.
  apply Forall2_fmap_l in H.
  apply Forall2_same_length_lookup. split; [by eapply Forall2_length|].
  intros i [k r] row Hi Hrow.
  pose proof (Forall2_lookup_lr _ _ _ _ _ _ H Hi Hrow) as Hr. simpl in Hr.
  split; [done|]. cbn [fst].
  apply list_elem_of_lookup_2, tax_groups in Hi as (g & gs & Hf & ->).
  apply filter_head_In in Hf as [_ Hk%String.eqb_eq].
  apply taxRow_fields in Hr as [-> _]. by rewrite <-Hk.
Qed.

(** X12: for a row of Tax_Summary_FY with a finite gross gain g, and the
    exemption x that applies to it when that is finite, the exempt amount
    is min(x, g) and the taxable amount is g - min(x, g): that is g - x
    when g is not below the exemption and 0 otherwise, hence never
    negative, also for a loss.  When the asset class of the row (taken as
    the key that the lookup uses) has a Config row, the tax rate of the row
    is the long-term or the short-term rate of that row, by the gain type,
    and the exemption is its long-term exemption for an LTCG row and 0 for
    any other row.  Otherwise the asset class names an inherited member:
    the tax rate is undefined, and the exempt and the taxable amount of an
    LTCG row are NaN, while any other row has the exemption 0. *)
Theorem taxable_gain_is_gross_less_exemption_and_never_negative
    (config : list Config.t) (gains : list Gain.t) (rows : list TaxRow.t)
    (row : TaxRow.t) (g : Qc) :
  let ltcg := String.eqb (TaxRow.GainType row) "LTCG" in
  let exempts (exemption : num) :=
    forall x, exemption = Fin x ->
      TaxRow.ExemptINR row = Fin (if decide (g < x)%Qc then g else x)
      /\ TaxRow.TaxableINR row
         = Fin (if decide (g < x)%Qc then 0 else g - x)%Qc
      /\ nonneg (TaxRow.TaxableINR row) in
  buildTaxSummaryByFY config gains = Ok rows ->
  In row rows ->
  TaxRow.GrossGainINR row = Fin g ->
  match tax_of config !! keyOf (TaxRow.AssetClass row) with
  | Some cfg =>
      TaxRow.TaxRate row
      = Some (if ltcg then Config.LTCG_Tax_Rate cfg
              else Config.STCG_Tax_Rate cfg)
      /\ exempts (if ltcg then Config.LTCG_Exemption_INR cfg else 0%num)
  | None =>
      inherited (keyOf (TaxRow.AssetClass row)) = true
      /\ TaxRow.TaxRate row = None
      /\ (if ltcg
          then TaxRow.ExemptINR row = NaN /\ TaxRow.TaxableINR row = NaN
          else exempts 0%num)
  end.
Proof.
  intros ltcg exempts Hrows Hin Hg. apply tax_rows in Hrows.
  apply list_elem_of_In, list_elem_of_lookup in Hin as [i Hi].
  destruct (Forall2_lookup_r _ _ _ _ _ Hrows Hi) as ([k r] & _ & Hr & _).
  simpl in Hr. unfold taxRow in Hr.
  destruct (get (tax_of config) _ _) as [cfg|] eqn:Hcfg; simpl in Hr; [|done].
  apply get_Ok in Hcfg. injection Hr as <-. subst ltcg exempts. simpl in *.
  assert (Hex : forall e x, e = Fin x ->
            nmin e (Fin g) = Fin (if decide (g < x)%Qc then g else x)
            /\ (Fin g - nmin e (Fin g))%num
               = Fin (if decide (g < x)%Qc then 0 else g - x)%Qc
            /\ nonneg (Fin g - nmin e (Fin g))).
  { intros e x ->. rewrite nmin_Fin, nsub_Fin. split; [done|].
    destruct (decide (g < x)%Qc) as [Hlt|Hge].
    - assert (g - g = 0)%Qc as -> by ring. split; [done|]. by apply nonneg_Fin.
    - split; [done|]. apply nonneg_Fin. qc2q. lra. }
  rewrite Hg.
  destruct (tax_of config !! keyOf (Summary.AssetClass r)) as [cfg'|].
  - subst cfg. split; [done|]. intros x Hx. by apply Hex.
  - destruct Hcfg as [Hinh ->]. split; [done|]. split; [done|].
    destruct (String.eqb (Summary.GainType r) "LTCG"); [done|].
    intros x Hx. by apply Hex.
Qed.

(** X13: when no owner, financial year, asset class or gain type has a "|"
    in it, Tax_Summary_FY has exactly one row for each combination of
    these four fields that occurs in Gains_Realized, and the gross gain of
    a row is the sum of the gains with its combination, added in table
    order. *)
Theorem tax_summary_has_one_row_per_owner_year_class_and_type
    (config : list Config.t) (gains : list Gain.t) (rows : list TaxRow.t) :
  Forall (fun g => pipeFreeAll (gainFields g)) gains ->
  buildTaxSummaryByFY config gains = Ok rows ->
  NoDup (map rowFields rows)
  /\ (forall g, In g gains ->
        exists row, In row rows /\ rowFields row = gainFields g)
  /\ (forall row, In row rows ->
        (exists g, In g gains /\ gainFields g = rowFields row)
        /\ TaxRow.GrossGainINR row
           = grossOf (List.filter
                        (fun g => bool_decide (gainFields g = rowFields row))
                        gains)).
Proof.
  intros Hpf Hrows. apply tax_rows in Hrows. rewrite Forall_forall in Hpf.
  assert (Hkey : forall g y, In g gains -> In y gains ->
            String.eqb (gainKey g) (gainKey y)
            = bool_decide (gainFields g = gainFields y)).
  { intros g y Hg%list_elem_of_In%Hpf Hy%list_elem_of_In%Hpf.
    destruct (String.eqb_spec (gainKey g) (gainKey y)) as [H|H].
    - symmetry. apply bool_decide_eq_true. by apply join_inj.
    - symmetry. apply bool_decide_eq_false. intros Hf. apply H.
      change (join "|" (gainFields g) = join "|" (gainFields y)).
      by rewrite Hf. }
  assert (Hgroup : forall i k r row,
            foldl addGain [] gains !! i = Some (k, r) -> rows !! i = Some row ->
            exists y ys,
              List.filter (fun g' => String.eqb (gainKey g') k) gains = y :: ys
              /\ In y gains /\ k = gainKey y
              /\ rowFields row = gainFields y
              /\ TaxRow.GrossGainINR row = grossOf (y :: ys)).
  { intros i k r row Hi Hrow.
    destruct (Forall2_lookup_lr _ _ _ _ _ _ Hrows Hi Hrow) as [Hr _].
    simpl in Hr.
    apply list_elem_of_lookup_2, tax_groups in Hi as (y & ys & Hf & ->).
    pose proof (filter_head_In _ _ _ _ Hf) as [Hy Hk%String.eqb_eq].
    apply taxRow_fields in Hr as [Hfields Hgross].
    exists y, ys. by repeat split. }
  split; [|split].
  - change (map rowFields rows) with (rowFields <$> rows).
    apply (NoDup_fmap_1 (join "|")).
    assert ((foldl addGain [] gains).*1 = join "|" <$> (rowFields <$> rows))
      as <-; [|apply tax_groups_NoDup].
    clear -Hrows. induction Hrows as [|[k r] row m rows [_ Hk] _ IH]; [done|].
    csimpl. cbn [fst] in Hk. by rewrite IH, Hk.
  - intros g Hg.
    destruct (List.filter (fun g' => String.eqb (gainKey g') (gainKey g)) gains)
      as [|y ys] eqn:Hf.
    { assert (In g []) as []. rewrite <-Hf. apply filter_In.
      by rewrite String.eqb_refl. }
    assert (Hin : (gainKey g,
                   Summary.mk (Gain.OwnerId y) (Gain.FinancialYear y)
                     (Gain.AssetClass y) (Gain.GainType y) (grossOf (y :: ys)))
                  ∈ foldl addGain [] gains).
    { apply tax_groups. by exists y, ys. }
    apply list_elem_of_lookup in Hin as [i Hi].
    destruct (Forall2_lookup_l _ _ _ _ _ Hrows Hi) as (row & Hrow & _).
    destruct (Hgroup _ _ _ _ Hi Hrow) as (y' & ys' & Hf' & Hy' & Hk & Hfields & _).
    exists row. split; [by apply list_elem_of_lookup_2, list_elem_of_In in Hrow|].
    rewrite Hfields. symmetry.
    apply (bool_decide_eq_true_1 (gainFields g = gainFields y')).
    rewrite <-Hkey by done. by apply String.eqb_eq.
  - intros row Hin.
    apply list_elem_of_In, list_elem_of_lookup in Hin as [i Hi].
    destruct (Forall2_lookup_r _ _ _ _ _ Hrows Hi) as ([k r] & Hm & _).
    destruct (Hgroup _ _ _ _ Hm Hi) as (y & ys & Hf & Hy & Hk & Hfields & Hgross).
    split; [by exists y|]. rewrite Hgross, <-Hf. f_equal.
    apply filter_ext_in. intros g Hg. rewrite Hk, Hfields. by apply Hkey.
Qed.

(** X14: when no grouping field has a "|" in it and every gain has an
    asset class, [buildTaxSummaryByFY] throws, and writes nothing, exactly
    when for the asset class of some gain [tax[AssetClass]] is undefined:
    the class has no row in Config and names no inherited member. *)
Theorem tax_summary_throws_iff_an_asset_class_has_no_config
    (config : list Config.t) (gains : list Gain.t) :
  Forall (fun g => pipeFreeAll (gainFields g)) gains ->
  Forall (fun g => is_Some (Gain.AssetClass g)) gains ->
  buildTaxSummaryByFY config gains = Throw TypeError
  <-> exists g a,
        In g gains /\ Gain.AssetClass g = Some a
        /\ tax_of config !! a = None /\ inherited a = false.
Proof.
  intros Hpf Hsome. rewrite Forall_forall in Hpf, Hsome.
  assert (Hthrow : buildTaxSummaryByFY config gains = Throw TypeError
            <-> exists r e, In r (foldl addGain [] gains).*2
                            /\ taxRow (tax_of config) r = Throw e).
  { rewrite <-mapM_Throw. unfold buildTaxSummaryByFY. split; [by exists TypeError|].
    by intros [[] ?]. }
  rewrite Hthrow. split.
  - intros (r & e & Hin & Hr).
    apply list_elem_of_In, list_elem_of_fmap in Hin as ([k r'] & -> & Hin).
    apply tax_groups in Hin as (y & ys & Hf & ->).
    apply filter_head_In in Hf as [Hy _].
    destruct (Hsome y) as [a Ha]; [by apply list_elem_of_In|].
    exists y, a. split; [done|]. split; [done|].
    unfold taxRow in Hr. simpl in Hr.
    destruct (get (tax_of config) _ _) as [|e'] eqn:Hget; simpl in Hr; [done|].
    apply get_Throw in Hget as [_ Hmiss]. by rewrite Ha in Hmiss.
  - intros (g & a & Hg & Ha & Hnone & Hinh).
    destruct (List.filter (fun g' => String.eqb (gainKey g') (gainKey g)) gains)
      as [|y ys] eqn:Hf.
    { assert (In g []) as []. rewrite <-Hf. apply filter_In.
      by rewrite String.eqb_refl. }
    pose proof (filter_head_In _ _ _ _ Hf) as [Hy Hk%String.eqb_eq].
    assert (Hfields : gainFields y = gainFields g).
    { apply join_inj; [by apply Hpf, list_elem_of_In..|done]. }
    injection Hfields as _ _ Hclass _.
    destruct (Hsome y) as [a' Ha']; [by apply list_elem_of_In|].
    rewrite Ha, Ha' in Hclass. simpl in Hclass. subst a'.
    eexists _, TypeError. split.
    + apply list_elem_of_In, list_elem_of_fmap. eexists (_, _). split; [done|].
      apply tax_groups. by exists y, ys.
    + unfold taxRow. simpl.
      assert (E : get (tax_of config) (keyOf (Gain.AssetClass y))
                    (fun cfg : Config.t => cfg) = Throw TypeError).
      { apply get_Throw. rewrite Ha'. by repeat split. }
      by rewrite E.
Qed.

(** ** [computeCashBalances] *)

Lemma nor_zero : nor 0%num 0%num = 0%num.
Proof. unfold nor, of_Z. by destruct (decide _). Qed.

Lemma runningBalance_cons (x : num) (xs : list num) :
  runningBalance (x :: xs)
  = foldl (fun v y => (nor v 0 + y)%num) (0 + x)%num xs.
Proof. unfold runningBalance. cbn [foldl]. by rewrite nor_zero. Qed.

(** The key under which a cash movement is booked. *)
Lemma cashFields_key accounts c kind :
  accountKind_of accounts (Cash.AccountId c) = Some kind ->
  cashFields accounts c
  = Some [Cash.OwnerId c; Cash.AccountId c; cell kind; Cash.Currency c].
Proof. intros H. unfold cashFields. by rewrite H. Qed.

Lemma cashFields_orphan accounts c :
  accountKind_of accounts (Cash.AccountId c) = None ->
  cashFields accounts c = None.
Proof. intros H. unfold cashFields. by rewrite H. Qed.

(** What [accounts[id]] is when the row is not skipped. *)
Lemma accountKind_of_Some (accounts : gmap string Entity.t) id kind :
  accountKind_of accounts id = Some kind <->
  (exists acc, accounts !! id = Some acc
               /\ kind = Some (Entity.AccountKind acc))
  \/ (accounts !! id = None /\ inherited id = true /\ kind = None).
Proof.
  unfold accountKind_of, at_key. destruct (accounts !! id) as [acc|].
  - split.
    + intros [= <-]. left. by exists acc.
    + intros [(acc' & [= <-] & ->)|[? _]]; done.
  - destruct (inherited id).
    + split; [intros [= <-]; by right|]. by intros [(? & ? & _)|(_ & _ & ->)].
    + split; [done|]. by intros [(? & ? & _)|(_ & ? & _)].
Qed.

Lemma assoc_foldl_addCash accounts (k : string) (cash : list Cash.t)
    (m : list (string * num)) :
  assoc k (foldl (addCash accounts) m cash)
  = match List.filter
            (fun c => bool_decide (join "|" <$> cashFields accounts c = Some k))
            cash with
    | [] => assoc k m
    | y :: ys =>
        Some (foldl (fun v c => (nor v 0 + Cash.Amount c)%num)
                (match assoc k m with
                 | Some v => nor v 0 + Cash.Amount y
                 | None => 0 + Cash.Amount y
                 end)%num ys)
    end.
Proof.
  revert m. induction cash as [|c cash IH]; intros m; [done|].
  cbn [foldl List.filter]. rewrite IH. unfold addCash.
  destruct (accountKind_of accounts (Cash.AccountId c)) as [kind|] eqn:Hacc.
  - rewrite (cashFields_key _ _ _ Hacc), assoc_upsert. unfold cashKey.
    cbn [fmap option_fmap option_map].
    destruct (String.eqb_spec
                (join "|" [Cash.OwnerId c; Cash.AccountId c;
                           cell kind; Cash.Currency c]) k)
      as [Hk|Hk].
    + rewrite bool_decide_eq_true_2 by (by rewrite <-Hk).
      by destruct (List.filter _ cash).
    + rewrite bool_decide_eq_false_2; [done|]. by intros [= ?].
  - rewrite (cashFields_orphan _ _ Hacc).
    by rewrite bool_decide_eq_false_2.
Qed.

Lemma foldl_addCash_NoDup accounts (cash : list Cash.t)
    (m : list (string * num)) :
  NoDup m.*1 -> NoDup (foldl (addCash accounts) m cash).*1.
Proof.
  revert m. induction cash as [|c cash IH]; intros m H; simpl; [done|].
  apply IH. unfold addCash. destruct (accountKind_of _ _); [|done].
  by apply upsert_NoDup.
Qed.

Lemma foldl_runningBalance (x : num) (ys : list Cash.t) :
  foldl (fun v c => (nor v 0 + Cash.Amount c)%num) (0 + x)%num ys
  = runningBalance (x :: map Cash.Amount ys).
Proof.
  rewrite runningBalance_cons. generalize (0 + x)%num.
  induction ys as [|y ys IH]; intros v; simpl; [done|]. by rewrite IH.
Qed.

(** The balances: one for each key, made of the movements booked under
    that key. *)
Lemma cash_groups accounts (cash : list Cash.t) (k : string) (v : num) :
  (k, v) ∈ foldl (addCash accounts) [] cash
  <-> exists y ys,
        List.filter
          (fun c => bool_decide (join "|" <$> cashFields accounts c = Some k))
          cash = y :: ys
        /\ v = runningBalance (map Cash.Amount (y :: ys)).
Proof.
  pose proof (assoc_foldl_addCash accounts k cash []) as Hassoc.
  pose proof (foldl_addCash_NoDup accounts cash [] (NoDup_nil_2)) as Hnd.
  cbn [assoc] in Hassoc. split.
  - intros Hin. rewrite (assoc_lookup _ _ _ Hnd Hin) in Hassoc.
    destruct (List.filter _ cash) as [|y ys]; [done|].
    exists y, ys. split; [done|]. rewrite foldl_runningBalance in Hassoc.
    by injection Hassoc as ->.
  - intros (y & ys & Hf & ->). rewrite Hf, foldl_runningBalance in Hassoc.
    by apply assoc_elem_of.
Qed.

Lemma balanceRow_fields (fields : list string) (v : num) a b c d :
  fields = [a; b; c; d] -> pipeFreeAll fields ->
  balanceRow (join "|" fields, v) = Balance.mk a b c d v.
Proof.
  intros -> Hpf. unfold balanceRow. cbn [fst snd].
  by rewrite splitOn_join.
Qed.

(** The rows of Cash_Balances when no grouping field has a "|" in it. *)
Lemma cash_rows entities cash (row : Balance.t) :
  let accounts := accounts_of entities in
  (forall c fields, In c cash -> cashFields accounts c = Some fields ->
     pipeFreeAll fields) ->
  In row (computeCashBalances entities cash)
  <-> (exists c, In c cash /\ bookedTo accounts row c = true)
      /\ Balance.Balance row
         = runningBalance
             (map Cash.Amount (List.filter (bookedTo accounts row) cash)).
Proof.
  intros accounts Hpf.
  assert (Hkey : forall c f0 fs,
            In c cash -> pipeFreeAll (f0 :: fs) ->
            bool_decide (join "|" <$> cashFields accounts c
                         = Some (join "|" (f0 :: fs)))
            = bool_decide (cashFields accounts c = Some (f0 :: fs))).
  { intros c f0 fs Hc Hfields.
    destruct (cashFields accounts c) as [fs'|] eqn:Hfs; cbn [fmap option_fmap option_map].
    2: { by rewrite !bool_decide_eq_false_2. }
    pose proof (Hpf c fs' Hc Hfs) as Hfs_pf.
    unfold cashFields in Hfs.
    destruct (accountKind_of accounts _) as [kind|]; [|done].
    injection Hfs as <-.
    destruct (decide (join "|" [Cash.OwnerId c; Cash.AccountId c;
                                cell kind; Cash.Currency c]
                      = join "|" (f0 :: fs))) as [Heq|Hne].
    - rewrite bool_decide_eq_true_2 by (by rewrite Heq).
      symmetry. apply bool_decide_eq_true. f_equal. by apply join_inj.
    - rewrite bool_decide_eq_false_2 by (intros H; apply Hne; congruence).
      symmetry. apply bool_decide_eq_false. intros H. apply Hne. congruence. }
  unfold computeCashBalances. fold accounts. rewrite in_map_iff. split.
  - intros ([k v] & <- & Hin%list_elem_of_In%cash_groups).
    destruct Hin as (y & ys & Hf & ->).
    pose proof (filter_head_In _ _ _ _ Hf) as [Hy Hk%bool_decide_eq_true].
    destruct (cashFields accounts y) as [fs|] eqn:Hfs; [|done].
    injection Hk as <-. pose proof (Hpf y fs Hy Hfs) as Hfs_pf.
    pose proof Hfs as Hfs'. unfold cashFields in Hfs'.
    destruct (accountKind_of accounts (Cash.AccountId y)) as [kind|]; [|done].
    injection Hfs' as Hfs'. symmetry in Hfs'.
    rewrite (balanceRow_fields fs _ _ _ _ _ Hfs' Hfs_pf).
    unfold bookedTo, balanceFields. cbn [Balance.OwnerId Balance.AccountId
      Balance.AccountKind Balance.Currency Balance.Balance].
    rewrite Hfs' in Hf, Hfs_pf. split.
    + exists y. split; [done|]. apply bool_decide_eq_true. congruence.
    + rewrite <-Hf. do 2 f_equal. apply filter_ext_in. intros c Hc.
      by apply Hkey.
  - intros [(c & Hc & Hb%bool_decide_eq_true) Hbal].
    pose proof (Hpf c _ Hc Hb) as Hfs_pf.
    exists (join "|" (balanceFields row), Balance.Balance row). split.
    + rewrite (balanceRow_fields (balanceFields row) _ _ _ _ _ eq_refl Hfs_pf).
      by destruct row.
    + apply list_elem_of_In, cash_groups.
      destruct (List.filter (bookedTo accounts row) cash) as [|y ys] eqn:Hf.
      { assert (In c []) as []. rewrite <-Hf. apply filter_In.
        split; [done|]. by apply bool_decide_eq_true. }
      exists y, ys. split; [|by rewrite Hbal].
      rewrite <-Hf. apply filter_ext_in. intros c' Hc'. by apply Hkey.
Qed.

Lemma nor_Fin (q : Qc) : nor (Fin q) 0%num = Fin q.
Proof.
  unfold nor, of_Z. destruct (decide (q = Qc_of_Z 0)) as [->|]; done.
Qed.

(** With finite amounts the running balance is the sum of the amounts. *)
Lemma runningBalance_fin (cash : list Cash.t) :
  Forall (fun c => is_fin (Cash.Amount c)) cash ->
  runningBalance (map Cash.Amount cash)
  = foldl (fun acc c => (acc + Cash.Amount c)%num) 0%num cash.
Proof.
  intros H.
  assert (Hgen : forall q,
            foldl (fun v x => (nor v 0 + x)%num) (Fin q) (map Cash.Amount cash)
            = foldl (fun acc c => (acc + Cash.Amount c)%num) (Fin q) cash).
  { induction H as [|c cash [x Hx] _ IH]; intros q; cbn [foldl map]; [done|].
    by rewrite nor_Fin, Hx, nadd_Fin, IH. }
  exact (Hgen (Qc_of_Z 0)).
Qed.

(** A non-numeric amount makes the balance NaN, and the next amount
    starts the balance again from 0. *)
Lemma runningBalance_reset (before after : list num) :
  runningBalance (before ++ NaN :: after)
  = match after with
    | [] => NaN
    | _ => runningBalance after
    end.
Proof.
  unfold runningBalance at 1. rewrite foldl_app. cbn [foldl].
  assert ((nor (foldl (fun v x => (nor v 0 + x)%num) 0%num before) 0 + NaN)%num
          = NaN) as -> by (by destruct (nor _ _)).
  destruct after as [|x after]; [done|].
  by rewrite runningBalance_cons.
Qed.

(** Only ACCOUNT entities are accounts. *)
Lemma accounts_of_account entities k acc :
  accounts_of entities !! k = Some acc ->
  Entity.EntityType acc = "ACCOUNT" /\ Entity.EntityId acc = k
  /\ In acc entities.
Proof.
  unfold accounts_of.
  assert (Hgen : forall (l : list Entity.t) (m : gmap string Entity.t),
            (forall k v, m !! k = Some v ->
               Entity.EntityType v = "ACCOUNT" /\ Entity.EntityId v = k
               /\ In v entities) ->
            (forall a, In a l ->
               Entity.EntityType a = "ACCOUNT" /\ In a entities) ->
            forall k v,
              foldl (fun m a => <[Entity.EntityId a := a]> m) m l !! k = Some v ->
              Entity.EntityType v = "ACCOUNT" /\ Entity.EntityId v = k
              /\ In v entities).
  { induction l as [|a l IH]; intros m Hm Hl k' v; simpl; [by apply Hm|].
    apply IH.
    - intros k0 v0. destruct (decide (Entity.EntityId a = k0)) as [<-|Hne].
      + rewrite lookup_insert_eq. intros [= <-].
        destruct (Hl a) as [? ?]; [by left|]. done.
      + rewrite lookup_insert_ne by done. apply Hm.
    - intros a' Ha'. apply Hl. by right. }
  apply Hgen.
  - intros k0 v0 H0. by rewrite lookup_empty in H0.
  - intros a [Ha Ht]%filter_In. split; [|done]. by apply String.eqb_eq.
Qed.

(** X15: when no owner, account, account kind or currency has a "|" in
    it, Cash_Balances has exactly one row for each combination of owner,
    account and currency that occurs among the cash movements that are
    booked.  A movement is booked when its account is an ACCOUNT entity,
    and then to the row with the kind of that account; it is also booked
    when its account is no such entity but names an inherited member, and
    then to a row with an empty kind; any other movement is booked
    nowhere.  When the amounts booked to a row are finite, its balance is
    their sum, added in table order. *)
Theorem cash_balances_total_the_movements_of_each_account
    (entities : list Entity.t) (cash : list Cash.t) :
  let accounts := accounts_of entities in
  let rows := computeCashBalances entities cash in
  (forall c fields, In c cash -> cashFields accounts c = Some fields ->
     pipeFreeAll fields) ->
  NoDup (map balanceFields rows)
  /\ (forall c, In c cash ->
        is_Some (accounts !! Cash.AccountId c)
        \/ inherited (Cash.AccountId c) = true ->
        exists row, In row rows /\ bookedTo accounts row c = true)
  /\ (forall row, In row rows ->
        (exists c, In c cash /\ bookedTo accounts row c = true)
        /\ (forall c, bookedTo accounts row c = true ->
              Balance.OwnerId row = Cash.OwnerId c
              /\ Balance.AccountId row = Cash.AccountId c
              /\ Balance.Currency row = Cash.Currency c
              /\ ((exists acc,
                     accounts !! Cash.AccountId c = Some acc
                     /\ Entity.EntityType acc = "ACCOUNT"
                     /\ Balance.AccountKind row = Entity.AccountKind acc)
                  \/ (accounts !! Cash.AccountId c = None
                      /\ inherited (Cash.AccountId c) = true
                      /\ Balance.AccountKind row = "")))
        /\ (Forall (fun c => is_fin (Cash.Amount c))
              (List.filter (bookedTo accounts row) cash) ->
            Balance.Balance row
            = foldl (fun acc c => (acc + Cash.Amount c)%num) 0%num
                (List.filter (bookedTo accounts row) cash))).
Proof.
  intros accounts rows Hpf. subst rows.
  pose proof (fun row => cash_rows entities cash row Hpf) as Hrows.
  fold accounts in Hrows.
  split; [|split].
  - unfold computeCashBalances. fold accounts.
    change (map balanceFields (map balanceRow ?l))
      with (balanceFields <$> (balanceRow <$> l)).
    apply (NoDup_fmap_1 (join "|")).
    rewrite <-!list_fmap_compose.
    assert (Hext : (join "|" ∘ balanceFields ∘ balanceRow)
                   <$> foldl (addCash accounts) [] cash
                   = (foldl (addCash accounts) [] cash).*1).
    { apply list_fmap_ext. intros i [k v] Hi. cbn [fst compose].
      apply list_elem_of_lookup_2, cash_groups in Hi as (y & ys & Hf & ->).
      pose proof (filter_head_In _ _ _ _ Hf) as [Hy Hk%bool_decide_eq_true].
      destruct (cashFields accounts y) as [fs|] eqn:Hfs; [|done].
      injection Hk as <-. pose proof (Hpf y fs Hy Hfs) as Hfs_pf.
      unfold cashFields in Hfs.
      destruct (accountKind_of accounts (Cash.AccountId y)) as [kind|];
        [|done].
      injection Hfs as Hfs. symmetry in Hfs.
      rewrite (balanceRow_fields fs _ _ _ _ _ Hfs Hfs_pf).
      by rewrite Hfs. }
    rewrite Hext. by apply foldl_addCash_NoDup, NoDup_nil_2.
  - intros c Hc Hacc.
    assert (Hkind : exists kind,
              accountKind_of accounts (Cash.AccountId c) = Some kind).
    { unfold accountKind_of, at_key.
      destruct Hacc as [[acc ->]|Hinh]; [by eexists|].
      destruct (accounts !! Cash.AccountId c); [by eexists|].
      rewrite Hinh. by eexists. }
    destruct Hkind as [kind Hkind].
    pose proof (cashFields_key _ _ _ Hkind) as Hfs.
    set (row := Balance.mk (Cash.OwnerId c) (Cash.AccountId c)
                  (cell kind) (Cash.Currency c)
                  (runningBalance
                     (map Cash.Amount
                        (List.filter
                           (fun c' => bool_decide
                              (cashFields accounts c'
                               = Some [Cash.OwnerId c; Cash.AccountId c;
                                       cell kind; Cash.Currency c])) cash)))).
    assert (Hb : bookedTo accounts row c = true)
      by (by apply bool_decide_eq_true).
    exists row. split; [|done]. apply Hrows. split; [by exists c|done].
  - intros row [Hex Hbal]%Hrows. split; [done|]. split.
    + intros c Hb%bool_decide_eq_true. unfold cashFields in Hb.
      destruct (accountKind_of accounts (Cash.AccountId c)) as [kind|]
        eqn:Hacc; [|done].
      injection Hb as H1 H2 H3 H4. repeat (split; [done|]).
      apply accountKind_of_Some in Hacc
        as [(acc & Hacc & ->)|(Hnone & Hinh & ->)].
      * left. exists acc. split; [done|]. split; [|done].
        by apply (accounts_of_account entities _ _ Hacc).
      * right. by repeat split.
    + intros Hfin. rewrite Hbal. by apply runningBalance_fin.
Qed.

(** X16: a cash movement whose amount is not numeric does not leave a
    total of the other amounts: the balance of its row is NaN if no later
    movement is booked to the row, and otherwise it is made of the later
    movements alone (their sum, when they are finite), whatever was booked
    before. *)
Theorem non_numeric_amount_restarts_the_balance
    (entities : list Entity.t) (before after : list Cash.t)
    (bad : Cash.t) (row : Balance.t) :
  let accounts := accounts_of entities in
  let later := List.filter (bookedTo accounts row) after in
  (forall c fields, In c (before ++ bad :: after) ->
     cashFields accounts c = Some fields -> pipeFreeAll fields) ->
  Cash.Amount bad = NaN ->
  bookedTo accounts row bad = true ->
  In row (computeCashBalances entities (before ++ bad :: after)) ->
  (later = [] -> Balance.Balance row = NaN)
  /\ (later <> [] ->
      Forall (fun c => is_fin (Cash.Amount c)) later ->
      Balance.Balance row
      = foldl (fun acc c => (acc + Cash.Amount c)%num) 0%num later).
Proof.
  intros accounts later Hpf Hnan Hbad [_ Hbal]%cash_rows; [|done].
  fold accounts in Hbal.
  rewrite List.filter_app in Hbal. cbn [List.filter] in Hbal.
  rewrite Hbad, map_app in Hbal. cbn [map] in Hbal.
  rewrite Hnan, runningBalance_reset in Hbal. fold later in Hbal.
  split.
  - intros Hl. by rewrite Hl in Hbal.
  - intros Hl Hfin. rewrite <-runningBalance_fin by done.
    by destruct later.
Qed.

(** ** The properties of the derived tables at concrete inputs *)

Lemma outflow_takes_from_a_bucket_no_more_than_is_left_witness :
  Forall2 (fun b b' =>
       Bucket.OwnerId b' = Bucket.OwnerId b
       /\ Bucket.StartDate b' = Bucket.StartDate b
       /\ (Bucket.RemainingAmount b' <=? Bucket.RemainingAmount b)%num = true)
    ex_buckets (drawDown (of_Z 120) ex_buckets).
Proof.
  eapply Forall2_impl.
  - apply (outflow_takes_from_a_bucket_no_more_than_is_left ex_buckets
             (Qc_of_Z 120)).
    repeat constructor; by eexists.
  - intros b b' (H1 & H2 & _ & H3 & _). split; [exact H1|].
    split; [exact H2|exact H3].
Defined.

Lemma outflow_exhausts_earlier_buckets_first_witness :
  exists b1',
    drawDown (of_Z 120) ex_buckets !! 0%nat = Some b1'
    /\ (0 <? Bucket.RemainingAmount b1')%num = false.
Proof.
  apply (outflow_exhausts_earlier_buckets_first ex_buckets (Qc_of_Z 120)
           0 1 (Bucket.mk "O2" (Some 3%Z) (of_Z 50))
           (Bucket.mk "O2" (Some 3%Z) (of_Z 50 - of_Z 20)%num)).
  - repeat constructor; by eexists.
  - lia.
  - reflexivity.
  - js_eq.
  - simpl. intros H. apply (f_equal (fun x => (x <=? of_Z 40)%num)) in H.
    vm_compute in H. discriminate.
Defined.

Lemma rbi_exposure_ignores_who_spends_and_in_which_currency_witness :
  computeRBI180DayExposure ex_cash_rows
  = computeRBI180DayExposure
      [Cash.mk "O9" "A9" "EUR" (Some 5%Z) false (of_Z (-120));
       ex_cash "O1" "A7" 1 true 100; ex_cash "O2" "A2" 3 true 50].
Proof.
  apply rbi_exposure_ignores_who_spends_and_in_which_currency. reflexivity.
Defined.

Lemma exposure_rows_are_income_rows_oldest_first_witness :
  StronglySorted
    (fun b b' => dateLe (Bucket.StartDate b) (Bucket.StartDate b'))
    (computeRBI180DayExposure ex_cash_rows).
Proof.
  apply (exposure_rows_are_income_rows_oldest_first ex_cash_rows).
  repeat constructor; by eexists.
Defined.

Lemma taxable_gain_is_gross_less_exemption_and_never_negative_witness :
  match buildTaxSummaryByFY ex_config ex_gains with
  | Ok (row :: _) =>
      TaxRow.TaxRate row = Some "12.5%"
      /\ nonneg (TaxRow.TaxableINR row)
  | _ => False
  end.
Proof.
  destruct (buildTaxSummaryByFY ex_config ex_gains) as [[|row rows]|] eqn:E;
    try (vm_compute in E; discriminate).
  destruct (TaxRow.GrossGainINR row) as [g| | |] eqn:Hg;
    try (vm_compute in E; injection E as <- _; vm_compute in Hg; discriminate).
  pose proof (taxable_gain_is_gross_less_exemption_and_never_negative
                ex_config ex_gains (row :: rows) row g E (or_introl eq_refl) Hg)
    as H.
  cbv zeta in H.
  assert (Hrow : TaxRow.GainType row = "LTCG"
                 /\ TaxRow.AssetClass row = Some "EQUITY").
  { vm_compute in E. by injection E as <- _. }
  destruct Hrow as [Ht Hc]. rewrite Ht, Hc in H.
  destruct (tax_of ex_config !! keyOf (Some "EQUITY")) as [cfg|] eqn:Hcfg.
  - vm_compute in Hcfg. injection Hcfg as <-. destruct H as [Hrate Hx].
    split; [exact Hrate|].
    by destruct (Hx (Qc_of_Z 125000)) as (_ & _ & Hn).
  - vm_compute in Hcfg. discriminate.
Defined.

Lemma tax_summary_has_one_row_per_owner_year_class_and_type_witness :
  match buildTaxSummaryByFY ex_config ex_gains with
  | Ok rows => NoDup (map rowFields rows)
  | Throw _ => False
  end.
Proof.
  destruct (buildTaxSummaryByFY ex_config ex_gains) as [rows|] eqn:E.
  - apply (tax_summary_has_one_row_per_owner_year_class_and_type
             ex_config ex_gains rows); [|exact E].
    repeat constructor.
  - vm_compute in E. discriminate.
Defined.

Lemma tax_summary_throws_iff_an_asset_class_has_no_config_witness :
  buildTaxSummaryByFY [] ex_gains = Throw TypeError
  <-> exists g a,
        In g ex_gains /\ Gain.AssetClass g = Some a
        /\ tax_of [] !! a = None /\ inherited a = false.
Proof.
  apply tax_summary_throws_iff_an_asset_class_has_no_config.
  - repeat constructor.
  - repeat constructor; by eexists.
Defined.

Lemma cash_balances_total_the_movements_of_each_account_witness :
  NoDup (map balanceFields (computeCashBalances ex_entities ex_cash_rows)).
Proof.
  apply (cash_balances_total_the_movements_of_each_account
           ex_entities ex_cash_rows).
  intros c fields Hc Hf.
  destruct Hc as [<-|[<-|[<-|[]]]]; vm_compute in Hf; try discriminate;
    injection Hf as <-; repeat constructor.
Defined.

Lemma non_numeric_amount_restarts_the_balance_witness :
  In ex_balance_row
    (computeCashBalances ex_entities
       ([ex_cash "O1" "A1" 1 false 100]
        ++ Cash.mk "O1" "A1" "USD" (Some 2%Z) false NaN
        :: [ex_cash "O1" "A1" 3 false 7]))
  /\ Balance.Balance ex_balance_row
     = foldl (fun acc c => (acc + Cash.Amount c)%num) 0%num
         [ex_cash "O1" "A1" 3 false 7].
Proof.
  assert (Hin : In ex_balance_row
            (computeCashBalances ex_entities
               ([ex_cash "O1" "A1" 1 false 100]
                ++ Cash.mk "O1" "A1" "USD" (Some 2%Z) false NaN
                :: [ex_cash "O1" "A1" 3 false 7]))).
  { left. js_eq. }
  split; [exact Hin|].
  destruct (non_numeric_amount_restarts_the_balance ex_entities
              [ex_cash "O1" "A1" 1 false 100] [ex_cash "O1" "A1" 3 false 7]
              (Cash.mk "O1" "A1" "USD" (Some 2%Z) false NaN) ex_balance_row)
    as [_ H].
  - intros c fields Hc Hf.
    destruct Hc as [<-|[<-|[<-|[]]]]; vm_compute in Hf; try discriminate;
      injection Hf as <-; repeat constructor.
  - reflexivity.
  - reflexivity.
  - exact Hin.
  - apply H; [discriminate|]. repeat constructor. by eexists.
Defined.

Lemma gain_is_long_term_iff_held_for_the_threshold_witness :
  match computeRealizedGains ex_year ex_month ex_securities ex_config
          [ex_record] with
  | Ok gains =>
      Forall2 (fun c g =>
                 Gain.GainINR g
                 = (Consume.ProceedsINR c - Consume.CostINR c)%num
                 /\ (Gain.GainType g = "LTCG" \/ Gain.GainType g = "STCG"))
        [ex_record] gains
  | Throw _ => False
  end.
Proof.
  destruct (computeRealizedGains _ _ _ _ _) as [gains|] eqn:E.
  - eapply Forall2_impl;
      [exact (gain_is_long_term_iff_held_for_the_threshold _ _ _ _ _ _ E)|].
    simpl. intros c g (H1 & _ & _ & _ & H2 & _). split; [exact H1|exact H2].
  - vm_compute in E. discriminate.
Defined.

Lemma realized_gains_throw_iff_security_or_tax_rule_is_missing_witness :
  computeRealizedGains ex_year ex_month ex_securities [] [ex_record]
  = Throw TypeError.
Proof.
  apply (realized_gains_throw_iff_security_or_tax_rule_is_missing
           ex_year ex_month ex_securities [] [ex_record]).
  exists ex_record. split; [by left|]. right. exists (Some "EQUITY").
  split; [reflexivity|]. split; reflexivity.
Defined.


(** ** [buildEquityByAccountQC] *)

Lemma runningBalance_sum {X : Type} (amount : X -> num) (xs : list X) :
  Forall (fun x => is_fin (amount x)) xs ->
  runningBalance (map amount xs)
  = foldl (fun acc x => (acc + amount x)%num) 0%num xs.
Proof.
  intros H.
  assert (Hgen : forall q,
            foldl (fun v x => (nor v 0 + x)%num) (Fin q) (map amount xs)
            = foldl (fun acc x => (acc + amount x)%num) (Fin q) xs).
  { induction H as [|x xs [a Ha] _ IH]; intros q; cbn [foldl map]; [done|].
    by rewrite nor_Fin, Ha, nadd_Fin, IH. }
  exact (Hgen (Qc_of_Z 0)).
Qed.

Section sums.
Context {X : Type}.
Variable fields : X -> option (list string).
Variable amount : X -> num.

(** [(map[key] || 0) + amount] for the elements that have a key. *)
Let step (m : list (string * num)) (x : X) : list (string * num) :=
  match fields x with
  | Some fs =>
      upsert (join "|" fs) (0 + amount x)%num
        (fun v => (nor v 0 + amount x)%num) m
  | None => m
  end.

Lemma assoc_foldl_sums (k : string) (xs : list X) (m : list (string * num)) :
  assoc k (foldl step m xs)
  = match List.filter
            (fun x => bool_decide (join "|" <$> fields x = Some k)) xs with
    | [] => assoc k m
    | y :: ys =>
        Some (foldl (fun v x => (nor v 0 + amount x)%num)
                (match assoc k m with
                 | Some v => nor v 0 + amount y
                 | None => 0 + amount y
                 end)%num ys)
    end.
Proof using Type.
  revert m. induction xs as [|x xs IH]; intros m; [done|].
  cbn [foldl List.filter]. rewrite IH. unfold step.
  destruct (fields x) as [fs|] eqn:Hfs; cbn [fmap option_fmap option_map].
  - rewrite assoc_upsert.
    destruct (String.eqb_spec (join "|" fs) k) as [Hk|Hk].
    + rewrite bool_decide_eq_true_2 by (by rewrite <-Hk).
      by destruct (List.filter _ xs).
    + rewrite bool_decide_eq_false_2; [done|]. by intros [= ?].
  - by rewrite bool_decide_eq_false_2.
Qed.

Lemma foldl_sums_NoDup (xs : list X) (m : list (string * num)) :
  NoDup m.*1 -> NoDup (foldl step m xs).*1.
Proof using Type.
  revert m. induction xs as [|x xs IH]; intros m H; simpl; [done|].
  apply IH. unfold step. destruct (fields x); [|done].
  by apply upsert_NoDup.
Qed.

Lemma foldl_running (a : num) (ys : list X) :
  foldl (fun v x => (nor v 0 + amount x)%num) (0 + a)%num ys
  = runningBalance (a :: map amount ys).
Proof using Type.
  rewrite runningBalance_cons. generalize (0 + a)%num.
  induction ys as [|y ys IH]; intros v; simpl; [done|]. by rewrite IH.
Qed.

(** The totals: one for each key, made of the elements with that key. *)
Lemma sums_groups (xs : list X) (k : string) (v : num) :
  (k, v) ∈ foldl step [] xs
  <-> exists y ys,
        List.filter
          (fun x => bool_decide (join "|" <$> fields x = Some k)) xs
        = y :: ys
        /\ v = runningBalance (map amount (y :: ys)).
Proof using Type.
  pose proof (assoc_foldl_sums k xs []) as Hassoc.
  pose proof (foldl_sums_NoDup xs [] (NoDup_nil_2)) as Hnd.
  cbn [assoc] in Hassoc. split.
  - intros Hin. rewrite (assoc_lookup _ _ _ Hnd Hin) in Hassoc.
    destruct (List.filter _ xs) as [|y ys]; [done|].
    exists y, ys. split; [done|]. rewrite foldl_running in Hassoc.
    by injection Hassoc as ->.
  - intros (y & ys & Hf & ->). rewrite Hf, foldl_running in Hassoc.
    by apply assoc_elem_of.
Qed.

(** With keys that have no "|" in their parts, two elements share a key
    exactly when they have the same fields. *)
Lemma sums_key (xs : list X) (x : X) (f0 : string) (fs : list string) :
  (forall x fs, In x xs -> fields x = Some fs -> exists f0 fs', fs = f0 :: fs'
     /\ pipeFreeAll fs) ->
  In x xs -> pipeFreeAll (f0 :: fs) ->
  bool_decide (join "|" <$> fields x = Some (join "|" (f0 :: fs)))
  = bool_decide (fields x = Some (f0 :: fs)).
Proof using Type.
  intros Hpf Hx Hfs.
  destruct (fields x) as [fs'|] eqn:Hfx; cbn [fmap option_fmap option_map].
  2: { by rewrite !bool_decide_eq_false_2. }
  destruct (Hpf x fs' Hx Hfx) as (g0 & gs & -> & Hg).
  destruct (decide (join "|" (g0 :: gs) = join "|" (f0 :: fs))) as [Heq|Hne].
  - rewrite bool_decide_eq_true_2 by (by rewrite Heq).
    symmetry. apply bool_decide_eq_true. f_equal. by apply join_inj.
  - rewrite bool_decide_eq_false_2 by (intros H; apply Hne; congruence).
    symmetry. apply bool_decide_eq_false. intros H. apply Hne. congruence.
Qed.
End sums.

Lemma foldl_addLot (lots : list Lot.t) (m : list (string * num)) :
  foldl addLot m lots
  = foldl (fun m l =>
             match lotFields l with
             | Some fs =>
                 upsert (join "|" fs) (0 + Lot.OpenQty l)%num
                   (fun v => (nor v 0 + Lot.OpenQty l)%num) m
             | None => m
             end) m lots.
Proof.
  revert m. induction lots as [|l lots IH]; intros m; [done|].
  cbn [foldl]. rewrite IH. f_equal.
  unfold addLot, lotFields, lotKey. by destruct (Lot.OpenQty l <=? 0)%num.
Qed.

Lemma holdingRow_fields secs (fields : list string) (v : num) a b c d :
  fields = [a; b; c; d] -> pipeFreeAll fields ->
  holdingRow secs (join "|" fields, v)
  = Holding.mk a b c (symbol_of secs d) v d.
Proof.
  intros -> Hpf. unfold holdingRow. cbn [fst snd].
  by rewrite splitOn_join.
Qed.

Lemma lotFields_Some (l : Lot.t) (fs : list string) :
  lotFields l = Some fs ->
  (Lot.OpenQty l <=? 0)%num = false
  /\ fs = [Lot.OwnerId l; Lot.AccountId l; Lot.BrokerId l; Lot.SecurityId l].
Proof.
  unfold lotFields. destruct (Lot.OpenQty l <=? 0)%num; [done|].
  by intros [= <-].
Qed.

(** The rows of the holdings check when no grouping field has a "|" in
    it. *)
Lemma equity_rows securities lots (row : Holding.t) :
  (forall l fields, In l lots -> lotFields l = Some fields ->
     pipeFreeAll fields) ->
  In row (buildEquityByAccountQC securities lots)
  <-> (exists l, In l lots /\ heldIn row l = true)
      /\ Holding.Symbol row
         = symbol_of (securities_of securities) (Holding.SecurityId row)
      /\ Holding.Quantity row
         = runningBalance (map Lot.OpenQty (List.filter (heldIn row) lots)).
Proof.
  intros Hpf.
  assert (Hpf' : forall l fs, In l lots -> lotFields l = Some fs ->
            exists f0 fs', fs = f0 :: fs' /\ pipeFreeAll fs).
  { intros l fs Hl Hfs. pose proof (Hpf l fs Hl Hfs) as Hfs_pf.
    destruct (lotFields_Some _ _ Hfs) as [_ ->]. by eexists _, _. }
  unfold buildEquityByAccountQC. rewrite foldl_addLot, in_map_iff. split.
  - intros ([k v] & <- & Hin%list_elem_of_In%sums_groups).
    destruct Hin as (y & ys & Hf & ->).
    pose proof (filter_head_In _ _ _ _ Hf) as [Hy Hk%bool_decide_eq_true].
    destruct (lotFields y) as [fs|] eqn:Hfs; [|done].
    injection Hk as <-. pose proof (Hpf y fs Hy Hfs) as Hfs_pf.
    destruct (lotFields_Some _ _ Hfs) as [Hpos Hfs'].
    rewrite (holdingRow_fields _ fs _ _ _ _ _ Hfs' Hfs_pf).
    unfold heldIn, holdingFields. cbn [Holding.OwnerId Holding.AccountId
      Holding.BrokerId Holding.SecurityId Holding.Symbol Holding.Quantity].
    rewrite Hfs' in Hf, Hfs_pf. split; [|split; [done|]].
    + exists y. split; [done|]. apply bool_decide_eq_true. congruence.
    + rewrite <-Hf. do 2 f_equal. apply filter_ext_in. intros l Hl.
      by apply (sums_key lotFields lots).
  - intros [(l & Hl & Hb%bool_decide_eq_true) [Hsym Hqty]].
    pose proof (Hpf l _ Hl Hb) as Hfs_pf.
    exists (join "|" (holdingFields row), Holding.Quantity row). split.
    + rewrite (holdingRow_fields _ (holdingFields row) _ _ _ _ _
                 eq_refl Hfs_pf).
      destruct row. cbn in Hsym |- *. by rewrite Hsym.
    + apply list_elem_of_In, sums_groups.
      destruct (List.filter (heldIn row) lots) as [|y ys] eqn:Hf.
      { assert (In l []) as []. rewrite <-Hf. apply filter_In.
        split; [done|]. by apply bool_decide_eq_true. }
      exists y, ys. split; [|by rewrite Hqty].
      rewrite <-Hf. apply filter_ext_in. intros l' Hl'.
      by apply (sums_key lotFields lots).
Qed.

Lemma nle_0_false_fin (q : Qc) : (Fin q <=? 0)%num = false -> (0 < q)%Qc.
Proof.
  intros H. apply Qcnot_le_lt. intros Hle. apply nle_0_Fin in Hle. congruence.
Qed.

(** A sum of positive quantities is positive. *)
Lemma sum_positive (ls : list Lot.t) (a : Qc) :
  Forall (fun l => is_fin (Lot.OpenQty l)) ls ->
  Forall (fun l => (Lot.OpenQty l <=? 0)%num = false) ls ->
  exists s,
    foldl (fun acc l => (acc + Lot.OpenQty l)%num) (Fin a) ls = Fin s
    /\ (a <= s)%Qc /\ (ls <> [] -> (a < s)%Qc).
Proof.
  intros Hfin. revert a.
  induction Hfin as [|l ls [q Hq] _ IH]; intros a Hpos; cbn [foldl].
  - exists a. split; [done|]. split; [apply Qcle_refl|done].
  - apply Forall_cons in Hpos as [Hl Hpos]. rewrite Hq in Hl |- *.
    apply nle_0_false_fin in Hl. rewrite nadd_Fin.
    destruct (IH (a + q)%Qc Hpos) as (s & -> & Hle & _).
    exists s. split; [done|].
    assert (a < s)%Qc by (qc2q; lra).
    split; [by apply Qclt_le_weak|done].
Qed.

Lemma heldIn_open (row : Holding.t) (l : Lot.t) :
  heldIn row l = true ->
  (Lot.OpenQty l <=? 0)%num = false
  /\ Holding.OwnerId row = Lot.OwnerId l
  /\ Holding.AccountId row = Lot.AccountId l
  /\ Holding.BrokerId row = Lot.BrokerId l
  /\ Holding.SecurityId row = Lot.SecurityId l.
Proof.
  intros [Hpos Hfs]%bool_decide_eq_true%lotFields_Some.
  unfold holdingFields in Hfs. injection Hfs as -> -> -> ->. done.
Qed.

(** One row for each combination of fields, and a row for every lot that
    is not skipped. *)
Lemma equity_rows_NoDup securities lots :
  (forall l fields, In l lots -> lotFields l = Some fields ->
     pipeFreeAll fields) ->
  NoDup (map holdingFields (buildEquityByAccountQC securities lots))
  /\ (forall l, In l lots -> (Lot.OpenQty l <=? 0)%num = false ->
        exists row,
          In row (buildEquityByAccountQC securities lots)
          /\ heldIn row l = true).
Proof.
  intros Hpf.
  pose proof (fun row => equity_rows securities lots row Hpf) as Hrows.
  split.
  - unfold buildEquityByAccountQC.
    change (map holdingFields (map ?f ?l)) with (holdingFields <$> (f <$> l)).
    apply (NoDup_fmap_1 (join "|")).
    rewrite <-!list_fmap_compose, foldl_addLot.
    match goal with
    | |- NoDup (?f <$> ?m) => assert (Hext : f <$> m = m.*1)
    end.
    { apply list_fmap_ext. intros i [k v] Hi. cbn [fst compose].
      apply list_elem_of_lookup_2, sums_groups in Hi as (y & ys & Hf & ->).
      pose proof (filter_head_In _ _ _ _ Hf) as [Hy Hk%bool_decide_eq_true].
      destruct (lotFields y) as [fs|] eqn:Hfs; [|done].
      injection Hk as <-. pose proof (Hpf y fs Hy Hfs) as Hfs_pf.
      destruct (lotFields_Some _ _ Hfs) as [_ Hfs'].
      rewrite (holdingRow_fields _ fs _ _ _ _ _ Hfs' Hfs_pf).
      by rewrite Hfs'. }
    rewrite Hext. by apply foldl_sums_NoDup, NoDup_nil_2.
  - intros l Hl Hpos.
    set (fs := [Lot.OwnerId l; Lot.AccountId l; Lot.BrokerId l;
                Lot.SecurityId l]).
    assert (Hfs : lotFields l = Some fs)
      by (unfold lotFields; by rewrite Hpos).
    set (row := Holding.mk (Lot.OwnerId l) (Lot.AccountId l) (Lot.BrokerId l)
                  (symbol_of (securities_of securities) (Lot.SecurityId l))
                  (runningBalance
                     (map Lot.OpenQty
                        (List.filter
                           (fun l' => bool_decide (lotFields l' = Some fs))
                           lots)))
                  (Lot.SecurityId l)).
    assert (Hb : heldIn row l = true) by (by apply bool_decide_eq_true).
    exists row. split; [|done]. apply Hrows. split; [by exists l|done].
Qed.

(** [symbol_of], case by case. *)
Lemma symbol_of_cases (secs : gmap string Security.t) (secId : string) :
  match secs !! secId with
  | Some s => symbol_of secs secId = Some (Security.Ticker s)
  | None =>
      symbol_of secs secId
      = if inherited secId then None else Some secId
  end.
Proof.
  unfold symbol_of, at_key. destruct (secs !! secId); [done|].
  by destruct (inherited secId).
Qed.

(** X24: when no owner, account, broker or security identifier of an
    open lot has a "|" in it, the holdings check has exactly one row for
    each combination of owner, account, broker and security that occurs
    among the lots whose open quantity is not zero or less.  A lot with an
    open quantity of zero or less is counted in no row.  The symbol of a
    row is the ticker of its security when Securities lists the security;
    when it does not, the symbol is undefined if the security identifier
    names an inherited member, and the security identifier itself
    otherwise.  When the quantities counted in a row are finite, the
    quantity of the row is their sum, added in table order, and it is
    positive. *)
Theorem equity_by_account_totals_the_open_lots
    (securities : list Security.t) (lots : list Lot.t) :
  let rows := buildEquityByAccountQC securities lots in
  (forall l fields, In l lots -> lotFields l = Some fields ->
     pipeFreeAll fields) ->
  NoDup (map holdingFields rows)
  /\ (forall l, In l lots -> (Lot.OpenQty l <=? 0)%num = false ->
        exists row, In row rows /\ heldIn row l = true)
  /\ (forall row, In row rows ->
        (exists l, In l lots /\ heldIn row l = true)
        /\ (forall l, (Lot.OpenQty l <=? 0)%num = true ->
              heldIn row l = false)
        /\ match securities_of securities !! Holding.SecurityId row with
           | Some s => Holding.Symbol row = Some (Security.Ticker s)
           | None =>
               Holding.Symbol row
               = if inherited (Holding.SecurityId row) then None
                 else Some (Holding.SecurityId row)
           end
        /\ (Forall (fun l => is_fin (Lot.OpenQty l))
              (List.filter (heldIn row) lots) ->
            Holding.Quantity row
            = foldl (fun acc l => (acc + Lot.OpenQty l)%num) 0%num
                (List.filter (heldIn row) lots)
            /\ (0 <? Holding.Quantity row)%num = true)).
Proof.
  intros rows Hpf. subst rows.
  pose proof (fun row => equity_rows securities lots row Hpf) as Hrows.
  destruct (equity_rows_NoDup securities lots Hpf) as [Hnd Hall].
  split; [done|]. split; [done|].
  - intros row (Hex & Hsym & Hqty)%Hrows. split; [done|]. split; [|split].
    + intros l Hl. apply not_true_is_false. intros [Hpos _]%heldIn_open.
      congruence.
    + rewrite Hsym. apply symbol_of_cases.
    + intros Hfin. rewrite Hqty, runningBalance_sum by done.
      destruct Hex as (l & Hl & Hb).
      destruct (sum_positive (List.filter (heldIn row) lots) (Qc_of_Z 0) Hfin)
        as (s & Hs & _ & Hlt).
      { apply Forall_forall. intros l' [_ Hl']%list_elem_of_In%filter_In.
        by apply heldIn_open in Hl' as [? _]. }
      change (Fin (Qc_of_Z 0)) with 0%num in Hs. rewrite Hs.
      split; [done|]. apply nlt_0_Fin. rewrite <-Qc_of_Z_0. apply Hlt.
      intros Hnil. assert (In l []) as []. rewrite <-Hnil. by apply filter_In.
Qed.

(** The directory that [rebuildLots] builds from Securities is the part
    that [toSec] gives of the directory that the derived tables build. *)
Lemma secs_of_securities (table : list Security.t) :
  secs_of (map toSec table) = toSec <$> securities_of table.
Proof.
  unfold secs_of, securities_of.
  assert (Hgen : forall (l : list Security.t) (m : gmap string Security.t),
            foldl (fun m s => <[Sec.SecurityId s := s]> m) (toSec <$> m)
              (map toSec l)
            = toSec <$> foldl (fun m s => <[Security.SecurityId s := s]> m)
                          m l).
  { induction l as [|s l IH]; intros m; simpl; [done|].
    by rewrite <-IH, fmap_insert. }
  by rewrite <-Hgen, fmap_empty.
Qed.

(** What [rebuildLots] writes to Lots_Current: open lots, each with the
    asset of its security when Securities lists it, and otherwise of a
    security whose identifier names an inherited member, with no asset. *)
Lemma rebuilt_lots_listed (table : list Security.t)
    (trades actions : list Row.t) (out : Output) (l : Lot.t) :
  rebuildLots (map toSec table) trades actions = Ok out ->
  In l (Lots_Current out) ->
  (0 <? Lot.OpenQty l)%num = true
  /\ match securities_of table !! Lot.SecurityId l with
     | Some s => Lot.AssetId l = Some (Security.AssetId s)
     | None => inherited (Lot.SecurityId l) = true /\ Lot.AssetId l = None
     end.
Proof.
  unfold rebuildLots. intros H.
  destruct (replay _ _ init) as [st|] eqn:Hst; simpl in H; [|done].
  injection H as <-. cbn [Lots_Current]. intros [Hl Hpos]%filter_In.
  split; [done|].
  pose proof (replay_wellListed _ _ init st (Forall_nil_2 _) Hst) as Hall.
  rewrite Forall_forall in Hall.
  pose proof (Hall l ltac:(by apply list_elem_of_In)) as Hwl.
  unfold wellListed, assetOf in Hwl.
  rewrite secs_of_securities, lookup_fmap in Hwl.
  by destruct (securities_of table !! Lot.SecurityId l).
Qed.


(** ** The holdings check at concrete inputs *)

Lemma equity_by_account_totals_the_open_lots_witness :
  NoDup (map holdingFields
           (buildEquityByAccountQC ex_securities (lots ex_two_lots)))
  /\ forall row,
       In row (buildEquityByAccountQC ex_securities (lots ex_two_lots)) ->
       match securities_of ex_securities !! Holding.SecurityId row with
       | Some s => Holding.Symbol row = Some (Security.Ticker s)
       | None =>
           Holding.Symbol row
           = if inherited (Holding.SecurityId row) then None
             else Some (Holding.SecurityId row)
       end.
Proof.
  destruct (equity_by_account_totals_the_open_lots ex_securities
              (lots ex_two_lots)) as (Hnd & _ & Hrows).
  - intros l fields [<-|[<-|[]]] H; vm_compute in H; injection H as <-;
      repeat constructor.
  - split; [exact Hnd|]. intros row Hrow.
    exact (proj1 (proj2 (proj2 (Hrows row Hrow)))).
Defined.


(** * Properties of [rebuildXIRRCashflows] *)

(** ** [Object.entries] *)

Lemma filter_partition_perm {A : Type} (f : A -> bool) (l : list A) :
  List.filter f l ++ List.filter (fun x => negb (f x)) l ≡ₚ l.
Proof.
  induction l as [|x l IH]; simpl; [done|].
  destruct (f x); simpl.
  - by rewrite IH.
  - by rewrite <-Permutation_middle, IH.
Qed.

Lemma entries_perm {V : Type} (m : list (string * V)) : entries m ≡ₚ m.
Proof.
  unfold entries. rewrite js_sort_perm. apply filter_partition_perm.
Qed.

Lemma filter_all {A : Type} (f : A -> bool) (l : list A) :
  Forall (fun x => f x = true) l -> List.filter f l = l.
Proof.
  induction 1 as [|x l Hx _ IH]; simpl; [done|]. by rewrite Hx, IH.
Qed.

Lemma filter_none {A : Type} (f : A -> bool) (l : list A) :
  Forall (fun x => f x = false) l -> List.filter f l = [].
Proof.
  induction 1 as [|x l Hx _ IH]; simpl; [done|]. by rewrite Hx, IH.
Qed.

(** An object without array indices among its keys is enumerated in the
    order in which the keys were created. *)
Lemma entries_insertion_order {V : Type} (m : list (string * V)) :
  Forall (fun kv => arrayIndex kv.1 = None) m -> entries m = m.
Proof.
  intros H. unfold entries. rewrite filter_none, filter_all; [done| |].
  - eapply Forall_impl; [exact H|]. intros kv Hkv. unfold isIndex.
    by rewrite Hkv.
  - eapply Forall_impl; [exact H|]. intros kv Hkv. unfold isIndex.
    by rewrite Hkv.
Qed.

(** ** The quantities and the representatives of the assets *)

Lemma counted_positive (q : num) :
  negb (nnot q || (q <=? 0)%num) = (0 <? q)%num.
Proof.
  destruct q as [q| | |]; try done.
  unfold nnot, nle, nlt, of_Z. rewrite Qc_of_Z_0.
  destruct (decide (q = 0)%Qc) as [->|Hne].
  - by rewrite bool_decide_eq_true_2.
  - rewrite (bool_decide_eq_false_2 (q = 0)%Qc) by done. simpl.
    destruct (decide (q <= 0)%Qc) as [Hle|Hgt].
    + rewrite bool_decide_eq_true_2 by done. symmetry.
      apply bool_decide_eq_false. by apply Qcle_not_lt.
    + rewrite bool_decide_eq_false_2 by done. symmetry.
      apply bool_decide_eq_true. by apply Qcnot_le_lt.
Qed.

Lemma countedAs_fields (a : string) (l : Lot.t) :
  bool_decide (join "|" <$> assetFields l = Some a) = countedAs a l.
Proof.
  unfold assetFields, countedAs.
  destruct (nnot _ || _); cbn [negb andb fmap option_fmap option_map join].
  - by apply bool_decide_eq_false_2.
  - destruct (String.eqb_spec (keyOf (Lot.AssetId l)) a) as [->|Hne].
    + by apply bool_decide_eq_true_2.
    + apply bool_decide_eq_false_2. by intros [= ?].
Qed.

Lemma assetStep_fst (lots : list Lot.t)
    (st : list (string * num) * gmap string string) :
  (foldl assetStep st lots).1
  = foldl (fun m l =>
             match assetFields l with
             | Some fs =>
                 upsert (join "|" fs) (0 + Lot.OpenQty l)%num
                   (fun v => (nor v 0 + Lot.OpenQty l)%num) m
             | None => m
             end) st.1 lots.
Proof.
  revert st. induction lots as [|l lots IH]; intros st; [done|].
  cbn [foldl]. rewrite IH. f_equal.
  unfold assetStep, assetFields. by destruct (nnot _ || _).
Qed.

(** The quantity of an asset is made of the counted lots of the asset. *)
Lemma qty_groups (lots : list Lot.t) (a : string) (v : num) :
  (a, v) ∈ (foldl assetStep ([], ∅) lots).1
  <-> exists y ys,
        List.filter (countedAs a) lots = y :: ys
        /\ v = runningBalance (map Lot.OpenQty (y :: ys)).
Proof.
  rewrite assetStep_fst. cbn [fst]. rewrite sums_groups.
  assert (Hf : List.filter
                 (fun l => bool_decide (join "|" <$> assetFields l = Some a))
                 lots
               = List.filter (countedAs a) lots).
  { apply filter_ext. intros l. apply countedAs_fields. }
  by rewrite Hf.
Qed.

Lemma qty_NoDup (lots : list Lot.t) :
  NoDup (foldl assetStep ([], ∅) lots).1.*1.
Proof.
  rewrite assetStep_fst. by apply foldl_sums_NoDup, NoDup_nil_2.
Qed.

Lemma firstSecurity_cons (l : Lot.t) (ls : list Lot.t) :
  firstSecurity (l :: ls)
  = if String.eqb (Lot.SecurityId l) "" then firstSecurity ls
    else Lot.SecurityId l.
Proof.
  unfold firstSecurity. cbn [List.filter].
  by destruct (String.eqb (Lot.SecurityId l) "").
Qed.

Lemma firstSecurity_nil : firstSecurity [] = "".
Proof. done. Qed.

(** The representative of an asset, whatever the object held before. *)
Lemma assetStep_snd (a : string) (lots : list Lot.t)
    (st : list (string * num) * gmap string string) :
  (foldl assetStep st lots).2 !! a
  = match st.2 !! a, List.filter (countedAs a) lots with
    | Some s, ls =>
        if String.eqb s "" then Some (firstSecurity ls) else Some s
    | None, [] => None
    | None, ls => Some (firstSecurity ls)
    end.
Proof.
  revert st. induction lots as [|l lots IH]; intros st.
  { cbn [foldl List.filter]. destruct (st.2 !! a) as [s|]; [|done].
    by destruct (String.eqb_spec s "") as [->|]. }
  cbn [foldl List.filter]. rewrite IH. clear IH.
  assert (Hc : countedAs a l
               = negb (nnot (Lot.OpenQty l) || (Lot.OpenQty l <=? 0)%num)
                 && String.eqb (keyOf (Lot.AssetId l)) a) by done.
  rewrite Hc. clear Hc. unfold assetStep. cbv zeta.
  generalize (keyOf (Lot.AssetId l)). intros k.
  destruct (nnot _ || _); cbn [negb andb]; [done|]. cbn [snd].
  destruct (String.eqb_spec k a) as [Ha|Ha].
  - rewrite Ha. destruct (st.2 !! a) as [s|] eqn:Hs.
    + destruct (String.eqb_spec s "") as [->|Hne].
      * rewrite lookup_insert_eq, firstSecurity_cons.
        by destruct (String.eqb (Lot.SecurityId l) "").
      * rewrite Hs. by destruct (String.eqb_spec s "").
    + rewrite lookup_insert_eq, firstSecurity_cons.
      destruct (String.eqb (Lot.SecurityId l) ""); [|done].
      by destruct (List.filter _ lots).
  - assert (Hrep : match st.2 !! k with
                   | Some s =>
                       if String.eqb s ""
                       then <[k := Lot.SecurityId l]> st.2
                       else st.2
                   | None => <[k := Lot.SecurityId l]> st.2
                   end !! a = st.2 !! a).
    { destruct (st.2 !! k) as [s|];
        [destruct (String.eqb s "")|]; try done;
        by rewrite lookup_insert_ne. }
    by rewrite Hrep.
Qed.

Lemma representative_spec (lots : list Lot.t) (a : string) :
  (foldl assetStep ([], ∅) lots).2 !! a
  = match List.filter (countedAs a) lots with
    | [] => None
    | _ => Some (representative lots a)
    end.
Proof.
  rewrite assetStep_snd. cbn [snd]. rewrite lookup_empty.
  unfold representative. by destruct (List.filter _ lots).
Qed.

(** The representative is the security of a counted lot of the asset. *)
Lemma firstSecurity_In (ls : list Lot.t) :
  ls <> [] -> exists l, In l ls /\ Lot.SecurityId l = firstSecurity ls.
Proof.
  induction ls as [|l ls IH]; [done|]. intros _.
  rewrite firstSecurity_cons.
  destruct (String.eqb_spec (Lot.SecurityId l) "") as [He|Hne].
  - destruct ls as [|l' ls'].
    + exists l. split; [by left|]. by rewrite He.
    + destruct IH as (x & Hx & Hs); [done|]. exists x. split; [by right|done].
  - exists l. split; [by left|done].
Qed.

(** A total of positive amounts: no amount is lost to [||], and the total
    is positive. *)
Lemma positive_add (acc x : num) :
  acc = 0%num \/ (0 <? acc)%num = true ->
  (0 <? x)%num = true ->
  (nor acc 0 + x)%num = (acc + x)%num /\ (0 <? acc + x)%num = true.
Proof.
  intros Hacc Hx.
  destruct x as [q| | |]; try done.
  - apply nlt_0_Fin in Hx.
    destruct Hacc as [->|Hacc].
    + rewrite nor_zero. split; [done|]. unfold of_Z. rewrite nadd_Fin.
      apply nlt_0_Fin. rewrite Qc_of_Z_0. qc2q; lra.
    + destruct acc as [a| | |]; try done.
      apply nlt_0_Fin in Hacc. rewrite nor_Fin, nadd_Fin.
      split; [done|]. apply nlt_0_Fin. qc2q; lra.
  - destruct Hacc as [->|Hacc]; [by rewrite nor_zero|].
    destruct acc as [a| | |]; try done. by rewrite nor_Fin.
Qed.

Lemma positive_sum {X : Type} (amount : X -> num) (xs : list X) :
  Forall (fun x => (0 <? amount x)%num = true) xs ->
  runningBalance (map amount xs)
  = foldl (fun acc x => (acc + amount x)%num) 0%num xs
  /\ (xs <> [] -> (0 <? runningBalance (map amount xs))%num = true).
Proof.
  intros H. unfold runningBalance.
  assert (Hgen : forall acc,
            acc = 0%num \/ (0 <? acc)%num = true ->
            foldl (fun v x => (nor v 0 + x)%num) acc (map amount xs)
            = foldl (fun acc x => (acc + amount x)%num) acc xs
            /\ (foldl (fun acc x => (acc + amount x)%num) acc xs = acc
                /\ xs = []
                \/ (0 <? foldl (fun acc x => (acc + amount x)%num) acc xs)%num
                   = true)).
  { induction H as [|x xs Hx _ IH]; intros acc Hacc; cbn [foldl map].
    { split; [done|]. by left. }
    destruct (positive_add acc (amount x) Hacc Hx) as [Heq Hpos].
    rewrite Heq. destruct (IH (acc + amount x)%num) as [Hs Hp]; [by right|].
    split; [done|]. right. destruct Hp as [[-> _]|Hp]; done. }
  destruct (Hgen 0%num) as [Hs Hp]; [by left|]. split; [done|].
  intros Hne. rewrite Hs. by destruct Hp as [[_ ?]|Hp].
Qed.

(** ** The rows *)

Lemma sec_of_cases secs (id : string) :
  sec_of secs id
  = match secs !! id with
    | Some sec =>
        Some (if String.eqb (Security.Country sec) "INDIA" then "India"
              else "US",
              Some (Security.AssetId sec), Some (Security.Ticker sec))
    | None => if inherited id then Some ("US", None, None) else None
    end.
Proof.
  unfold sec_of, at_key. destruct (secs !! id); [done|].
  by destruct (inherited id).
Qed.

Lemma sec_of_known secs (id : string) :
  known secs id = match sec_of secs id with Some _ => true | None => false end.
Proof.
  rewrite sec_of_cases. unfold known. destruct (secs !! id); [done|].
  by destruct (inherited id).
Qed.

Lemma fromSecurity_sec_of secs (id : string) sec (row : Flow.t) :
  sec_of secs id = Some sec ->
  Flow.Portfolio row = sec.1.1 -> Flow.Symbol row = sec.2 ->
  fromSecurity secs id row.
Proof.
  rewrite sec_of_cases. unfold fromSecurity.
  destruct (secs !! id) as [s|].
  - intros [= <-]. simpl. by intros -> ->.
  - destruct (inherited id); [|done]. intros [= <-]. simpl. by intros -> ->.
Qed.

Lemma tradeFlow_listed secs (t : Row.t) :
  tradeFlow secs t
  = match sec_of secs (Row.SecurityId t) with
    | Some sec => [flowOf sec t]
    | None => []
    end.
Proof.
  unfold tradeFlow. by destruct (sec_of secs _) as [[[p a] k]|].
Qed.

Lemma trade_rows secs (trades : list Row.t) :
  Forall2 (fun t row =>
             exists sec,
               sec_of secs (Row.SecurityId t) = Some sec
               /\ row = flowOf sec t)
    (List.filter (listed secs) trades) (flat_map (tradeFlow secs) trades).
Proof.
  induction trades as [|t trades IH]; cbn [List.filter flat_map];
    [constructor|].
  rewrite tradeFlow_listed. unfold listed. rewrite sec_of_known.
  destruct (sec_of secs (Row.SecurityId t)) as [sec|] eqn:Hsec; [|done].
  constructor; [|done]. by exists sec.
Qed.

Lemma trade_rows_unvalued secs (trades : list Row.t) :
  Forall (fun row => valued row = false) (flat_map (tradeFlow secs) trades).
Proof.
  induction trades as [|t trades IH]; cbn [flat_map]; [constructor|].
  apply Forall_app. split; [|done]. rewrite tradeFlow_listed.
  destruct (sec_of secs (Row.SecurityId t)); by repeat constructor.
Qed.

Lemma currentValue_cases secs rep (kv : string * num) :
  currentValue secs rep kv
  = match rep !! kv.1 with
    | None => []
    | Some r =>
        match sec_of secs r with
        | None => []
        | Some sec =>
            [Flow.mk sec.1.1 "" r (Some kv.1) sec.2 (Some kv.2) None None
               "CURRENT_VALUE"]
        end
    end.
Proof.
  unfold currentValue. destruct (rep !! kv.1) as [r|]; [|done].
  by destruct (sec_of secs r) as [[[p a] k]|].
Qed.

Lemma current_rows_valued secs rep (m : list (string * num)) :
  Forall (fun row => valued row = true) (flat_map (currentValue secs rep) m).
Proof.
  induction m as [|kv m IH]; cbn [flat_map]; [constructor|].
  apply Forall_app. split; [|done]. rewrite currentValue_cases.
  destruct (rep !! kv.1) as [r|]; [|constructor].
  destruct (sec_of secs r); by repeat constructor.
Qed.

(** The rows are the rows of the trades followed by the rows of the
    assets. *)
Lemma xirrRows_split securities trades lots :
  let secs := securities_of securities in
  let st := foldl assetStep ([], ∅) lots in
  List.filter (fun row => negb (valued row)) (xirrRows securities trades lots)
  = flat_map (tradeFlow secs) trades
  /\ List.filter valued (xirrRows securities trades lots)
     = flat_map (currentValue secs st.2) (entries st.1).
Proof.
  intros secs st. unfold xirrRows. fold secs st.
  pose proof (trade_rows_unvalued secs trades) as Ht.
  pose proof (current_rows_valued secs st.2 (entries st.1)) as Hc.
  rewrite !List.filter_app. split.
  - rewrite filter_all, filter_none, app_nil_r; [done| |].
    + eapply Forall_impl; [exact Hc|]. by intros row ->.
    + eapply Forall_impl; [exact Ht|]. by intros row ->.
  - by rewrite filter_none, filter_all.
Qed.

Lemma current_rows secs rep (m : list (string * num)) (row : Flow.t) :
  In row (flat_map (currentValue secs rep) (entries m))
  <-> exists a v r sec,
        (a, v) ∈ m /\ rep !! a = Some r /\ sec_of secs r = Some sec
        /\ row = Flow.mk sec.1.1 "" r (Some a) sec.2
                   (Some v) None None "CURRENT_VALUE".
Proof.
  rewrite in_flat_map. split.
  - intros ([a v] & Hin & Hrow). rewrite currentValue_cases in Hrow.
    cbn [fst snd] in Hrow.
    destruct (rep !! a) as [r|] eqn:Hr; [|done].
    destruct (sec_of secs r) as [sec|] eqn:Hsec; [|done].
    destruct Hrow as [<-|[]]. exists a, v, r, sec.
    apply list_elem_of_In in Hin. rewrite entries_perm in Hin. done.
  - intros (a & v & r & sec & Hin & Hr & Hsec & ->). exists (a, v).
    split.
    + apply list_elem_of_In. by rewrite entries_perm.
    + rewrite currentValue_cases. cbn [fst snd]. rewrite Hr, Hsec. by left.
Qed.

Lemma current_rows_sublist secs rep (m : list (string * num)) :
  map Flow.AssetId (flat_map (currentValue secs rep) m)
  `sublist_of` (Some <$> m.*1).
Proof.
  induction m as [|[a v] m IH]; cbn [flat_map]; [done|].
  rewrite map_app, !fmap_cons. rewrite currentValue_cases. cbn [fst snd].
  destruct (rep !! a) as [r|]; [|by apply sublist_cons].
  destruct (sec_of secs r); [|by apply sublist_cons].
  by apply sublist_skip.
Qed.

Lemma current_rows_NoDup secs rep (m : list (string * num)) :
  NoDup m.*1 ->
  NoDup (map Flow.AssetId (flat_map (currentValue secs rep) (entries m))).
Proof.
  intros Hnd. eapply sublist_NoDup; [|apply current_rows_sublist].
  apply (NoDup_fmap_2 Some). by rewrite entries_perm.
Qed.

Lemma rebuildXIRRCashflows_Some securities trades lots rows :
  rebuildXIRRCashflows securities trades lots = Some rows ->
  rows = xirrRows securities trades lots /\ rows <> [].
Proof.
  unfold rebuildXIRRCashflows.
  destruct (xirrRows securities trades lots) as [|row rest]; [done|].
  by intros [= <-].
Qed.

Lemma rebuildXIRRCashflows_In securities trades lots row :
  In row (xirrRows securities trades lots) ->
  exists rows,
    rebuildXIRRCashflows securities trades lots = Some rows /\ In row rows.
Proof.
  unfold rebuildXIRRCashflows.
  destruct (xirrRows securities trades lots) as [|r rest]; [done|].
  intros H. by eexists.
Qed.

Lemma trade_rows_In secs (trades : list Row.t) (row : Flow.t) :
  In row (flat_map (tradeFlow secs) trades)
  <-> exists t sec,
        In t trades /\ sec_of secs (Row.SecurityId t) = Some sec
        /\ row = flowOf sec t.
Proof.
  rewrite in_flat_map. split.
  - intros (t & Ht & Hrow). rewrite tradeFlow_listed in Hrow.
    destruct (sec_of secs (Row.SecurityId t)) as [sec|] eqn:Hsec; [|done].
    destruct Hrow as [<-|[]]. by exists t, sec.
  - intros (t & sec & Ht & Hsec & ->). exists t. split; [done|].
    rewrite tradeFlow_listed, Hsec. by left.
Qed.

(** The rows with a quantity: one for each key that has a counted lot and
    a known representative. *)
Lemma valued_rows securities trades lots (row : Flow.t) :
  In row (xirrRows securities trades lots) /\ valued row = true
  <-> exists a y ys sec,
        List.filter (countedAs a) lots = y :: ys
        /\ sec_of (securities_of securities) (representative lots a)
           = Some sec
        /\ row = Flow.mk sec.1.1 "" (representative lots a) (Some a) sec.2
                   (Some (runningBalance (map Lot.OpenQty (y :: ys))))
                   None None "CURRENT_VALUE".
Proof.
  rewrite <-filter_In.
  destruct (xirrRows_split securities trades lots) as [_ ->].
  rewrite current_rows. split.
  - intros (a & v & r & sec & Hin & Hr & Hsec & ->).
    apply qty_groups in Hin as (y & ys & Hf & ->).
    rewrite representative_spec, Hf in Hr. injection Hr as <-.
    by exists a, y, ys, sec.
  - intros (a & y & ys & sec & Hf & Hsec & ->).
    exists a, (runningBalance (map Lot.OpenQty (y :: ys))),
      (representative lots a), sec.
    split; [apply qty_groups; by exists y, ys|].
    split; [by rewrite representative_spec, Hf|done].
Qed.

Lemma countedAs_counted (a : string) (l : Lot.t) :
  countedAs a l = true ->
  (0 <? Lot.OpenQty l)%num = true /\ keyOf (Lot.AssetId l) = a.
Proof.
  unfold countedAs. rewrite counted_positive.
  intros [? ?%String.eqb_eq]%andb_prop. done.
Qed.

Lemma counted_total (a : string) (lots : list Lot.t) :
  runningBalance (map Lot.OpenQty (List.filter (countedAs a) lots))
  = foldl (fun acc l => (acc + Lot.OpenQty l)%num) 0%num
      (List.filter (countedAs a) lots)
  /\ (List.filter (countedAs a) lots <> [] ->
      (0 <? runningBalance
              (map Lot.OpenQty (List.filter (countedAs a) lots)))%num = true).
Proof.
  apply positive_sum, Forall_forall.
  intros l [_ Hl]%list_elem_of_In%filter_In.
  by apply countedAs_counted in Hl as [? _].
Qed.

(** X27: the rows of XIRR_Cashflows begin with the rows of the trades,
    before any CURRENT_VALUE row: one row, in the order of Trades, for
    each trade whose security Securities lists or whose security
    identifier names an inherited member; any other trade is left out
    without an error.  The row has the owner, security, date and side of
    the trade and no quantity; for a listed security it has the asset, the
    ticker and the portfolio of the security, otherwise no asset, no
    ticker and the portfolio "US".  The cash flow is Quantity * Price,
    negated for the side BUY and as it is for every other side: when that
    product is a finite number above 0, the cash flow is negative exactly
    for BUY. *)
Theorem trades_of_listed_securities_become_signed_cash_flows
    (securities : list Security.t) (trades : list Row.t) (lots : list Lot.t)
    (rows : list Flow.t) :
  let secs := securities_of securities in
  let tradeRows := List.filter (fun row => negb (valued row)) rows in
  rebuildXIRRCashflows securities trades lots = Some rows ->
  rows = tradeRows ++ List.filter valued rows
  /\ Forall2 (fun t row =>
                Flow.OwnerId row = Row.OwnerId t
                /\ Flow.SecurityId row = Row.SecurityId t
                /\ Flow.FlowDate row = Some (Row.TradeDate t)
                /\ Flow.FlowType row = Row.Side t
                /\ Flow.Quantity row = None
                /\ Flow.CashFlow row
                   = Some (if String.eqb (Row.Side t) "BUY"
                           then nneg (Row.Quantity t * Row.Price t)
                           else (Row.Quantity t * Row.Price t)%num)
                /\ Flow.AssetId row
                   = (Security.AssetId <$> secs !! Row.SecurityId t)
                /\ fromSecurity secs (Row.SecurityId t) row
                /\ forall amt,
                     (Row.Quantity t * Row.Price t)%num = Fin amt ->
                     (0 < amt)%Qc ->
                     exists c,
                       Flow.CashFlow row = Some (Fin c)
                       /\ ((c < 0)%Qc <-> Row.Side t = "BUY")
                       /\ (c = amt \/ c = - amt)%Qc)
       (List.filter
          (fun t =>
             match secs !! Row.SecurityId t with
             | Some _ => true
             | None => inherited (Row.SecurityId t)
             end) trades)
       tradeRows.
Proof.
  intros secs tradeRows [-> _]%rebuildXIRRCashflows_Some. subst tradeRows.
  destruct (xirrRows_split securities trades lots) as [Ht Hc].
  rewrite Ht, Hc. split; [done|]. fold secs.
  eapply Forall2_impl; [apply trade_rows|].
  intros t row (sec & Hsec & ->). unfold flowOf.
  cbn [Flow.OwnerId Flow.SecurityId Flow.FlowDate Flow.FlowType Flow.Quantity
       Flow.CashFlow Flow.AssetId].
  do 6 (split; [done|]). split; [|split].
  - rewrite sec_of_cases in Hsec. destruct (secs !! Row.SecurityId t).
    + by injection Hsec as <-.
    + destruct (inherited _); [|done]. by injection Hsec as <-.
  - by apply (fromSecurity_sec_of secs _ sec).
  - intros amt Hamt Hpos. rewrite Hamt.
    destruct (String.eqb_spec (Row.Side t) "BUY") as [Hside|Hside].
    + exists (- amt)%Qc. split; [done|]. split; [|by right].
      split; [done|]. intros _. qc2q; lra.
    + exists amt. split; [done|]. split; [|by left].
      split; [|done]. intros Hneg. exfalso. qc2q; lra.
Qed.

(** X28: when no counted lot (open quantity truthy and not <= 0) has an
    asset key that names an inherited member, XIRR_Cashflows has at most
    one CURRENT_VALUE row for an asset key (the AssetId, or "undefined"
    for a lot without one).  Such a row stands for all the counted lots
    under the key, of whatever owner: its owner, date and cash flow are
    empty and its quantity is the sum of their open quantities, added in
    table order, which is positive.  Its security is the first security
    identifier that is not empty among these lots, in table order; its
    ticker and portfolio are those of that security when Securities lists
    it, and undefined and "US" when it is not listed and its identifier
    names an inherited member.  A key with a counted lot has a row if and
    only if this one security is listed or has such an identifier. *)
Theorem current_value_rows_total_the_open_lots_of_each_asset
    (securities : list Security.t) (trades : list Row.t) (lots : list Lot.t)
    (rows : list Flow.t) :
  let secs := securities_of securities in
  plainAssets lots ->
  rebuildXIRRCashflows securities trades lots = Some rows ->
  NoDup (map Flow.AssetId (List.filter valued rows))
  /\ (forall row, In row rows -> valued row = true ->
        exists a,
          let counted := List.filter (countedAs a) lots in
          Flow.AssetId row = Some a
          /\ counted <> []
          /\ Flow.FlowType row = "CURRENT_VALUE"
          /\ Flow.OwnerId row = ""
          /\ Flow.FlowDate row = None
          /\ Flow.CashFlow row = None
          /\ Flow.SecurityId row = firstSecurity counted
          /\ fromSecurity secs (Flow.SecurityId row) row
          /\ exists qty,
               Flow.Quantity row = Some qty
               /\ qty = foldl (fun acc l => (acc + Lot.OpenQty l)%num) 0%num
                          counted
               /\ (0 <? qty)%num = true)
  /\ (forall l, In l lots -> countedAs (keyOf (Lot.AssetId l)) l = true ->
        known secs (representative lots (keyOf (Lot.AssetId l))) = true
        <-> exists row,
              In row rows /\ valued row = true
              /\ Flow.AssetId row = Some (keyOf (Lot.AssetId l))).
Proof.
  intros secs _ [-> _]%rebuildXIRRCashflows_Some.
  split; [|split].
  - destruct (xirrRows_split securities trades lots) as [_ ->].
    apply current_rows_NoDup, qty_NoDup.
  - intros row Hrow Hval.
    destruct (proj1 (valued_rows securities trades lots row) (conj Hrow Hval))
      as (a & y & ys & sec & Hf & Hsec & ->).
    exists a.
    cbn [Flow.AssetId Flow.FlowType Flow.OwnerId Flow.FlowDate Flow.CashFlow
         Flow.SecurityId Flow.Quantity].
    destruct (counted_total a lots) as [Hsum Hpos].
    rewrite Hf in *.
    split; [done|]. split; [done|]. do 4 (split; [done|]).
    split; [unfold representative; by rewrite Hf|].
    split; [by apply (fromSecurity_sec_of _ _ sec)|].
    eexists. split; [done|]. split; [exact Hsum|]. by apply Hpos.
  - intros l Hl Hc. rewrite sec_of_known. split.
    + destruct (sec_of secs _) as [sec|] eqn:Hsec; [|done]. intros _.
      destruct (List.filter (countedAs (keyOf (Lot.AssetId l))) lots)
        as [|y ys] eqn:Hf.
      { assert (In l []) as []. rewrite <-Hf. by apply filter_In. }
      set (row := Flow.mk sec.1.1 ""
                    (representative lots (keyOf (Lot.AssetId l)))
                    (Some (keyOf (Lot.AssetId l))) sec.2
                    (Some (runningBalance (map Lot.OpenQty (y :: ys))))
                    None None "CURRENT_VALUE").
      assert (Hrow : In row (xirrRows securities trades lots)
                     /\ valued row = true)
        by (apply valued_rows; by exists (keyOf (Lot.AssetId l)), y, ys, sec).
      exists row. by destruct Hrow.
    + intros (row & Hrow & Hval & Ha).
      destruct (proj1 (valued_rows securities trades lots row) (conj Hrow Hval))
        as (a & y & ys & sec & Hf & Hsec & ->).
      cbn [Flow.AssetId] in Ha. injection Ha as ->. fold secs in Hsec.
      by rewrite Hsec.
Qed.

(** X29: when no counted lot has an asset key that names an inherited
    member, [rebuildXIRRCashflows] returns without writing (and so leaves
    an earlier XIRR_Cashflows as it is) if and only if no trade is of a
    security that is listed or has an identifier that names an inherited
    member, and no asset key with a counted lot has such a security as
    representative. *)
Theorem xirr_writes_nothing_iff_no_trade_and_no_asset_is_listed
    (securities : list Security.t) (trades : list Row.t) (lots : list Lot.t) :
  let secs := securities_of securities in
  plainAssets lots ->
  rebuildXIRRCashflows securities trades lots = None
  <-> (forall t, In t trades ->
         secs !! Row.SecurityId t = None
         /\ inherited (Row.SecurityId t) = false)
      /\ (forall l, In l lots ->
            countedAs (keyOf (Lot.AssetId l)) l = true ->
            secs !! representative lots (keyOf (Lot.AssetId l)) = None
            /\ inherited (representative lots (keyOf (Lot.AssetId l)))
               = false).
Proof.
  intros secs _.
  assert (Hunknown : forall id,
            sec_of secs id = None
            <-> secs !! id = None /\ inherited id = false).
  { intros id. rewrite sec_of_cases. destruct (secs !! id).
    - split; [done|]. by intros [? _].
    - destruct (inherited id); split; try done. by intros [_ ?]. }
  assert (Hnone : rebuildXIRRCashflows securities trades lots = None
                  <-> forall row, ~ In row (xirrRows securities trades lots)).
  { unfold rebuildXIRRCashflows.
    destruct (xirrRows securities trades lots) as [|r rest].
    - split; [intros _ row []|done].
    - split; [done|]. intros H. destruct (H r). by left. }
  rewrite Hnone. clear Hnone. split.
  - intros Hno. split.
    + intros t Ht. apply Hunknown.
      destruct (sec_of secs (Row.SecurityId t)) as [sec|] eqn:Hsec; [|done].
      destruct (Hno (flowOf sec t)). unfold xirrRows. apply in_or_app. left.
      apply trade_rows_In. by exists t, sec.
    + intros l Hl Hc. apply Hunknown.
      destruct (sec_of secs (representative lots (keyOf (Lot.AssetId l))))
        as [sec|] eqn:Hsec; [|done].
      destruct (List.filter (countedAs (keyOf (Lot.AssetId l))) lots)
        as [|y ys] eqn:Hf.
      { assert (In l []) as []. rewrite <-Hf. by apply filter_In. }
      edestruct Hno. eapply proj1. apply valued_rows.
      by exists (keyOf (Lot.AssetId l)), y, ys, sec.
  - intros [Htrades Hlots] row Hrow.
    destruct (valued row) eqn:Hval.
    + destruct (proj1 (valued_rows securities trades lots row) (conj Hrow Hval))
        as (a & y & ys & sec & Hf & Hsec & _).
      destruct (filter_head_In _ _ _ _ Hf) as [Hy Hc].
      pose proof (countedAs_counted _ _ Hc) as [_ Ha]. subst a.
      fold secs in Hsec.
      by rewrite (proj2 (Hunknown _) (Hlots y Hy Hc)) in Hsec.
    + assert (Hin : In row (List.filter (fun row => negb (valued row))
                              (xirrRows securities trades lots))).
      { apply filter_In. split; [done|]. by rewrite Hval. }
      destruct (xirrRows_split securities trades lots) as [Ht _].
      rewrite Ht in Hin. apply trade_rows_In in Hin as (t & sec & Hin & Hsec & _).
      fold secs in Hsec.
      by rewrite (proj2 (Hunknown _) (Htrades t Hin)) in Hsec.
Qed.

Lemma sortedEvents_trade (trades actions : list Row.t) (t : Row.t) :
  In t trades -> In (tradeEvent t) (sortedEvents trades actions).
Proof.
  intros Ht. apply list_elem_of_In. unfold sortedEvents.
  rewrite js_sort_perm. apply elem_of_app. left.
  apply list_elem_of_In, in_map, Ht.
Qed.


(** ** The cash flows at concrete inputs *)

Lemma trades_of_listed_securities_become_signed_cash_flows_witness :
  match rebuildXIRRCashflows ex_securities
          [ex_trade "T1" "BUY" 1 100 10 80; ex_trade "T2" "SELL" 5 40 15 82]
          (lots ex_two_lots) with
  | Some rows =>
      rows = List.filter (fun row => negb (valued row)) rows
             ++ List.filter valued rows
  | None => False
  end.
Proof.
  destruct (rebuildXIRRCashflows _ _ _) as [rows|] eqn:E.
  - exact (proj1 (trades_of_listed_securities_become_signed_cash_flows
                    _ _ _ rows E)).
  - vm_compute in E. discriminate.
Defined.

Lemma current_value_rows_total_the_open_lots_of_each_asset_witness :
  match rebuildXIRRCashflows ex_securities
          [ex_trade "T1" "BUY" 1 100 10 80; ex_trade "T2" "SELL" 5 40 15 82]
          (lots ex_two_lots) with
  | Some rows => NoDup (map Flow.AssetId (List.filter valued rows))
  | None => False
  end.
Proof.
  destruct (rebuildXIRRCashflows _ _ _) as [rows|] eqn:E.
  - refine (proj1 (current_value_rows_total_the_open_lots_of_each_asset
                     _ _ _ rows _ E)).
    intros l [<-|[<-|[]]] _; reflexivity.
  - vm_compute in E. discriminate.
Defined.

Lemma xirr_writes_nothing_iff_no_trade_and_no_asset_is_listed_witness :
  rebuildXIRRCashflows ex_securities [ex_split_unlisted] [] = None
  <-> (forall t, In t [ex_split_unlisted] ->
         securities_of ex_securities !! Row.SecurityId t = None
         /\ inherited (Row.SecurityId t) = false)
      /\ (forall l, In l [] ->
            countedAs (keyOf (Lot.AssetId l)) l = true ->
            securities_of ex_securities
            !! representative [] (keyOf (Lot.AssetId l)) = None
            /\ inherited (representative [] (keyOf (Lot.AssetId l))) = false).
Proof.
  apply (xirr_writes_nothing_iff_no_trade_and_no_asset_is_listed
           ex_securities [ex_split_unlisted] []).
  intros l [].
Defined.


(** * Properties of the CSV reader and of the column letters *)

(** ** [parseCSVLine] *)

Lemma append_cons (c : Ascii.ascii) (a b : string) :
  String c a +:+ b = String c (a +:+ b).
Proof. reflexivity. Qed.

Lemma append_nil_l (b : string) : "" +:+ b = b.
Proof. reflexivity. Qed.

Lemma append_nil_r (s : string) : s +:+ "" = s.
Proof.
  induction s as [|c s IH]; [done|]. by rewrite append_cons, IH.
Qed.

Lemma append_assoc (a b c : string) : (a +:+ b) +:+ c = a +:+ (b +:+ c).
Proof.
  induction a as [|x a IH]; [done|]. by rewrite !append_cons, IH.
Qed.

Lemma splitOn_cons (sep : Ascii.ascii) (s : string) :
  exists p ps, splitOn sep s = p :: ps.
Proof.
  induction s as [|c s (p & ps & IH)]; simpl; [by eexists _, _|].
  rewrite IH. destruct (Ascii.eqb c sep); by eexists _, _.
Qed.

(** Outside quotes, a line without double quotes is cut at its commas. *)
Lemma parseCSVLoop_plain (line current : string) (result : list string) :
  quoteFree line = true ->
  parseCSVLoop line false current result
  = result ++ match splitOn "," line with
              | p :: ps => (current +:+ p) :: ps
              | [] => [current]
              end.
Proof.
  revert current result. induction line as [|c line IH];
    intros current result; simpl.
  { intros _. by rewrite append_nil_r. }
  intros [Hc Hq]%andb_prop. apply negb_true_iff in Hc. rewrite Hc.
  destruct (splitOn_cons "," line) as (p & ps & Hs).
  destruct (Ascii.eqb c ",") eqn:Hcomma.
  - rewrite IH by done. rewrite <-app_assoc, Hs. simpl.
    by rewrite append_nil_r, append_nil_l.
  - rewrite IH by done. rewrite Hs. f_equal.
    by rewrite append_assoc.
Qed.

(** X20: a line that has no double quote in it is cut at its commas, as
    [line.split(",")] cuts it: there is one field more than there are
    commas, and the fields joined by commas are the line. *)
Theorem csv_line_without_quotes_is_split_at_commas (line : string) :
  quoteFree line = true ->
  parseCSVLine line = splitOn "," line
  /\ join "," (parseCSVLine line) = line.
Proof.
  intros Hq. unfold parseCSVLine.
  rewrite parseCSVLoop_plain by done. simpl.
  destruct (splitOn_cons "," line) as (p & ps & Hs). rewrite Hs.
  rewrite append_nil_l. split; [done|]. rewrite <-Hs. clear.
  induction line as [|c line IH]; simpl; [done|].
  destruct (splitOn_cons "," line) as (p & ps & Hs). rewrite Hs in *.
  destruct (Ascii.eqb_spec c ",") as [->|Hc].
  - change (join "," ("" :: p :: ps)) with (String "," (join "," (p :: ps))).
    by rewrite IH.
  - rewrite <-IH. by destruct ps.
Qed.

(** One turn of the loop. *)
Lemma parseCSVLoop_cons (char : Ascii.ascii) (rest : string)
    (inQuotes : bool) (current : string) (result : list string) :
  parseCSVLoop (String char rest) inQuotes current result
  = if inQuotes then
      if Ascii.eqb char dquote then
        match rest with
        | String nextChar rest' =>
            if Ascii.eqb nextChar dquote
            then parseCSVLoop rest' true (current +:+ String dquote "") result
            else parseCSVLoop rest false current result
        | EmptyString => parseCSVLoop rest false current result
        end
      else parseCSVLoop rest true (current +:+ String char "") result
    else
      if Ascii.eqb char dquote then parseCSVLoop rest true current result
      else if Ascii.eqb char ","
      then parseCSVLoop rest false "" (result ++ [current])
      else parseCSVLoop rest false (current +:+ String char "") result.
Proof. reflexivity. Qed.

Lemma comma_not_dquote : Ascii.eqb "," dquote = false.
Proof. reflexivity. Qed.

(** Inside quotes everything up to the closing quote is the field, with
    each doubled quote read as one. *)
Lemma parseCSVLoop_quoted (field rest current : string)
    (result : list string) :
  (forall c rest', rest = String c rest' -> c <> dquote) ->
  parseCSVLoop (doubleQuotes field +:+ String dquote rest) true current result
  = parseCSVLoop rest false (current +:+ field) result.
Proof.
  intros Hrest. revert current.
  induction field as [|c field IH]; intros current.
  - cbn [doubleQuotes]. rewrite append_nil_l, append_nil_r, parseCSVLoop_cons.
    rewrite Ascii.eqb_refl. destruct rest as [|c rest']; [done|].
    assert (Ascii.eqb c dquote = false) as ->; [|done].
    apply Ascii.eqb_neq. by apply (Hrest c rest').
  - cbn [doubleQuotes]. destruct (Ascii.eqb c dquote) eqn:Hc.
    + apply Ascii.eqb_eq in Hc as ->.
      rewrite !append_cons, parseCSVLoop_cons, !Ascii.eqb_refl, IH.
      by rewrite append_assoc.
    + rewrite !append_cons, parseCSVLoop_cons, Hc, IH.
      by rewrite append_assoc.
Qed.

(** X21: [parseCSVLine] reads back fields that are written between double
    quotes with every double quote in them doubled, and separated by
    commas: whatever the fields contain (commas, double quotes), the line
    parses to exactly these fields. *)
Theorem csv_line_of_quoted_fields_parses_to_the_fields
    (field : string) (fields : list string) :
  parseCSVLine (join "," (map quoted (field :: fields))) = field :: fields.
Proof.
  unfold parseCSVLine.
  assert (Hgen : forall fields field result,
            parseCSVLoop (join "," (map quoted (field :: fields))) false ""
              result
            = result ++ field :: fields); [|by apply Hgen].
  clear. induction fields as [|g fields IH]; intros field result.
  - cbn [map join]. unfold quoted.
    rewrite parseCSVLoop_cons, Ascii.eqb_refl.
    by rewrite parseCSVLoop_quoted by (intros; discriminate).
  - change (join "," (map quoted (field :: g :: fields)))
      with (quoted field +:+ String "," (join "," (map quoted (g :: fields)))).
    unfold quoted at 1.
    rewrite append_cons, parseCSVLoop_cons, Ascii.eqb_refl.
    rewrite append_assoc, append_cons, append_nil_l.
    rewrite parseCSVLoop_quoted.
    2: { intros c rest' [= <- _]. intros H. by apply Ascii.eqb_eq in H. }
    rewrite parseCSVLoop_cons, comma_not_dquote, Ascii.eqb_refl.
    rewrite append_nil_l, IH, <-app_assoc. done.
Qed.

(** A plain part of a line, followed by anything. *)
Lemma parseCSVLoop_plain_prefix (before rest current : string)
    (result : list string) :
  quoteFree before = true ->
  parseCSVLoop (before +:+ rest) false current result
  = match splitOn "," before with
    | p :: ps =>
        parseCSVLoop rest false (List.last ((current +:+ p) :: ps) "")
          (result ++ List.removelast ((current +:+ p) :: ps))
    | [] => parseCSVLoop rest false current result
    end.
Proof.
  revert current result. induction before as [|c before IH];
    intros current result.
  { intros _. cbn [splitOn List.last List.removelast].
    by rewrite append_nil_l, append_nil_r, app_nil_r. }
  cbn [quoteFree splitOn]. intros [Hc Hq]%andb_prop.
  apply negb_true_iff in Hc.
  rewrite append_cons, parseCSVLoop_cons, Hc.
  destruct (splitOn_cons "," before) as (p & ps & Hs).
  rewrite Hs. destruct (Ascii.eqb c ",") eqn:Hcomma.
  - rewrite IH by done. rewrite Hs.
    rewrite append_nil_l, append_nil_r, <-app_assoc. done.
  - rewrite IH by done. rewrite Hs, append_assoc. done.
Qed.

Lemma parseCSVLoop_unclosed (after current : string) (result : list string) :
  quoteFree after = true ->
  parseCSVLoop after true current result = result ++ [current +:+ after].
Proof.
  revert current. induction after as [|c after IH]; intros current.
  { intros _. by rewrite append_nil_r. }
  cbn [quoteFree]. intros [Hc Hq]%andb_prop. apply negb_true_iff in Hc.
  rewrite parseCSVLoop_cons, Hc, IH by done. by rewrite append_assoc.
Qed.

(** X22: a double quote that is never closed is accepted without an
    error.  When there is no other double quote in the line, the fields
    before it are cut at the commas, and the field that the quote is in
    goes on to the end of the line, commas included. *)
Theorem csv_unclosed_quote_swallows_the_rest_of_the_line
    (before after : string) :
  quoteFree before = true -> quoteFree after = true ->
  parseCSVLine (before +:+ String dquote after)
  = List.removelast (splitOn "," before)
    ++ [List.last (splitOn "," before) "" +:+ after].
Proof.
  intros Hb Ha. unfold parseCSVLine.
  rewrite parseCSVLoop_plain_prefix by done.
  destruct (splitOn_cons "," before) as (p & ps & Hs). rewrite Hs.
  rewrite append_nil_l, parseCSVLoop_cons, Ascii.eqb_refl.
  by rewrite parseCSVLoop_unclosed.
Qed.

(** ** [columnLetter_] *)

Lemma list_ascii_of_string_app (a b : string) :
  String.list_ascii_of_string (a +:+ b)
  = String.list_ascii_of_string a ++ String.list_ascii_of_string b.
Proof.
  induction a as [|c a IH]; [done|].
  rewrite append_cons. simpl. by rewrite IH.
Qed.

(** The loop returns when it has fuel for the column index, and what it
    puts in front of [letter] are capital letters that name [temp]. *)
Lemma columnLetterLoop_spec (fuel : nat) (temp : Z) (letter : string) :
  (0 <= temp)%Z -> (Z.to_nat temp <= fuel)%nat ->
  exists s,
    columnLetterLoop fuel temp letter = Some (s +:+ letter)
    /\ Forall capital (String.list_ascii_of_string s)
    /\ columnIndex s = temp
    /\ (0 < temp -> s <> "")%Z.
Proof.
  revert temp letter. induction fuel as [|fuel IH]; intros temp letter H0 Hf.
  { assert (temp = 0%Z) as -> by lia. exists "". simpl.
    repeat split; [constructor|lia]. }
  destruct (decide (temp = 0%Z)) as [->|Hne].
  { exists "". simpl. repeat split; [constructor|lia]. }
  cbn [columnLetterLoop].
  assert ((0 <? temp)%Z = true) as -> by (apply Z.ltb_lt; lia).
  pose proof (Z.mod_pos_bound (temp - 1) 26 ltac:(lia)) as Hrem.
  pose proof (Z.div_mod (temp - 1) 26 ltac:(lia)) as Hdiv.
  set (rem := ((temp - 1) mod 26)%Z) in *.
  set (temp' := ((temp - 1) / 26)%Z) in *.
  assert (Htemp' : (0 <= temp' < temp)%Z) by lia.
  destruct (IH temp'
              (String (Ascii.ascii_of_nat (Z.to_nat (65 + rem))) letter))
    as (s & Hs & Hcap & Hidx & _); [lia|lia|].
  assert (Hcode : Ascii.nat_of_ascii (Ascii.ascii_of_nat (Z.to_nat (65 + rem)))
                  = Z.to_nat (65 + rem)).
  { apply Ascii.nat_ascii_embedding. lia. }
  exists (s +:+ String (Ascii.ascii_of_nat (Z.to_nat (65 + rem))) "").
  split; [by rewrite append_assoc, append_cons, append_nil_l|].
  split; [|split].
  - rewrite list_ascii_of_string_app. apply Forall_app. split; [done|].
    simpl. constructor; [|constructor]. unfold capital. rewrite Hcode. lia.
  - unfold columnIndex in *. rewrite list_ascii_of_string_app, foldl_app.
    rewrite Hidx. simpl. rewrite Hcode. lia.
  - intros _. by destruct s.
Qed.

(** X23: for every column index [col >= 1], [columnLetter_] returns (the
    loop ends) a non-empty string of capital letters that names the
    column in the way of spreadsheets (A is 1, Z is 26, AA is 27: the
    letters are the digits 1 to 26 of [col] to base 26), so that different
    columns get different letters; for [col <= 0] it returns the empty
    string. *)
Theorem column_letters_name_the_column (col : Z) :
  (col <= 0 -> columnLetter_ col = Some "")%Z
  /\ (0 < col ->
      exists letters,
        columnLetter_ col = Some letters
        /\ letters <> ""
        /\ Forall capital (String.list_ascii_of_string letters)
        /\ columnIndex letters = col
        /\ forall col', (0 < col')%Z ->
             columnLetter_ col' = Some letters -> col' = col)%Z.
Proof.
  split.
  - intros H. unfold columnLetter_.
    assert (Z.to_nat col = 0%nat) as -> by lia. simpl.
    by assert ((0 <? col)%Z = false) as -> by (apply Z.ltb_ge; lia).
  - intros H. unfold columnLetter_.
    destruct (columnLetterLoop_spec (Z.to_nat col) col "")
      as (s & Hs & Hcap & Hidx & Hne); [lia|lia|].
    rewrite append_nil_r in Hs. exists s. repeat split; auto.
    intros col' H' Hcol'.
    destruct (columnLetterLoop_spec (Z.to_nat col') col' "")
      as (s' & Hs' & _ & Hidx' & _); [lia|lia|].
    rewrite append_nil_r in Hs'. unfold columnLetter_ in Hcol'.
    congruence.
Qed.

Lemma csv_line_without_quotes_is_split_at_commas_witness :
  parseCSVLine "T1,BUY,100" = ["T1"; "BUY"; "100"].
Proof.
  etrans; [apply csv_line_without_quotes_is_split_at_commas|]; reflexivity.
Defined.

Lemma csv_unclosed_quote_swallows_the_rest_of_the_line_witness :
  parseCSVLine ("T1,BUY," +:+ String dquote "100,X")
  = ["T1"; "BUY"; "100,X"].
Proof.
  etrans; [apply csv_unclosed_quote_swallows_the_rest_of_the_line|];
    reflexivity.
Defined.

Lemma column_letters_name_the_column_witness :
  exists letters,
    columnLetter_ 28 = Some letters /\ columnIndex letters = 28%Z.
Proof.
  destruct (proj2 (column_letters_name_the_column 28))
    as (letters & H1 & _ & _ & H2 & _); [lia|].
  exists letters. split; [exact H1|exact H2].
Defined.

(** * The enumeration order of the objects used as maps *)

(** A key with a "|" in it is not an array index, so the objects whose keys
    are joined by "|" are enumerated in insertion order. *)
Lemma numeral_pipeFree (s : string) (acc n : N) :
  numeral s acc = Some n -> pipeFree s = true.
Proof.
  revert acc. induction s as [|c s IH]; intros acc; simpl; [done|].
  unfold digit. destruct (Ascii.eqb_spec c "|") as [->|_]; [done|].
  destruct (_ && _); [|done]. apply IH.
Qed.

Lemma arrayIndex_pipeFree (s : string) :
  pipeFree s = false -> arrayIndex s = None.
Proof.
  intros Hs. unfold arrayIndex. destruct s as [|c s]; [done|].
  destruct (_ && _); [done|].
  destruct (numeral (String c s) 0) as [n|] eqn:Hn; [|done].
  apply numeral_pipeFree in Hn. congruence.
Qed.

Lemma join_not_pipeFree (a b : string) (rest : list string) :
  pipeFree (join "|" (a :: b :: rest)) = false.
Proof.
  change (join "|" (a :: b :: rest))
    with (a +:+ String "|" (join "|" (b :: rest))).
  induction a as [|c a IH]; [done|].
  rewrite append_cons. cbn [pipeFree]. rewrite IH. apply andb_false_r.
Qed.

Lemma entries_joined {V : Type} (m : list (string * V)) :
  Forall (fun kv => exists a b rest, kv.1 = join "|" (a :: b :: rest)) m ->
  entries m = m.
Proof.
  intros H. apply entries_insertion_order.
  eapply Forall_impl; [exact H|]. intros kv (a & b & rest & ->).
  apply arrayIndex_pipeFree, join_not_pipeFree.
Qed.
